(** * BPNeuralNetwork: the node and topology engine

    A shallow embedding of the Python sources
    [DoublyLinkedList.py], [Neurode.py], [FFNeurode.py], [BPNeurode.py],
    [FFBPNeurode.py] and [LayerList.py], and the properties of the
    specification that concern them.

    Python objects live in stores indexed by their identity; a method that
    mutates [self] becomes a function of the store.  Python exceptions are
    results of an error monad which keeps the store as it was when the
    exception left the method, so partial mutations stay visible. *)

From Stdlib Require Import ZArith.
From Stdlib Require Import Floats.PrimFloat.
From stdpp Require Import gmap list.

Set Warnings "-inexact-float".

(** ** Exceptions and the state-and-error monad *)

Module Py.

(** The exceptions the sources can raise.  [RecursionError] is what Python
    raises when the call stack is exhausted; the embedding raises it when
    the recursion budget of a propagation call or of a list walk runs
    out.  [Dangling] stands for a reference to an object that is not in
    the store: Python has no such thing, and the theorems below show the
    operations never produce it on well-formed stores. *)
Inductive exn : Set :=
| IndexError
| ValueError
| KeyError
| AttributeError
| RecursionError
| Dangling.

Inductive res (A : Type) : Type :=
| Ok (a : A)
| Raise (e : exn).
Arguments Ok {A} a.
Arguments Raise {A} e.

Definition M (S A : Type) : Type := S -> res A * S.

Definition ret {S A} (a : A) : M S A := fun s => (Ok a, s).
Definition raise {S A} (e : exn) : M S A := fun s => (Raise e, s).
Definition bind {S A B} (m : M S A) (k : A -> M S B) : M S B :=
  fun s => match m s with
           | (Ok a, s') => k a s'
           | (Raise e, s') => (Raise e, s')
           end.
Definition gets {S A} (f : S -> A) : M S A := fun s => (Ok (f s), s).
Definition modify {S} (f : S -> S) : M S unit := fun s => (Ok tt, f s).

(** [for x in xs: body(x)] *)
Fixpoint for_each {S A} (xs : list A) (body : A -> M S unit) : M S unit :=
  match xs with
  | [] => ret tt
  | x :: xs' => bind (body x) (fun _ => for_each xs' body)
  end.

(** Running a computation on one component of a larger state. *)
Definition lift {S T A} (proj : T -> S) (upd : S -> T -> T) (m : M S A)
  : M T A :=
  fun t => match m (proj t) with (r, s') => (r, upd s' t) end.

End Py.

Import Py.

Declare Scope py_scope.
Delimit Scope py_scope with py.
Notation "'let*' x ':=' m 'in' k" := (bind m (fun x => k))
  (at level 10, x name, m at level 99, k at level 200) : py_scope.
Notation "m '>>' k" := (bind m (fun _ => k))
  (at level 100, k at level 200, right associativity) : py_scope.
Open Scope py_scope.

(** Object identities: the position of the object in its store. *)
Abbreviation loc := nat (only parsing).

(** ** DoublyLinkedList.py *)

Module DLL.
Section DoublyLinkedList.
Context {A : Type} `{EqDecision A}.

(** [class DLLNode]: [data], [next], [prev]; a reference is [None] or the
    identity of a node. *)
Record DLLNode : Type := mkDLLNode {
  data : A;
  next : option loc;
  prev : option loc }.

(** [class DoublyLinkedList]: the nodes it has created, and [_head],
    [_tail], [_curr]. *)
Record DoublyLinkedList : Type := mkDLL {
  store : gmap loc DLLNode;
  _head : option loc;
  _tail : option loc;
  _curr : option loc }.

(** [DoublyLinkedList.__init__] *)
Definition empty : DoublyLinkedList :=
  {| store := ∅; _head := None; _tail := None; _curr := None |}.

Definition set_head (v : option loc) (l : DoublyLinkedList) :=
  {| store := store l; _head := v; _tail := _tail l; _curr := _curr l |}.
Definition set_tail (v : option loc) (l : DoublyLinkedList) :=
  {| store := store l; _head := _head l; _tail := v; _curr := _curr l |}.
Definition set_curr (v : option loc) (l : DoublyLinkedList) :=
  {| store := store l; _head := _head l; _tail := _tail l; _curr := v |}.
Definition set_store (h : gmap loc DLLNode) (l : DoublyLinkedList) :=
  {| store := h; _head := _head l; _tail := _tail l; _curr := _curr l |}.

Definition with_next (v : option loc) (n : DLLNode) : DLLNode :=
  {| data := data n; next := v; prev := prev n |}.
Definition with_prev (v : option loc) (n : DLLNode) : DLLNode :=
  {| data := data n; next := next n; prev := v |}.

Local Abbreviation T := (M DoublyLinkedList).

(** Reading the attributes of the node [p] refers to. *)
Definition deref (p : loc) : T DLLNode :=
  fun l => match store l !! p with
           | Some n => (Ok n, l)
           | None => (Raise Dangling, l)
           end.

(** [p.next = v] and [p.prev = v] *)
Definition assign_next (p : loc) (v : option loc) : T unit :=
  let* n := deref p in
  modify (fun l => set_store (<[p := with_next v n]> (store l)) l).
Definition assign_prev (p : loc) (v : option loc) : T unit :=
  let* n := deref p in
  modify (fun l => set_store (<[p := with_prev v n]> (store l)) l).

(** [DLLNode(data)]: a new object, whose identity no live object has. *)
Definition new_DLLNode (d : A) : T loc :=
  fun l => let p := fresh (dom (store l)) in
           (Ok p, set_store (<[p := mkDLLNode d None None]> (store l)) l).

Definition add_to_head (d : A) : T unit :=
  let* new_node := new_DLLNode d in
  let* h := gets _head in
  match h with
  | None =>
      modify (set_tail (Some new_node)) >>
      modify (set_head (Some new_node))
      (* [self._head = self._tail = new_node] *)
  | Some h =>
      assign_next new_node (Some h) >>
      assign_prev h (Some new_node) >>
      modify (set_head (Some new_node))
  end >>
  let* h' := gets _head in
  modify (set_curr h').

Definition add_after_current (d : A) : T unit :=
  let* c := gets _curr in
  match c with
  | None => raise IndexError
  | Some c =>
      let* new_node := new_DLLNode d in
      assign_prev new_node (Some c) >>
      let* cn := deref c in
      assign_next new_node (next cn) >>
      match next cn with
      | Some nx => assign_prev nx (Some new_node)
      | None => modify (set_tail (Some new_node))
      end >>
      assign_next c (Some new_node)
  end.

Definition remove_from_head : T A :=
  let* h := gets _head in
  match h with
  | None => raise IndexError
  | Some old_head =>
      let* hn := deref old_head in
      modify (set_head (next hn)) >>
      match next hn with
      | Some h' => assign_prev h' None
      | None => modify (set_tail None)
      end >>
      let* h' := gets _head in
      modify (set_curr h') >>
      ret (data hn)
  end.

Definition remove_after_current : T A :=
  let* c := gets _curr in
  match c with
  | None => raise IndexError
  | Some c =>
      let* cn := deref c in
      match next cn with
      | None => raise IndexError
      | Some to_remove =>
          let* rn := deref to_remove in
          assign_next c (next rn) >>
          match next rn with
          | Some nx => assign_prev nx (Some c)
          | None => modify (set_tail (Some c))
          end >>
          ret (data rn)
      end
  end.

Definition reset_to_head : T unit :=
  let* h := gets _head in modify (set_curr h).

Definition reset_to_tail : T unit :=
  let* t := gets _tail in modify (set_curr t).

Definition move_forward : T unit :=
  let* c := gets _curr in
  match c with
  | None => raise IndexError
  | Some c =>
      let* cn := deref c in
      match next cn with
      | None => raise IndexError
      | Some nx => modify (set_curr (Some nx))
      end
  end.

Definition move_backward : T unit :=
  let* c := gets _curr in
  match c with
  | None => raise IndexError
  | Some c =>
      let* cn := deref c in
      match prev cn with
      | None => raise IndexError
      | Some pv => modify (set_curr (Some pv))
      end
  end.

(** The [while current:] loop of [find].  [steps] bounds the number of
    nodes the walk may visit. *)
Fixpoint find_from (steps : nat) (current : option loc) (d : A) : T A :=
  match current with
  | None => raise IndexError
  | Some c =>
      match steps with
      | O => raise RecursionError
      | S steps' =>
          let* n := deref c in
          if decide (data n = d)
          then modify (set_curr (Some c)) >> ret d
          else find_from steps' (next n) d
      end
  end.

(** The walk visits a node of an acyclic chain once, so one step per
    object of the store is enough for it. *)
Definition find (d : A) : T A :=
  let* h := gets _head in
  let* steps := gets (fun l => S (size (store l))) in
  find_from steps h d.

(** The [while current:] loop of [remove].  [current.next] and
    [current.prev] are read once: the assignment to [current.prev.next]
    between the two reads of the source leaves both as they are. *)
Fixpoint remove_from (steps : nat) (current : option loc) (d : A) : T A :=
  match current with
  | None => raise IndexError
  | Some c =>
      match steps with
      | O => raise RecursionError
      | S steps' =>
          let* n := deref c in
          if decide (data n = d)
          then
            match prev n with
            | Some p => assign_next p (next n)
            | None => modify (set_head (next n))
            end >>
            match next n with
            | Some x => assign_prev x (prev n)
            | None => modify (set_tail (prev n))
            end >>
            let* cur := gets _curr in
            (if decide (cur = Some c)
             then let* h := gets _head in modify (set_curr h)
             else ret tt) >>
            ret d
          else remove_from steps' (next n) d
      end
  end.

Definition remove (d : A) : T A :=
  let* h := gets _head in
  let* steps := gets (fun l => S (size (store l))) in
  remove_from steps h d.

Definition curr_data : T A :=
  let* c := gets _curr in
  match c with
  | None => raise IndexError
  | Some c => let* cn := deref c in ret (data cn)
  end.

Definition is_empty : T bool :=
  let* h := gets _head in ret (bool_decide (h = None)).

End DoublyLinkedList.
Arguments DLLNode A : clear implicits.
Arguments DoublyLinkedList A : clear implicits.
End DLL.

(** ** Neurode.py *)

(** [MultiLinkNode.Side] *)
Inductive Side : Set := UPSTREAM | DOWNSTREAM.

Global Instance Side_eq_dec : EqDecision Side.
Proof. solve_decision. Defined.

(** A dictionary with the two keys [Side.UPSTREAM] and [Side.DOWNSTREAM]. *)
Record by_side (A : Type) : Type := BySide {
  at_upstream : A;
  at_downstream : A }.
Arguments BySide {A} _ _.
Arguments at_upstream {A} _.
Arguments at_downstream {A} _.

Definition item {A} (d : by_side A) (side : Side) : A :=
  match side with
  | UPSTREAM => at_upstream d
  | DOWNSTREAM => at_downstream d
  end.

Definition set_item {A} (side : Side) (a : A) (d : by_side A) : by_side A :=
  match side with
  | UPSTREAM => BySide a (at_downstream d)
  | DOWNSTREAM => BySide (at_upstream d) a
  end.

(** An [FFBPNeurode] object: the attributes of [MultiLinkNode], [Neurode]
    and [BPNeurode].  The bit masks are Python integers, the weights a
    dictionary keyed by the identity of the upstream node. *)
Record Neurode : Type := mkNeurode {
  _reporting_nodes : by_side Z;
  _reference_value : by_side Z;
  _neighbors : by_side (list loc);
  _value : float;
  _weights : gmap loc float;
  _delta : float }.

(** The state the three [__init__] methods leave. *)
Definition new_Neurode : Neurode :=
  {| _reporting_nodes := BySide 0%Z 0%Z;
     _reference_value := BySide 0%Z 0%Z;
     _neighbors := BySide [] [];
     _value := 0%float;
     _weights := ∅;
     _delta := 0%float |}.

Global Instance Neurode_inhabited : Inhabited Neurode := populate new_Neurode.

Definition with_reporting (side : Side) (v : Z) (n : Neurode) : Neurode :=
  {| _reporting_nodes := set_item side v (_reporting_nodes n);
     _reference_value := _reference_value n;
     _neighbors := _neighbors n;
     _value := _value n;
     _weights := _weights n;
     _delta := _delta n |}.
Definition with_reference (side : Side) (v : Z) (n : Neurode) : Neurode :=
  {| _reporting_nodes := _reporting_nodes n;
     _reference_value := set_item side v (_reference_value n);
     _neighbors := _neighbors n;
     _value := _value n;
     _weights := _weights n;
     _delta := _delta n |}.
Definition with_neighbors (side : Side) (v : list loc) (n : Neurode)
  : Neurode :=
  {| _reporting_nodes := _reporting_nodes n;
     _reference_value := _reference_value n;
     _neighbors := set_item side v (_neighbors n);
     _value := _value n;
     _weights := _weights n;
     _delta := _delta n |}.
Definition with_value (v : float) (n : Neurode) : Neurode :=
  {| _reporting_nodes := _reporting_nodes n;
     _reference_value := _reference_value n;
     _neighbors := _neighbors n;
     _value := v;
     _weights := _weights n;
     _delta := _delta n |}.
Definition with_weight (k : loc) (v : float) (n : Neurode) : Neurode :=
  {| _reporting_nodes := _reporting_nodes n;
     _reference_value := _reference_value n;
     _neighbors := _neighbors n;
     _value := _value n;
     _weights := <[k := v]> (_weights n);
     _delta := _delta n |}.
Definition with_delta (v : float) (n : Neurode) : Neurode :=
  {| _reporting_nodes := _reporting_nodes n;
     _reference_value := _reference_value n;
     _neighbors := _neighbors n;
     _value := _value n;
     _weights := _weights n;
     _delta := v |}.

(** One call [holder.adjust_weights(key, adjustment)]. *)
Record Adjustment : Type := mkAdjustment {
  adj_holder : loc;
  adj_key : loc;
  adj_amount : float }.

(** Everything the node classes share.  [objects] holds the neurodes by
    identity; an identity it does not list denotes an object in the state
    its constructor leaves, which is what the allocator hands out.
    [learning_rate_attr] is the class attribute [Neurode._learning_rate].
    [draws] counts the calls of [random.random()] so far.  [history] is not
    in the source: it records the calls of [adjust_weights] in order, so
    that the number of updates of a weight can be stated; nothing reads
    it. *)
Record World : Type := mkWorld {
  objects : gmap loc Neurode;
  learning_rate_attr : float;
  draws : nat;
  history : list Adjustment }.

Definition initial_World : World :=
  {| objects := ∅; learning_rate_attr := 0.05%float; draws := 0;
     history := [] |}.

Definition node (w : World) (n : loc) : Neurode := objects w !!! n.

Definition set_objects (o : gmap loc Neurode) (w : World) : World :=
  {| objects := o; learning_rate_attr := learning_rate_attr w;
     draws := draws w; history := history w |}.
Definition set_learning_rate_attr (v : float) (w : World) : World :=
  {| objects := objects w; learning_rate_attr := v;
     draws := draws w; history := history w |}.
Definition set_draws (v : nat) (w : World) : World :=
  {| objects := objects w; learning_rate_attr := learning_rate_attr w;
     draws := v; history := history w |}.
Definition set_history (v : list Adjustment) (w : World) : World :=
  {| objects := objects w; learning_rate_attr := learning_rate_attr w;
     draws := draws w; history := v |}.

(** Assigning attributes of the object [self]. *)
Definition update (self : loc) (f : Neurode -> Neurode) (w : World) : World :=
  set_objects (<[self := f (node w self)]> (objects w)) w.

(** [list.index]: the first position holding the object, if any. *)
Fixpoint index (l : list loc) (x : loc) : option nat :=
  match l with
  | [] => None
  | y :: l' => if decide (y = x) then Some O else S <$> index l' x
  end.

Section Neurodes.

(** What the sources import: [numpy.exp], the builtin [sum] over floats,
    and the sequence of values [random.random()] returns. *)
Variable np_exp : float -> float.
Variable py_sum : list float -> float.
Variable random_random : nat -> float.

Local Abbreviation T := (M World).

(** [FFBPNeurode()] *)
Definition new_FFBPNeurode : T loc :=
  fun w => let p := fresh (dom (objects w)) in
           (Ok p, set_objects (<[p := new_Neurode]> (objects w)) w).

(** [[neurode_type() for _ in range(n)]] *)
Fixpoint new_layer (n : nat) : T (list loc) :=
  match n with
  | O => ret []
  | S n' =>
      let* p := new_FFBPNeurode in
      let* ps := new_layer n' in
      ret (p :: ps)
  end.

(** [random.random()] *)
Definition random : T float :=
  fun w => (Ok (random_random (draws w)), set_draws (S (draws w)) w).

(** The [learning_rate] property and its setter. *)
Definition learning_rate (self : loc) : T float := gets learning_rate_attr.
Definition set_learning_rate (self : loc) (v : float) : T unit :=
  modify (set_learning_rate_attr v).

(** [Neurode._process_new_neighbor] *)
Definition _process_new_neighbor (self node_ : loc) (side : Side) : T unit :=
  if decide (side = UPSTREAM)
  then let* r := random in modify (update self (with_weight node_ r))
  else ret tt.

(** [MultiLinkNode.reset_neighbors] *)
Definition reset_neighbors (self : loc) (nodes : list loc) (side : Side)
  : T unit :=
  modify (update self (with_neighbors side nodes)) >>
  for_each nodes (fun node_ => _process_new_neighbor self node_ side) >>
  modify (update self
            (with_reference side (2 ^ Z.of_nat (length nodes) - 1)%Z)).

(** [Neurode._check_in] *)
Definition _check_in (self node_ : loc) (side : Side) : T bool :=
  let* nbrs := gets (fun w => item (_neighbors (node w self)) side) in
  match index nbrs node_ with
  | None => raise ValueError
  | Some node_index =>
      modify (fun w =>
        update self
          (with_reporting side
             (Z.lor (item (_reporting_nodes (node w self)) side)
                    (Z.shiftl 1 (Z.of_nat node_index)))) w) >>
      let* reporting :=
        gets (fun w => item (_reporting_nodes (node w self)) side) in
      let* reference :=
        gets (fun w => item (_reference_value (node w self)) side) in
      if decide (reporting = reference)
      then modify (update self (with_reporting side 0%Z)) >> ret true
      else ret false
  end.

(** [Neurode.get_weight] *)
Definition get_weight (w : World) (self node_ : loc) : float :=
  default 0%float (_weights (node w self) !! node_).

(** [Neurode.value] *)
Definition value (w : World) (self : loc) : float := _value (node w self).

(** ** FFNeurode.py *)

Definition _sigmoid (v : float) : float :=
  (1 / (1 + np_exp (- v)))%float.

Definition weighted_inputs (w : World) (self : loc) : list float :=
  map (fun node_ => (get_weight w self node_ * value w node_)%float)
      (item (_neighbors (node w self)) UPSTREAM).

Definition _calculate_value (self : loc) : T unit :=
  let* weighted_sum := gets (fun w => py_sum (weighted_inputs w self)) in
  modify (update self (with_value (_sigmoid weighted_sum))).

(** [for node in self._neighbors[DOWNSTREAM]: node.data_ready_upstream(self)],
    given what a call of [data_ready_upstream] does. *)
Definition fire_downstream_with (ready : loc -> loc -> T unit) (self : loc)
  : T unit :=
  let* nbrs := gets (fun w => item (_neighbors (node w self)) DOWNSTREAM) in
  for_each nbrs (fun node_ => ready node_ self).

(** [FFNeurode.data_ready_upstream]; [depth] is the number of nested calls
    the stack still has room for. *)
Fixpoint data_ready_upstream (depth : nat) (self node_ : loc) : T unit :=
  match depth with
  | O => raise RecursionError
  | S depth' =>
      let* complete := _check_in self node_ UPSTREAM in
      if complete
      then _calculate_value self >>
           fire_downstream_with (data_ready_upstream depth') self
      else ret tt
  end.

Definition _fire_downstream (depth : nat) (self : loc) : T unit :=
  fire_downstream_with (data_ready_upstream depth) self.

(** [FFNeurode.set_input] *)
Definition set_input (depth : nat) (self : loc) (input_value : float)
  : T unit :=
  modify (update self (with_value input_value)) >>
  fire_downstream_with (data_ready_upstream depth) self.

(** ** BPNeurode.py *)

Definition _sigmoid_derivative (v : float) : float := (v * (1 - v))%float.

(** The loop [weighted_sum += node.delta * node._weights[self]]. *)
Fixpoint delta_sum (w : World) (self : loc) (nodes : list loc) (acc : float)
  : res float :=
  match nodes with
  | [] => Ok acc
  | node_ :: nodes' =>
      match _weights (node w node_) !! self with
      | None => Raise KeyError
      | Some wt =>
          delta_sum w self nodes' (acc + _delta (node w node_) * wt)%float
      end
  end.

(** [BPNeurode._calculate_delta] *)
Definition _calculate_delta (self : loc) (target_value : option float)
  : T unit :=
  match target_value with
  | Some t =>
      modify (fun w =>
        update self
          (with_delta ((t - value w self)
                       * _sigmoid_derivative (value w self))%float) w)
  | None =>
      fun w =>
        match delta_sum w self (item (_neighbors (node w self)) DOWNSTREAM)
                0%float with
        | Raise e => (Raise e, w)
        | Ok weighted_sum =>
            (Ok tt,
             update self
               (with_delta (_sigmoid_derivative (value w self)
                            * weighted_sum)%float) w)
        end
  end.

(** [BPNeurode.delta] *)
Definition delta (w : World) (self : loc) : float := _delta (node w self).

(** [BPNeurode.adjust_weights]: [self._weights[node] += adjustment]. *)
Definition adjust_weights (self node_ : loc) (adjustment : float) : T unit :=
  fun w =>
    match _weights (node w self) !! node_ with
    | None => (Raise KeyError, w)
    | Some wt =>
        (Ok tt,
         set_history (history w ++ [mkAdjustment self node_ adjustment])
           (update self (with_weight node_ (wt + adjustment)%float) w))
    end.

(** [BPNeurode._update_weights] *)
Definition _update_weights (self : loc) : T unit :=
  let learning_rate := 0.05%float in
  let* nbrs := gets (fun w => item (_neighbors (node w self)) DOWNSTREAM) in
  for_each nbrs (fun node_ =>
    let* adjustment :=
      gets (fun w => (learning_rate * delta w node_ * value w self)%float) in
    adjust_weights node_ self adjustment).

(** [for node in self._neighbors[UPSTREAM]: node.data_ready_downstream(self)],
    given what a call of [data_ready_downstream] does. *)
Definition fire_upstream_with (ready : loc -> loc -> T unit) (self : loc)
  : T unit :=
  let* nbrs := gets (fun w => item (_neighbors (node w self)) UPSTREAM) in
  for_each nbrs (fun node_ => ready node_ self).

(** [BPNeurode.data_ready_downstream] *)
Fixpoint data_ready_downstream (depth : nat) (self node_ : loc) : T unit :=
  match depth with
  | O => raise RecursionError
  | S depth' =>
      let* complete := _check_in self node_ DOWNSTREAM in
      if complete
      then _calculate_delta self None >>
           fire_upstream_with (data_ready_downstream depth') self >>
           _update_weights self
      else ret tt
  end.

Definition _fire_upstream (depth : nat) (self : loc) : T unit :=
  fire_upstream_with (data_ready_downstream depth) self.

(** [BPNeurode.set_expected] *)
Definition set_expected (depth : nat) (self : loc) (target_value : float)
  : T unit :=
  _calculate_delta self (Some target_value) >>
  fire_upstream_with (data_ready_downstream depth) self.

End Neurodes.

(** ** LayerList.py *)

(** A [LayerList] object with the neurodes its layers refer to: the
    methods of the class change both. *)
Record LayerList : Type := mkLayerList {
  chain : DLL.DoublyLinkedList (list loc);
  world : World }.

Definition set_chain (c : DLL.DoublyLinkedList (list loc)) (l : LayerList) :=
  {| chain := c; world := world l |}.
Definition set_world (w : World) (l : LayerList) :=
  {| chain := chain l; world := w |}.

Definition on_chain {R} (m : M (DLL.DoublyLinkedList (list loc)) R)
  : M LayerList R := lift chain set_chain m.
Definition on_world {R} (m : M World R) : M LayerList R :=
  lift world set_world m.

Section Layers.

Variable random_random : nat -> float.

Local Abbreviation T := (M LayerList).

(** [LayerList._link_with_next].  [self._curr.data] and
    [self._curr.next.data] are read once: the loops assign neither, and a
    [None] among [self._curr] and [self._curr.next] raises before the first
    neurode is touched. *)
Definition _link_with_next : T unit :=
  let* c := gets (fun l => DLL._curr (chain l)) in
  match c with
  | None => raise AttributeError
  | Some c =>
      let* cn := on_chain (DLL.deref c) in
      match DLL.next cn with
      | None => raise AttributeError
      | Some nx =>
          let* nn := on_chain (DLL.deref nx) in
          for_each (DLL.data cn) (fun node_ =>
            on_world (reset_neighbors random_random node_ (DLL.data nn)
                        DOWNSTREAM)) >>
          for_each (DLL.data nn) (fun node_ =>
            on_world (reset_neighbors random_random node_ (DLL.data cn)
                        UPSTREAM))
      end
  end.

(** [LayerList.__init__], on the object [super().__init__()] starts from. *)
Definition LayerList_init (inputs outputs : Z) : T unit :=
  modify (set_chain DLL.empty) >>
  if decide (inputs < 1 \/ outputs < 1)%Z
  then raise ValueError
  else
    let* input_layer := on_world (new_layer (Z.to_nat inputs)) in
    let* output_layer := on_world (new_layer (Z.to_nat outputs)) in
    on_chain (DLL.add_to_head input_layer) >>
    on_chain (DLL.add_after_current output_layer) >>
    _link_with_next.

(** [LayerList(inputs, outputs, FFBPNeurode)] in the world [w]. *)
Definition new_LayerList (w : World) (inputs outputs : Z)
  : res unit * LayerList :=
  LayerList_init inputs outputs {| chain := DLL.empty; world := w |}.

(** [LayerList.add_layer] *)
Definition add_layer (num_nodes : Z) : T unit :=
  let* c := gets (fun l => DLL._curr (chain l)) in
  let* t := gets (fun l => DLL._tail (chain l)) in
  if decide (c = t) then raise IndexError
  else if decide (num_nodes < 0)%Z then raise ValueError
  else
    let* hidden_layer := on_world (new_layer (Z.to_nat num_nodes)) in
    on_chain (DLL.add_after_current hidden_layer) >>
    _link_with_next >>
    on_chain DLL.move_forward >>
    _link_with_next >>
    on_chain DLL.move_backward.

(** [LayerList.remove_layer].  The second test of the [or] reads
    [self._curr.next], which raises [AttributeError] when [self._curr] is
    [None]. *)
Definition remove_layer : T unit :=
  let* c := gets (fun l => DLL._curr (chain l)) in
  let* t := gets (fun l => DLL._tail (chain l)) in
  let* at_end :=
    if decide (c = t) then ret true
    else match c with
         | None => raise AttributeError
         | Some c =>
             let* cn := on_chain (DLL.deref c) in
             ret (bool_decide (DLL.next cn = t))
         end in
  if at_end : bool then raise IndexError
  else
    on_chain DLL.remove_after_current >>
    _link_with_next.

(** [LayerList.input_nodes] and [LayerList.output_nodes] *)
Definition input_nodes : T (list loc) :=
  let* h := gets (fun l => DLL._head (chain l)) in
  match h with
  | None => raise AttributeError
  | Some h => let* hn := on_chain (DLL.deref h) in ret (DLL.data hn)
  end.

Definition output_nodes : T (list loc) :=
  let* t := gets (fun l => DLL._tail (chain l)) in
  match t with
  | None => raise AttributeError
  | Some t => let* tn := on_chain (DLL.deref t) in ret (DLL.data tn)
  end.

End Layers.

(** ** The training surface *)

Section Driver.

Variable np_exp : float -> float.
Variable py_sum : list float -> float.

(** One [set_input] call per listed node, in the order of the list. *)
Definition present_inputs (depth : nat) (calls : list (loc * float))
  : M World unit :=
  for_each calls (fun c => set_input np_exp py_sum depth c.1 c.2).

(** One [set_expected] call per listed node, in the order of the list. *)
Definition present_expected (depth : nat) (calls : list (loc * float))
  : M World unit :=
  for_each calls (fun c => set_expected depth c.1 c.2).

(** Modelled from the spec: the driver's [feed_forward(sample)], which the
    sources under study do not contain: "maps to one [set_input] call per
    input node, in input order". *)
Definition feed_forward (depth : nat) (sample : list float)
  : M LayerList unit :=
  let* ins := input_nodes in
  on_world (present_inputs depth (zip ins sample)).

(** Modelled from the spec: the driver's [back_propagate(expected)], which
    the sources under study do not contain: "maps to one [set_expected] call
    per output node, in output order". *)
Definition back_propagate (depth : nat) (expected : list float)
  : M LayerList unit :=
  let* outs := output_nodes in
  on_world (present_expected depth (zip outs expected)).

End Driver.


(** * Invariants and abstractions *)

(** ** The chain of a doubly linked list *)

Section Chains.
Context {A : Type} `{EqDecision A}.

(** The cells of a list, head first: the identity of each node and the
    data it holds. *)
Definition first_or (cells : list (loc * A)) (after : option loc)
  : option loc :=
  match cells with
  | [] => after
  | c :: _ => Some c.1
  end.

Definition last_or (cells : list (loc * A)) (before : option loc)
  : option loc :=
  match last cells with
  | None => before
  | Some c => Some c.1
  end.

(** [linked h before cells after]: in the store [h] the nodes of [cells]
    are chained in order by [next] and [prev], the first pointing back to
    [before] and the last pointing on to [after]. *)
Fixpoint linked (h : gmap loc (DLL.DLLNode A)) (before : option loc)
  (cells : list (loc * A)) (after : option loc) : Prop :=
  match cells with
  | [] => True
  | c :: rest =>
      h !! c.1 = Some (DLL.mkDLLNode c.2 (first_or rest after) before) /\
      linked h (Some c.1) rest after
  end.

(** The doubly linked invariant of the specification: the chain from
    [_head] to [_tail] is [cells], [head.prev] and [tail.next] are [None],
    and the cursor, when not [None], is a node of the chain. *)
Definition is_list (l : DLL.DoublyLinkedList A) (cells : list (loc * A))
  : Prop :=
  NoDup cells.*1 /\
  linked (DLL.store l) None cells None /\
  DLL._head l = first_or cells None /\
  DLL._tail l = last_or cells None /\
  (forall c, DLL._curr l = Some c -> c ∈ cells.*1).

(** The first cell holding [d], and the cells without it. *)
Fixpoint first_holding (d : A) (cells : list (loc * A)) : option loc :=
  match cells with
  | [] => None
  | c :: rest => if decide (c.2 = d) then Some c.1 else first_holding d rest
  end.

Fixpoint without_first (d : A) (cells : list (loc * A)) : list (loc * A) :=
  match cells with
  | [] => []
  | c :: rest => if decide (c.2 = d) then rest else c :: without_first d rest
  end.

(** The number of cells holding [d]. *)
Definition occurrences (d : A) (cells : list (loc * A)) : nat :=
  length (filter (fun c => c.2 = d) cells).

End Chains.

(** ** What a rewiring call leaves in a neurode *)

(** The weights after [_process_new_neighbor] has run for [nodes] on the
    UPSTREAM side, [start] draws having been made before. *)
Fixpoint seeded (random_random : nat -> float) (nodes : list loc)
  (start : nat) (m : gmap loc float) : gmap loc float :=
  match nodes with
  | [] => m
  | n :: nodes' =>
      seeded random_random nodes' (S start) (<[n := random_random start]> m)
  end.

Definition with_weights (m : gmap loc float) (n : Neurode) : Neurode :=
  {| _reporting_nodes := _reporting_nodes n;
     _reference_value := _reference_value n;
     _neighbors := _neighbors n;
     _value := _value n;
     _weights := m;
     _delta := _delta n |}.

(** The neurode after [reset_neighbors(nodes, side)]. *)
Definition relinked (random_random : nat -> float) (side : Side)
  (nodes : list loc) (start : nat) (n : Neurode) : Neurode :=
  with_reference side (2 ^ Z.of_nat (length nodes) - 1)%Z
    (with_weights
       (if decide (side = UPSTREAM)
        then seeded random_random nodes start (_weights n)
        else _weights n)
       (with_neighbors side nodes n)).

(** The number of [random.random()] calls of one [reset_neighbors]. *)
Definition draws_of (side : Side) (nodes : list loc) : nat :=
  if decide (side = UPSTREAM) then length nodes else 0.

(** What one or more calls [reset_neighbors(nodes, side)] on a neurode
    leave of its state [old] in [new]: the neighbors and the reference value
    of [side] are replaced; on the UPSTREAM side every node of [nodes] has
    a weight that [random.random()] returned at its call number [lo] or
    later, and the other weights are kept; everything else is kept. *)
Definition reset_effect (random_random : nat -> float) (lo : nat)
  (side : Side) (nodes : list loc) (old new : Neurode) : Prop :=
  item (_neighbors new) side = nodes /\
  item (_reference_value new) side
    = (2 ^ Z.of_nat (length nodes) - 1)%Z /\
  (forall s, s <> side ->
     item (_neighbors new) s = item (_neighbors old) s /\
     item (_reference_value new) s = item (_reference_value old) s) /\
  _reporting_nodes new = _reporting_nodes old /\
  _value new = _value old /\
  _delta new = _delta old /\
  (if decide (side = UPSTREAM)
   then (forall n, n ∈ nodes ->
           exists j, lo <= j /\
                     _weights new !! n = Some (random_random j)) /\
        (forall n, n ∉ nodes -> _weights new !! n = _weights old !! n)
   else _weights new = _weights old).

(** What [_link_with_next] leaves of the world [w] in [w'], for the
    layer [A] of the cursor and the layer [B] after it. *)
Definition link_effect (random_random : nat -> float) (A B : list loc)
  (w w' : World) : Prop :=
  (forall a, a ∈ A ->
     item (_neighbors (node w' a)) DOWNSTREAM = B /\
     item (_reference_value (node w' a)) DOWNSTREAM
       = (2 ^ Z.of_nat (length B) - 1)%Z) /\
  (forall b, b ∈ B ->
     item (_neighbors (node w' b)) UPSTREAM = A /\
     item (_reference_value (node w' b)) UPSTREAM
       = (2 ^ Z.of_nat (length A) - 1)%Z /\
     forall a, a ∈ A ->
       exists j, draws w <= j /\
                 _weights (node w' b) !! a = Some (random_random j)) /\
  (forall x, x ∉ A ->
     item (_neighbors (node w' x)) DOWNSTREAM
       = item (_neighbors (node w x)) DOWNSTREAM /\
     item (_reference_value (node w' x)) DOWNSTREAM
       = item (_reference_value (node w x)) DOWNSTREAM) /\
  (forall x, x ∉ B ->
     item (_neighbors (node w' x)) UPSTREAM
       = item (_neighbors (node w x)) UPSTREAM /\
     item (_reference_value (node w' x)) UPSTREAM
       = item (_reference_value (node w x)) UPSTREAM /\
     _weights (node w' x) = _weights (node w x)) /\
  (forall x,
     _reporting_nodes (node w' x) = _reporting_nodes (node w x) /\
     _value (node w' x) = _value (node w x) /\
     _delta (node w' x) = _delta (node w x)) /\
  draws w <= draws w' /\
  learning_rate_attr w' = learning_rate_attr w /\
  history w' = history w.

(** A float in the interval [0, 1). *)
Definition unit_interval (x : float) : Prop :=
  PrimFloat.leb 0 x = true /\ PrimFloat.ltb x 1 = true.

(** ** Wired networks *)

(** The reporting mask in which the neighbors at the positions [ps] have
    checked in. *)
Fixpoint bits (ps : list nat) : Z :=
  match ps with
  | [] => 0%Z
  | p :: ps' => Z.lor (bits ps') (Z.shiftl 1 (Z.of_nat p))
  end.

(** The positions below [k], the last first. *)
Fixpoint upto (k : nat) : list nat :=
  match k with
  | O => []
  | S k' => k' :: upto k'
  end.

(** The positions [ps] are all the positions of a list of [k] neighbors. *)
Definition all_reported (ps : list nat) (k : nat) : Prop :=
  forall p, p ∈ ps <-> p < k.

(** Every node of [A] has the nodes of [B] as its DOWNSTREAM neighbors
    and every node of [B] has the nodes of [A] as its UPSTREAM neighbors,
    with the reference values of [reset_neighbors]. *)
Definition layer_pair_wired (w : World) (A B : list loc) : Prop :=
  (forall a, a ∈ A ->
     item (_neighbors (node w a)) DOWNSTREAM = B /\
     item (_reference_value (node w a)) DOWNSTREAM
       = (2 ^ Z.of_nat (length B) - 1)%Z) /\
  (forall b, b ∈ B ->
     item (_neighbors (node w b)) UPSTREAM = A /\
     item (_reference_value (node w b)) UPSTREAM
       = (2 ^ Z.of_nat (length A) - 1)%Z).

(** The layers from [A] on are wired pairwise, and the last layer has no
    DOWNSTREAM neighbors. *)
Fixpoint wired_from (w : World) (A : list loc) (rest : list (list loc))
  : Prop :=
  match rest with
  | [] => forall a, a ∈ A -> item (_neighbors (node w a)) DOWNSTREAM = []
  | B :: rest' => layer_pair_wired w A B /\ wired_from w B rest'
  end.

(** The topology invariant of the specification on the layers of a
    network, input layer first: distinct neurodes, adjacent layers wired
    to each other, no UPSTREAM neighbors at the input layer and no
    DOWNSTREAM neighbors at the output layer. *)
Definition wired (w : World) (layers : list (list loc)) : Prop :=
  NoDup (concat layers) /\
  match layers with
  | [] => False
  | A :: rest =>
      (forall a, a ∈ A -> item (_neighbors (node w a)) UPSTREAM = []) /\
      wired_from w A rest
  end.

(** Between presentations: no neurode of the network has a check-in
    pending. *)
Definition quiescent (w : World) (layers : list (list loc)) : Prop :=
  forall n, n ∈ concat layers -> _reporting_nodes (node w n) = BySide 0%Z 0%Z.

(** Every edge of the network has a weight. *)
Fixpoint weighted_from (w : World) (A : list loc) (rest : list (list loc))
  : Prop :=
  match rest with
  | [] => True
  | B :: rest' =>
      (forall a b, a ∈ A -> b ∈ B -> is_Some (_weights (node w b) !! a)) /\
      weighted_from w B rest'
  end.

Definition weighted (w : World) (layers : list (list loc)) : Prop :=
  match layers with
  | [] => True
  | A :: rest => weighted_from w A rest
  end.

(** The attributes of the world that no propagation assigns. *)
Definition same_globals (w w' : World) : Prop :=
  learning_rate_attr w' = learning_rate_attr w /\
  draws w' = draws w.

(** ** Forward propagation *)

(** A forward pass assigns nothing but values and UPSTREAM reporting
    masks. *)
Definition forward_frame (w w' : World) : Prop :=
  (forall n, exists v r,
     node w' n = with_value v (with_reporting UPSTREAM r (node w n))) /\
  same_globals w w' /\
  history w' = history w.

Section ForwardValues.
Variable np_exp : float -> float.
Variable py_sum : list float -> float.

(** The value [_calculate_value] gives a neurode in the world [w]. *)
Definition activation (w : World) (self : loc) : float :=
  _sigmoid np_exp (py_sum (weighted_inputs w self)).

(** The values of the layers after [A] in [w] are those a forward pass
    from the values of [A] computes: every node holds the activation of
    the values of the layer before it.  Nothing is propagated past an
    empty layer: the nodes behind it keep the values they have in [w0]. *)
Fixpoint forward_values (w0 w : World) (A : list loc)
  (rest : list (list loc)) : Prop :=
  match rest with
  | [] => True
  | B :: rest' =>
      match A with
      | [] => forall n, n ∈ concat rest -> _value (node w n) = _value (node w0 n)
      | _ :: _ =>
          (forall b, b ∈ B -> _value (node w b) = activation w b) /\
          forward_values w0 w B rest'
      end
  end.

End ForwardValues.

(** ** Backward propagation *)

(** A backward pass assigns nothing but deltas, DOWNSTREAM reporting masks
    and weights, and it extends the history. *)
Definition backward_frame (w w' : World) : Prop :=
  (forall n,
     _neighbors (node w' n) = _neighbors (node w n) /\
     _reference_value (node w' n) = _reference_value (node w n) /\
     _value (node w' n) = _value (node w n) /\
     item (_reporting_nodes (node w' n)) UPSTREAM
       = item (_reporting_nodes (node w n)) UPSTREAM) /\
  same_globals w w'.

(** The adjustment [_update_weights] of the node [i] computes for its
    downstream neighbor [j]. *)
Definition adjustment (w : World) (j i : loc) : float :=
  (0.05 * delta w j * value w i)%float.

(** The delta [_calculate_delta()] gives a hidden node: the deltas of its
    downstream neighbors are read in [wd] and the weights they hold for the
    node in [ww]. *)
Definition hidden_delta (wd ww : World) (self : loc) : float :=
  (_sigmoid_derivative (value ww self)
   * foldl (fun acc k => acc + delta wd k * get_weight ww k self) 0
       (item (_neighbors (node ww self)) DOWNSTREAM))%float.

(** The delta [_calculate_delta(target)] gives an output node. *)
Definition output_delta (w : World) (self : loc) (target : float) : float :=
  ((target - value w self) * _sigmoid_derivative (value w self))%float.

(** The events of the history about the weight [holder] holds for
    [key]. *)
Definition events_of (holder key : loc) (evs : list Adjustment)
  : list Adjustment :=
  filter (fun e => adj_holder e = holder /\ adj_key e = key) evs.

(** The layers a backward pass reaches, going upstream from the layer [H]
    through the layers [before] (the nearest first): it stops at an empty
    layer. *)
Fixpoint bp_node (before : list (list loc)) (H : list loc) (n : loc)
  : bool :=
  match H with
  | [] => false
  | _ :: _ =>
      bool_decide (n ∈ H) ||
      match before with
      | [] => false
      | G :: before' => bp_node before' G n
      end
  end.

(** The edges whose weight a backward pass updates: [j] holds the weight
    for its upstream neighbor [i], where [K] is the layer downstream of
    [H]. *)
Fixpoint bp_edge (before : list (list loc)) (K H : list loc) (j i : loc)
  : bool :=
  match H with
  | [] => false
  | _ :: _ =>
      (bool_decide (j ∈ K) && bool_decide (i ∈ H)) ||
      match before with
      | [] => false
      | G :: before' => bp_edge before' H G j i
      end
  end.

(** The wiring seen from the output side: [H] and the layers [before] it,
    the nearest first; the farthest layer has no UPSTREAM neighbors. *)
Fixpoint wired_back (w : World) (H : list loc) (before : list (list loc))
  : Prop :=
  match before with
  | [] => forall h, h ∈ H -> item (_neighbors (node w h)) UPSTREAM = []
  | G :: before' => layer_pair_wired w G H /\ wired_back w G before'
  end.

Fixpoint weighted_back (w : World) (H : list loc) (before : list (list loc))
  : Prop :=
  match before with
  | [] => True
  | G :: before' =>
      (forall g h, g ∈ G -> h ∈ H -> is_Some (_weights (node w h) !! g)) /\
      weighted_back w G before'
  end.

(** ** Examples *)

(** The list [8, 7], built by two calls of [add_to_head]. *)
Definition dll_87 : DLL.DoublyLinkedList nat :=
  (DLL.add_to_head 8 (DLL.add_to_head 7 DLL.empty).2).2.

(** The list [7, 7]. *)
Definition dll_77 : DLL.DoublyLinkedList nat :=
  (DLL.add_to_head 7 (DLL.add_to_head 7 DLL.empty).2).2.

(** Stand-ins for the imported functions, to run the model: a random
    source that always returns 0.5, the left-to-right sum, and a function
    in the place of [numpy.exp]. *)
Definition rnd_half (k : nat) : float := 0.5%float.
Definition sum_left (l : list float) : float := foldl PrimFloat.add 0%float l.
Definition exp_quad (x : float) : float := (1 + x + x * x)%float.

(** [LayerList(2, 1, FFBPNeurode)] in the initial world: input neurodes 0
    and 1, output neurode 2. *)
Definition net_2_1 : LayerList :=
  (new_LayerList rnd_half initial_World 2 1).2.

(** The same after [add_layer(2)]: hidden neurodes 3 and 4. *)
Definition net_2_2_1 : LayerList := (add_layer rnd_half 2 net_2_1).2.

(** [LayerList(1, 1, FFBPNeurode)] in the initial world: input neurode 0,
    output neurode 1. *)
Definition net_1_1 : LayerList :=
  (new_LayerList rnd_half initial_World 1 1).2.

(** The same after [add_layer(1)], [move_forward()] and [add_layer(0)]:
    the layers are [0], [2], the empty layer and [1]. *)
Definition net_gap : LayerList :=
  (add_layer rnd_half 0
     (on_chain DLL.move_forward (add_layer rnd_half 1 net_1_1).2).2).2.

(** ** The remaining method of [DoublyLinkedList], and its calls *)

Section ListMethods.
Context {A : Type} `{EqDecision A}.

(** The [while self._curr:] loop of [print_list].  The data printed so far
    is [out]; [steps] bounds the number of nodes the walk may visit. *)
Fixpoint print_loop (steps : nat) (out : list A)
  : M (DLL.DoublyLinkedList A) (list A) :=
  let* c := gets DLL._curr in
  match c with
  | None => ret out
  | Some c =>
      match steps with
      | O => raise RecursionError
      | S steps' =>
          let* n := DLL.deref c in
          modify (DLL.set_curr (DLL.next n)) >>
          print_loop steps' (out ++ [DLL.data n])
      end
  end.

(** [DoublyLinkedList.print_list]: the result is the data given to
    [print], in the order of the calls. *)
Definition print_list : M (DLL.DoublyLinkedList A) (list A) :=
  let* curr_temp := gets DLL._curr in
  DLL.reset_to_head >>
  let* steps := gets (fun l => S (size (DLL.store l))) in
  let* out := print_loop steps [] in
  modify (DLL.set_curr curr_temp) >>
  ret out.

(** [n] calls of [remove_from_head], with the data they return. *)
Fixpoint pops (n : nat) : M (DLL.DoublyLinkedList A) (list A) :=
  match n with
  | O => ret []
  | S n' =>
      let* d := DLL.remove_from_head in
      let* ds := pops n' in
      ret (d :: ds)
  end.

(** A call of a public method of the class. *)
Inductive method : Type :=
| Add_to_head (d : A)
| Add_after_current (d : A)
| Remove_from_head
| Remove_after_current
| Reset_to_head
| Reset_to_tail
| Move_forward
| Move_backward
| Find (d : A)
| Remove (d : A)
| Curr_data
| Is_empty
| Print_list.

(** What a call leaves: the exception it raised, if any, and the list. *)
Definition outcome (m : method) (l : DLL.DoublyLinkedList A)
  : option exn * DLL.DoublyLinkedList A :=
  let forget {R} (r : res R * DLL.DoublyLinkedList A) :=
    (match r.1 with Ok _ => None | Raise e => Some e end, r.2) in
  match m with
  | Add_to_head d => forget (DLL.add_to_head d l)
  | Add_after_current d => forget (DLL.add_after_current d l)
  | Remove_from_head => forget (DLL.remove_from_head l)
  | Remove_after_current => forget (DLL.remove_after_current l)
  | Reset_to_head => forget (DLL.reset_to_head l)
  | Reset_to_tail => forget (DLL.reset_to_tail l)
  | Move_forward => forget (DLL.move_forward l)
  | Move_backward => forget (DLL.move_backward l)
  | Find d => forget (DLL.find d l)
  | Remove d => forget (DLL.remove d l)
  | Curr_data => forget (DLL.curr_data l)
  | Is_empty => forget (DLL.is_empty l)
  | Print_list => forget (print_list l)
  end.

(** The list after the calls [ms], made in order on a new list; a call
    that raises leaves the list as it is at the [raise]. *)
Definition after_calls (ms : list method) : DLL.DoublyLinkedList A :=
  foldl (fun l m => (outcome m l).2) DLL.empty ms.

End ListMethods.

(** ** Topologies *)

(** The layers [pre], in order, are wired pairwise and the last of them is
    wired to the layer [A] that follows them. *)
Fixpoint wired_pre (w : World) (pre : list (list loc)) (A : list loc)
  : Prop :=
  match pre with
  | [] => True
  | X :: pre' => layer_pair_wired w X (hd A pre') /\ wired_pre w pre' A
  end.

(** The same for the weights. *)
Fixpoint weighted_pre (w : World) (pre : list (list loc)) (A : list loc)
  : Prop :=
  match pre with
  | [] => True
  | X :: pre' =>
      (forall a b, a ∈ X -> b ∈ hd A pre' ->
         is_Some (_weights (node w b) !! a)) /\
      weighted_pre w pre' A
  end.

(** Every object of the store [w] is an object of the store [w']. *)
Definition store_le (w w' : World) : Prop :=
  dom (objects w) ⊆ dom (objects w').

Definition stores_le (L L' : LayerList) : Prop :=
  store_le (world L) (world L').

(** A [LayerList] between presentations: its list is well formed with the
    cursor on a layer, the neurodes of its layers are live objects, wired
    layer to layer, every edge has a weight and no check-in is pending. *)
Definition network (L : LayerList) (cells : list (loc * list loc)) : Prop :=
  is_list (chain L) cells /\
  DLL._curr (chain L) <> None /\
  wired (world L) cells.*2 /\
  quiescent (world L) cells.*2 /\
  weighted (world L) cells.*2 /\
  (forall n, n ∈ concat cells.*2 -> n ∈ dom (objects (world L))).

(** The calls that edit a topology: [add_layer], [remove_layer] and the
    cursor moves [LayerList] inherits. *)
Inductive edit : Type :=
| AddLayer (num_nodes : Z)
| RemoveLayer
| MoveForward
| MoveBackward
| ResetToHead
| ResetToTail.

Definition apply_edit (random_random : nat -> float) (e : edit)
  : M LayerList unit :=
  match e with
  | AddLayer num_nodes => add_layer random_random num_nodes
  | RemoveLayer => remove_layer random_random
  | MoveForward => on_chain DLL.move_forward
  | MoveBackward => on_chain DLL.move_backward
  | ResetToHead => on_chain DLL.reset_to_head
  | ResetToTail => on_chain DLL.reset_to_tail
  end.

(** The topology after the calls [es], made in order; a call that raises
    leaves the topology as it is at the [raise]. *)
Definition after_edits (random_random : nat -> float) (L : LayerList)
  (es : list edit) : LayerList :=
  foldl (fun L e => (apply_edit random_random e L).2) L es.

(** ** Presentations *)

Section Presentations.

Variable np_exp : float -> float.
Variable py_sum : list float -> float.

(** One presentation: a [set_input] call per pair of [sample.1], then a
    [set_expected] call per pair of [sample.2], in the order of the
    lists. *)
Definition present (depth : nat)
  (sample : list (loc * float) * list (loc * float)) : M World unit :=
  present_inputs np_exp py_sum depth sample.1 >>
  present_expected depth sample.2.

(** Presentations made one after the other; the first call that raises
    ends the sequence. *)
Definition presentations (depth : nat)
  (samples : list (list (loc * float) * list (loc * float)))
  : M World unit :=
  for_each samples (present depth).

End Presentations.

(** [LayerList(1, 2, FFBPNeurode)] in the initial world: input neurode 0,
    output neurodes 1 and 2. *)
Definition net_1_2 : LayerList :=
  (new_LayerList rnd_half initial_World 1 2).2.

(** The world of [net_2_1] after [set_input(5.0)] on the input neurode 0
    alone: the output neurode 2 has the check-in of 0 pending. *)
Definition net_2_1_pending : World :=
  (set_input exp_quad sum_left 1 0 5%float (world net_2_1)).2.

(** * Properties *)

(** ** The monad *)

Lemma bind_ok {S A B} (m : M S A) (k : A -> M S B) s a s' :
  m s = (Ok a, s') -> bind m k s = k a s'.
Proof. intros H. unfold bind. now rewrite H. Qed.

Lemma bind_raise {S A B} (m : M S A) (k : A -> M S B) s e s' :
  m s = (Raise e, s') -> bind m k s = (Raise e, s').
Proof. intros H. unfold bind. now rewrite H. Qed.

Lemma for_each_app {S A} (xs ys : list A) (body : A -> M S unit) s s' :
  for_each xs body s = (Ok tt, s') ->
  for_each (xs ++ ys) body s = for_each ys body s'.
Proof.
  revert s. induction xs as [|x xs IH]; intros s H; simpl in *.
  - unfold ret in H. congruence.
  - unfold bind in *. destruct (body x s) as [[[]|e] s1]; [|discriminate].
    now apply IH.
Qed.

Lemma bind_modify {S B} (f : S -> S) (k : unit -> M S B) s :
  bind (modify f) k s = k tt (f s).
Proof. reflexivity. Qed.

Lemma bind_gets {S A B} (f : S -> A) (k : A -> M S B) s :
  bind (gets f) k s = k (f s) s.
Proof. reflexivity. Qed.

Lemma bind_ret {S A B} (a : A) (k : A -> M S B) s :
  bind (ret a) k s = k a s.
Proof. reflexivity. Qed.

Lemma bind_assoc {S A B C} (m : M S A) (k1 : A -> M S B) (k2 : B -> M S C) s :
  bind (bind m k1) k2 s = bind m (fun a => bind (k1 a) k2) s.
Proof. unfold bind. destruct (m s) as [[a|e] s']; reflexivity. Qed.

Lemma for_each_one {S A} (x : A) (body : A -> M S unit) s :
  for_each [x] body s = body x s.
Proof.
  simpl. unfold bind. destruct (body x s) as [[[]|e] s']; reflexivity.
Qed.

Lemma for_each_snoc {S A} (xs : list A) (x : A) (body : A -> M S unit) s s' :
  for_each xs body s = (Ok tt, s') ->
  for_each (xs ++ [x]) body s = body x s'.
Proof.
  intros H. rewrite (for_each_app _ _ _ _ _ H). apply for_each_one.
Qed.

(** Runs the pure steps at the head of a computation. *)
Ltac mnorm :=
  repeat first
    [ rewrite bind_assoc | rewrite bind_modify | rewrite bind_gets
    | rewrite bind_ret ].

(** ** DoublyLinkedList *)

Section ChainFacts.
Context {A : Type} `{EqDecision A}.
Implicit Types (h : gmap loc (DLL.DLLNode A)) (cells : list (loc * A)).

Lemma first_or_app cells1 cells2 after :
  first_or (cells1 ++ cells2) after = first_or cells1 (first_or cells2 after).
Proof. now destruct cells1. Qed.

Lemma last_or_app cells1 cells2 before :
  last_or (cells1 ++ cells2) before = last_or cells2 (last_or cells1 before).
Proof.
  unfold last_or. rewrite last_app. now destruct (last cells2).
Qed.

Lemma last_or_cons c cells before :
  last_or (c :: cells) before = last_or cells (Some c.1).
Proof. apply (last_or_app [c] cells). Qed.

Lemma linked_app h before cells1 cells2 after :
  linked h before (cells1 ++ cells2) after <->
  linked h before cells1 (first_or cells2 after) /\
  linked h (last_or cells1 before) cells2 after.
Proof.
  revert before. induction cells1 as [|c cells1 IH]; intros before; simpl.
  - unfold last_or; simpl. tauto.
  - rewrite IH, first_or_app, last_or_cons. tauto.
Qed.

Lemma linked_frame h before cells after p n :
  p ∉ cells.*1 ->
  linked h before cells after ->
  linked (<[p := n]> h) before cells after.
Proof.
  revert before. induction cells as [|c cells IH]; intros before Hp; simpl.
  - trivial.
  - rewrite fmap_cons, not_elem_of_cons in Hp. destruct Hp as [Hne Hp].
    intros [Hc Hrest]. split.
    + rewrite lookup_insert_ne by done. exact Hc.
    + now apply IH.
Qed.

Lemma linked_lookup h before cells after p d :
  linked h before cells after -> (p, d) ∈ cells ->
  exists n, h !! p = Some n /\ DLL.data n = d.
Proof.
  revert before. induction cells as [|c cells IH]; intros before Hl Hin.
  - inversion Hin.
  - destruct Hl as [Hc Hrest]. apply elem_of_cons in Hin as [Heq|Hin].
    + subst c. eexists; split; [exact Hc|reflexivity].
    + eapply IH; eauto.
Qed.

Lemma linked_dom h before cells after :
  linked h before cells after -> forall p, p ∈ cells.*1 -> p ∈ dom h.
Proof.
  intros Hl p Hp. apply list_elem_of_fmap in Hp as [[q d] [-> Hin]].
  destruct (linked_lookup _ _ _ _ _ _ Hl Hin) as [n [Hn _]].
  apply elem_of_dom. eauto.
Qed.

Lemma linked_length h before cells after :
  NoDup cells.*1 -> linked h before cells after -> length cells <= size h.
Proof.
  intros Hnd Hl.
  rewrite <- (length_fmap fst cells), <- size_dom.
  change (size (dom h)) with (length (elements (dom h))).
  apply submseteq_length, NoDup_submseteq; [exact Hnd|].
  intros p Hp. apply elem_of_elements. eapply linked_dom; eauto.
Qed.

Lemma first_holding_split d cells p :
  first_holding d cells = Some p ->
  exists pre post,
    cells = pre ++ (p, d) :: post /\ (d ∉ pre.*2) /\
    without_first d cells = pre ++ post.
Proof.
  induction cells as [|[q e] cells IH]; simpl; [discriminate|].
  destruct (decide (e = d)) as [->|Hne].
  - intros [= ->]. exists [], cells. repeat split. apply not_elem_of_nil.
  - intros Hf. destruct (IH Hf) as (pre & post & -> & Hpre & Hw).
    exists ((q, e) :: pre), post. repeat split.
    + rewrite fmap_cons, not_elem_of_cons. simpl. split; congruence.
    + simpl. now rewrite Hw.
Qed.

Lemma first_holding_None d cells :
  first_holding d cells = None <-> occurrences d cells = 0.
Proof.
  unfold occurrences. induction cells as [|[q e] cells IH]; simpl; [tauto|].
  rewrite filter_cons. simpl. destruct (decide (e = d)); simpl.
  - split; [discriminate|lia].
  - exact IH.
Qed.

Lemma occurrences_without_first d cells p :
  first_holding d cells = Some p ->
  occurrences d cells = S (occurrences d (without_first d cells)).
Proof.
  unfold occurrences. induction cells as [|[q e] cells IH]; simpl;
    [discriminate|].
  rewrite filter_cons. simpl. destruct (decide (e = d)); simpl.
  - reflexivity.
  - intros Hf. rewrite filter_cons. simpl.
    destruct (decide (e = d)); [contradiction|]. now apply IH.
Qed.

(** The walk of [find] stops at the first cell holding [d]. *)
Lemma find_from_spec (l : DLL.DoublyLinkedList A) cells before steps d :
  linked (DLL.store l) before cells None ->
  length cells < steps ->
  DLL.find_from steps (first_or cells None) d l =
  match first_holding d cells with
  | Some p => (Ok d, DLL.set_curr (Some p) l)
  | None => (Raise IndexError, l)
  end.
Proof.
  revert before steps.
  induction cells as [|[q e] cells IH]; intros before steps Hl Hlen.
  - destruct steps; reflexivity.
  - destruct steps as [|steps]; [simpl in Hlen; lia|].
    destruct Hl as [Hq Hrest]. simpl in *.
    unfold bind, DLL.deref. rewrite Hq. simpl.
    destruct (decide (e = d)).
    + reflexivity.
    + apply (IH (Some q)); [exact Hrest|lia].
Qed.

Lemma find_spec (l : DLL.DoublyLinkedList A) cells d :
  is_list l cells ->
  DLL.find d l =
  match first_holding d cells with
  | Some p => (Ok d, DLL.set_curr (Some p) l)
  | None => (Raise IndexError, l)
  end.
Proof.
  intros (Hnd & Hl & Hh & _). unfold DLL.find, bind, gets. rewrite Hh.
  apply (find_from_spec l cells None); [exact Hl|].
  apply Nat.lt_succ_r. eapply linked_length; eauto.
Qed.

Lemma first_holding_elem d cells p :
  first_holding d cells = Some p -> p ∈ cells.*1.
Proof.
  intros Hf. destruct (first_holding_split _ _ _ Hf) as (pre & post & -> & _).
  rewrite fmap_app, fmap_cons. apply elem_of_app. right. apply elem_of_cons.
  now left.
Qed.

Lemma is_list_set_curr (l : DLL.DoublyLinkedList A) cells p :
  is_list l cells -> p ∈ cells.*1 -> is_list (DLL.set_curr (Some p) l) cells.
Proof.
  intros (Hnd & Hl & Hh & Ht & Hc) Hp. repeat split; try assumption.
  simpl. intros c [= <-]. exact Hp.
Qed.

Lemma linked_set_after h before cells q dq after after' n :
  linked h before (cells ++ [(q, dq)]) after ->
  q ∉ cells.*1 ->
  h !! q = Some n ->
  linked (<[q := DLL.with_next after' n]> h) before (cells ++ [(q, dq)])
    after'.
Proof.
  intros Hl Hq Hn. apply linked_app in Hl as [Hl1 [Hl2 _]].
  apply linked_app. split; [now apply linked_frame|]. simpl in *.
  split; [|trivial]. rewrite lookup_insert_eq.
  rewrite Hn in Hl2. injection Hl2 as ->. reflexivity.
Qed.

Lemma linked_set_before h before before' c cells after n :
  linked h before (c :: cells) after ->
  c.1 ∉ cells.*1 ->
  h !! c.1 = Some n ->
  linked (<[c.1 := DLL.with_prev before' n]> h) before' (c :: cells) after.
Proof.
  intros [Hc Hrest] Hq Hn. split; [|now apply linked_frame].
  rewrite lookup_insert_eq. rewrite Hn in Hc. injection Hc as ->.
  reflexivity.
Qed.

Lemma deref_ok (l : DLL.DoublyLinkedList A) p n :
  DLL.store l !! p = Some n -> DLL.deref p l = (Ok n, l).
Proof. intros H. unfold DLL.deref. now rewrite H. Qed.

Lemma assign_next_ok (l : DLL.DoublyLinkedList A) p v n :
  DLL.store l !! p = Some n ->
  DLL.assign_next p v l =
  (Ok tt, DLL.set_store (<[p := DLL.with_next v n]> (DLL.store l)) l).
Proof.
  intros H. unfold DLL.assign_next. now rewrite (bind_ok _ _ _ _ _ (deref_ok _ _ _ H)).
Qed.

Lemma assign_prev_ok (l : DLL.DoublyLinkedList A) p v n :
  DLL.store l !! p = Some n ->
  DLL.assign_prev p v l =
  (Ok tt, DLL.set_store (<[p := DLL.with_prev v n]> (DLL.store l)) l).
Proof.
  intros H. unfold DLL.assign_prev. now rewrite (bind_ok _ _ _ _ _ (deref_ok _ _ _ H)).
Qed.

(** The last statements of [remove]: the cursor follows the head when it
    was on the removed node. *)
Lemma remove_cursor_step (l : DLL.DoublyLinkedList A) (p : loc) (d : A) :
  (let* cur := gets DLL._curr in
   (if decide (cur = Some p)
    then let* h := gets DLL._head in modify (DLL.set_curr h)
    else ret tt) >>
   ret d) l =
  (Ok d,
   DLL.set_curr
     (if decide (DLL._curr l = Some p) then DLL._head l else DLL._curr l) l).
Proof.
  rewrite bind_gets. destruct (decide (DLL._curr l = Some p)); [reflexivity|].
  now destruct l.
Qed.

Lemma linked_ext h h' before cells after :
  (forall k, k ∈ cells.*1 -> h' !! k = h !! k) ->
  linked h before cells after -> linked h' before cells after.
Proof.
  revert before. induction cells as [|c cells IH]; intros before Hk; simpl.
  - trivial.
  - intros [Hc Hrest]. split.
    + rewrite Hk; [exact Hc|]. rewrite fmap_cons. apply elem_of_cons. now left.
    + apply IH; [|exact Hrest]. intros k Hin. apply Hk.
      rewrite fmap_cons. apply elem_of_cons. now right.
Qed.

Lemma node_eta (o : option (DLL.DLLNode A)) :
  (fun n => DLL.mkDLLNode (DLL.data n) (DLL.next n) (DLL.prev n)) <$> o = o.
Proof. destruct o as [[]|]; reflexivity. Qed.

Lemma last_or_snoc cells (c : loc * A) before :
  last_or (cells ++ [c]) before = Some c.1.
Proof. unfold last_or. now rewrite last_snoc. Qed.

Lemma unlink_before (l : DLL.DoublyLinkedList A) pre p v :
  linked (DLL.store l) None pre (Some p) ->
  NoDup pre.*1 ->
  DLL._head l = first_or pre (Some p) ->
  exists l1,
    match last_or pre None with
    | Some q => DLL.assign_next q v
    | None => modify (DLL.set_head v)
    end l = (Ok tt, l1) /\
    DLL._tail l1 = DLL._tail l /\
    DLL._curr l1 = DLL._curr l /\
    DLL._head l1 = first_or pre v /\
    linked (DLL.store l1) None pre v /\
    (forall k,
       DLL.store l1 !! k =
       (fun n =>
          DLL.mkDLLNode (DLL.data n)
            (if decide (Some k = last_or pre None) then v else DLL.next n)
            (DLL.prev n)) <$> DLL.store l !! k).
Proof.
  intros Hl Hnd Hh. destruct pre as [|[q dq] pre' _] using rev_ind.
  - eexists; split; [reflexivity|]. repeat split. intros k.
    unfold last_or; simpl. now rewrite node_eta.
  - rewrite last_or_snoc. simpl.
    pose proof Hl as Hl'. apply linked_app in Hl' as [_ [Hq _]]. simpl in Hq.
    rewrite fmap_app in Hnd. apply NoDup_app in Hnd as (_ & Hnd & _).
    eexists; split; [apply assign_next_ok; exact Hq|].
    refine (conj _ (conj _ (conj _ (conj _ _)))); try reflexivity.
    + simpl. rewrite Hh. now destruct pre'.
    + apply (linked_set_after _ _ _ _ _ (Some p)); [exact Hl| |exact Hq].
      intros Hin. apply (Hnd _ Hin). simpl. apply elem_of_cons. now left.
    + intros k. simpl. destruct (decide (Some k = Some q)) as [[= ->]|Hne].
      * rewrite lookup_insert_eq, Hq. reflexivity.
      * rewrite lookup_insert_ne by congruence. now rewrite node_eta.
Qed.

Lemma unlink_after (l : DLL.DoublyLinkedList A) post p v :
  linked (DLL.store l) (Some p) post None ->
  NoDup post.*1 ->
  DLL._tail l = last_or post (Some p) ->
  exists l2,
    match first_or post None with
    | Some x => DLL.assign_prev x v
    | None => modify (DLL.set_tail v)
    end l = (Ok tt, l2) /\
    DLL._head l2 = DLL._head l /\
    DLL._curr l2 = DLL._curr l /\
    DLL._tail l2 = last_or post v /\
    linked (DLL.store l2) v post None /\
    (forall k,
       DLL.store l2 !! k =
       (fun n =>
          DLL.mkDLLNode (DLL.data n) (DLL.next n)
            (if decide (Some k = first_or post None) then v else DLL.prev n))
       <$> DLL.store l !! k).
Proof.
  intros Hl Hnd Ht. destruct post as [|[x dx] post'].
  - eexists; split; [reflexivity|]. repeat split. intros k. simpl.
    now rewrite node_eta.
  - simpl. pose proof Hl as [Hx _]. simpl in Hx.
    rewrite fmap_cons in Hnd. apply NoDup_cons in Hnd as [Hnd _].
    eexists; split; [apply assign_prev_ok; exact Hx|].
    refine (conj _ (conj _ (conj _ (conj _ _)))); try reflexivity.
    + simpl. rewrite Ht, !last_or_cons. reflexivity.
    + apply (linked_set_before _ (Some p) v (x, dx)); assumption.
    + intros k. simpl. destruct (decide (Some k = Some x)) as [[= ->]|Hne].
      * rewrite lookup_insert_eq, Hx. reflexivity.
      * rewrite lookup_insert_ne by congruence. now rewrite node_eta.
Qed.
(** The walk of [remove] passes the cells that do not hold [d]. *)
Lemma remove_from_walk (l : DLL.DoublyLinkedList A) pre rest before steps d :
  linked (DLL.store l) before (pre ++ rest) None ->
  d ∉ pre.*2 ->
  DLL.remove_from (length pre + steps) (first_or (pre ++ rest) None) d l =
  DLL.remove_from steps (first_or rest None) d l.
Proof.
  revert before. induction pre as [|[q e] pre IH]; intros before Hl Hd.
  - reflexivity.
  - rewrite fmap_cons, not_elem_of_cons in Hd. destruct Hd as [Hne Hd].
    destruct Hl as [Hq Hrest]. simpl in *.
    unfold bind at 1, DLL.deref. rewrite Hq. simpl.
    destruct (decide (e = d)); [congruence|].
    apply (IH (Some q)); assumption.
Qed.

Lemma last_or_elem cells k :
  last_or cells None = Some k -> k ∈ cells.*1.
Proof.
  destruct cells as [|c cells' _] using rev_ind; [discriminate|].
  rewrite last_or_snoc. intros [= <-]. rewrite fmap_app. apply elem_of_app.
  right. apply list_elem_of_singleton. reflexivity.
Qed.

Lemma first_or_elem cells k :
  first_or cells None = Some k -> k ∈ cells.*1.
Proof.
  destruct cells as [|c cells']; [discriminate|]. simpl. intros [= <-].
  apply elem_of_cons. now left.
Qed.

Lemma remove_spec (l : DLL.DoublyLinkedList A) pre p d post :
  is_list l (pre ++ (p, d) :: post) ->
  d ∉ pre.*2 ->
  exists l',
    DLL.remove d l = (Ok d, l') /\
    is_list l' (pre ++ post) /\
    DLL._curr l' =
      (if decide (DLL._curr l = Some p) then DLL._head l' else DLL._curr l) /\
    DLL._head l' = first_or pre (first_or post None) /\
    DLL._tail l' = last_or post (last_or pre None) /\
    (forall q,
       DLL.store l' !! q =
       (fun n =>
          DLL.mkDLLNode (DLL.data n)
            (if decide (Some q = last_or pre None) then first_or post None
             else DLL.next n)
            (if decide (Some q = first_or post None) then last_or pre None
             else DLL.prev n)) <$> DLL.store l !! q).
Proof.
  intros (Hnd & Hl & Hh & Ht & Hc) Hd.
  pose proof (linked_length _ _ _ _ Hnd Hl) as Hlen.
  rewrite length_app in Hlen. simpl in Hlen.
  unfold DLL.remove. rewrite !bind_gets, Hh.
  replace (S (size (DLL.store l)))
    with (length pre + S (size (DLL.store l) - length pre)) by lia.
  rewrite (remove_from_walk l pre _ None) by assumption.
  apply linked_app in Hl as [Hpre [Hp Hpost]].
  simpl in Hp, Hpost |- *.
  rewrite (bind_ok _ _ _ _ _ (deref_ok _ _ _ Hp)). simpl.
  destruct (decide (d = d)) as [_|]; [|congruence].
  rewrite fmap_app, fmap_cons in Hnd. simpl in Hnd.
  apply NoDup_app in Hnd as (Hnd1 & Hnd2 & Hnd3).
  apply NoDup_cons in Hnd3 as [Hnd3 Hnd4].
  rewrite first_or_app in Hh. rewrite last_or_app, last_or_cons in Ht.
  destruct (unlink_before l pre p (first_or post None) Hpre Hnd1 Hh)
    as (l1 & E1 & Ht1 & Hc1 & Hh1 & Hl1 & Hs1).
  rewrite (bind_ok _ _ _ _ _ E1).
  assert (Hpost1 : linked (DLL.store l1) (Some p) post None).
  { eapply linked_ext; [|exact Hpost]. intros k Hk. rewrite Hs1.
    destruct (decide (Some k = last_or pre None)) as [E|_];
      [|apply node_eta].
    exfalso. symmetry in E. apply last_or_elem in E. apply (Hnd2 _ E).
    apply elem_of_cons. now right. }
  rewrite Ht in Ht1.
  destruct (unlink_after l1 post p (last_or pre None) Hpost1 Hnd4 Ht1)
    as (l2 & E2 & Hh2 & Hc2 & Ht2 & Hl2 & Hs2).
  rewrite (bind_ok _ _ _ _ _ E2), remove_cursor_step.
  eexists; split; [reflexivity|].
  assert (Hpre2 : linked (DLL.store l2) None pre (first_or post None)).
  { eapply linked_ext; [|exact Hl1]. intros k Hk. rewrite Hs2.
    destruct (decide (Some k = first_or post None)) as [E|_];
      [|apply node_eta].
    exfalso. symmetry in E. apply first_or_elem in E. apply (Hnd2 _ Hk).
    apply elem_of_cons. now right. }
  refine (conj _ (conj _ (conj _ (conj _ _)))).
  - repeat split; simpl.
    + rewrite fmap_app. apply NoDup_app. repeat split; try assumption.
      intros x Hx Hx'. apply (Hnd2 _ Hx). apply elem_of_cons. now right.
    + apply linked_app. split; assumption.
    + rewrite Hh2, Hh1, first_or_app. reflexivity.
    + rewrite Ht2, last_or_app. reflexivity.
    + intros c. rewrite Hc2, Hc1, Hh2, Hh1, <- first_or_app.
      destruct (decide (DLL._curr l = Some p)) as [_|Hne].
      * apply first_or_elem.
      * intros Hcur. specialize (Hc c Hcur).
        rewrite fmap_app, fmap_cons in Hc. rewrite fmap_app.
        apply elem_of_app in Hc as [Hc|Hc]; apply elem_of_app;
          [now left|right].
        apply elem_of_cons in Hc as [->|Hc]; [simpl in *; congruence|exact Hc].
  - simpl. rewrite Hc2, Hc1, Hh2. reflexivity.
  - simpl. rewrite Hh2, Hh1. reflexivity.
  - simpl. exact Ht2.
  - intros q. simpl. rewrite Hs2, Hs1. now destruct (DLL.store l !! q).
Qed.
Lemma is_list_empty : is_list (DLL.empty (A:=A)) [].
Proof.
  repeat split; try reflexivity; [constructor|]. simpl. discriminate.
Qed.

Lemma new_DLLNode_fresh (l : DLL.DoublyLinkedList A) cells before after :
  linked (DLL.store l) before cells after ->
  fresh (dom (DLL.store l)) ∉ cells.*1.
Proof.
  intros Hl Hin. apply (linked_dom _ _ _ _ Hl) in Hin.
  now apply is_fresh in Hin.
Qed.

Lemma add_to_head_spec (l : DLL.DoublyLinkedList A) cells d :
  is_list l cells ->
  exists l',
    DLL.add_to_head d l = (Ok tt, l') /\
    is_list l' ((fresh (dom (DLL.store l)), d) :: cells) /\
    DLL._curr l' = Some (fresh (dom (DLL.store l))).
Proof.
  intros (Hnd & Hl & Hh & Ht & Hc).
  pose proof (new_DLLNode_fresh _ _ _ _ Hl) as Hf.
  set (f := fresh (dom (DLL.store l))) in *.
  unfold DLL.add_to_head.
  unfold bind at 1, DLL.new_DLLNode at 1. fold f.
  rewrite bind_gets. simpl. rewrite Hh.
  destruct cells as [|[q dq] rest]; simpl.
  - mnorm. eexists; split; [reflexivity|].
    split; [|reflexivity]. repeat split; simpl.
    + apply NoDup_singleton.
    + now rewrite lookup_insert_eq.
    + intros c [= <-]. apply list_elem_of_singleton. reflexivity.
  - destruct Hl as [Hq Hrest]. simpl in Hq, Hrest.
    assert (Hfq : f <> q).
    { intros ->. apply Hf. rewrite fmap_cons. apply elem_of_cons. now left. }
    mnorm.
    erewrite bind_ok; [|apply assign_next_ok; simpl; apply lookup_insert_eq].
    mnorm.
    erewrite bind_ok;
      [|apply assign_prev_ok; simpl; rewrite !lookup_insert_ne by done;
        exact Hq].
    mnorm. simpl.
    eexists; split; [reflexivity|]. split; [|reflexivity].
    rewrite insert_insert_eq.
    refine (conj _ (conj _ (conj _ (conj _ _)))); simpl.
    + apply NoDup_cons. split; assumption.
    + split; [|split].
      * rewrite lookup_insert_ne by done. now rewrite lookup_insert_eq.
      * now rewrite lookup_insert_eq.
      * rewrite fmap_cons in Hnd. apply NoDup_cons in Hnd as [Hq' _].
        apply linked_frame; [exact Hq'|]. apply linked_frame; [|exact Hrest].
        intros Hin. apply Hf. rewrite fmap_cons. apply elem_of_cons. now right.
    + reflexivity.
    + rewrite Ht. rewrite !last_or_cons. reflexivity.
    + intros c [= <-]. apply elem_of_cons. now left.
Qed.
Lemma add_after_current_spec (l : DLL.DoublyLinkedList A) pre c dc post d :
  is_list l (pre ++ (c, dc) :: post) ->
  DLL._curr l = Some c ->
  exists l',
    DLL.add_after_current d l = (Ok tt, l') /\
    is_list l' (pre ++ (c, dc) :: (fresh (dom (DLL.store l)), d) :: post) /\
    DLL._curr l' = Some c.
Proof.
  intros (Hnd & Hl & Hh & Ht & Hc) Hcur.
  pose proof (new_DLLNode_fresh _ _ _ _ Hl) as Hf.
  set (f := fresh (dom (DLL.store l))) in *.
  apply linked_app in Hl as [Hpre [Hp Hpost]]. simpl in Hp, Hpost.
  rewrite fmap_app, fmap_cons in Hnd, Hf. simpl in Hnd, Hf.
  apply NoDup_app in Hnd as (Hnd1 & Hnd2 & Hnd3).
  apply NoDup_cons in Hnd3 as [Hnd3 Hnd4].
  apply not_elem_of_app in Hf as [Hf1 Hf2].
  apply not_elem_of_cons in Hf2 as [Hfc Hf2].
  unfold DLL.add_after_current. rewrite bind_gets, Hcur.
  unfold bind at 1, DLL.new_DLLNode at 1. fold f.
  erewrite bind_ok; [|apply assign_prev_ok; simpl; apply lookup_insert_eq].
  erewrite bind_ok;
    [|apply deref_ok; simpl; rewrite !lookup_insert_ne by done; exact Hp].
  erewrite bind_ok; [|apply assign_next_ok; simpl; apply lookup_insert_eq].
  simpl. rewrite !insert_insert_eq.
  match goal with |- context [bind _ _ ?s] => set (l1 := s) end.
  assert (Hpost1 : linked (DLL.store l1) (Some c) post None).
  { simpl. now apply linked_frame. }
  assert (Ht1 : DLL._tail l1 = last_or post (Some c)).
  { simpl. rewrite Ht, last_or_app, last_or_cons. reflexivity. }
  destruct (unlink_after l1 post c (Some f) Hpost1 Hnd4 Ht1)
    as (l2 & E2 & Hh2 & Hc2 & Ht2 & Hl2 & Hs2).
  rewrite (bind_ok _ _ _ _ _ E2).
  assert (Hnotfirst : forall k, k ∉ post.*1 -> Some k <> first_or post None).
  { intros k Hk E. symmetry in E. now apply first_or_elem in E. }
  assert (Hc2' : DLL.store l2 !! c =
                 Some (DLL.mkDLLNode dc (first_or post None) (last_or pre None))).
  { rewrite Hs2. destruct (decide _) as [E|_]; [now apply Hnotfirst in E|].
    rewrite node_eta. simpl. now rewrite lookup_insert_ne by done. }
  assert (Hf2' : DLL.store l2 !! f =
                 Some (DLL.mkDLLNode d (first_or post None) (Some c))).
  { rewrite Hs2. destruct (decide _) as [E|_]; [now apply Hnotfirst in E|].
    rewrite node_eta. simpl. now rewrite lookup_insert_eq. }
  eexists; split; [apply assign_next_ok; exact Hc2'|].
  split; [|simpl; now rewrite Hc2].
  refine (conj _ (conj _ (conj _ (conj _ _)))); simpl.
  - rewrite fmap_app. simpl. apply NoDup_app. repeat split; try assumption.
    + intros x Hx Hx'. apply elem_of_cons in Hx' as [->|Hx'];
        [apply (Hnd2 _ Hx); apply elem_of_cons; now left|].
      apply elem_of_cons in Hx' as [->|Hx']; [contradiction|].
      apply (Hnd2 _ Hx). apply elem_of_cons. now right.
    + apply NoDup_cons. split.
      * intros Hin. apply elem_of_cons in Hin as [->|Hin]; [done|contradiction].
      * apply NoDup_cons. split; assumption.
  - apply linked_app. split; [|split; [|split]]; simpl.
    + eapply linked_ext; [|exact Hpre]. intros k Hk.
      assert (k <> c).
      { intros ->. apply (Hnd2 _ Hk). apply elem_of_cons. now left. }
      assert (k ∉ post.*1).
      { intros Hk'. apply (Hnd2 _ Hk). apply elem_of_cons. now right. }
      rewrite lookup_insert_ne by done. rewrite Hs2.
      destruct (decide _) as [E|_]; [now apply Hnotfirst in E|].
      rewrite node_eta. simpl. rewrite lookup_insert_ne; [done|].
      intros ->. contradiction.
    + now rewrite lookup_insert_eq.
    + rewrite lookup_insert_ne by done. exact Hf2'.
    + apply linked_frame; assumption.
  - rewrite Hh2. simpl. rewrite Hh, !first_or_app. reflexivity.
  - rewrite Ht2, last_or_app, !last_or_cons. reflexivity.
  - rewrite Hc2. simpl. rewrite Hcur. intros k [= <-].
    rewrite fmap_app. apply elem_of_app. right. apply elem_of_cons. now left.
Qed.
Lemma is_list_lookup (l : DLL.DoublyLinkedList A) pre c dc post :
  is_list l (pre ++ (c, dc) :: post) ->
  DLL.store l !! c =
  Some (DLL.mkDLLNode dc (first_or post None) (last_or pre None)).
Proof.
  intros (_ & Hl & _). apply linked_app in Hl as [_ [Hc _]]. exact Hc.
Qed.

Lemma move_forward_spec (l : DLL.DoublyLinkedList A) pre c dc n dn post :
  is_list l (pre ++ (c, dc) :: (n, dn) :: post) ->
  DLL._curr l = Some c ->
  DLL.move_forward l = (Ok tt, DLL.set_curr (Some n) l).
Proof.
  intros Hl Hcur. unfold DLL.move_forward. rewrite bind_gets, Hcur.
  rewrite (bind_ok _ _ _ _ _ (deref_ok _ _ _ (is_list_lookup _ _ _ _ _ Hl))).
  reflexivity.
Qed.

Lemma move_backward_spec (l : DLL.DoublyLinkedList A) pre b db c dc post :
  is_list l (pre ++ (b, db) :: (c, dc) :: post) ->
  DLL._curr l = Some c ->
  DLL.move_backward l = (Ok tt, DLL.set_curr (Some b) l).
Proof.
  intros Hl Hcur. unfold DLL.move_backward. rewrite bind_gets, Hcur.
  replace (pre ++ (b, db) :: (c, dc) :: post)
    with ((pre ++ [(b, db)]) ++ (c, dc) :: post) in Hl
    by now rewrite <- app_assoc.
  rewrite (bind_ok _ _ _ _ _ (deref_ok _ _ _ (is_list_lookup _ _ _ _ _ Hl))).
  simpl. now rewrite last_or_snoc.
Qed.

Lemma remove_after_current_spec (l : DLL.DoublyLinkedList A)
    pre c dc r dr post :
  is_list l (pre ++ (c, dc) :: (r, dr) :: post) ->
  DLL._curr l = Some c ->
  exists l',
    DLL.remove_after_current l = (Ok dr, l') /\
    is_list l' (pre ++ (c, dc) :: post) /\
    DLL._curr l' = Some c.
Proof.
  intros Hlist Hcur. pose proof Hlist as (Hnd & Hl & Hh & Ht & Hc).
  pose proof (is_list_lookup _ _ _ _ _ Hlist) as Hpc. simpl in Hpc.
  apply linked_app in Hl as [Hpre [_ [Hpr Hpost]]]. simpl in Hpr, Hpost.
  rewrite fmap_app, !fmap_cons in Hnd. simpl in Hnd.
  apply NoDup_app in Hnd as (Hnd1 & Hnd2 & Hnd3).
  apply NoDup_cons in Hnd3 as [Hnd3 Hnd4].
  apply NoDup_cons in Hnd4 as [Hnd4 Hnd5].
  apply not_elem_of_cons in Hnd3 as [Hcr Hnd3].
  unfold DLL.remove_after_current. rewrite bind_gets, Hcur.
  rewrite (bind_ok _ _ _ _ _ (deref_ok _ _ _ Hpc)). simpl.
  rewrite (bind_ok _ _ _ _ _ (deref_ok _ _ _ Hpr)). simpl.
  rewrite (bind_ok _ _ _ _ _ (assign_next_ok _ _ _ _ Hpc)).
  match goal with |- context [bind _ _ ?s] => set (l1 := s) end.
  assert (Hpost1 : linked (DLL.store l1) (Some r) post None).
  { simpl. now apply linked_frame. }
  assert (Ht1 : DLL._tail l1 = last_or post (Some r)).
  { simpl. rewrite Ht, last_or_app, !last_or_cons. reflexivity. }
  destruct (unlink_after l1 post r (Some c) Hpost1 Hnd5 Ht1)
    as (l2 & E2 & Hh2 & Hc2 & Ht2 & Hl2 & Hs2).
  rewrite (bind_ok _ _ _ _ _ E2).
  eexists; split; [reflexivity|].
  split; [|now rewrite Hc2].
  assert (Hnotfirst : forall k, k ∉ post.*1 -> Some k <> first_or post None).
  { intros k Hk E. symmetry in E. now apply first_or_elem in E. }
  refine (conj _ (conj _ (conj _ (conj _ _)))).
  - rewrite fmap_app, fmap_cons. simpl. apply NoDup_app.
    repeat split; try assumption.
    + intros x Hx Hx'. apply (Hnd2 _ Hx).
      apply elem_of_cons in Hx' as [->|Hx']; apply elem_of_cons;
        [now left|right]. apply elem_of_cons. now right.
    + apply NoDup_cons. split; assumption.
  - apply linked_app. split; [|split]; simpl.
    + eapply linked_ext; [|exact Hpre]. intros k Hk.
      assert (k <> c).
      { intros ->. apply (Hnd2 _ Hk). apply elem_of_cons. now left. }
      assert (k ∉ post.*1).
      { intros Hk'. apply (Hnd2 _ Hk). do 2 (apply elem_of_cons; right).
        exact Hk'. }
      rewrite Hs2. destruct (decide _) as [E|_]; [now apply Hnotfirst in E|].
      rewrite node_eta. simpl. now rewrite lookup_insert_ne.
    + rewrite Hs2. destruct (decide _) as [E|_]; [now apply Hnotfirst in E|].
      rewrite node_eta. simpl. now rewrite lookup_insert_eq.
    + exact Hl2.
  - rewrite Hh2. simpl. rewrite Hh, !first_or_app. reflexivity.
  - rewrite Ht2, last_or_app, !last_or_cons. reflexivity.
  - rewrite Hc2. simpl. rewrite Hcur. intros k [= <-].
    rewrite fmap_app. apply elem_of_app. right. apply elem_of_cons. now left.
Qed.
Lemma remove_spec_first (l : DLL.DoublyLinkedList A) cells d p :
  is_list l cells ->
  first_holding d cells = Some p ->
  exists l',
    DLL.remove d l = (Ok d, l') /\ is_list l' (without_first d cells).
Proof.
  intros Hl Hf.
  destruct (first_holding_split _ _ _ Hf) as (pre & post & -> & Hd & ->).
  destruct (remove_spec l pre p d post Hl Hd) as (l' & E & Hl' & _).
  eauto.
Qed.

(** C8 (amended).  On a list satisfying the doubly linked invariant, after
    a successful [find(v)] followed by a successful [remove(v)], a second
    [find(v)] raises [IndexError] (the not-found fault) when [v] occurred
    exactly once in the list, and returns [v] when it occurred more than
    once: [remove] takes out the first occurrence only. *)
Theorem find_remove_find (l l1 l2 : DLL.DoublyLinkedList A) cells
    (v r1 r2 : A) :
  is_list l cells ->
  DLL.find v l = (Ok r1, l1) ->
  DLL.remove v l1 = (Ok r2, l2) ->
  (occurrences v cells = 1 -> (DLL.find v l2).1 = Raise IndexError) /\
  (occurrences v cells <> 1 -> (DLL.find v l2).1 = Ok v).
Proof.
  intros Hl Hfind Hrem. rewrite (find_spec l cells v Hl) in Hfind.
  destruct (first_holding v cells) as [p|] eqn:Hf; [|discriminate].
  injection Hfind as _ <-.
  assert (Hl1 : is_list (DLL.set_curr (Some p) l) cells).
  { apply is_list_set_curr; [exact Hl|]. eapply first_holding_elem; eauto. }
  destruct (remove_spec_first _ _ _ _ Hl1 Hf) as (l' & E & Hl').
  rewrite E in Hrem. injection Hrem as _ <-.
  rewrite (find_spec l' _ v Hl').
  pose proof (occurrences_without_first _ _ _ Hf) as Hocc.
  destruct (first_holding v (without_first v cells)) as [q|] eqn:Hf'.
  - split; [|reflexivity]. intros H1. exfalso.
    assert (H0 : occurrences v (without_first v cells) = 0) by lia.
    apply first_holding_None in H0. congruence.
  - split; [reflexivity|]. intros H1. exfalso.
    apply first_holding_None in Hf'. lia.
Qed.

(** C10.  A successful [remove(value)] takes out the first node [p] holding
    the value, and what it changes is tied to that node.  The cursor moves
    to the new head when it was on [p] and is unchanged otherwise.  [_head]
    changes only when it designated [p] (to the node after [p]); [_tail]
    changes only when it designated [p] (to the node before [p]).  In the
    store the data of every node is unchanged, and the only links assigned
    are those that led to [p]: the [next] of the node before [p] and the
    [prev] of the node after [p]; every other [next] and [prev], those of
    [p] itself included, are unchanged.  The result is again a doubly linked
    list, of the remaining cells. *)
Theorem remove_frame (l : DLL.DoublyLinkedList A) pre p d post :
  is_list l (pre ++ (p, d) :: post) ->
  d ∉ pre.*2 ->
  exists l',
    DLL.remove d l = (Ok d, l') /\
    is_list l' (pre ++ post) /\
    DLL._curr l' =
      (if decide (DLL._curr l = Some p) then DLL._head l' else DLL._curr l) /\
    DLL._head l' =
      (if decide (DLL._head l = Some p) then first_or post None
       else DLL._head l) /\
    DLL._tail l' =
      (if decide (DLL._tail l = Some p) then last_or pre None
       else DLL._tail l) /\
    (forall q,
       DLL.store l' !! q =
       (fun n =>
          DLL.mkDLLNode (DLL.data n)
            (if decide (Some q = last_or pre None) then first_or post None
             else DLL.next n)
            (if decide (Some q = first_or post None) then last_or pre None
             else DLL.prev n)) <$> DLL.store l !! q).
Proof.
  intros Hl Hd.
  destruct (remove_spec l pre p d post Hl Hd)
    as (l' & E & Hl' & Hc' & Hh' & Ht' & Hs').
  exists l'. refine (conj E (conj Hl' (conj Hc' (conj _ (conj _ Hs'))))).
  - destruct Hl as (Hnd & _ & Hh & _). rewrite Hh', Hh, first_or_app.
    destruct pre as [|c pre']; simpl.
    + now rewrite decide_True.
    + destruct (decide (Some c.1 = Some p)) as [[= E1]|_]; [|reflexivity].
      exfalso. rewrite fmap_app in Hnd. apply NoDup_app in Hnd as (_ & Hnd & _).
      apply (Hnd c.1); [|rewrite E1]; apply elem_of_cons; now left.
  - destruct Hl as (Hnd & _ & _ & Ht & _).
    rewrite Ht', Ht, last_or_app, last_or_cons.
    destruct post as [|c post' _] using rev_ind.
    + unfold last_or at 1 3 4. simpl. now rewrite decide_True.
    + rewrite !last_or_snoc.
      destruct (decide (Some c.1 = Some p)) as [[= E1]|_]; [|reflexivity].
      exfalso. rewrite fmap_app in Hnd. apply NoDup_app in Hnd as (_ & _ & Hnd).
      rewrite fmap_cons in Hnd. apply NoDup_cons in Hnd as [Hnd _].
      apply Hnd. rewrite fmap_app. apply elem_of_app. right. simpl.
      rewrite E1. apply elem_of_cons. now left.
Qed.
End ChainFacts.

(** *** The list claims on concrete lists *)

Lemma is_list_dll_87 : is_list dll_87 [(1, 8); (0, 7)].
Proof.
  refine (conj _ (conj _ (conj _ (conj _ _)))).
  - apply (bool_decide_unpack _). vm_compute. exact I.
  - simpl. repeat split; vm_compute; reflexivity.
  - reflexivity.
  - reflexivity.
  - vm_compute. intros c [= <-]. apply elem_of_cons. now left.
Qed.

Lemma is_list_dll_77 : is_list dll_77 [(1, 7); (0, 7)].
Proof.
  refine (conj _ (conj _ (conj _ (conj _ _)))).
  - apply (bool_decide_unpack _). vm_compute. exact I.
  - simpl. repeat split; vm_compute; reflexivity.
  - reflexivity.
  - reflexivity.
  - vm_compute. intros c [= <-]. apply elem_of_cons. now left.
Qed.

Lemma find_remove_find_witness :
  (DLL.find 7 (DLL.remove 7 (DLL.find 7 dll_87).2).2).1 = Raise IndexError.
Proof.
  refine (proj1 (find_remove_find dll_87 (DLL.find 7 dll_87).2
            (DLL.remove 7 (DLL.find 7 dll_87).2).2 [(1, 8); (0, 7)] 7 7 7
            is_list_dll_87 _ _) _).
  - vm_compute. reflexivity.
  - vm_compute. reflexivity.
  - vm_compute. reflexivity.
Defined.

Lemma find_remove_find_duplicates :
  exists l1 l2 : DLL.DoublyLinkedList nat,
    DLL.find 7 dll_77 = (Ok 7, l1) /\
    DLL.remove 7 l1 = (Ok 7, l2) /\
    (DLL.find 7 l2).1 = Ok 7.
Proof.
  exists (DLL.find 7 dll_77).2, (DLL.remove 7 (DLL.find 7 dll_77).2).2.
  repeat split; vm_compute; reflexivity.
Qed.

Lemma remove_frame_witness :
  is_list dll_87 ([] ++ (1, 8) :: [(0, 7)]) /\
  exists l',
    DLL.remove 8 dll_87 = (Ok 8, l') /\
    is_list l' [(0, 7)] /\
    DLL._curr l' = DLL._head l' /\
    DLL._head l' = Some 0 /\
    DLL._tail l' = DLL._tail dll_87.
Proof.
  split; [exact is_list_dll_87|].
  destruct (remove_frame dll_87 [] 1 8 [(0, 7)] is_list_dll_87)
    as (l' & E & Hl & Hc & Hh & Ht & Hs).
  { apply not_elem_of_nil. }
  exists l'. split; [exact E|]. split; [exact Hl|].
  split; [exact Hc|]. split; [exact Hh|exact Ht].
Defined.

(** ** Neurode *)

Lemma node_update w self f n :
  node (update self f w) n = if decide (n = self) then f (node w self) else node w n.
Proof.
  unfold node, update. simpl. destruct (decide (n = self)) as [->|Hne].
  - apply lookup_total_insert_eq.
  - now apply lookup_total_insert_ne.
Qed.

Lemma node_update_eq w self f : node (update self f w) self = f (node w self).
Proof. rewrite node_update. now rewrite decide_True. Qed.

Lemma update_update w self f g :
  update self g (update self f w) = update self (fun n => g (f n)) w.
Proof.
  unfold update at 1 3. rewrite node_update_eq. unfold update, set_objects.
  simpl. now rewrite insert_insert_eq.
Qed.

Lemma node_update_ne w self f n :
  n <> self -> node (update self f w) n = node w n.
Proof. intros H. rewrite node_update. now rewrite decide_False. Qed.

Section NeurodeFacts.
Variable random_random : nat -> float.

Lemma with_weights_id n : with_weights (_weights n) n = n.
Proof. now destruct n. Qed.

Lemma seed_loop_spec self nodes w :
  exists w',
    for_each nodes
      (fun node_ => _process_new_neighbor random_random self node_ UPSTREAM)
      w = (Ok tt, w') /\
    node w' self =
      with_weights (seeded random_random nodes (draws w)
                      (_weights (node w self))) (node w self) /\
    (forall n, n <> self -> node w' n = node w n) /\
    draws w' = draws w + length nodes /\
    learning_rate_attr w' = learning_rate_attr w /\
    history w' = history w.
Proof.
  revert w. induction nodes as [|x nodes IH]; intros w; simpl.
  - exists w. rewrite with_weights_id, Nat.add_0_r. repeat split.
  - unfold _process_new_neighbor at 1. simpl. mnorm.
    unfold random at 1. unfold bind at 1. mnorm.
    match goal with |- context [for_each _ _ ?s] => set (w1 := s) end.
    destruct (IH w1) as (w' & E & Hself & Hother & Hdr & Hlr & Hhi).
    exists w'. split; [exact E|]. subst w1.
    rewrite node_update_eq in Hself. simpl in *.
    repeat split; try assumption.
    + intros n Hn. rewrite (Hother n Hn). now rewrite node_update_ne.
    + lia.
Qed.

Lemma reset_neighbors_spec self nodes side w :
  exists w',
    reset_neighbors random_random self nodes side w = (Ok tt, w') /\
    node w' self = relinked random_random side nodes (draws w) (node w self) /\
    (forall n, n <> self -> node w' n = node w n) /\
    draws w' = draws w + draws_of side nodes /\
    learning_rate_attr w' = learning_rate_attr w /\
    history w' = history w.
Proof.
  unfold reset_neighbors. mnorm. unfold relinked, draws_of.
  destruct side; simpl.
  - match goal with |- context [bind _ _ ?s] => set (w1 := s) end.
    destruct (seed_loop_spec self nodes w1)
      as (w' & E & Hself & Hother & Hdr & Hlr & Hhi).
    rewrite (bind_ok _ _ _ _ _ E). mnorm. eexists; split; [reflexivity|].
    subst w1. rewrite node_update_eq in *. simpl in *.
    rewrite Hself. repeat split; try assumption.
    intros n Hn. rewrite node_update_ne by done. rewrite (Hother n Hn).
    now apply node_update_ne.
  - assert (E : forall w1,
      for_each nodes
        (fun node_ => _process_new_neighbor random_random self node_ DOWNSTREAM)
        w1 = (Ok tt, w1)).
    { induction nodes as [|x nodes IH]; intros w1; [reflexivity|].
      simpl. unfold _process_new_neighbor at 1. simpl. mnorm. apply IH. }
    rewrite (bind_ok _ _ _ _ _ (E _)). mnorm. eexists; split; [reflexivity|].
    rewrite update_update. rewrite node_update_eq. simpl.
    repeat split; [|lia].
    intros n Hn. now apply node_update_ne.
Qed.

Lemma seeded_notin nodes start m n :
  n ∉ nodes -> seeded random_random nodes start m !! n = m !! n.
Proof.
  revert start m. induction nodes as [|x nodes IH]; intros start m Hn; simpl.
  - reflexivity.
  - apply not_elem_of_cons in Hn as [Hne Hn]. rewrite IH by assumption.
    now apply lookup_insert_ne.
Qed.

Lemma seeded_in nodes start m n :
  n ∈ nodes ->
  exists j, start <= j /\
    seeded random_random nodes start m !! n = Some (random_random j).
Proof.
  revert start m. induction nodes as [|x nodes IH]; intros start m Hn; simpl.
  - inversion Hn.
  - destruct (decide (n ∈ nodes)) as [Hin|Hnin].
    + destruct (IH (S start) (<[x:=random_random start]> m) Hin)
        as (j & Hj & E).
      exists j. split; [lia|exact E].
    + apply elem_of_cons in Hn as [->|Hn]; [|contradiction].
      exists start. split; [lia|]. rewrite seeded_notin by assumption.
      apply lookup_insert_eq.
Qed.

Lemma reset_effect_relinked side nodes start n :
  reset_effect random_random start side nodes n
    (relinked random_random side nodes start n).
Proof.
  unfold reset_effect, relinked. destruct side; simpl.
  - repeat split; try (destruct s; [congruence|reflexivity]).
    + intros n' Hn'. now apply seeded_in.
    + intros n' Hn'. now apply seeded_notin.
  - repeat split; destruct s; congruence || reflexivity.
Qed.

Lemma reset_effect_weaken lo lo' side nodes n1 n2 :
  lo' <= lo ->
  reset_effect random_random lo side nodes n1 n2 ->
  reset_effect random_random lo' side nodes n1 n2.
Proof.
  intros Hlo (H1 & H2 & H3 & H4 & H5 & H6 & H7).
  unfold reset_effect. refine (conj H1 (conj H2 (conj H3 (conj H4 (conj H5 (conj H6 _)))))).
  destruct (decide (side = UPSTREAM)); [|exact H7].
  destruct H7 as [H7 H8]. split; [|exact H8].
  intros n Hn. destruct (H7 n Hn) as (j & Hj & E). exists j. split; [lia|exact E].
Qed.

Lemma reset_effect_trans lo side nodes n1 n2 n3 :
  reset_effect random_random lo side nodes n1 n2 ->
  reset_effect random_random lo side nodes n2 n3 ->
  reset_effect random_random lo side nodes n1 n3.
Proof.
  intros (_ & _ & Ho1 & Hr1 & Hv1 & Hd1 & Hw1)
         (Hn2 & Hf2 & Ho2 & Hr2 & Hv2 & Hd2 & Hw2).
  unfold reset_effect. repeat split; try congruence.
  - destruct (Ho1 s H), (Ho2 s H). congruence.
  - destruct (Ho1 s H), (Ho2 s H). congruence.
  - destruct (decide (side = UPSTREAM)); [|congruence].
    destruct Hw1 as [_ Hw1], Hw2 as [Hw2 Hw2']. split; [exact Hw2|].
    intros n Hn. rewrite Hw2', Hw1 by assumption. reflexivity.
Qed.

(** The loop [for node in xs: node.reset_neighbors(nodes, side)]. *)
Lemma reset_all_spec xs nodes side w :
  exists w',
    for_each xs (fun x => reset_neighbors random_random x nodes side) w
      = (Ok tt, w') /\
    (forall x, x ∈ xs ->
       reset_effect random_random (draws w) side nodes (node w x)
         (node w' x)) /\
    (forall x, x ∉ xs -> node w' x = node w x) /\
    draws w <= draws w' /\
    learning_rate_attr w' = learning_rate_attr w /\
    history w' = history w.
Proof.
  revert w. induction xs as [|x xs IH]; intros w; simpl.
  - exists w. split; [reflexivity|]. split; [intros y Hy; inversion Hy|].
    repeat split. lia.
  - destruct (reset_neighbors_spec x nodes side w)
      as (w1 & E1 & Hself & Hother & Hdr1 & Hlr1 & Hhi1).
    rewrite (bind_ok _ _ _ _ _ E1).
    destruct (IH w1) as (w' & E & Hin & Hout & Hdr & Hlr & Hhi).
    exists w'. split; [exact E|].
    refine (conj _ (conj _ (conj _ (conj _ _)))); try congruence; [| |lia].
    + intros y Hy. destruct (decide (y = x)) as [->|Hne].
      * destruct (decide (x ∈ xs)) as [Hx|Hx].
        -- eapply reset_effect_trans;
             [|apply (reset_effect_weaken (draws w1)); [lia|apply (Hin _ Hx)]].
           rewrite Hself. apply reset_effect_relinked.
        -- rewrite (Hout _ Hx), Hself. apply reset_effect_relinked.
      * apply elem_of_cons in Hy as [->|Hy]; [done|].
        rewrite <- (Hother y Hne).
        apply (reset_effect_weaken (draws w1)); [lia|now apply Hin].
    + intros y Hy. apply not_elem_of_cons in Hy as [Hne Hy].
      rewrite (Hout _ Hy). now apply Hother.
Qed.

End NeurodeFacts.

(** ** LayerList *)

Lemma on_chain_ok {R} (m : M (DLL.DoublyLinkedList (list loc)) R) L a c' :
  m (chain L) = (Ok a, c') -> on_chain m L = (Ok a, set_chain c' L).
Proof. intros H. unfold on_chain, lift. now rewrite H. Qed.

Lemma on_world_ok {R} (m : M World R) L a w' :
  m (world L) = (Ok a, w') -> on_world m L = (Ok a, set_world w' L).
Proof. intros H. unfold on_world, lift. now rewrite H. Qed.

Lemma for_each_on_world {X} (xs : list X) (f : X -> M World unit) L w' :
  for_each xs f (world L) = (Ok tt, w') ->
  for_each xs (fun x => on_world (f x)) L = (Ok tt, set_world w' L).
Proof.
  revert L. induction xs as [|x xs IH]; intros L; simpl.
  - intros [= <-]. now destruct L.
  - unfold bind at 1. destruct (f x (world L)) as [[[]|e] w1] eqn:E1;
      [|discriminate].
    intros H. rewrite (bind_ok _ _ _ _ _ (on_world_ok _ _ _ _ E1)).
    now rewrite (IH (set_world w1 L) H).
Qed.

Lemma new_layer_spec k w :
  exists ids w',
    new_layer k w = (Ok ids, w') /\
    length ids = k /\
    NoDup ids /\
    (forall x, x ∈ ids -> (x ∉ dom (objects w)) /\ x ∈ dom (objects w')) /\
    dom (objects w) ⊆ dom (objects w') /\
    (forall x, x ∈ ids -> node w' x = new_Neurode) /\
    (forall x, x ∉ ids -> node w' x = node w x) /\
    draws w' = draws w /\
    learning_rate_attr w' = learning_rate_attr w /\
    history w' = history w.
Proof.
  revert w. induction k as [|k IH]; intros w; simpl.
  - exists [], w. repeat split; try constructor; try (inversion H; fail).
    + reflexivity.
    + intros x Hx. inversion Hx.
  - unfold bind at 1, new_FFBPNeurode at 1.
    set (p := fresh (dom (objects w))).
    set (w1 := set_objects (<[p:=new_Neurode]> (objects w)) w).
    destruct (IH w1)
      as (ids & w' & E & Hlen & Hnd & Hfresh & Hdom & Hnew & Hold & Hdr & Hlr
          & Hhi).
    rewrite (bind_ok _ _ _ _ _ E). exists (p :: ids), w'.
    split; [reflexivity|].
    assert (Hp : p ∉ dom (objects w)) by apply is_fresh.
    assert (Hdom1 : dom (objects w1) = {[p]} ∪ dom (objects w)).
    { subst w1. simpl. apply dom_insert_L. }
    assert (Hpids : p ∉ ids).
    { intros Hin. destruct (Hfresh _ Hin) as [Hnin _]. apply Hnin.
      rewrite Hdom1. apply elem_of_union. left. now apply elem_of_singleton. }
    refine (conj _ (conj _ (conj _ (conj _ (conj _ (conj _ _)))))).
    + simpl. now rewrite Hlen.
    + apply NoDup_cons. split; assumption.
    + intros x Hx. apply elem_of_cons in Hx as [->|Hx].
      * split; [exact Hp|]. apply Hdom. rewrite Hdom1.
        apply elem_of_union. left. now apply elem_of_singleton.
      * destruct (Hfresh _ Hx) as [Hnin Hin]. split; [|exact Hin].
        intros Hin'. apply Hnin. rewrite Hdom1. apply elem_of_union.
        now right.
    + rewrite Hdom1 in Hdom. intros y Hy. apply Hdom, elem_of_union.
      now right.
    + intros x Hx. apply elem_of_cons in Hx as [->|Hx]; [|now apply Hnew].
      rewrite (Hold _ Hpids). subst w1. unfold node. simpl.
      apply lookup_total_insert_eq.
    + intros x Hx. apply not_elem_of_cons in Hx as [Hne Hx].
      rewrite (Hold _ Hx). subst w1. unfold node. simpl.
      now apply lookup_total_insert_ne.
    + subst w1. simpl in *. repeat split; assumption.
Qed.

(** Run the step at the head of a [LayerList] computation, given what it
    does on its component. *)
Ltac run_world E :=
  match goal with
  | |- context [bind (on_world _) _ ?s] =>
      rewrite (bind_ok _ _ s _ _ (on_world_ok _ s _ _ E)); cbv beta
  end.
Ltac run_chain E :=
  match goal with
  | |- context [bind (on_chain _) _ ?s] =>
      rewrite (bind_ok _ _ s _ _ (on_chain_ok _ s _ _ E)); cbv beta
  end.

Section LayerFacts.
Variable random_random : nat -> float.

Lemma reset_effect_down lo B old new :
  reset_effect random_random lo DOWNSTREAM B old new ->
  item (_neighbors new) DOWNSTREAM = B /\
  item (_reference_value new) DOWNSTREAM = (2 ^ Z.of_nat (length B) - 1)%Z /\
  item (_neighbors new) UPSTREAM = item (_neighbors old) UPSTREAM /\
  item (_reference_value new) UPSTREAM
    = item (_reference_value old) UPSTREAM /\
  _reporting_nodes new = _reporting_nodes old /\
  _value new = _value old /\
  _delta new = _delta old /\
  _weights new = _weights old.
Proof.
  intros (H1 & H2 & H3 & H4 & H5 & H6 & H7). simpl in H7.
  destruct (H3 UPSTREAM) as [H8 H9]; [discriminate|]. repeat split; assumption.
Qed.

Lemma reset_effect_up lo A old new :
  reset_effect random_random lo UPSTREAM A old new ->
  item (_neighbors new) UPSTREAM = A /\
  item (_reference_value new) UPSTREAM = (2 ^ Z.of_nat (length A) - 1)%Z /\
  item (_neighbors new) DOWNSTREAM = item (_neighbors old) DOWNSTREAM /\
  item (_reference_value new) DOWNSTREAM
    = item (_reference_value old) DOWNSTREAM /\
  _reporting_nodes new = _reporting_nodes old /\
  _value new = _value old /\
  _delta new = _delta old /\
  (forall a, a ∈ A ->
     exists j, lo <= j /\ _weights new !! a = Some (random_random j)).
Proof.
  intros (H1 & H2 & H3 & H4 & H5 & H6 & H7). simpl in H7.
  destruct (H3 DOWNSTREAM) as [H8 H9]; [discriminate|].
  destruct H7 as [H7 _]. repeat split; assumption.
Qed.

Lemma link_with_next_spec L pre c A n B post :
  is_list (chain L) (pre ++ (c, A) :: (n, B) :: post) ->
  DLL._curr (chain L) = Some c ->
  exists w',
    _link_with_next random_random L = (Ok tt, set_world w' L) /\
    link_effect random_random A B (world L) w'.
Proof.
  intros Hl Hcur. unfold _link_with_next. rewrite bind_gets, Hcur.
  pose proof (is_list_lookup _ _ _ _ _ Hl) as Hc.
  replace (pre ++ (c, A) :: (n, B) :: post)
    with ((pre ++ [(c, A)]) ++ (n, B) :: post) in Hl
    by now rewrite <- app_assoc.
  pose proof (is_list_lookup _ _ _ _ _ Hl) as Hn.
  rewrite (bind_ok _ _ _ _ _ (on_chain_ok _ _ _ _ (deref_ok _ _ _ Hc))).
  simpl. assert (E : set_chain (chain L) L = L) by now destruct L.
  rewrite E.
  rewrite (bind_ok _ _ _ _ _ (on_chain_ok _ _ _ _ (deref_ok _ _ _ Hn))).
  simpl. rewrite E.
  destruct (reset_all_spec random_random A B DOWNSTREAM (world L))
    as (w1 & E1 & Hin1 & Hout1 & Hdr1 & Hlr1 & Hhi1).
  rewrite (bind_ok _ _ _ _ _ (for_each_on_world _ _ _ _ E1)).
  destruct (reset_all_spec random_random B A UPSTREAM w1)
    as (w2 & E2 & Hin2 & Hout2 & Hdr2 & Hlr2 & Hhi2).
  rewrite (for_each_on_world _ _ (set_world w1 L) _ E2).
  exists w2. split; [reflexivity|].
  assert (H1 : forall x,
    (x ∈ A /\
     reset_effect random_random (draws (world L)) DOWNSTREAM B
       (node (world L) x) (node w1 x)) \/
    ((x ∉ A) /\ node w1 x = node (world L) x)).
  { intros x. destruct (decide (x ∈ A)); [left|right]; auto. }
  assert (H2 : forall x,
    (x ∈ B /\
     reset_effect random_random (draws w1) UPSTREAM A (node w1 x) (node w2 x))
    \/ ((x ∉ B) /\ node w2 x = node w1 x)).
  { intros x. destruct (decide (x ∈ B)); [left|right]; auto. }
  clear Hin1 Hout1 Hin2 Hout2.
  unfold link_effect. refine (conj _ (conj _ (conj _ (conj _ (conj _ _))))).
  - intros a Ha.
    destruct (H1 a) as [[_ Q1]|[? _]]; [|contradiction].
    apply reset_effect_down in Q1 as (Q11 & Q12 & _).
    destruct (H2 a) as [[_ Q2]|[_ Q2]].
    + apply reset_effect_up in Q2 as (_ & _ & Q23 & Q24 & _). split; congruence.
    + rewrite Q2. split; assumption.
  - intros b Hb.
    destruct (H2 b) as [[_ Q2]|[? _]]; [|contradiction].
    apply reset_effect_up in Q2 as (Q21 & Q22 & _ & _ & _ & _ & _ & Q28).
    refine (conj Q21 (conj Q22 _)). intros a Ha.
    destruct (Q28 a Ha) as (j & Hj & Ej). exists j. split; [lia|exact Ej].
  - intros x Hx.
    destruct (H1 x) as [[? _]|[_ Q1]]; [contradiction|].
    destruct (H2 x) as [[_ Q2]|[_ Q2]].
    + apply reset_effect_up in Q2 as (_ & _ & Q23 & Q24 & _).
      rewrite Q23, Q24, Q1. split; reflexivity.
    + rewrite Q2, Q1. split; reflexivity.
  - intros x Hx.
    destruct (H2 x) as [[? _]|[_ Q2]]; [contradiction|]. rewrite Q2.
    destruct (H1 x) as [[_ Q1]|[_ Q1]].
    + apply reset_effect_down in Q1 as (_ & _ & Q13 & Q14 & _ & _ & _ & Q18).
      repeat split; assumption.
    + rewrite Q1. repeat split; reflexivity.
  - intros x.
    destruct (H1 x) as [[_ Q1]|[_ Q1]], (H2 x) as [[_ Q2]|[_ Q2]].
    + apply reset_effect_down in Q1 as (_ & _ & _ & _ & Q15 & Q16 & Q17 & _).
      apply reset_effect_up in Q2 as (_ & _ & _ & _ & Q25 & Q26 & Q27 & _).
      repeat split; congruence.
    + apply reset_effect_down in Q1 as (_ & _ & _ & _ & Q15 & Q16 & Q17 & _).
      rewrite Q2. repeat split; assumption.
    + apply reset_effect_up in Q2 as (_ & _ & _ & _ & Q25 & Q26 & Q27 & _).
      rewrite <- Q1. repeat split; assumption.
    + rewrite Q2, Q1. repeat split; reflexivity.
  - repeat split; [lia|congruence|congruence].
Qed.
Lemma input_nodes_spec L h ins rest :
  is_list (chain L) ((h, ins) :: rest) -> input_nodes L = (Ok ins, L).
Proof.
  intros Hl. unfold input_nodes. rewrite bind_gets.
  destruct Hl as (_ & [Hh _] & -> & _). simpl in *.
  rewrite (bind_ok _ _ _ _ _ (on_chain_ok _ _ _ _ (deref_ok _ _ _ Hh))).
  now destruct L.
Qed.

Lemma output_nodes_spec L pre t outs :
  is_list (chain L) (pre ++ [(t, outs)]) -> output_nodes L = (Ok outs, L).
Proof.
  intros Hl. unfold output_nodes. rewrite bind_gets.
  pose proof (is_list_lookup _ _ _ _ _ Hl) as Ht.
  destruct Hl as (_ & _ & _ & -> & _). rewrite last_or_snoc. simpl.
  rewrite (bind_ok _ _ _ _ _ (on_chain_ok _ _ _ _ (deref_ok _ _ _ Ht))).
  now destruct L.
Qed.

(** C3.  With [random.random()] returning values in [0, 1):
    [LayerList(inputs, outputs, ...)] with [inputs >= 1] and [outputs >= 1]
    yields a list of exactly two layers, the input layer at the head and
    the output layer at the tail, of [inputs] and [outputs] distinct
    neurodes; every input node has exactly the output nodes as its
    DOWNSTREAM neighbors, every output node exactly the input nodes as its
    UPSTREAM neighbors, and the weight map of every output node gives every
    input node a weight in [0, 1).  With [inputs < 1] or [outputs < 1] the
    constructor raises [ValueError] (the construction error) and leaves an
    empty list and an unchanged world. *)
Theorem construction (w : World) (inputs outputs : Z) :
  (forall k, unit_interval (random_random k)) ->
  if decide (1 <= inputs /\ 1 <= outputs)%Z
  then
    exists L h t ins outs,
      new_LayerList random_random w inputs outputs = (Ok tt, L) /\
      is_list (chain L) [(h, ins); (t, outs)] /\
      length ins = Z.to_nat inputs /\
      length outs = Z.to_nat outputs /\
      NoDup (ins ++ outs) /\
      input_nodes L = (Ok ins, L) /\
      output_nodes L = (Ok outs, L) /\
      (forall i, i ∈ ins ->
         item (_neighbors (node (world L) i)) DOWNSTREAM = outs) /\
      (forall o, o ∈ outs ->
         item (_neighbors (node (world L) o)) UPSTREAM = ins /\
         forall i, i ∈ ins ->
           exists wt, _weights (node (world L) o) !! i = Some wt /\
                      unit_interval wt)
  else
    new_LayerList random_random w inputs outputs
      = (Raise ValueError, {| chain := DLL.empty; world := w |}).
Proof.
  intros Hrand. unfold new_LayerList, LayerList_init. rewrite bind_modify.
  destruct (decide (1 <= inputs /\ 1 <= outputs)%Z) as [Hok|Hbad].
  - destruct (decide (inputs < 1 \/ outputs < 1)%Z) as [Hlt|_]; [lia|].
    destruct (new_layer_spec (Z.to_nat inputs) w)
      as (ins & w1 & E1 & Hlen1 & Hnd1 & Hfr1 & Hdom1 & _).
    destruct (new_layer_spec (Z.to_nat outputs) w1)
      as (outs & w2 & E2 & Hlen2 & Hnd2 & Hfr2 & Hdom2 & _).
    run_world E1. run_world E2.
    destruct (add_to_head_spec (DLL.empty (A:=list loc)) [] ins is_list_empty)
      as (c1 & Ec1 & Hl1 & Hcur1).
    run_chain Ec1.
    set (h := fresh (dom (DLL.store (DLL.empty (A:=list loc))))) in *.
    destruct (add_after_current_spec c1 [] h ins [] outs Hl1 Hcur1)
      as (c2 & Ec2 & Hl2 & Hcur2).
    run_chain Ec2.
    set (t := fresh (dom (DLL.store c1))) in *. simpl in Hl2.
    match goal with |- context [_link_with_next _ ?s] => set (L2 := s) end.
    destruct (link_with_next_spec L2 [] h ins t outs [] Hl2 Hcur2)
      as (w3 & E3 & Hi & Ho & _).
    rewrite E3. eexists _, h, t, ins, outs. split; [reflexivity|].
    simpl. refine (conj Hl2 (conj Hlen1 (conj Hlen2 (conj _ (conj _ (conj _ (conj _ _))))))).
    + apply NoDup_app. repeat split; try assumption.
      intros x Hx Hx'. destruct (Hfr1 _ Hx) as [_ Hin].
      destruct (Hfr2 _ Hx') as [Hnin _]. contradiction.
    + apply (input_nodes_spec _ h ins [(t, outs)]). exact Hl2.
    + apply (output_nodes_spec _ [(h, ins)] t outs). exact Hl2.
    + intros i Hin. now destruct (Hi i Hin).
    + intros o Hin. destruct (Ho o Hin) as (Hn & _ & Hw). split; [exact Hn|].
      intros i Hi'. destruct (Hw i Hi') as (j & _ & Ej).
      exists (random_random j). split; [exact Ej|apply Hrand].
  - destruct (decide (inputs < 1 \/ outputs < 1)%Z) as [_|Hge]; [|lia].
    reflexivity.
Qed.

End LayerFacts.

(** *** [_check_in] *)

Lemma index_None l x : index l x = None <-> x ∉ l.
Proof.
  induction l as [|y l IH]; simpl.
  - split; [intros _; apply not_elem_of_nil|reflexivity].
  - destruct (decide (y = x)) as [->|Hne].
    + split; [discriminate|]. intros H. exfalso. apply H, elem_of_cons.
      now left.
    + rewrite not_elem_of_cons. destruct (index l x); simpl.
      * split; [discriminate|]. intros [_ H]. now apply IH in H.
      * split; [|reflexivity]. intros _. split; [congruence|now apply IH].
Qed.

Lemma index_Some l x i :
  index l x = Some i <->
  l !! i = Some x /\ forall j, j < i -> l !! j <> Some x.
Proof.
  revert i. induction l as [|y l IH]; intros i; simpl.
  - split; [discriminate|]. intros [H _]. discriminate.
  - destruct (decide (y = x)) as [->|Hne].
    + split.
      * intros [= <-]. split; [reflexivity|]. intros j Hj. lia.
      * intros [Hi Hfirst]. destruct i as [|i]; [reflexivity|].
        exfalso. apply (Hfirst 0); [lia|reflexivity].
    + destruct (index l x) as [k|] eqn:Ek; simpl.
      * split.
        -- intros [= <-]. destruct (proj1 (IH k) eq_refl) as [Hk Hfirst].
           split; [exact Hk|]. intros [|j] Hj; simpl; [congruence|].
           apply Hfirst. lia.
        -- intros [Hi Hfirst]. destruct i as [|i]; [simpl in Hi; congruence|].
           f_equal. simpl in Hi.
           assert (E : Some k = Some i); [|congruence].
           apply IH. split; [exact Hi|].
           intros j Hj. apply (Hfirst (S j)). lia.
      * split; [discriminate|]. intros [Hi Hfirst].
        destruct i as [|i]; [simpl in Hi; congruence|]. simpl in Hi.
        exfalso. assert (E : @None nat = Some i); [|congruence].
        apply IH. split; [exact Hi|]. intros j Hj. apply (Hfirst (S j)). lia.
Qed.

Lemma check_in_missing self node_ side w :
  index (item (_neighbors (node w self)) side) node_ = None ->
  _check_in self node_ side w = (Raise ValueError, w).
Proof. intros H. unfold _check_in. rewrite bind_gets, H. reflexivity. Qed.

(** What a successful check-in leaves in the neurode. *)
Lemma check_in_present self node_ side w i :
  index (item (_neighbors (node w self)) side) node_ = Some i ->
  let mask := Z.lor (item (_reporting_nodes (node w self)) side)
                    (Z.shiftl 1 (Z.of_nat i)) in
  let complete :=
    bool_decide (mask = item (_reference_value (node w self)) side) in
  _check_in self node_ side w =
  (Ok complete,
   update self (with_reporting side (if complete then 0%Z else mask)) w).
Proof.
  intros H mask complete. unfold _check_in. rewrite bind_gets, H.
  mnorm. rewrite !node_update_eq.
  assert (E1 : forall m n,
             item (_reporting_nodes (with_reporting side m n)) side = m)
    by now destruct side.
  rewrite E1. fold mask.
  change (_reference_value (with_reporting side mask (node w self)))
    with (_reference_value (node w self)).
  subst complete. destruct (decide (mask = _)) as [E|E].
  - rewrite bool_decide_eq_true_2 by exact E. mnorm. unfold ret.
    rewrite update_update. f_equal. f_equal.
    unfold update. f_equal. f_equal. now destruct side.
  - rewrite bool_decide_eq_false_2 by exact E. reflexivity.
Qed.

(** C4.  [_check_in(node, side)]: when [node] occurs in [neighbors[side]],
    at first position [i], the call sets bit [i] of the reporting mask and
    returns [True] exactly when the mask then equals
    [reference_value[side]]; in that case it leaves the mask at zero, and
    otherwise it leaves the mask with the bit set; nothing else changes.
    When [node] does not occur in [neighbors[side]] the call raises
    [ValueError] (the not-found fault of [list.index]) and the state is
    untouched. *)
Theorem check_in_spec (w : World) (self node_ : loc) (side : Side) :
  let nbrs := item (_neighbors (node w self)) side in
  let reporting := item (_reporting_nodes (node w self)) side in
  let reference := item (_reference_value (node w self)) side in
  if decide (node_ ∈ nbrs)
  then
    exists i,
      nbrs !! i = Some node_ /\
      (forall j, j < i -> nbrs !! j <> Some node_) /\
      let mask := Z.lor reporting (Z.shiftl 1 (Z.of_nat i)) in
      Z.testbit mask (Z.of_nat i) = true /\
      _check_in self node_ side w =
      (Ok (bool_decide (mask = reference)),
       update self
         (with_reporting side (if decide (mask = reference) then 0%Z else mask))
         w)
  else
    _check_in self node_ side w = (Raise ValueError, w).
Proof.
  intros nbrs reporting reference.
  destruct (decide (node_ ∈ nbrs)) as [Hin|Hnin].
  - destruct (index nbrs node_) as [i|] eqn:Ei.
    + exists i. pose proof Ei as Ei'. apply index_Some in Ei' as [Hi Hfirst].
      refine (conj Hi (conj Hfirst _)). intros mask. split.
      * subst mask. rewrite Z.lor_spec, Z.shiftl_spec by lia.
        rewrite Z.sub_diag. simpl. apply orb_true_r.
      * rewrite (check_in_present self node_ side w i Ei).
        fold reporting mask reference.
        destruct (decide (mask = reference)) as [E|E].
        -- now rewrite bool_decide_eq_true_2.
        -- now rewrite bool_decide_eq_false_2.
    + apply index_None in Ei. contradiction.
  - apply check_in_missing. now apply index_None.
Qed.

Lemma data_ready_upstream_S np_exp py_sum depth self node_ :
  data_ready_upstream np_exp py_sum (S depth) self node_ =
  (let* complete := _check_in self node_ UPSTREAM in
   if complete : bool
   then _calculate_value np_exp py_sum self >>
        fire_downstream_with (data_ready_upstream np_exp py_sum depth) self
   else ret tt).
Proof. reflexivity. Qed.

Lemma data_ready_downstream_S depth self node_ :
  data_ready_downstream (S depth) self node_ =
  (let* complete := _check_in self node_ DOWNSTREAM in
   if complete : bool
   then _calculate_delta self None >>
        fire_upstream_with (data_ready_downstream depth) self >>
        _update_weights self
   else ret tt).
Proof. reflexivity. Qed.

Section LayerEdits.
Variable np_exp : float -> float.
Variable py_sum : list float -> float.
Variable random_random : nat -> float.

Lemma last_or_cases {A} (cells : list (loc * A)) (n : loc) x :
  last_or cells (Some n) = Some x -> x = n \/ x ∈ cells.*1.
Proof.
  destruct cells as [|c cells' _] using rev_ind.
  - unfold last_or. simpl. intros [= ->]. now left.
  - rewrite last_or_snoc. intros [= <-]. right. rewrite fmap_app.
    apply elem_of_app. right. apply elem_of_cons. now left.
Qed.

Lemma add_layer_spec L pre c A n B post size :
  is_list (chain L) (pre ++ (c, A) :: (n, B) :: post) ->
  DLL._curr (chain L) = Some c ->
  (0 <= size)%Z ->
  exists L' f H w1 w2,
    add_layer random_random size L = (Ok tt, L') /\
    is_list (chain L') (pre ++ (c, A) :: (f, H) :: (n, B) :: post) /\
    DLL._curr (chain L') = Some c /\
    new_layer (Z.to_nat size) (world L) = (Ok H, w1) /\
    link_effect random_random A H w1 w2 /\
    link_effect random_random H B w2 (world L').
Proof.
  intros Hl Hcur Hsize. pose proof Hl as (Hnd & _ & _ & Ht & _).
  unfold add_layer. rewrite !bind_gets, Hcur, Ht.
  rewrite last_or_app, !last_or_cons.
  destruct (decide (Some c = last_or post (Some (n, B).1))) as [E|_].
  { exfalso. symmetry in E. apply last_or_cases in E.
    rewrite fmap_app, !fmap_cons in Hnd. apply NoDup_app in Hnd as (_ & _ & Hnd).
    apply NoDup_cons in Hnd as [Hnd _]. apply Hnd. simpl in *.
    destruct E as [->|E]; apply elem_of_cons; [now left|now right]. }
  destruct (decide (size < 0)%Z) as [?|_]; [lia|].
  destruct (new_layer_spec (Z.to_nat size) (world L))
    as (H & w1 & E1 & _).
  run_world E1.
  destruct (add_after_current_spec (chain L) pre c A ((n, B) :: post) H Hl Hcur)
    as (c1 & Ec1 & Hl1 & Hcur1).
  run_chain Ec1. set (f := fresh (dom (DLL.store (chain L)))) in *.
  match goal with |- context [bind (_link_with_next _) _ ?s] => set (L1 := s) end.
  destruct (link_with_next_spec random_random L1 pre c A f H ((n, B) :: post)
              Hl1 Hcur1) as (w2 & E2 & Heff2).
  rewrite (bind_ok _ _ _ _ _ E2).
  assert (Hmf : DLL.move_forward c1 = (Ok tt, DLL.set_curr (Some f) c1)).
  { eapply move_forward_spec; eauto. }
  run_chain Hmf.
  match goal with |- context [bind (_link_with_next _) _ ?s] => set (L2 := s) end.
  assert (Hl2 : is_list (chain L2) ((pre ++ [(c, A)]) ++ (f, H) :: (n, B) :: post)).
  { rewrite <- app_assoc. simpl. apply is_list_set_curr; [exact Hl1|].
    rewrite fmap_app, !fmap_cons. apply elem_of_app. right.
    apply elem_of_cons. right. apply elem_of_cons. now left. }
  destruct (link_with_next_spec random_random L2 (pre ++ [(c, A)]) f H n B post
              Hl2 eq_refl) as (w3 & E3 & Heff3).
  rewrite (bind_ok _ _ _ _ _ E3).
  assert (Hmb : DLL.move_backward (DLL.set_curr (Some f) c1)
                = (Ok tt, DLL.set_curr (Some c) (DLL.set_curr (Some f) c1))).
  { apply (move_backward_spec _ pre c A f H ((n, B) :: post)); [|reflexivity].
    rewrite <- app_assoc in Hl2. exact Hl2. }
  match goal with
  | |- context [on_chain _ ?s] => rewrite (on_chain_ok _ s _ _ Hmb)
  end.
  eexists _, f, H, w1, w2. split; [reflexivity|]. simpl.
  refine (conj _ (conj eq_refl (conj E1 (conj Heff2 Heff3)))).
  apply is_list_set_curr.
  - rewrite <- app_assoc in Hl2. exact Hl2.
  - rewrite fmap_app, !fmap_cons. apply elem_of_app. right.
    apply elem_of_cons. now left.
Qed.

Lemma remove_layer_spec L pre c A r R n B post :
  is_list (chain L) (pre ++ (c, A) :: (r, R) :: (n, B) :: post) ->
  DLL._curr (chain L) = Some c ->
  exists L',
    remove_layer random_random L = (Ok tt, L') /\
    is_list (chain L') (pre ++ (c, A) :: (n, B) :: post) /\
    DLL._curr (chain L') = Some c /\
    link_effect random_random A B (world L) (world L').
Proof.
  intros Hl Hcur. pose proof Hl as (Hnd & _ & _ & Ht & _).
  pose proof (is_list_lookup _ _ _ _ _ Hl) as Hc. simpl in Hc.
  rewrite fmap_app, !fmap_cons in Hnd. apply NoDup_app in Hnd as (_ & _ & Hnd).
  apply NoDup_cons in Hnd as [Hnd1 Hnd2]. apply NoDup_cons in Hnd2 as [Hnd2 _].
  simpl in Hnd1, Hnd2.
  unfold remove_layer. rewrite !bind_gets, Hcur, Ht.
  rewrite last_or_app, !last_or_cons. simpl.
  destruct (decide (Some c = last_or post (Some n))) as [E|_].
  { exfalso. symmetry in E. apply last_or_cases in E. apply Hnd1.
    apply elem_of_cons. right.
    destruct E as [->|E]; apply elem_of_cons; [now left|now right]. }
  rewrite bind_assoc.
  run_chain (deref_ok _ _ _ Hc). simpl. rewrite bind_ret.
  rewrite bool_decide_eq_false_2.
  2:{ intros E. symmetry in E. apply last_or_cases in E. apply Hnd2.
      destruct E as [->|E]; apply elem_of_cons; [now left|now right]. }
  assert (E0 : set_chain (chain L) L = L) by now destruct L.
  rewrite E0.
  destruct (remove_after_current_spec (chain L) pre c A r R ((n, B) :: post)
              Hl Hcur) as (c1 & Ec1 & Hl1 & Hcur1).
  run_chain Ec1.
  destruct (link_with_next_spec random_random (set_chain c1 L) pre c A n B post
              Hl1 Hcur1) as (w' & E & Heff).
  rewrite E. eexists; split; [reflexivity|]. simpl.
  refine (conj Hl1 (conj Hcur1 Heff)).
Qed.

Lemma add_layer_ok_inv L cells size L1 :
  is_list (chain L) cells ->
  add_layer random_random size L = (Ok tt, L1) ->
  exists pre c A n B post,
    cells = pre ++ (c, A) :: (n, B) :: post /\
    DLL._curr (chain L) = Some c /\
    (0 <= size)%Z.
Proof.
  intros Hl Hadd. pose proof Hl as (Hnd & _ & _ & Ht & Hc).
  unfold add_layer in Hadd. rewrite !bind_gets in Hadd.
  destruct (decide (DLL._curr (chain L) = DLL._tail (chain L))) as [|Hne];
    [discriminate|].
  destruct (decide (size < 0)%Z) as [|Hsize]; [discriminate|].
  destruct (DLL._curr (chain L)) as [c|] eqn:Hcur.
  - specialize (Hc c eq_refl).
    apply list_elem_of_fmap in Hc as ([c' A] & Ec & Hin). simpl in Ec. subst c'.
    apply list_elem_of_split in Hin as (pre & rest & ->).
    destruct rest as [|[n B] post].
    + exfalso. apply Hne. rewrite Ht, last_or_app, last_or_cons. reflexivity.
    + exists pre, c, A, n, B, post. repeat split. lia.
  - exfalso. destruct (new_layer_spec (Z.to_nat size) (world L))
      as (H & w1 & E1 & _).
    revert Hadd. run_world E1.
    unfold bind at 1, on_chain at 1, lift, DLL.add_after_current.
    simpl. rewrite bind_gets, Hcur. discriminate.
Qed.

(** C6.  From any state of a topology (a list satisfying the doubly
    linked invariant) in which [add_layer(size)] succeeds, the cursor is on
    a layer [A] that has a following layer [B]; [remove_layer()] called
    right after it succeeds, leaves the layers and the cursor as they were
    before [add_layer], and rewires the two flanking layers to each other:
    every node of [A] has exactly the nodes of [B] as DOWNSTREAM neighbors
    and every node of [B] exactly the nodes of [A] as UPSTREAM neighbors.
    The weights on these edges are values [random.random()] returned during
    [remove_layer] (its draws start at number [draws (world L1)]), not the
    weights held before. *)
Theorem add_then_remove_layer L cells size L1 :
  is_list (chain L) cells ->
  add_layer random_random size L = (Ok tt, L1) ->
  exists pre c A n B post L2,
    cells = pre ++ (c, A) :: (n, B) :: post /\
    DLL._curr (chain L) = Some c /\
    DLL._curr (chain L1) = Some c /\
    remove_layer random_random L1 = (Ok tt, L2) /\
    is_list (chain L2) cells /\
    DLL._curr (chain L2) = Some c /\
    (forall a, a ∈ A ->
       item (_neighbors (node (world L2) a)) DOWNSTREAM = B) /\
    (forall b, b ∈ B ->
       item (_neighbors (node (world L2) b)) UPSTREAM = A /\
       forall a, a ∈ A ->
         exists j, draws (world L1) <= j /\
           _weights (node (world L2) b) !! a = Some (random_random j)).
Proof.
  intros Hl Hadd.
  destruct (add_layer_ok_inv _ _ _ _ Hl Hadd)
    as (pre & c & A & n & B & post & -> & Hcur & Hsize).
  destruct (add_layer_spec L pre c A n B post size Hl Hcur Hsize)
    as (L1' & f & H & w1 & w2 & E1 & Hl1 & Hcur1 & _).
  rewrite E1 in Hadd. injection Hadd as <-.
  destruct (remove_layer_spec L1' pre c A f H n B post Hl1 Hcur1)
    as (L2 & E2 & Hl2 & Hcur2 & Ha & Hb & _).
  exists pre, c, A, n, B, post, L2.
  refine (conj eq_refl (conj Hcur (conj Hcur1 (conj E2 (conj Hl2 (conj Hcur2
            (conj _ _))))))).
  - intros a Hin. now destruct (Ha a Hin).
  - intros b Hin. destruct (Hb b Hin) as (Hn & _ & Hw). split; assumption.
Qed.

(** C9.  With the cursor on a layer [A] that has a following layer [B]:
    [add_layer] rejects a size only when it is negative ([ValueError],
    nothing changed), and [add_layer(0)] succeeds.  It inserts an empty
    layer after the cursor; afterwards every node of [A] has an empty
    DOWNSTREAM neighbor list with reference value 0, and every node of [B]
    has an empty UPSTREAM neighbor list with reference value 0.  Forward
    propagation then stops at the cursor layer: [set_input] on a node of
    [A] assigns its value and signals nobody, and no node can report to a
    node of [B] ([data_ready_upstream] raises the not-found fault of
    [_check_in] and changes nothing), so the values of [B] are never
    recomputed. *)
Theorem add_empty_layer L pre c A n B post :
  is_list (chain L) (pre ++ (c, A) :: (n, B) :: post) ->
  DLL._curr (chain L) = Some c ->
  (forall size, (size < 0)%Z ->
     add_layer random_random size L = (Raise ValueError, L)) /\
  exists L' f,
    add_layer random_random 0 L = (Ok tt, L') /\
    is_list (chain L') (pre ++ (c, A) :: (f, []) :: (n, B) :: post) /\
    DLL._curr (chain L') = Some c /\
    (forall a, a ∈ A ->
       item (_neighbors (node (world L') a)) DOWNSTREAM = [] /\
       item (_reference_value (node (world L') a)) DOWNSTREAM = 0%Z /\
       forall depth v,
         set_input np_exp py_sum depth a v (world L')
         = (Ok tt, update a (with_value v) (world L'))) /\
    (forall b, b ∈ B ->
       item (_neighbors (node (world L') b)) UPSTREAM = [] /\
       item (_reference_value (node (world L') b)) UPSTREAM = 0%Z /\
       forall depth x,
         data_ready_upstream np_exp py_sum (S depth) b x (world L')
         = (Raise ValueError, world L')).
Proof.
  intros Hl Hcur. split.
  - intros size Hsize. pose proof Hl as (Hnd & _ & _ & Ht & _).
    unfold add_layer. rewrite !bind_gets, Hcur, Ht.
    rewrite last_or_app, !last_or_cons.
    destruct (decide (Some c = last_or post (Some (n, B).1))) as [E|_].
    { exfalso. symmetry in E. apply last_or_cases in E.
      rewrite fmap_app, !fmap_cons in Hnd.
      apply NoDup_app in Hnd as (_ & _ & Hnd).
      apply NoDup_cons in Hnd as [Hnd _]. apply Hnd. simpl in *.
      destruct E as [->|E]; apply elem_of_cons; [now left|now right]. }
    destruct (decide (size < 0)%Z); [reflexivity|lia].
  - destruct (add_layer_spec L pre c A n B post 0 Hl Hcur (Z.le_refl 0))
      as (L' & f & H & w1 & w2 & E & Hl' & Hcur' & Enew & Heff1 & Heff2).
    simpl in Enew. injection Enew as <- <-.
    exists L', f. refine (conj E (conj Hl' (conj Hcur' (conj _ _)))).
    + intros a Ha. destruct Heff1 as (Ha1 & _).
      destruct Heff2 as (_ & _ & Hd2 & _).
      destruct (Ha1 a Ha) as [Hn1 Hr1].
      destruct (Hd2 a (not_elem_of_nil a)) as [Hn2 Hr2].
      rewrite Hn1 in Hn2. rewrite Hr1 in Hr2.
      change (2 ^ Z.of_nat (length (@nil loc)) - 1)%Z with 0%Z in Hr2.
      refine (conj Hn2 (conj Hr2 _)). intros depth v.
      unfold set_input, fire_downstream_with. rewrite bind_modify, bind_gets.
      rewrite node_update_eq.
      change (_neighbors (with_value v (node (world L') a)))
        with (_neighbors (node (world L') a)).
      rewrite Hn2. reflexivity.
    + intros b Hb. destruct Heff2 as (_ & Hb2 & _).
      destruct (Hb2 b Hb) as (Hn & Hr & _).
      change (2 ^ Z.of_nat (length (@nil loc)) - 1)%Z with 0%Z in Hr.
      refine (conj Hn (conj Hr _)). intros depth x.
      rewrite data_ready_upstream_S.
      assert (Hx : index (item (_neighbors (node (world L') b)) UPSTREAM) x
                   = None) by now rewrite Hn.
      now rewrite (bind_raise _ _ _ _ _ (check_in_missing b x UPSTREAM _ Hx)).
Qed.

End LayerEdits.

(** *** The topology claims on a concrete network *)

Lemma unit_interval_rnd_half k : unit_interval (rnd_half k).
Proof. split; reflexivity. Qed.

Lemma is_list_net_2_1 : is_list (chain net_2_1) [(0, [0; 1]); (1, [2])].
Proof.
  refine (conj _ (conj _ (conj _ (conj _ _)))).
  - apply (bool_decide_unpack _). vm_compute. exact I.
  - simpl. repeat split; vm_compute; reflexivity.
  - reflexivity.
  - reflexivity.
  - vm_compute. intros c [= <-]. apply elem_of_cons. now left.
Qed.

Lemma construction_witness :
  exists L h t ins outs,
    new_LayerList rnd_half initial_World 2 1 = (Ok tt, L) /\
    is_list (chain L) [(h, ins); (t, outs)] /\
    length ins = 2 /\ length outs = 1.
Proof.
  pose proof (construction rnd_half initial_World 2 1 unit_interval_rnd_half)
    as H.
  destruct (decide (1 <= 2 /\ 1 <= 1)%Z) as [_|Hbad]; [|exfalso; lia].
  destruct H as (L & h & t & ins & outs & E & Hl & Hi & Ho & _).
  exists L, h, t, ins, outs.
  exact (conj E (conj Hl (conj Hi Ho))).
Defined.

Lemma add_then_remove_layer_witness :
  exists L2,
    remove_layer rnd_half net_2_2_1 = (Ok tt, L2) /\
    is_list (chain L2) [(0, [0; 1]); (1, [2])].
Proof.
  destruct (add_then_remove_layer rnd_half net_2_1 [(0, [0; 1]); (1, [2])] 2
              net_2_2_1 is_list_net_2_1)
    as (pre & c & A & n & B & post & L2 & _ & _ & _ & E & Hl & _).
  { vm_compute. reflexivity. }
  exists L2. split; assumption.
Defined.

Lemma add_empty_layer_witness :
  exists L' f,
    add_layer rnd_half 0 net_2_1 = (Ok tt, L') /\
    is_list (chain L') [(0, [0; 1]); (f, []); (1, [2])].
Proof.
  destruct (add_empty_layer exp_quad sum_left rnd_half net_2_1 [] 0 [0; 1] 1
              [2] [] is_list_net_2_1 eq_refl)
    as (_ & L' & f & E & Hl & _).
  exists L', f. split; assumption.
Defined.

(** ** Reporting masks *)

Lemma testbit_bits ps k :
  Z.testbit (bits ps) (Z.of_nat k) = bool_decide (k ∈ ps).
Proof.
  induction ps as [|p ps IH]; simpl.
  - rewrite Z.bits_0. reflexivity.
  - rewrite Z.lor_spec, IH, Z.shiftl_spec by lia.
    destruct (decide (k = p)) as [->|Hne].
    + rewrite Z.sub_diag. simpl. rewrite orb_true_r. symmetry.
      apply bool_decide_eq_true_2, elem_of_cons. now left.
    + assert (E : Z.testbit 1 (Z.of_nat k - Z.of_nat p) = false).
      { destruct (decide (k < p)).
        - apply Z.testbit_neg_r. lia.
        - replace (Z.of_nat k - Z.of_nat p)%Z
            with (Z.succ (Z.of_nat (k - p - 1))) by lia.
          apply (Z.bits_above_log2 1); simpl; lia. }
      rewrite E, orb_false_r. apply bool_decide_ext.
      rewrite elem_of_cons. tauto.
Qed.

Lemma bits_nonneg ps : (0 <= bits ps)%Z.
Proof.
  induction ps as [|p ps IH]; simpl; [lia|].
  apply Z.lor_nonneg. split; [exact IH|]. apply Z.shiftl_nonneg. lia.
Qed.

Lemma testbit_ones k n :
  Z.testbit (2 ^ Z.of_nat n - 1) (Z.of_nat k) = bool_decide (k < n).
Proof.
  replace (2 ^ Z.of_nat n - 1)%Z with (Z.ones (Z.of_nat n))
    by (rewrite Z.ones_equiv; lia).
  destruct (decide (k < n)) as [H|H].
  - rewrite bool_decide_eq_true_2 by exact H. apply Z.ones_spec_low. lia.
  - rewrite bool_decide_eq_false_2 by exact H. apply Z.ones_spec_high. lia.
Qed.

Lemma bits_full ps n : bits ps = (2 ^ Z.of_nat n - 1)%Z <-> all_reported ps n.
Proof.
  split.
  - intros E p. pose proof (testbit_bits ps p) as H1.
    rewrite E, testbit_ones in H1.
    destruct (decide (p < n)) as [H|H], (decide (p ∈ ps)) as [H'|H'];
      try tauto.
    + rewrite bool_decide_eq_true_2, bool_decide_eq_false_2 in H1 by done.
      discriminate.
    + rewrite bool_decide_eq_false_2, bool_decide_eq_true_2 in H1 by done.
      discriminate.
  - intros H. apply Z.bits_inj'. intros k Hk.
    rewrite <- (Z2Nat.id k Hk), testbit_bits, testbit_ones.
    apply bool_decide_ext, H.
Qed.

Lemma elem_of_upto k p : p ∈ upto k <-> p < k.
Proof.
  induction k as [|k IH]; simpl.
  - split; [intros H; inversion H|lia].
  - rewrite elem_of_cons, IH. lia.
Qed.

Lemma all_reported_upto k : all_reported (upto k) k.
Proof. intros p. apply elem_of_upto. Qed.

Lemma not_all_reported_upto k n : k < n -> ~ all_reported (upto k) n.
Proof. intros Hk H. specialize (H k). rewrite elem_of_upto in H. lia. Qed.

(** ** Forward propagation *)

Lemma with_reporting_id side n :
  with_reporting side (item (_reporting_nodes n) side) n = n.
Proof. destruct n as [[] ? ? ? ? ?], side; reflexivity. Qed.

Lemma with_reporting_twice side r r' n :
  with_reporting side r' (with_reporting side r n) = with_reporting side r' n.
Proof. destruct n as [[] ? ? ? ? ?], side; reflexivity. Qed.

Lemma with_value_id n : with_value (_value n) n = n.
Proof. now destruct n. Qed.

Lemma item_with_reporting side r n :
  item (_reporting_nodes (with_reporting side r n)) side = r.
Proof. now destruct side. Qed.

Lemma same_globals_refl w : same_globals w w.
Proof. split; reflexivity. Qed.

Lemma same_globals_trans w1 w2 w3 :
  same_globals w1 w2 -> same_globals w2 w3 -> same_globals w1 w3.
Proof. intros [H1 H2] [H3 H4]. split; congruence. Qed.

Lemma same_globals_update w self f : same_globals w (update self f w).
Proof. split; reflexivity. Qed.

Lemma forward_frame_refl w : forward_frame w w.
Proof.
  split; [|split; [apply same_globals_refl|reflexivity]].
  intros n. exists (_value (node w n)),
    (item (_reporting_nodes (node w n)) UPSTREAM).
  now rewrite with_reporting_id, with_value_id.
Qed.

Lemma forward_frame_trans w1 w2 w3 :
  forward_frame w1 w2 -> forward_frame w2 w3 -> forward_frame w1 w3.
Proof.
  intros (H1 & G1 & Hh1) (H2 & G2 & Hh2).
  split; [|split; [eapply same_globals_trans; eauto|congruence]].
  intros n. destruct (H1 n) as (v1 & r1 & E1), (H2 n) as (v2 & r2 & E2).
  exists v2, r2. rewrite E2, E1. now destruct (node w1 n) as [[] ? ? ? ? ?].
Qed.

(** A world given node by node from [w] by value and UPSTREAM mask
    assignments is within the forward frame of [w]. *)
Lemma forward_frame_pointwise w w' :
  (forall n, exists v r,
     node w' n = with_value v (with_reporting UPSTREAM r (node w n))) ->
  same_globals w w' -> history w' = history w -> forward_frame w w'.
Proof. intros H1 H2 H3. exact (conj H1 (conj H2 H3)). Qed.

Lemma forward_frame_neighbors w w' n :
  forward_frame w w' -> _neighbors (node w' n) = _neighbors (node w n).
Proof. intros [H _]. destruct (H n) as (v & r & ->). reflexivity. Qed.

Lemma forward_frame_reference w w' n :
  forward_frame w w' ->
  _reference_value (node w' n) = _reference_value (node w n).
Proof. intros [H _]. destruct (H n) as (v & r & ->). reflexivity. Qed.

Lemma forward_frame_weights w w' n :
  forward_frame w w' -> _weights (node w' n) = _weights (node w n).
Proof. intros [H _]. destruct (H n) as (v & r & ->). reflexivity. Qed.

Lemma forward_frame_delta w w' n :
  forward_frame w w' -> _delta (node w' n) = _delta (node w n).
Proof. intros [H _]. destruct (H n) as (v & r & ->). reflexivity. Qed.

Lemma forward_frame_reporting_down w w' n :
  forward_frame w w' ->
  item (_reporting_nodes (node w' n)) DOWNSTREAM
  = item (_reporting_nodes (node w n)) DOWNSTREAM.
Proof. intros [H _]. destruct (H n) as (v & r & ->). reflexivity. Qed.

Lemma layer_pair_wired_frame w w' A B :
  (forall n, _neighbors (node w' n) = _neighbors (node w n)) ->
  (forall n, _reference_value (node w' n) = _reference_value (node w n)) ->
  layer_pair_wired w A B -> layer_pair_wired w' A B.
Proof.
  intros Hn Hr [H1 H2]. split; intros x Hx; rewrite Hn, Hr; auto.
Qed.

Lemma wired_from_frame w w' A rest :
  (forall n, _neighbors (node w' n) = _neighbors (node w n)) ->
  (forall n, _reference_value (node w' n) = _reference_value (node w n)) ->
  wired_from w A rest -> wired_from w' A rest.
Proof.
  intros Hn Hr. revert A. induction rest as [|B rest IH]; intros A; simpl.
  - intros H a Ha. rewrite Hn. auto.
  - intros [H1 H2]. split; [eapply layer_pair_wired_frame; eauto|auto].
Qed.

Lemma index_middle B1 b B2 :
  b ∉ B1 -> index (B1 ++ b :: B2) b = Some (length B1).
Proof.
  induction B1 as [|x B1 IH]; simpl; intros Hb.
  - now rewrite decide_True.
  - apply not_elem_of_cons in Hb as [Hne Hb].
    rewrite decide_False by congruence. now rewrite IH.
Qed.

Section ForwardFacts.
Variable np_exp : float -> float.
Variable py_sum : list float -> float.

Lemma weighted_inputs_ext w w' b :
  item (_neighbors (node w' b)) UPSTREAM
    = item (_neighbors (node w b)) UPSTREAM ->
  _weights (node w' b) = _weights (node w b) ->
  (forall a, a ∈ item (_neighbors (node w b)) UPSTREAM ->
     _value (node w' a) = _value (node w a)) ->
  weighted_inputs w' b = weighted_inputs w b.
Proof.
  intros Hn Hw Hv. unfold weighted_inputs. rewrite Hn.
  apply map_ext_in. intros a Ha. apply list_elem_of_In in Ha.
  unfold get_weight, value. now rewrite Hw, (Hv a Ha).
Qed.

Lemma activation_ext w w' b :
  item (_neighbors (node w' b)) UPSTREAM
    = item (_neighbors (node w b)) UPSTREAM ->
  _weights (node w' b) = _weights (node w b) ->
  (forall a, a ∈ item (_neighbors (node w b)) UPSTREAM ->
     _value (node w' a) = _value (node w a)) ->
  activation np_exp py_sum w' b = activation np_exp py_sum w b.
Proof.
  intros Hn Hw Hv. unfold activation.
  now rewrite (weighted_inputs_ext w w' b Hn Hw Hv).
Qed.

(** A check-in that does not complete the mask only records the bit. *)
Lemma ready_up_incomplete depth b a p w :
  index (item (_neighbors (node w b)) UPSTREAM) a = Some p ->
  Z.lor (item (_reporting_nodes (node w b)) UPSTREAM)
        (Z.shiftl 1 (Z.of_nat p))
    <> item (_reference_value (node w b)) UPSTREAM ->
  data_ready_upstream np_exp py_sum (S depth) b a w =
  (Ok tt,
   update b
     (with_reporting UPSTREAM
        (Z.lor (item (_reporting_nodes (node w b)) UPSTREAM)
               (Z.shiftl 1 (Z.of_nat p)))) w).
Proof.
  intros Hi Hne. rewrite data_ready_upstream_S.
  rewrite (bind_ok _ _ _ _ _ (check_in_present b a UPSTREAM w p Hi)).
  now rewrite bool_decide_eq_false_2.
Qed.

(** A check-in that completes the mask clears it; the value is computed
    and the downstream neighbors are signalled. *)
Lemma ready_up_complete depth b a p w :
  index (item (_neighbors (node w b)) UPSTREAM) a = Some p ->
  Z.lor (item (_reporting_nodes (node w b)) UPSTREAM)
        (Z.shiftl 1 (Z.of_nat p))
    = item (_reference_value (node w b)) UPSTREAM ->
  data_ready_upstream np_exp py_sum (S depth) b a w =
  for_each (item (_neighbors (node w b)) DOWNSTREAM)
    (fun c => data_ready_upstream np_exp py_sum depth c b)
    (update b
       (fun n => with_value (activation np_exp py_sum w b)
                   (with_reporting UPSTREAM 0 n)) w).
Proof.
  intros Hi He. rewrite data_ready_upstream_S.
  rewrite (bind_ok _ _ _ _ _ (check_in_present b a UPSTREAM w p Hi)).
  rewrite bool_decide_eq_true_2 by exact He.
  unfold _calculate_value, fire_downstream_with. mnorm.
  rewrite update_update, node_update_eq.
  assert (E : activation np_exp py_sum (update b (with_reporting UPSTREAM 0) w) b
              = activation np_exp py_sum w b).
  { apply activation_ext.
    - now rewrite node_update_eq.
    - now rewrite node_update_eq.
    - intros x _. rewrite node_update. now destruct (decide (x = b)) as [->|]. }
  unfold activation in E. rewrite E. reflexivity.
Qed.

(** Signalling a layer none of whose nodes completes. *)
Lemma fire_up_incomplete depth a A B p ps w :
  NoDup B ->
  index A a = Some p ->
  (forall b, b ∈ B ->
     item (_neighbors (node w b)) UPSTREAM = A /\
     item (_reference_value (node w b)) UPSTREAM
       = (2 ^ Z.of_nat (length A) - 1)%Z /\
     item (_reporting_nodes (node w b)) UPSTREAM = bits ps) ->
  ~ all_reported (p :: ps) (length A) ->
  exists w',
    for_each B (fun b => data_ready_upstream np_exp py_sum (S depth) b a) w
      = (Ok tt, w') /\
    (forall n,
       node w' n =
       if decide (n ∈ B)
       then with_reporting UPSTREAM (bits (p :: ps)) (node w n)
       else node w n) /\
    same_globals w w' /\
    history w' = history w.
Proof.
  intros Hnd Hi HB Hnot. revert w HB.
  induction B as [|b B IH]; intros w HB.
  - exists w. split; [reflexivity|]. split; [|split; [apply same_globals_refl|reflexivity]].
    intros n. rewrite decide_False; [reflexivity|apply not_elem_of_nil].
  - apply NoDup_cons in Hnd as [Hb Hnd].
    destruct (HB b) as (Hn & Hr & Hm); [apply elem_of_cons; now left|].
    simpl. erewrite bind_ok; cycle 1.
    { apply (ready_up_incomplete depth b a p); [now rewrite Hn|].
      rewrite Hr, Hm. change (bits ps) with (bits ps).
      intros E. apply Hnot. apply bits_full. exact E. }
    rewrite Hm.
    destruct (IH Hnd (update b (with_reporting UPSTREAM (bits (p :: ps))) w))
      as (w' & E & Hpt & Hg & Hh).
    { intros b' Hb'. rewrite node_update_ne by (intros ->; contradiction).
      apply HB. apply elem_of_cons. now right. }
    exists w'. split; [exact E|]. split; [|split; [exact Hg|exact Hh]].
    intros n. rewrite Hpt, node_update.
    destruct (decide (n = b)) as [->|Hne].
    + rewrite decide_False by exact Hb.
      rewrite decide_True by (apply elem_of_cons; now left). reflexivity.
    + destruct (decide (n ∈ B)) as [Hin|Hnin].
      * rewrite decide_True by (apply elem_of_cons; now right). reflexivity.
      * rewrite decide_False; [reflexivity|].
        rewrite not_elem_of_cons. split; assumption.
Qed.

(** The nodes [B1] at the front of a layer [B] all of whose upstream
    neighbors have now reported: each computes its value and signals the
    next layer [C], which cannot complete before the last node of [B]. *)
Lemma cascade_prefix depth a A B C p ps w B1 B2 :
  B = B1 ++ B2 ->
  C = [] \/ (B2 <> [] /\ 0 < depth) ->
  NoDup (A ++ B ++ C) ->
  index A a = Some p ->
  all_reported (p :: ps) (length A) ->
  (forall b, b ∈ B ->
     item (_neighbors (node w b)) UPSTREAM = A /\
     item (_reference_value (node w b)) UPSTREAM
       = (2 ^ Z.of_nat (length A) - 1)%Z /\
     item (_reporting_nodes (node w b)) UPSTREAM = bits ps /\
     item (_neighbors (node w b)) DOWNSTREAM = C) ->
  (forall c, c ∈ C ->
     item (_neighbors (node w c)) UPSTREAM = B /\
     item (_reference_value (node w c)) UPSTREAM
       = (2 ^ Z.of_nat (length B) - 1)%Z /\
     item (_reporting_nodes (node w c)) UPSTREAM = 0%Z) ->
  exists w1,
    for_each B1 (fun b => data_ready_upstream np_exp py_sum (S depth) b a) w
      = (Ok tt, w1) /\
    (forall n,
       node w1 n =
       if decide (n ∈ B1)
       then with_value (activation np_exp py_sum w n)
              (with_reporting UPSTREAM 0 (node w n))
       else if decide (n ∈ C)
            then with_reporting UPSTREAM (bits (upto (length B1))) (node w n)
            else node w n) /\
    same_globals w w1 /\
    history w1 = history w.
Proof.
  intros HB HC Hnd Hi Hall HwB HwC. revert B2 HB HC.
  induction B1 as [|b B1 IH] using rev_ind; intros B2 HB HC.
  - exists w. split; [reflexivity|].
    split; [|split; [apply same_globals_refl|reflexivity]].
    intros n. rewrite decide_False by apply not_elem_of_nil.
    destruct (decide (n ∈ C)) as [Hc|]; [|reflexivity].
    destruct (HwC n Hc) as (_ & _ & Hr). simpl. rewrite <- Hr.
    now rewrite with_reporting_id.
  - rewrite <- app_assoc in HB. simpl in HB.
    destruct (IH (b :: B2) HB) as (w1 & E1 & Hpt & Hg & Hh).
    { destruct HC as [HC|[_ HC]]; [now left|right].
      split; [discriminate|exact HC]. }
    rewrite (for_each_snoc _ _ _ _ _ E1).
    assert (HNB : NoDup B).
    { apply NoDup_app in Hnd as (_ & _ & Hnd).
      now apply NoDup_app in Hnd as (Hnd & _). }
    assert (HbB : b ∈ B).
    { rewrite HB. apply elem_of_app. right. apply elem_of_cons. now left. }
    assert (HbB1 : b ∉ B1).
    { rewrite HB in HNB. apply NoDup_app in HNB as (_ & HNB & _).
      intros Hin. apply (HNB _ Hin). apply elem_of_cons. now left. }
    assert (HbC : b ∉ C).
    { apply NoDup_app in Hnd as (_ & _ & Hnd).
      apply NoDup_app in Hnd as (_ & Hnd & _). now apply Hnd. }
    assert (HAx : forall x, x ∈ A -> (x ∉ B) /\ (x ∉ C)).
    { intros x Hx. apply NoDup_app in Hnd as (_ & Hnd & _).
      specialize (Hnd x Hx). rewrite not_elem_of_app in Hnd. exact Hnd. }
    destruct (HwB b HbB) as (Hbn & Hbr & Hbm & Hbd).
    assert (Eb : node w1 b = node w b).
    { rewrite Hpt. now rewrite !decide_False. }
    assert (Eact : activation np_exp py_sum w1 b
                   = activation np_exp py_sum w b).
    { apply activation_ext; rewrite ?Eb; try reflexivity.
      rewrite Hbn. intros x Hx. destruct (HAx x Hx) as [HxB HxC].
      rewrite Hpt. rewrite !decide_False; try assumption; [reflexivity|].
      intros Hin. apply HxB. rewrite HB. apply elem_of_app. now left. }
    rewrite (ready_up_complete depth b a p w1);
      [|rewrite Eb, Hbn; exact Hi
       |rewrite Eb, Hbr, Hbm; apply (proj2 (bits_full (p :: ps) (length A)));
        exact Hall].
    rewrite Eb, Hbd, Eact.
    set (w2 := update b
                 (fun n => with_value (activation np_exp py_sum w b)
                             (with_reporting UPSTREAM 0 n)) w1).
    assert (Hfire : exists w',
      for_each C (fun c => data_ready_upstream np_exp py_sum depth c b) w2
        = (Ok tt, w') /\
      (forall n,
         node w' n =
         if decide (n ∈ C)
         then with_reporting UPSTREAM (bits (upto (S (length B1))))
                (node w2 n)
         else node w2 n) /\
      same_globals w2 w' /\ history w' = history w2).
    { destruct HC as [->|[HB2 Hd]].
      - exists w2. split; [reflexivity|].
        split; [|split; [apply same_globals_refl|reflexivity]].
        intros n. now rewrite decide_False by apply not_elem_of_nil.
      - destruct depth as [|depth']; [lia|].
        apply (fire_up_incomplete depth' b B C (length B1) (upto (length B1))).
        + apply NoDup_app in Hnd as (_ & _ & Hnd).
          now apply NoDup_app in Hnd as (_ & _ & Hnd).
        + rewrite HB. now apply index_middle.
        + intros c Hc. destruct (HwC c Hc) as (Hcn & Hcr & Hcm).
          assert (Hcb : c <> b) by (intros ->; contradiction).
          subst w2. rewrite node_update_ne by exact Hcb.
          assert (Hc1 : c ∉ B1).
          { intros Hin. apply NoDup_app in Hnd as (_ & _ & Hnd).
            apply NoDup_app in Hnd as (_ & Hnd & _).
            apply (Hnd c); [rewrite HB; apply elem_of_app; now left|exact Hc]. }
          rewrite Hpt. rewrite decide_False by exact Hc1.
          rewrite decide_True by exact Hc.
          split; [exact Hcn|]. split; [exact Hcr|].
          apply item_with_reporting.
        + assert (Hlen : S (length B1) < length B).
          { rewrite HB, length_app. simpl. destruct B2; [congruence|simpl; lia]. }
          intros Hfull. specialize (Hfull (S (length B1))).
          rewrite elem_of_cons, elem_of_upto in Hfull. lia. }
    destruct Hfire as (w' & E' & Hpt' & Hg' & Hh').
    rewrite E'. exists w'. split; [reflexivity|].
    split; [|split; [eapply same_globals_trans; [exact Hg|];
                      eapply same_globals_trans; [|exact Hg'];
                      apply same_globals_update
                    |rewrite Hh'; exact Hh]].
    intros n. rewrite Hpt'. subst w2. rewrite node_update, !Hpt.
    rewrite length_app. simpl. rewrite Nat.add_1_r.
    assert (Hsnoc : forall x, x ∈ B1 ++ [b] <-> x ∈ B1 \/ x = b).
    { intros x. rewrite elem_of_app, elem_of_cons. split; [|tauto].
      intros [?|[?|H0]]; [tauto|tauto|inversion H0]. }
    assert (HB1C : forall x, x ∈ B1 -> x ∉ C).
    { intros x Hx Hc. apply NoDup_app in Hnd as (_ & _ & Hnd).
      apply NoDup_app in Hnd as (_ & Hnd & _).
      apply (Hnd x); [rewrite HB; apply elem_of_app; now left|exact Hc]. }
    destruct (decide (n = b)) as [->|Hnb].
    + repeat case_decide; try contradiction; try reflexivity.
      exfalso. rewrite Hsnoc in *. tauto.
    + repeat case_decide; try contradiction; try reflexivity;
        rewrite ?Hsnoc in *; try tauto; try (exfalso; eapply HB1C; eauto; fail);
        try apply with_reporting_twice.
Qed.
Lemma forward_frame_update w b v r :
  forward_frame w
    (update b (fun n => with_value v (with_reporting UPSTREAM r n)) w).
Proof.
  apply forward_frame_pointwise;
    [|apply same_globals_update|reflexivity].
  intros n. rewrite node_update. destruct (decide (n = b)) as [->|_].
  - eauto.
  - exists (_value (node w n)), (item (_reporting_nodes (node w n)) UPSTREAM).
    now rewrite with_reporting_id, with_value_id.
Qed.

Lemma forward_frame_prefix w w1 (P Q : loc -> Prop)
    `{forall n, Decision (P n)} `{forall n, Decision (Q n)} v m :
  (forall n,
     node w1 n =
     if decide (P n)
     then with_value (v n) (with_reporting UPSTREAM 0 (node w n))
     else if decide (Q n)
          then with_reporting UPSTREAM m (node w n)
          else node w n) ->
  same_globals w w1 -> history w1 = history w -> forward_frame w w1.
Proof.
  intros Hpt Hg Hh. apply forward_frame_pointwise; try assumption.
  intros n. rewrite Hpt. destruct (decide (P n)); [eauto|].
  destruct (decide (Q n)).
  - exists (_value (node w n)), m. now destruct (node w n).
  - exists (_value (node w n)), (item (_reporting_nodes (node w n)) UPSTREAM).
    now rewrite with_reporting_id, with_value_id.
Qed.

Lemma forward_values_base w0 w0' w A rest :
  (forall n, n ∈ concat rest -> _value (node w0' n) = _value (node w0 n)) ->
  forward_values np_exp py_sum w0 w A rest ->
  forward_values np_exp py_sum w0' w A rest.
Proof.
  revert A. induction rest as [|B rest IH]; intros A Hb; simpl; [trivial|].
  destruct A as [|a A].
  - intros H n Hn. rewrite (H n Hn). symmetry. now apply Hb.
  - intros [H1 H2]. split; [exact H1|]. apply IH; [|exact H2].
    intros n Hn. apply Hb. simpl. apply elem_of_app. now right.
Qed.

Lemma forward_values_refl w rest :
  forward_values np_exp py_sum w w [] rest.
Proof. destruct rest; simpl; [trivial|reflexivity]. Qed.

Lemma wired_from_down w B rest b :
  wired_from w B rest -> b ∈ B ->
  item (_neighbors (node w b)) DOWNSTREAM = hd [] rest.
Proof.
  destruct rest as [|C rest]; simpl.
  - intros H Hb. now apply H.
  - intros [[H _] _] Hb. now destruct (H b Hb).
Qed.

(** The last upstream neighbor [a] of the layer [B] reports: the values of
    [B] and of the layers after it are computed, layer by layer, and all
    their masks are clear again. *)
Lemma cascade rest :
  forall A B a p ps w depth,
    NoDup (concat (A :: B :: rest)) ->
    layer_pair_wired w A B ->
    wired_from w B rest ->
    index A a = Some p ->
    (forall b, b ∈ B ->
       item (_reporting_nodes (node w b)) UPSTREAM = bits ps) ->
    all_reported (p :: ps) (length A) ->
    (forall n, n ∈ concat rest ->
       item (_reporting_nodes (node w n)) UPSTREAM = 0%Z) ->
    length rest <= depth ->
    exists w',
      for_each B (fun b => data_ready_upstream np_exp py_sum (S depth) b a) w
        = (Ok tt, w') /\
      forward_frame w w' /\
      (forall n, n ∉ concat (B :: rest) -> node w' n = node w n) /\
      (forall n, n ∈ concat (B :: rest) ->
         item (_reporting_nodes (node w' n)) UPSTREAM = 0%Z) /\
      (forall b, b ∈ B ->
         _value (node w' b) = activation np_exp py_sum w' b) /\
      forward_values np_exp py_sum w w' B rest.
Proof.
  induction rest as [|C rest IH];
    intros A B a p ps w depth Hnd [HwA HwB] Hwr Hi Hm Hall Hq Hdepth.
  - (* the output layer *)
    simpl in Hnd. rewrite app_nil_r in Hnd.
    destruct (cascade_prefix depth a A B [] p ps w B [])
      as (w1 & E1 & Hpt & Hg & Hh); try assumption.
    + now rewrite app_nil_r.
    + now left.
    + now rewrite app_nil_r.
    + intros b Hb. destruct (HwB b Hb) as [Hn Hr].
      refine (conj Hn (conj Hr (conj (Hm b Hb) _))).
      now apply (wired_from_down w B [] b).
    + intros c Hc. inversion Hc.
    + assert (Hfr : forward_frame w w1).
      { apply (forward_frame_prefix w w1 (fun n => n ∈ B) (fun n => n ∈ [])
                 (activation np_exp py_sum w) (bits (upto (length B))));
          assumption. }
      exists w1. split; [exact E1|]. split; [exact Hfr|].
      simpl. rewrite app_nil_r.
      refine (conj _ (conj _ (conj _ I))).
      * intros n Hn. rewrite Hpt. rewrite decide_False by exact Hn.
        now rewrite decide_False by apply not_elem_of_nil.
      * intros n Hn. rewrite Hpt. rewrite decide_True by exact Hn.
        reflexivity.
      * intros b Hb. rewrite (Hpt b) at 1. rewrite decide_True by exact Hb.
        simpl. symmetry. apply activation_ext.
        -- now rewrite (forward_frame_neighbors w w1).
        -- now apply forward_frame_weights.
        -- destruct (HwB b Hb) as [Hn _]. rewrite Hn. intros x Hx.
           rewrite Hpt. rewrite !decide_False; [reflexivity|apply not_elem_of_nil|].
           apply NoDup_app in Hnd as (_ & Hnd & _). now apply Hnd.
  - (* a layer with a layer after it *)
    simpl in Hnd. destruct Hwr as [[HwB' HwC] Hwr'].
    destruct depth as [|d]; [simpl in Hdepth; lia|].
    assert (Hd : length rest <= d) by (simpl in Hdepth; lia).
    destruct B as [|bl B' _] using rev_ind.
    { exists w. split; [reflexivity|]. split; [apply forward_frame_refl|].
      refine (conj (fun _ _ => eq_refl) (conj Hq (conj _ _))).
      - intros b Hb. inversion Hb.
      - apply forward_values_refl. }
    set (B := B' ++ [bl]) in *.
    assert (HABC : NoDup (A ++ B ++ C)).
    { rewrite !app_assoc in Hnd. apply NoDup_app in Hnd as (Hnd & _).
      now rewrite <- app_assoc in Hnd. }
    assert (HA : forall x, x ∈ A -> x ∉ B ++ C ++ concat rest).
    { apply NoDup_app in Hnd as (_ & Hnd & _). exact Hnd. }
    assert (HBC : forall x, x ∈ B -> x ∉ C ++ concat rest).
    { apply NoDup_app in Hnd as (_ & _ & Hnd).
      apply NoDup_app in Hnd as (_ & Hnd & _). exact Hnd. }
    assert (HCR : NoDup (B ++ C ++ concat rest)).
    { now apply NoDup_app in Hnd as (_ & _ & Hnd). }
    assert (HNB : NoDup B) by now apply NoDup_app in HCR as (? & _).
    assert (HblB : bl ∈ B).
    { apply elem_of_app. right. apply elem_of_cons. now left. }
    assert (HblB' : bl ∉ B').
    { apply NoDup_app in HNB as (_ & HNB & _). intros Hin.
      apply (HNB _ Hin). apply elem_of_cons. now left. }
    destruct (cascade_prefix (S d) a A B C p ps w B' [bl])
      as (w1 & E1 & Hpt & Hg & Hh); try assumption; try reflexivity.
    { right. split; [discriminate|lia]. }
    { intros b Hb. destruct (HwB b Hb) as [Hn Hr].
      refine (conj Hn (conj Hr (conj (Hm b Hb) _))).
      now destruct (HwB' b Hb). }
    { intros c Hc. destruct (HwC c Hc) as [Hn Hr].
      refine (conj Hn (conj Hr _)). apply Hq. simpl. apply elem_of_app.
      now left. }
    assert (Hfr1 : forward_frame w w1).
    { apply (forward_frame_prefix w w1 (fun n => n ∈ B') (fun n => n ∈ C)
               (activation np_exp py_sum w) (bits (upto (length B'))));
        assumption. }
    rewrite (for_each_snoc B' bl _ _ _ E1 : for_each B _ w = _).
    assert (HblC : bl ∉ C).
    { intros Hin. apply (HBC bl HblB). apply elem_of_app. now left. }
    assert (Ebl : node w1 bl = node w bl).
    { rewrite Hpt. now rewrite !decide_False. }
    destruct (HwB bl HblB) as [Hbn Hbr]. destruct (HwB' bl HblB) as [Hbd _].
    assert (Eact : activation np_exp py_sum w1 bl
                   = activation np_exp py_sum w bl).
    { apply activation_ext; rewrite ?Ebl; try reflexivity.
      rewrite Hbn. intros x Hx. specialize (HA x Hx).
      rewrite !not_elem_of_app in HA. destruct HA as (HxB & HxC & _).
      rewrite Hpt. rewrite !decide_False; try assumption; [reflexivity|].
      intros Hin. apply HxB. apply elem_of_app. now left. }
    rewrite (ready_up_complete (S d) bl a p w1);
      [|rewrite Ebl, Hbn; exact Hi
       |rewrite Ebl, Hbr, (Hm bl HblB);
        apply (proj2 (bits_full (p :: ps) (length A))); exact Hall].
    rewrite Ebl, Hbd, Eact.
    set (w2 := update bl
                 (fun n => with_value (activation np_exp py_sum w bl)
                             (with_reporting UPSTREAM 0 n)) w1).
    assert (Hfr2 : forward_frame w w2).
    { eapply forward_frame_trans; [exact Hfr1|apply forward_frame_update]. }
    destruct (IH B C bl (length B') (upto (length B')) w2 d)
      as (w' & E' & Hfr' & Hout' & Hzero' & HvC & Hfv'); try assumption.
    { eapply layer_pair_wired_frame; [| |split; [exact HwB'|exact HwC]];
        intros n; [now apply forward_frame_neighbors
                  |now apply forward_frame_reference]. }
    { eapply wired_from_frame; [| |exact Hwr']; intros n;
        [now apply forward_frame_neighbors|now apply forward_frame_reference]. }
    { now apply index_middle. }
    { intros c Hc. subst w2. rewrite node_update_ne by (intros ->; contradiction).
      rewrite Hpt. rewrite decide_False, decide_True; try assumption.
      - apply item_with_reporting.
      - intros Hin. apply (HBC c); [apply elem_of_app; now left|].
        apply elem_of_app. now left. }
    { subst B. rewrite length_app. simpl. rewrite Nat.add_1_r.
      apply (all_reported_upto (S (length B'))). }
    { intros n Hn.
      assert (HnB : n ∉ B).
      { intros Hin. apply (HBC n Hin). apply elem_of_app. now right. }
      assert (HnC : n ∉ C).
      { intros Hin. apply NoDup_app in HCR as (_ & _ & HCR).
        apply NoDup_app in HCR as (_ & HCR & _). now apply (HCR n). }
      subst w2. rewrite node_update_ne by (intros ->; contradiction).
      rewrite Hpt. rewrite !decide_False; try assumption.
      - apply Hq. simpl. apply elem_of_app. now right.
      - intros Hin. apply HnB. apply elem_of_app. now left. }
    assert (Hw2 : forall n,
      node w2 n =
      if decide (n ∈ B)
      then with_value (activation np_exp py_sum w n)
             (with_reporting UPSTREAM 0 (node w n))
      else if decide (n ∈ C)
           then with_reporting UPSTREAM (bits (upto (length B'))) (node w n)
           else node w n).
    { intros n. subst w2. rewrite node_update, !Hpt.
      assert (Hsnoc : n ∈ B <-> n ∈ B' \/ n = bl).
      { subst B. rewrite elem_of_app, elem_of_cons. split; [|tauto].
        intros [?|[?|H0]]; [tauto|tauto|inversion H0]. }
      destruct (decide (n = bl)) as [->|Hnb].
      - repeat case_decide; try contradiction; try reflexivity; tauto.
      - repeat case_decide; try contradiction; try reflexivity; tauto. }
    exists w'. split; [exact E'|].
    split; [eapply forward_frame_trans; eauto|].
    assert (Hsplit : forall n, n ∈ concat (B :: C :: rest) <->
                               n ∈ B \/ n ∈ concat (C :: rest)).
    { intros n. simpl. rewrite !elem_of_app. tauto. }
    assert (HBout : forall n, n ∈ B -> node w' n = node w2 n).
    { intros n Hn. apply Hout'. simpl. exact (HBC n Hn). }
    refine (conj _ (conj _ (conj _ _))).
    + intros n Hn. rewrite Hsplit in Hn.
      rewrite Hout' by tauto. rewrite Hw2.
      rewrite !decide_False; [reflexivity| |tauto].
      intros Hin. apply Hn. right. simpl. apply elem_of_app. now left.
    + intros n Hn. apply Hsplit in Hn.
      destruct (decide (n ∈ concat (C :: rest))) as [Hin|Hnin];
        [now apply Hzero'|].
      destruct Hn as [Hn|Hn]; [|contradiction].
      rewrite (HBout n Hn), Hw2. rewrite decide_True by exact Hn.
      reflexivity.
    + intros b Hb. rewrite (HBout b Hb), Hw2. rewrite decide_True by exact Hb.
      simpl. symmetry. apply activation_ext.
      * rewrite (forward_frame_neighbors w w');
          [reflexivity|eapply forward_frame_trans; eauto].
      * eapply forward_frame_weights. eapply forward_frame_trans; eauto.
      * destruct (HwB b Hb) as [Hn _]. rewrite Hn. intros x Hx.
        specialize (HA x Hx). rewrite !not_elem_of_app in HA.
        destruct HA as (HxB & HxC & HxR).
        rewrite Hout' by (simpl; rewrite elem_of_app; tauto).
        rewrite Hw2. now rewrite !decide_False.
    + assert (HBne : B <> []) by (subst B; now destruct B').
      simpl. destruct B as [|b0 B0]; [congruence|].
      split; [exact HvC|].
      eapply forward_values_base; [|exact Hfv'].
      intros n Hn. symmetry. rewrite Hw2.
      rewrite !decide_False; [reflexivity| |].
      * intros Hin. apply NoDup_app in HCR as (_ & _ & HCR).
        apply NoDup_app in HCR as (_ & HCR & _). now apply (HCR n).
      * intros Hin. apply (HBC n Hin). apply elem_of_app. now right.
Qed.
Lemma set_input_eq depth a v w :
  set_input np_exp py_sum depth a v w =
  for_each (item (_neighbors (node w a)) DOWNSTREAM)
    (fun n => data_ready_upstream np_exp py_sum depth n a)
    (update a (with_value v) w).
Proof.
  unfold set_input, fire_downstream_with. rewrite bind_modify, bind_gets.
  now rewrite node_update_eq.
Qed.

Lemma index_elem l x : x ∈ l -> exists p, index l x = Some p.
Proof.
  intros Hx. destruct (index l x) as [p|] eqn:E; [eauto|].
  apply index_None in E. contradiction.
Qed.

Lemma index_lookup l x p : index l x = Some p -> l !! p = Some x.
Proof. intros H. now apply index_Some in H as [H _]. Qed.

(** The calls of [set_input] before the last one: the values are
    assigned and the first layer after the inputs records who reported. *)
Lemma inputs_prefix depth L0 L1 calls1 calls2 w :
  NoDup (L0 ++ L1) ->
  NoDup (calls1 ++ calls2).*1 ->
  (forall i, i ∈ (calls1 ++ calls2).*1 -> i ∈ L0) ->
  L1 = [] \/ (calls2 <> [] /\ 0 < depth) ->
  (forall a, a ∈ L0 -> item (_neighbors (node w a)) DOWNSTREAM = L1) ->
  (forall b, b ∈ L1 ->
     item (_neighbors (node w b)) UPSTREAM = L0 /\
     item (_reference_value (node w b)) UPSTREAM
       = (2 ^ Z.of_nat (length L0) - 1)%Z /\
     item (_reporting_nodes (node w b)) UPSTREAM = 0%Z) ->
  exists w1 ps,
    present_inputs np_exp py_sum depth calls1 w = (Ok tt, w1) /\
    (forall q, q ∈ ps <-> exists i, i ∈ calls1.*1 /\ index L0 i = Some q) /\
    (forall n, n ∉ calls1.*1 -> n ∉ L1 -> node w1 n = node w n) /\
    (forall c, c ∈ calls1 -> node w1 c.1 = with_value c.2 (node w c.1)) /\
    (forall b, b ∈ L1 ->
       node w1 b = with_reporting UPSTREAM (bits ps) (node w b)) /\
    same_globals w w1 /\
    history w1 = history w.
Proof.
  intros HndL Hnd Hin HL1 Hdown Hup. unfold present_inputs.
  revert calls2 Hnd Hin HL1.
  induction calls1 as [|c calls1 IH] using rev_ind;
    intros calls2 Hnd Hin HL1.
  - exists w, []. split; [reflexivity|]. split.
    { intros q. split; [intros H; inversion H|].
      intros (i & Hi & _). inversion Hi. }
    refine (conj (fun _ _ _ => eq_refl) (conj _ (conj _
              (conj (same_globals_refl w) eq_refl)))).
    + intros c Hc. inversion Hc.
    + intros b Hb. destruct (Hup b Hb) as (_ & _ & Hr). simpl.
      rewrite <- Hr. now rewrite with_reporting_id.
  - rewrite <- app_assoc in Hnd, Hin. simpl in Hnd, Hin.
    destruct (IH (c :: calls2) Hnd Hin)
      as (w1 & ps & E1 & Hps & Hout & Hval & Hmask & Hg & Hh).
    { destruct HL1 as [HL1|[_ HL1]]; [now left|right].
      split; [discriminate|exact HL1]. }
    rewrite (for_each_snoc _ _ _ _ _ E1).
    assert (HcL0 : c.1 ∈ L0).
    { apply Hin. rewrite fmap_app, fmap_cons. apply elem_of_app. right.
      apply elem_of_cons. now left. }
    assert (Hc1 : c.1 ∉ calls1.*1).
    { rewrite fmap_app, fmap_cons in Hnd.
      apply NoDup_app in Hnd as (_ & Hnd & _). intros H. apply (Hnd _ H).
      apply elem_of_cons. now left. }
    assert (HcL1 : c.1 ∉ L1).
    { apply NoDup_app in HndL as (_ & HndL & _). now apply HndL. }
    destruct (index_elem L0 c.1 HcL0) as [p Hp].
    rewrite set_input_eq. rewrite (Hout c.1 Hc1 HcL1), (Hdown c.1 HcL0).
    set (w2 := update c.1 (with_value c.2) w1).
    assert (Hfire : exists w',
      for_each L1 (fun n => data_ready_upstream np_exp py_sum depth n c.1) w2
        = (Ok tt, w') /\
      (forall n,
         node w' n =
         if decide (n ∈ L1)
         then with_reporting UPSTREAM (bits (p :: ps)) (node w2 n)
         else node w2 n) /\
      same_globals w2 w' /\ history w' = history w2).
    { destruct HL1 as [->|[Hc2 Hd]].
      - exists w2. split; [reflexivity|].
        split; [|split; [apply same_globals_refl|reflexivity]].
        intros n. now rewrite decide_False by apply not_elem_of_nil.
      - destruct depth as [|depth']; [lia|].
        apply (fire_up_incomplete depth' c.1 L0 L1 p ps w2).
        + now apply NoDup_app in HndL as (_ & _ & HndL).
        + exact Hp.
        + intros b Hb. destruct (Hup b Hb) as (Hn & Hr & _).
          subst w2. rewrite node_update_ne by (intros ->; contradiction).
          rewrite (Hmask b Hb). refine (conj Hn (conj Hr _)).
          apply item_with_reporting.
        + destruct calls2 as [|c2 calls2]; [congruence|].
          assert (Hc2L0 : c2.1 ∈ L0).
          { apply Hin. rewrite fmap_app, !fmap_cons. apply elem_of_app. right.
            apply elem_of_cons. right. apply elem_of_cons. now left. }
          destruct (index_elem L0 c2.1 Hc2L0) as [q2 Hq2].
          intros Hall. pose proof (proj2 (Hall q2)) as Hq.
          assert (Hlt : q2 < length L0).
          { apply index_lookup in Hq2. eapply lookup_lt_Some; eauto. }
          specialize (Hq Hlt). apply elem_of_cons in Hq as [->|Hq].
          * assert (c2.1 = c.1).
            { apply index_lookup in Hq2, Hp. congruence. }
            rewrite fmap_app, !fmap_cons in Hnd.
            apply NoDup_app in Hnd as (_ & _ & Hnd).
            apply NoDup_cons in Hnd as [Hnd _]. apply Hnd.
            apply elem_of_cons. now left.
          * apply Hps in Hq as (i & Hi & Hiq).
            assert (c2.1 = i).
            { apply index_lookup in Hq2, Hiq. congruence. }
            subst i. rewrite fmap_app, !fmap_cons in Hnd.
            apply NoDup_app in Hnd as (_ & Hnd & _). apply (Hnd _ Hi).
            apply elem_of_cons. right. apply elem_of_cons. now left. }
    destruct Hfire as (w' & E' & Hpt' & Hg' & Hh').
    rewrite E'. exists w', (p :: ps). split; [reflexivity|].
    assert (Hsnoc : forall x, x ∈ (calls1 ++ [c]).*1 <-> x ∈ calls1.*1 \/ x = c.1).
    { intros x. rewrite fmap_app, elem_of_app. simpl.
      rewrite elem_of_cons. split; [|tauto].
      intros [?|[?|H0]]; [tauto|tauto|inversion H0]. }
    refine (conj _ (conj _ (conj _ (conj _ (conj _ _))))).
    + intros q. rewrite elem_of_cons, Hps. split.
      * intros [->|(i & Hi & Hq)].
        -- exists c.1. split; [apply Hsnoc; now right|exact Hp].
        -- exists i. split; [apply Hsnoc; now left|exact Hq].
      * intros (i & Hi & Hq). apply Hsnoc in Hi as [Hi| ->].
        -- right. eauto.
        -- left. congruence.
    + intros n Hn HnL. rewrite Hsnoc in Hn. rewrite Hpt'.
      rewrite decide_False by exact HnL. subst w2.
      rewrite node_update_ne by tauto. apply Hout; tauto.
    + intros c' Hc'. rewrite Hpt'.
      assert (Hc'L0 : c'.1 ∈ L0).
      { apply Hin. rewrite fmap_app, fmap_cons.
        apply elem_of_app in Hc' as [Hc'|Hc'].
        - apply elem_of_app. left. apply list_elem_of_fmap. eauto.
        - apply elem_of_cons in Hc' as [->|Hc']; [|inversion Hc'].
          apply elem_of_app. right. apply elem_of_cons. now left. }
      rewrite decide_False
        by (apply NoDup_app in HndL as (_ & HndL & _); now apply HndL).
      subst w2. rewrite node_update.
      apply elem_of_app in Hc' as [Hc'|Hc'].
      * rewrite decide_False.
        -- now apply Hval.
        -- intros Heq. apply Hc1. rewrite <- Heq. apply list_elem_of_fmap.
           eauto.
      * apply elem_of_cons in Hc' as [->|Hc']; [|inversion Hc'].
        rewrite decide_True by reflexivity. now rewrite (Hout c.1 Hc1 HcL1).
    + intros b Hb. rewrite Hpt'. rewrite decide_True by exact Hb.
      subst w2. rewrite node_update_ne by (intros ->; contradiction).
      rewrite (Hmask b Hb). apply with_reporting_twice.
    + eapply same_globals_trans; [exact Hg|].
      eapply same_globals_trans; [|exact Hg']. apply same_globals_update.
    + rewrite Hh'. exact Hh.
Qed.

(** One forward presentation: [set_input] on every input node, once
    each, in any order.  The call returns, every input node holds its
    value, every later layer holds the activations of the layer before it
    (up to the first empty layer), and every mask is clear. *)
Theorem forward_pass w L0 rest calls depth :
  wired w (L0 :: rest) ->
  (forall n, n ∈ concat rest ->
     item (_reporting_nodes (node w n)) UPSTREAM = 0%Z) ->
  NoDup calls.*1 ->
  (forall i, i ∈ calls.*1 <-> i ∈ L0) ->
  length rest <= depth ->
  exists w',
    present_inputs np_exp py_sum depth calls w = (Ok tt, w') /\
    forward_frame w w' /\
    (forall n, n ∉ concat (L0 :: rest) -> node w' n = node w n) /\
    (forall n, n ∈ concat rest ->
       item (_reporting_nodes (node w' n)) UPSTREAM = 0%Z) /\
    (forall n, n ∈ L0 ->
       item (_reporting_nodes (node w' n)) UPSTREAM
       = item (_reporting_nodes (node w n)) UPSTREAM) /\
    (forall c, c ∈ calls -> _value (node w' c.1) = c.2) /\
    forward_values np_exp py_sum w w' L0 rest.
Proof.
  intros (Hnd & _ & Hwr) Hq Hndc Hcov Hdepth. simpl in Hnd.
  set (L1 := hd [] rest).
  assert (HL1 : forall n, n ∈ L1 -> n ∈ concat rest).
  { subst L1. destruct rest as [|B rest']; simpl; [intros n H; inversion H|].
    intros n Hn. apply elem_of_app. now left. }
  assert (HndL : NoDup (L0 ++ L1)).
  { subst L1. destruct rest as [|B rest']; simpl.
    - rewrite app_nil_r. now rewrite app_nil_r in Hnd.
    - simpl in Hnd. rewrite app_assoc in Hnd.
      now apply NoDup_app in Hnd as (Hnd & _). }
  assert (Hdown : forall a, a ∈ L0 ->
                    item (_neighbors (node w a)) DOWNSTREAM = L1).
  { intros a Ha. now apply (wired_from_down w L0 rest a). }
  assert (Hup : forall b, b ∈ L1 ->
     item (_neighbors (node w b)) UPSTREAM = L0 /\
     item (_reference_value (node w b)) UPSTREAM
       = (2 ^ Z.of_nat (length L0) - 1)%Z /\
     item (_reporting_nodes (node w b)) UPSTREAM = 0%Z).
  { intros b Hb. pose proof (Hq b (HL1 b Hb)) as Hr. subst L1.
    destruct rest as [|B rest']; [inversion Hb|]. simpl in Hb.
    destruct Hwr as [[_ HwB] _]. destruct (HwB b Hb) as [Hn Hr'].
    exact (conj Hn (conj Hr' Hr)). }
  assert (Hframe1 : forall calls1 w1,
    (forall n, n ∉ calls1.*1 -> n ∉ L1 -> node w1 n = node w n) ->
    (forall c, c ∈ calls1 -> node w1 c.1 = with_value c.2 (node w c.1)) ->
    (forall b, b ∈ L1 -> exists m,
       node w1 b = with_reporting UPSTREAM m (node w b)) ->
    same_globals w w1 -> history w1 = history w -> forward_frame w w1).
  { intros calls1 w1 Hout Hval Hmask Hg Hh.
    apply forward_frame_pointwise; try assumption. intros n.
    destruct (decide (n ∈ L1)) as [Hn1|Hn1].
    - destruct (Hmask n Hn1) as [m ->].
      exists (_value (node w n)), m. now destruct (node w n).
    - destruct (decide (n ∈ calls1.*1)) as [Hn2|Hn2].
      + apply list_elem_of_fmap in Hn2 as (c & -> & Hc).
        rewrite (Hval c Hc). exists c.2,
          (item (_reporting_nodes (node w c.1)) UPSTREAM).
        now rewrite with_reporting_id.
      + rewrite (Hout n Hn2 Hn1).
        exists (_value (node w n)),
          (item (_reporting_nodes (node w n)) UPSTREAM).
        now rewrite with_reporting_id, with_value_id. }
  assert (Hcase : rest = [] \/ calls = [] \/
                  exists B rest' calls' c,
                    rest = B :: rest' /\ calls = calls' ++ [c]).
  { destruct rest as [|B rest']; [now left|right].
    destruct calls as [|c calls' _] using rev_ind; [now left|right].
    eauto 6. }
  destruct Hcase as [->|[->|(B & rest' & calls' & c & -> & ->)]].
  - (* no layer after the inputs *)
    destruct (inputs_prefix depth L0 [] calls [] w)
      as (w1 & ps & E1 & Hps & Hout & Hval & Hmask & Hg & Hh);
      try (rewrite ?app_nil_r; assumption).
    { exact HndL. }
    { rewrite app_nil_r. intros i Hi. now apply Hcov. }
    { now left. }
    exists w1. split; [exact E1|].
    split.
    { apply (Hframe1 calls); try assumption. intros b Hb. inversion Hb. }
    refine (conj _ (conj _ (conj _ (conj _ I)))).
    + intros n Hn. apply Hout; [|apply not_elem_of_nil].
      intros Hin. apply Hn. simpl. rewrite app_nil_r. now apply Hcov.
    + intros n Hn. inversion Hn.
    + intros n Hn. apply Hcov in Hn.
      apply list_elem_of_fmap in Hn as (c & -> & Hc). now rewrite (Hval c Hc).
    + intros c Hc. now rewrite (Hval c Hc).
  - (* no input node *)
    exists w. split; [reflexivity|]. split; [apply forward_frame_refl|].
    assert (L0 = []) as ->.
    { destruct L0 as [|a L0]; [reflexivity|].
      exfalso. assert (H : a ∈ (@nil (loc * float)).*1).
      { apply Hcov. apply elem_of_cons. now left. }
      inversion H. }
    refine (conj (fun _ _ => eq_refl) (conj Hq (conj (fun _ _ => eq_refl)
              (conj _ _)))).
    + intros c Hc. inversion Hc.
    + apply forward_values_refl.
  - (* the last call completes the first layer *)
    simpl in L1, Hdepth, Hnd. subst L1.
    destruct depth as [|d]; [lia|]. assert (Hd : length rest' <= d) by lia.
    destruct (inputs_prefix (S d) L0 B calls' [c] w)
      as (w1 & ps & E1 & Hps & Hout & Hval & Hmask & Hg & Hh);
      try assumption.
    { intros i Hi. now apply Hcov. }
    { right. split; [discriminate|lia]. }
    unfold present_inputs in *. rewrite (for_each_snoc _ _ _ _ _ E1).
    assert (HcL0 : c.1 ∈ L0).
    { apply Hcov. rewrite fmap_app, fmap_cons. apply elem_of_app. right.
      apply elem_of_cons. now left. }
    assert (Hc1 : c.1 ∉ calls'.*1).
    { rewrite fmap_app, fmap_cons in Hndc.
      apply NoDup_app in Hndc as (_ & Hndc & _). intros H. apply (Hndc _ H).
      apply elem_of_cons. now left. }
    assert (HcB : c.1 ∉ B).
    { apply NoDup_app in HndL as (_ & HndL & _). now apply HndL. }
    destruct (index_elem L0 c.1 HcL0) as [p Hp].
    rewrite set_input_eq. rewrite (Hout c.1 Hc1 HcB), (Hdown c.1 HcL0).
    set (w2 := update c.1 (with_value c.2) w1).
    assert (Hfr1 : forward_frame w w1).
    { apply (Hframe1 calls'); try assumption. intros b Hb. eauto. }
    assert (Hfr2 : forward_frame w w2).
    { eapply forward_frame_trans; [exact Hfr1|].
      apply forward_frame_pointwise;
        [|apply same_globals_update|reflexivity].
      intros n. subst w2. rewrite node_update.
      destruct (decide (n = c.1)) as [->|_].
      - exists c.2, (item (_reporting_nodes (node w1 c.1)) UPSTREAM).
        now rewrite with_reporting_id.
      - exists (_value (node w1 n)),
          (item (_reporting_nodes (node w1 n)) UPSTREAM).
        now rewrite with_reporting_id, with_value_id. }
    destruct Hwr as [Hw01 Hwr'].
    destruct (cascade rest' L0 B c.1 p ps w2 d)
      as (w' & E' & Hfr' & Hout' & Hzero' & HvB & Hfv'); try assumption.
    { eapply layer_pair_wired_frame; [| |exact Hw01]; intros n;
        [now apply forward_frame_neighbors|now apply forward_frame_reference]. }
    { eapply wired_from_frame; [| |exact Hwr']; intros n;
        [now apply forward_frame_neighbors|now apply forward_frame_reference]. }
    { intros b Hb. subst w2. rewrite node_update_ne by (intros ->; contradiction).
      rewrite (Hmask b Hb). apply item_with_reporting. }
    { intros q. rewrite elem_of_cons, Hps. split.
      - intros [->|(i & Hi & Hiq)].
        + apply index_lookup in Hp. eapply lookup_lt_Some; eauto.
        + apply index_lookup in Hiq. eapply lookup_lt_Some; eauto.
      - intros Hlt. destruct (lookup_lt_is_Some_2 L0 q Hlt) as [i Hi].
        assert (HiL0 : i ∈ L0) by (eapply list_elem_of_lookup_2; eauto).
        destruct (index_elem L0 i HiL0) as [q' Hq'].
        assert (q' = q).
        { apply index_lookup in Hq'. apply NoDup_app in HndL as (HndL & _).
          eapply NoDup_lookup; eauto. }
        subst q'. apply Hcov in HiL0. rewrite fmap_app, fmap_cons in HiL0.
        apply elem_of_app in HiL0 as [HiL0|HiL0].
        + right. eauto.
        + apply elem_of_cons in HiL0 as [->|HiL0]; [|inversion HiL0].
          left. congruence. }
    { intros n Hn.
      assert (HnB : n ∉ B).
      { intros Hin. apply NoDup_app in Hnd as (_ & _ & Hnd).
        apply NoDup_app in Hnd as (_ & Hnd & _). now apply (Hnd n). }
      assert (HnL0 : n ∉ L0).
      { intros Hin. apply NoDup_app in Hnd as (_ & Hnd & _).
        apply (Hnd n Hin). simpl. rewrite !elem_of_app. tauto. }
      subst w2. rewrite node_update_ne by (intros ->; contradiction).
      rewrite Hout; try assumption.
      - apply Hq. simpl. apply elem_of_app. now right.
      - intros Hin. apply HnL0. apply Hcov. rewrite fmap_app.
        apply elem_of_app. now left. }
    exists w'. split; [exact E'|].
    split; [eapply forward_frame_trans; eauto|].
    assert (HL0out : forall n, n ∈ L0 -> node w' n = node w2 n).
    { intros n Hn. apply Hout'. apply NoDup_app in Hnd as (_ & Hnd & _).
      now apply Hnd. }
    refine (conj _ (conj Hzero' (conj _ (conj _ _)))).
    + intros n Hn. simpl in Hn. rewrite !not_elem_of_app in Hn.
      destruct Hn as (Hn0 & HnB & HnR).
      rewrite Hout' by (simpl; rewrite not_elem_of_app; tauto).
      subst w2. rewrite node_update_ne by (intros ->; contradiction).
      apply Hout; [|exact HnB]. intros Hin. apply Hn0, Hcov.
      rewrite fmap_app. apply elem_of_app. now left.
    + intros n Hn. rewrite (HL0out n Hn). subst w2. rewrite node_update.
      assert (HnB : n ∉ B).
      { apply NoDup_app in HndL as (_ & HndL & _). now apply HndL. }
      destruct (decide (n = c.1)) as [->|Hne].
      * now rewrite (Hout c.1 Hc1 HcB).
      * apply Hcov in Hn. rewrite fmap_app, fmap_cons in Hn.
        apply elem_of_app in Hn as [Hn|Hn].
        -- apply list_elem_of_fmap in Hn as (c' & -> & Hc').
           now rewrite (Hval c' Hc').
        -- apply elem_of_cons in Hn as [->|Hn]; [done|inversion Hn].
    + intros c' Hc'.
      assert (Hc'L0 : c'.1 ∈ L0).
      { apply Hcov. apply list_elem_of_fmap. eauto. }
      rewrite (HL0out _ Hc'L0). subst w2. rewrite node_update.
      apply elem_of_app in Hc' as [Hc'|Hc'].
      * rewrite decide_False.
        -- now rewrite (Hval c' Hc').
        -- intros Heq. apply Hc1. rewrite <- Heq. apply list_elem_of_fmap.
           eauto.
      * apply elem_of_cons in Hc' as [->|Hc']; [|inversion Hc'].
        now rewrite decide_True.
    + simpl. destruct L0 as [|a0 L0']; [inversion HcL0|].
      split; [exact HvB|]. eapply forward_values_base; [|exact Hfv'].
      intros n Hn. symmetry.
      assert (HnB : n ∉ B).
      { intros Hin. apply NoDup_app in Hnd as (_ & _ & Hnd).
        apply NoDup_app in Hnd as (_ & Hnd & _). now apply (Hnd n). }
      assert (HnL0 : n ∉ a0 :: L0').
      { intros Hin. apply NoDup_app in Hnd as (_ & Hnd & _).
        apply (Hnd n Hin). simpl. rewrite !elem_of_app. tauto. }
      subst w2. rewrite node_update_ne by (intros ->; contradiction).
      rewrite Hout; try assumption; [reflexivity|].
      intros Hin. apply HnL0. apply Hcov. rewrite fmap_app.
      apply elem_of_app. now left.
Qed.

Lemma forward_frame_node w w' n :
  forward_frame w w' ->
  node w' n =
  with_value (_value (node w' n))
    (with_reporting UPSTREAM (item (_reporting_nodes (node w' n)) UPSTREAM)
       (node w n)).
Proof.
  intros [H _]. destruct (H n) as (v & r & ->).
  now destruct (node w n) as [[] ? ? ? ? ?].
Qed.

(** The values a forward pass leaves are determined by the values of the
    input layer. *)
Lemma forward_values_unique rest :
  forall A w0 w1 w2,
    wired_from w0 A rest ->
    forward_frame w0 w1 -> forward_frame w0 w2 ->
    (forall a, a ∈ A -> _value (node w1 a) = _value (node w2 a)) ->
    forward_values np_exp py_sum w0 w1 A rest ->
    forward_values np_exp py_sum w0 w2 A rest ->
    forall n, n ∈ concat rest -> _value (node w1 n) = _value (node w2 n).
Proof.
  induction rest as [|B rest IH]; intros A w0 w1 w2 Hw Hf1 Hf2 HA H1 H2 n Hn.
  - inversion Hn.
  - simpl in H1, H2. destruct A as [|a0 A'].
    + now rewrite (H1 n Hn), (H2 n Hn).
    + destruct H1 as [H1 H1'], H2 as [H2 H2']. destruct Hw as [[_ HwB] Hw'].
      assert (HB : forall b, b ∈ B ->
                _value (node w1 b) = _value (node w2 b)).
      { intros b Hb. rewrite (H1 b Hb), (H2 b Hb). apply activation_ext.
        - now rewrite (forward_frame_neighbors w0 w1),
            (forward_frame_neighbors w0 w2).
        - now rewrite (forward_frame_weights w0 w1),
            (forward_frame_weights w0 w2).
        - rewrite (forward_frame_neighbors w0 w2) by assumption.
          destruct (HwB b Hb) as [-> _]. intros x Hx. now apply HA. }
      simpl in Hn. apply elem_of_app in Hn as [Hn|Hn]; [now apply HB|].
      now apply (IH B w0 w1 w2).
Qed.

(** C5.  In a wired network between presentations, two forward
    presentations that call [set_input] on every input node once, with the
    same value for each node, in two different orders, both return and
    leave every neurode in the same state, its value in particular; the
    shared attributes are equal as well. *)
Theorem feed_forward_order_independent w L0 rest calls1 calls2 depth :
  wired w (L0 :: rest) ->
  quiescent w (L0 :: rest) ->
  NoDup calls1.*1 ->
  (forall i, i ∈ calls1.*1 <-> i ∈ L0) ->
  calls2 ≡ₚ calls1 ->
  length rest <= depth ->
  exists w1 w2,
    present_inputs np_exp py_sum depth calls1 w = (Ok tt, w1) /\
    present_inputs np_exp py_sum depth calls2 w = (Ok tt, w2) /\
    (forall n, node w1 n = node w2 n) /\
    (forall n, _value (node w1 n) = _value (node w2 n)) /\
    same_globals w1 w2 /\
    history w1 = history w2.
Proof.
  intros Hw Hq Hnd Hcov Hperm Hdepth.
  assert (Hq' : forall n, n ∈ concat rest ->
                  item (_reporting_nodes (node w n)) UPSTREAM = 0%Z).
  { intros n Hn. rewrite (Hq n); [reflexivity|]. simpl. apply elem_of_app.
    now right. }
  destruct (forward_pass w L0 rest calls1 depth Hw Hq' Hnd Hcov Hdepth)
    as (w1 & E1 & Hf1 & Hout1 & Hz1 & Hr1 & Hv1 & Hfv1).
  assert (Hnd2 : NoDup calls2.*1) by now rewrite Hperm.
  assert (Hcov2 : forall i, i ∈ calls2.*1 <-> i ∈ L0).
  { intros i. rewrite Hperm. apply Hcov. }
  destruct (forward_pass w L0 rest calls2 depth Hw Hq' Hnd2 Hcov2 Hdepth)
    as (w2 & E2 & Hf2 & Hout2 & Hz2 & Hr2 & Hv2 & Hfv2).
  exists w1, w2. split; [exact E1|]. split; [exact E2|].
  assert (HL0 : forall a, a ∈ L0 -> _value (node w1 a) = _value (node w2 a)).
  { intros a Ha. apply Hcov in Ha.
    apply list_elem_of_fmap in Ha as (c & -> & Hc).
    rewrite (Hv1 c Hc). symmetry. apply Hv2. now rewrite Hperm. }
  assert (Hrest : forall n, n ∈ concat rest ->
                    _value (node w1 n) = _value (node w2 n)).
  { destruct Hw as (_ & _ & Hwr).
    now apply (forward_values_unique rest L0 w w1 w2). }
  assert (Hnode : forall n, node w1 n = node w2 n).
  { intros n. destruct (decide (n ∈ concat (L0 :: rest))) as [Hin|Hnin].
    - rewrite (forward_frame_node w w1 n Hf1), (forward_frame_node w w2 n Hf2).
      simpl in Hin. apply elem_of_app in Hin as [Hin|Hin].
      + now rewrite (HL0 n Hin), (Hr1 n Hin), (Hr2 n Hin).
      + now rewrite (Hrest n Hin), (Hz1 n Hin), (Hz2 n Hin).
    - now rewrite (Hout1 n Hnin), (Hout2 n Hnin). }
  split; [exact Hnode|]. split; [intros n; now rewrite Hnode|].
  destruct Hf1 as (_ & [Hl1 Hd1] & Hh1), Hf2 as (_ & [Hl2 Hd2] & Hh2).
  repeat split; congruence.
Qed.

End ForwardFacts.

(** *** The forward claims on a concrete network *)

(** Membership in an explicit list, case by case. *)
Ltac each_elem H :=
  repeat (apply elem_of_cons in H as [->|H]); [..|inversion H].

Lemma wired_net_2_2_1 : wired (world net_2_2_1) [[0; 1]; [3; 4]; [2]].
Proof.
  split; [apply (bool_decide_unpack _); vm_compute; exact I|].
  split; [intros a Ha; each_elem Ha; vm_compute; reflexivity|].
  split; [split|split; [split|]]; intros a Ha; each_elem Ha;
    vm_compute; try split; reflexivity.
Qed.

Lemma quiescent_net_2_2_1 : quiescent (world net_2_2_1) [[0; 1]; [3; 4]; [2]].
Proof. intros n Hn. simpl in Hn. each_elem Hn; vm_compute; reflexivity. Qed.

Lemma feed_forward_order_independent_witness :
  exists w1 w2,
    present_inputs exp_quad sum_left 2 [(0, 1%float); (1, 2%float)]
      (world net_2_2_1) = (Ok tt, w1) /\
    present_inputs exp_quad sum_left 2 [(1, 2%float); (0, 1%float)]
      (world net_2_2_1) = (Ok tt, w2) /\
    forall n, _value (node w1 n) = _value (node w2 n).
Proof.
  destruct (feed_forward_order_independent exp_quad sum_left
              (world net_2_2_1) [0; 1] [[3; 4]; [2]]
              [(0, 1%float); (1, 2%float)] [(1, 2%float); (0, 1%float)] 2
              wired_net_2_2_1 quiescent_net_2_2_1)
    as (w1 & w2 & E1 & E2 & _ & Hv & _).
  - apply (bool_decide_unpack _). vm_compute. exact I.
  - intros i. reflexivity.
  - apply perm_swap.
  - simpl. lia.
  - exists w1, w2. exact (conj E1 (conj E2 Hv)).
Defined.

(** C5 does not hold in a wired network with a check-in pending.  After
    [LayerList(2, 1)] and a lone [set_input(5.0)] on the input neurode 0,
    the network is wired as before and the output neurode 2 has the bit of
    0 set in its UPSTREAM mask.  A presentation of 1.0 to the neurode 0
    and 2.0 to the neurode 1 then returns in both orders, with different
    results.  In the order 0, 1 the output is computed at the call for 1,
    from the values 1.0 and 2.0, and the mask is cleared.  In the order
    1, 0 the call for 1 completes the mask, the output is computed from
    the value 5.0 the neurode 0 still holds, and the call for 0 leaves its
    bit pending again. *)
Lemma feed_forward_order_matters :
  wired net_2_1_pending [[0; 1]; [2]] /\
  item (_reporting_nodes (node net_2_1_pending 2)) UPSTREAM = 1%Z /\
  exists w1 w2,
    present_inputs exp_quad sum_left 1 [(0, 1%float); (1, 2%float)]
      net_2_1_pending = (Ok tt, w1) /\
    present_inputs exp_quad sum_left 1 [(1, 2%float); (0, 1%float)]
      net_2_1_pending = (Ok tt, w2) /\
    value w1 2 = _sigmoid exp_quad (sum_left [0.5 * 1; 0.5 * 2])%float /\
    value w2 2 = _sigmoid exp_quad (sum_left [0.5 * 5; 0.5 * 2])%float /\
    PrimFloat.eqb (value w1 2) (value w2 2) = false /\
    item (_reporting_nodes (node w1 2)) UPSTREAM = 0%Z /\
    item (_reporting_nodes (node w2 2)) UPSTREAM = 1%Z.
Proof.
  split.
  { split; [apply (bool_decide_unpack _); vm_compute; exact I|].
    split; [intros a Ha; each_elem Ha; vm_compute; reflexivity|].
    split; [split|]; intros a Ha; each_elem Ha;
      vm_compute; try split; reflexivity. }
  split; [vm_compute; reflexivity|].
  eexists. eexists. split; [vm_compute; reflexivity|].
  split; [vm_compute; reflexivity|].
  split; [vm_compute; reflexivity|].
  split; [vm_compute; reflexivity|].
  split; [vm_compute; reflexivity|].
  split; vm_compute; reflexivity.
Qed.

(** ** Backward propagation *)

Section BackwardFacts.

Lemma backward_frame_refl w : backward_frame w w.
Proof. split; [intros n; repeat split|apply same_globals_refl]. Qed.

Lemma backward_frame_trans w1 w2 w3 :
  backward_frame w1 w2 -> backward_frame w2 w3 -> backward_frame w1 w3.
Proof.
  intros [H1 G1] [H2 G2]. split; [|eapply same_globals_trans; eauto].
  intros n. destruct (H1 n) as (A1 & B1 & C1 & D1), (H2 n) as (A2 & B2 & C2 & D2).
  repeat split; congruence.
Qed.

Lemma backward_frame_update w self f :
  (forall n, _neighbors (f n) = _neighbors n /\
             _reference_value (f n) = _reference_value n /\
             _value (f n) = _value n /\
             item (_reporting_nodes (f n)) UPSTREAM
               = item (_reporting_nodes n) UPSTREAM) ->
  backward_frame w (update self f w).
Proof.
  intros Hf. split; [|apply same_globals_update].
  intros n. rewrite node_update. destruct (decide (n = self)) as [->|_].
  - apply Hf.
  - repeat split.
Qed.

(** The loop of [_calculate_delta()] reads what [hidden_delta] reads. *)
Lemma delta_sum_spec w self nodes acc :
  (forall k, k ∈ nodes -> is_Some (_weights (node w k) !! self)) ->
  delta_sum w self nodes acc =
  Ok (foldl (fun acc k => acc + delta w k * get_weight w k self)%float acc
        nodes).
Proof.
  revert acc. induction nodes as [|k nodes IH]; intros acc Hw; simpl.
  - reflexivity.
  - destruct (Hw k) as [wt Hwt]; [apply elem_of_cons; now left|].
    rewrite Hwt. rewrite IH.
    + unfold get_weight, delta. now rewrite Hwt.
    + intros k' Hk'. apply Hw. apply elem_of_cons. now right.
Qed.

Lemma calculate_delta_hidden w self :
  (forall k, k ∈ item (_neighbors (node w self)) DOWNSTREAM ->
     is_Some (_weights (node w k) !! self)) ->
  _calculate_delta self None w =
  (Ok tt, update self (with_delta (hidden_delta w w self)) w).
Proof.
  intros Hw. unfold _calculate_delta. now rewrite (delta_sum_spec _ _ _ _ Hw).
Qed.

Lemma hidden_delta_ext wd wd' ww ww' self :
  item (_neighbors (node ww' self)) DOWNSTREAM
    = item (_neighbors (node ww self)) DOWNSTREAM ->
  _value (node ww' self) = _value (node ww self) ->
  (forall k, k ∈ item (_neighbors (node ww self)) DOWNSTREAM ->
     _delta (node wd' k) = _delta (node wd k) /\
     _weights (node ww' k) !! self = _weights (node ww k) !! self) ->
  hidden_delta wd' ww' self = hidden_delta wd ww self.
Proof.
  intros Hn Hv Hk. unfold hidden_delta, value. rewrite Hn, Hv. f_equal.
  clear Hn. generalize 0%float as acc. revert Hk.
  induction (item (_neighbors (node ww self)) DOWNSTREAM) as [|k ks IH];
    intros Hk acc; simpl; [reflexivity|].
  destruct (Hk k) as [Hd Hw]; [apply elem_of_cons; now left|].
  assert (E : (delta wd' k * get_weight ww' k self
               = delta wd k * get_weight ww k self)%float).
  { unfold delta, get_weight. now rewrite Hd, Hw. }
  rewrite E. apply IH.
  intros k' Hk'. apply Hk. apply elem_of_cons. now right.
Qed.

Lemma node_set_history w evs n : node (set_history evs w) n = node w n.
Proof. reflexivity. Qed.

(** The loop of [_update_weights]: every downstream neighbor adds its
    adjustment to the weight it holds for [h], once. *)
Lemma adjust_loop h K (a : loc -> float) w :
  NoDup K ->
  (forall k, k ∈ K -> is_Some (_weights (node w k) !! h)) ->
  (forall k, k ∈ K -> adjustment w k h = a k) ->
  exists w',
    for_each K
      (fun k =>
         let* adj :=
           gets (fun w => (0.05 * delta w k * value w h)%float) in
         adjust_weights k h adj) w = (Ok tt, w') /\
    backward_frame w w' /\
    (forall n, _reporting_nodes (node w' n) = _reporting_nodes (node w n) /\
               _delta (node w' n) = _delta (node w n)) /\
    (forall j i,
       _weights (node w' j) !! i =
       if decide (j ∈ K /\ i = h)
       then (fun wt => (wt + a j)%float) <$> _weights (node w j) !! i
       else _weights (node w j) !! i) /\
    history w' = history w ++ map (fun k => mkAdjustment k h (a k)) K.
Proof.
  intros Hnd. revert w. induction K as [|k K IH]; intros w Hw Ha.
  - exists w. split; [reflexivity|]. split; [apply backward_frame_refl|].
    split; [intros n; split; reflexivity|]. split.
    + intros j i. rewrite decide_False; [reflexivity|].
      intros [H _]. inversion H.
    + simpl. now rewrite app_nil_r.
  - apply NoDup_cons in Hnd as [Hk Hnd].
    destruct (Hw k) as [wt Hwt]; [apply elem_of_cons; now left|].
    simpl. rewrite bind_assoc, bind_gets.
    unfold bind at 1, adjust_weights at 1. rewrite Hwt.
    fold (adjustment w k h). rewrite (Ha k) by (apply elem_of_cons; now left).
    set (w1 := set_history _ _).
    assert (Hnode : forall n,
      node w1 n = if decide (n = k)
                  then with_weight h (wt + a k)%float (node w k)
                  else node w n).
    { intros n. subst w1. rewrite node_set_history. apply node_update. }
    destruct (IH Hnd w1) as (w' & E & Hfr & Hrd & Hwts & Hhist).
    { intros k' Hk'. rewrite Hnode.
      rewrite decide_False by (intros ->; contradiction).
      apply Hw. apply elem_of_cons. now right. }
    { intros k' Hk'. rewrite <- (Ha k') by (apply elem_of_cons; now right).
      unfold adjustment, delta, value. rewrite !Hnode.
      rewrite (decide_False (P := k' = k)) by (intros ->; contradiction).
      destruct (decide (h = k)) as [->|_]; reflexivity. }
    exists w'. split; [exact E|].
    assert (Hfr1 : backward_frame w w1).
    { split; [|split; reflexivity]. intros n. rewrite Hnode.
      destruct (decide (n = k)) as [->|_]; repeat split. }
    split; [eapply backward_frame_trans; eauto|]. split; [|split].
    + intros n. destruct (Hrd n) as [-> ->]. rewrite Hnode.
      destruct (decide (n = k)) as [->|_]; split; reflexivity.
    + intros j i. rewrite Hwts, Hnode.
      destruct (decide (j = k)) as [->|Hjk].
      * rewrite (decide_False (P := k ∈ K /\ i = h)) by tauto.
        destruct (decide (i = h)) as [->|Hih].
        -- rewrite decide_True by (split; [apply elem_of_cons; now left|reflexivity]).
           simpl. rewrite lookup_insert_eq, Hwt. reflexivity.
        -- rewrite decide_False by tauto. simpl.
           now rewrite lookup_insert_ne by congruence.
      * destruct (decide (j ∈ K /\ i = h)) as [[Hj ->]|Hn].
        -- rewrite decide_True by (split; [apply elem_of_cons; now right|reflexivity]).
           reflexivity.
        -- rewrite decide_False; [reflexivity|].
           rewrite elem_of_cons. tauto.
    + rewrite Hhist. subst w1. simpl. now rewrite <- app_assoc.
Qed.

Lemma update_weights_spec w h K :
  NoDup K ->
  item (_neighbors (node w h)) DOWNSTREAM = K ->
  (forall k, k ∈ K -> is_Some (_weights (node w k) !! h)) ->
  exists w',
    _update_weights h w = (Ok tt, w') /\
    backward_frame w w' /\
    (forall n, _reporting_nodes (node w' n) = _reporting_nodes (node w n) /\
               _delta (node w' n) = _delta (node w n)) /\
    (forall j i,
       _weights (node w' j) !! i =
       if decide (j ∈ K /\ i = h)
       then (fun wt => (wt + adjustment w j h)%float)
              <$> _weights (node w j) !! i
       else _weights (node w j) !! i) /\
    history w' =
      history w ++ map (fun k => mkAdjustment k h (adjustment w k h)) K.
Proof.
  intros Hnd Hn Hw. unfold _update_weights. rewrite bind_gets, Hn.
  apply (adjust_loop h K (fun k => adjustment w k h) w); auto.
Qed.

Lemma ready_down_incomplete depth h k p w :
  index (item (_neighbors (node w h)) DOWNSTREAM) k = Some p ->
  Z.lor (item (_reporting_nodes (node w h)) DOWNSTREAM)
        (Z.shiftl 1 (Z.of_nat p))
    <> item (_reference_value (node w h)) DOWNSTREAM ->
  data_ready_downstream (S depth) h k w =
  (Ok tt,
   update h
     (with_reporting DOWNSTREAM
        (Z.lor (item (_reporting_nodes (node w h)) DOWNSTREAM)
               (Z.shiftl 1 (Z.of_nat p)))) w).
Proof.
  intros Hi Hne. rewrite data_ready_downstream_S.
  rewrite (bind_ok _ _ _ _ _ (check_in_present h k DOWNSTREAM w p Hi)).
  now rewrite bool_decide_eq_false_2.
Qed.

Lemma ready_down_complete depth h k p w :
  index (item (_neighbors (node w h)) DOWNSTREAM) k = Some p ->
  Z.lor (item (_reporting_nodes (node w h)) DOWNSTREAM)
        (Z.shiftl 1 (Z.of_nat p))
    = item (_reference_value (node w h)) DOWNSTREAM ->
  data_ready_downstream (S depth) h k w =
  (_calculate_delta h None >>
   fire_upstream_with (data_ready_downstream depth) h >>
   _update_weights h) (update h (with_reporting DOWNSTREAM 0) w).
Proof.
  intros Hi He. rewrite data_ready_downstream_S.
  rewrite (bind_ok _ _ _ _ _ (check_in_present h k DOWNSTREAM w p Hi)).
  now rewrite bool_decide_eq_true_2 by exact He.
Qed.

(** Signalling upstream a layer none of whose nodes completes. *)
Lemma fire_down_incomplete depth k K H p ps w :
  NoDup H ->
  index K k = Some p ->
  (forall h, h ∈ H ->
     item (_neighbors (node w h)) DOWNSTREAM = K /\
     item (_reference_value (node w h)) DOWNSTREAM
       = (2 ^ Z.of_nat (length K) - 1)%Z /\
     item (_reporting_nodes (node w h)) DOWNSTREAM = bits ps) ->
  ~ all_reported (p :: ps) (length K) ->
  exists w',
    for_each H (fun h => data_ready_downstream (S depth) h k) w
      = (Ok tt, w') /\
    (forall n,
       node w' n =
       if decide (n ∈ H)
       then with_reporting DOWNSTREAM (bits (p :: ps)) (node w n)
       else node w n) /\
    same_globals w w' /\
    history w' = history w.
Proof.
  intros Hnd Hi HH Hnot. revert w HH.
  induction H as [|h H IH]; intros w HH.
  - exists w. split; [reflexivity|].
    split; [|split; [apply same_globals_refl|reflexivity]].
    intros n. rewrite decide_False; [reflexivity|apply not_elem_of_nil].
  - apply NoDup_cons in Hnd as [Hh Hnd].
    destruct (HH h) as (Hn & Hr & Hm); [apply elem_of_cons; now left|].
    simpl. erewrite bind_ok; cycle 1.
    { apply (ready_down_incomplete depth h k p); [now rewrite Hn|].
      rewrite Hr, Hm. intros E. apply Hnot. apply bits_full. exact E. }
    rewrite Hm.
    destruct (IH Hnd (update h (with_reporting DOWNSTREAM (bits (p :: ps))) w))
      as (w' & E & Hpt & Hg & Hh').
    { intros h' Hh''. rewrite node_update_ne by (intros ->; contradiction).
      apply HH. apply elem_of_cons. now right. }
    exists w'. split; [exact E|]. split; [|split; [exact Hg|exact Hh']].
    intros n. rewrite Hpt, node_update.
    destruct (decide (n = h)) as [->|Hne].
    + rewrite decide_False by exact Hh.
      rewrite decide_True by (apply elem_of_cons; now left). reflexivity.
    + destruct (decide (n ∈ H)) as [Hin|Hnin].
      * rewrite decide_True by (apply elem_of_cons; now right). reflexivity.
      * rewrite decide_False; [reflexivity|].
        rewrite not_elem_of_cons. split; assumption.
Qed.

Lemma events_of_app j i evs1 evs2 :
  events_of j i (evs1 ++ evs2) = events_of j i evs1 ++ events_of j i evs2.
Proof. apply filter_app. Qed.

(** The events of one [_update_weights] call. *)
Lemma events_of_row j i h K (a : loc -> float) :
  NoDup K ->
  events_of j i (map (fun k => mkAdjustment k h (a k)) K) =
  if decide (j ∈ K /\ i = h) then [mkAdjustment j i (a j)] else [].
Proof.
  unfold events_of. induction K as [|k K IH]; intros Hnd.
  - case_decide as H; [|reflexivity]. destruct H as [H _]. inversion H.
  - apply NoDup_cons in Hnd as [Hk Hnd]. rewrite map_cons, filter_cons.
    rewrite (IH Hnd). cbn [adj_holder adj_key].
    destruct (decide (k = j /\ h = i)) as [[-> ->]|Hne].
    + rewrite (decide_False (P := j ∈ K /\ i = i)) by tauto.
      rewrite decide_True by (split; [apply elem_of_cons; now left|reflexivity]).
      reflexivity.
    + destruct (decide (j ∈ K /\ i = h)) as [[Hj ->]|Hn].
      * rewrite decide_True by (split; [apply elem_of_cons; now right|reflexivity]).
        reflexivity.
      * rewrite decide_False; [reflexivity|]. rewrite elem_of_cons.
        intros [[->|Hj] ->]; tauto.
Qed.

Lemma ready_down_complete_delta depth h k p w :
  index (item (_neighbors (node w h)) DOWNSTREAM) k = Some p ->
  Z.lor (item (_reporting_nodes (node w h)) DOWNSTREAM)
        (Z.shiftl 1 (Z.of_nat p))
    = item (_reference_value (node w h)) DOWNSTREAM ->
  (forall k', k' ∈ item (_neighbors (node w h)) DOWNSTREAM ->
     is_Some (_weights (node w k') !! h)) ->
  data_ready_downstream (S depth) h k w =
  (for_each (item (_neighbors (node w h)) UPSTREAM)
     (fun g => data_ready_downstream depth g h) >>
   _update_weights h)
    (update h
       (fun n => with_delta (hidden_delta w w h)
                   (with_reporting DOWNSTREAM 0 n)) w).
Proof.
  intros Hi He Hw. rewrite (ready_down_complete depth h k p w Hi He).
  set (w1 := update h (with_reporting DOWNSTREAM 0) w).
  assert (Hn1 : forall n, _neighbors (node w1 n) = _neighbors (node w n)).
  { intros n. subst w1. rewrite node_update.
    now destruct (decide (n = h)) as [->|]. }
  assert (Hw1 : forall n, _weights (node w1 n) = _weights (node w n)).
  { intros n. subst w1. rewrite node_update.
    now destruct (decide (n = h)) as [->|]. }
  assert (Hw' : forall k', k' ∈ item (_neighbors (node w1 h)) DOWNSTREAM ->
                  is_Some (_weights (node w1 k') !! h)).
  { intros k' Hk'. rewrite Hn1 in Hk'. rewrite Hw1. now apply Hw. }
  rewrite (bind_ok _ _ _ _ _ (calculate_delta_hidden w1 h Hw')).
  assert (E : hidden_delta w1 w1 h = hidden_delta w w h).
  { apply hidden_delta_ext.
    - now rewrite Hn1.
    - subst w1. now rewrite node_update_eq.
    - intros k' _. rewrite Hw1. split; [|reflexivity]. subst w1.
      rewrite node_update. now destruct (decide (k' = h)) as [->|]. }
  rewrite E. subst w1. rewrite update_update.
  unfold fire_upstream_with. rewrite bind_assoc, bind_gets.
  rewrite node_update_eq. reflexivity.
Qed.

(** One node [h] of a layer all of whose downstream neighbors [K] have now
    reported, when the layer [G] upstream of it cannot complete yet: the
    node computes its delta, checks in at every node of [G] and updates
    the weights held for it in [K]. *)
Lemma node_step_prefix depth k K H G h q p ps qs w :
  NoDup K -> NoDup G -> h ∉ K -> h ∉ G ->
  (forall x, x ∈ K -> x ∉ G) ->
  index K k = Some p ->
  all_reported (p :: ps) (length K) ->
  item (_neighbors (node w h)) DOWNSTREAM = K ->
  item (_reference_value (node w h)) DOWNSTREAM
    = (2 ^ Z.of_nat (length K) - 1)%Z ->
  item (_reporting_nodes (node w h)) DOWNSTREAM = bits ps ->
  item (_neighbors (node w h)) UPSTREAM = G ->
  (forall k', k' ∈ K -> is_Some (_weights (node w k') !! h)) ->
  G = [] \/
    (0 < depth /\ index H h = Some q /\
     (forall g, g ∈ G ->
        item (_neighbors (node w g)) DOWNSTREAM = H /\
        item (_reference_value (node w g)) DOWNSTREAM
          = (2 ^ Z.of_nat (length H) - 1)%Z /\
        item (_reporting_nodes (node w g)) DOWNSTREAM = bits qs) /\
     ~ all_reported (q :: qs) (length H)) ->
  exists w',
    data_ready_downstream (S depth) h k w = (Ok tt, w') /\
    backward_frame w w' /\
    (forall n,
       item (_reporting_nodes (node w' n)) DOWNSTREAM =
       if decide (n = h) then 0%Z
       else if decide (n ∈ G) then bits (q :: qs)
            else item (_reporting_nodes (node w n)) DOWNSTREAM) /\
    (forall n,
       _delta (node w' n) =
       if decide (n = h) then hidden_delta w w h else _delta (node w n)) /\
    (forall j i,
       _weights (node w' j) !! i =
       if decide (j ∈ K /\ i = h)
       then (fun wt => (wt + adjustment w j h)%float)
              <$> _weights (node w j) !! i
       else _weights (node w j) !! i) /\
    history w' =
      history w ++ map (fun k' => mkAdjustment k' h (adjustment w k' h)) K.
Proof.
  intros HNK HNG HhK HhG HKG Hi Hall Hn Hr Hm Hu Hw HG.
  assert (He : Z.lor (item (_reporting_nodes (node w h)) DOWNSTREAM)
                 (Z.shiftl 1 (Z.of_nat p))
               = item (_reference_value (node w h)) DOWNSTREAM).
  { rewrite Hm, Hr. now apply (bits_full (p :: ps)). }
  rewrite <- Hn in Hi.
  rewrite (ready_down_complete_delta depth h k p w Hi He)
    by (intros k' Hk'; rewrite Hn in Hk'; now apply Hw).
  rewrite Hu.
  set (w2 := update h _ w).
  assert (H2 : forall n, node w2 n =
             if decide (n = h)
             then with_delta (hidden_delta w w h)
                    (with_reporting DOWNSTREAM 0 (node w h))
             else node w n).
  { intros n. subst w2. apply node_update. }
  assert (F2 : backward_frame w w2).
  { subst w2. apply backward_frame_update. intros [[] ? ? ? ? ?]. now simpl. }
  assert (Hh2 : history w2 = history w) by reflexivity.
  assert (Hfire : exists w3,
    for_each G (fun g => data_ready_downstream depth g h) w2 = (Ok tt, w3) /\
    (forall n,
       node w3 n =
       if decide (n ∈ G)
       then with_reporting DOWNSTREAM (bits (q :: qs)) (node w2 n)
       else node w2 n) /\
    same_globals w2 w3 /\
    history w3 = history w2).
  { destruct HG as [->|(Hd & Hq & HwG & Hnall)].
    - exists w2. split; [reflexivity|].
      split; [|split; [apply same_globals_refl|reflexivity]].
      intros n. now rewrite decide_False by apply not_elem_of_nil.
    - destruct depth as [|depth]; [lia|].
      apply (fire_down_incomplete depth h H G q qs w2 HNG Hq); [|exact Hnall].
      intros g Hg. rewrite H2.
      rewrite decide_False by (intros ->; contradiction).
      now apply HwG. }
  destruct Hfire as (w3 & E3 & H3 & G3 & Hh3).
  rewrite (bind_ok _ _ _ _ _ E3).
  assert (F3 : backward_frame w2 w3).
  { split; [|exact G3]. intros n. rewrite H3.
    destruct (decide (n ∈ G)); [|tauto].
    destruct (node w2 n) as [[] ? ? ? ? ?]. now simpl. }
  assert (N3 : forall n, _weights (node w3 n) = _weights (node w n) /\
                         _delta (node w3 n) =
                         if decide (n = h) then hidden_delta w w h
                         else _delta (node w n)).
  { intros n. rewrite H3, H2.
    destruct (decide (n ∈ G)), (decide (n = h)); subst; try contradiction;
      try destruct (node w h) as [[] ? ? ? ? ?];
      try destruct (node w n) as [[] ? ? ? ? ?]; now simpl. }
  destruct (update_weights_spec w3 h K HNK) as (w4 & E4 & F4 & H4 & W4 & Hh4).
  { destruct F3 as [F3 _], F2 as [F2 _].
    destruct (F3 h) as (-> & _), (F2 h) as (-> & _). exact Hn. }
  { intros k' Hk'. destruct (N3 k') as [-> _]. now apply Hw. }
  exists w4. split; [exact E4|].
  assert (Ea : forall j, j ∈ K -> adjustment w3 j h = adjustment w j h).
  { intros j Hj. unfold adjustment, delta, value. destruct (N3 j) as [_ ->].
    rewrite decide_False by (intros ->; contradiction).
    destruct F3 as [F3 _], F2 as [F2 _].
    destruct (F3 h) as (_ & _ & -> & _), (F2 h) as (_ & _ & -> & _).
    reflexivity. }
  split; [|split; [|split; [|split]]].
  - eapply backward_frame_trans; [|exact F4].
    eapply backward_frame_trans; [exact F2|exact F3].
  - intros n. destruct (H4 n) as [-> _]. rewrite H3, H2.
    destruct (decide (n = h)) as [->|Hne].
    + rewrite decide_False by exact HhG.
      destruct (node w h) as [[] ? ? ? ? ?]. reflexivity.
    + destruct (decide (n ∈ G)); [|reflexivity].
      destruct (node w n) as [[] ? ? ? ? ?]. reflexivity.
  - intros n. destruct (H4 n) as [_ ->]. now destruct (N3 n) as [_ ->].
  - intros j i. rewrite W4. destruct (N3 j) as [-> _].
    destruct (decide (j ∈ K /\ i = h)) as [[Hj _]|]; [|reflexivity].
    now rewrite (Ea j Hj).
  - rewrite Hh4, Hh3, Hh2. f_equal. apply map_ext_in. intros j Hj.
    rewrite (Ea j); [reflexivity|]. now apply list_elem_of_In.
Qed.

Lemma upto_snoc {A} (l : list A) (x : A) :
  upto (length (l ++ [x])) = length l :: upto (length l).
Proof. rewrite length_app. simpl. now rewrite Nat.add_1_r. Qed.

(** The nodes [H1] at the front of a layer [H] all of whose downstream
    neighbors [K] have now reported: each computes its delta, checks in at
    the layer [G] upstream, which cannot complete before the last node of
    [H], and updates the weights held for it in [K]. *)
Lemma backward_prefix depth k K H G p ps w H1 H2 :
  H = H1 ++ H2 ->
  G = [] \/ (H2 <> [] /\ 0 < depth) ->
  NoDup (K ++ H ++ G) ->
  index K k = Some p ->
  all_reported (p :: ps) (length K) ->
  (forall h, h ∈ H ->
     item (_neighbors (node w h)) DOWNSTREAM = K /\
     item (_reference_value (node w h)) DOWNSTREAM
       = (2 ^ Z.of_nat (length K) - 1)%Z /\
     item (_reporting_nodes (node w h)) DOWNSTREAM = bits ps /\
     item (_neighbors (node w h)) UPSTREAM = G) ->
  (forall g, g ∈ G ->
     item (_neighbors (node w g)) DOWNSTREAM = H /\
     item (_reference_value (node w g)) DOWNSTREAM
       = (2 ^ Z.of_nat (length H) - 1)%Z /\
     item (_reporting_nodes (node w g)) DOWNSTREAM = 0%Z) ->
  (forall k' h, k' ∈ K -> h ∈ H -> is_Some (_weights (node w k') !! h)) ->
  exists w1,
    for_each H1 (fun h => data_ready_downstream (S depth) h k) w
      = (Ok tt, w1) /\
    backward_frame w w1 /\
    (forall n,
       item (_reporting_nodes (node w1 n)) DOWNSTREAM =
       if decide (n ∈ H1) then 0%Z
       else if decide (n ∈ G) then bits (upto (length H1))
            else item (_reporting_nodes (node w n)) DOWNSTREAM) /\
    (forall n,
       _delta (node w1 n) =
       if decide (n ∈ H1) then hidden_delta w w n else _delta (node w n)) /\
    (forall j i,
       _weights (node w1 j) !! i =
       if decide (j ∈ K /\ i ∈ H1)
       then (fun wt => (wt + adjustment w j i)%float)
              <$> _weights (node w j) !! i
       else _weights (node w j) !! i) /\
    exists evs,
      history w1 = history w ++ evs /\
      forall j i,
        events_of j i evs =
        if decide (j ∈ K /\ i ∈ H1)
        then [mkAdjustment j i (adjustment w j i)] else [].
Proof.
  intros HH HG Hnd Hi Hall HwH HwG Hwt. revert H2 HH HG.
  assert (HNK : NoDup K) by now apply NoDup_app in Hnd as (? & _).
  assert (HNH : NoDup H).
  { apply NoDup_app in Hnd as (_ & _ & Hnd).
    now apply NoDup_app in Hnd as (? & _). }
  assert (HNG : NoDup G).
  { apply NoDup_app in Hnd as (_ & _ & Hnd).
    now apply NoDup_app in Hnd as (_ & _ & ?). }
  assert (HKx : forall x, x ∈ K -> (x ∉ H) /\ (x ∉ G)).
  { intros x Hx. apply NoDup_app in Hnd as (_ & Hnd & _).
    specialize (Hnd x Hx). rewrite not_elem_of_app in Hnd. exact Hnd. }
  assert (HHx : forall x, x ∈ H -> x ∉ G).
  { intros x Hx. apply NoDup_app in Hnd as (_ & _ & Hnd).
    apply NoDup_app in Hnd as (_ & Hnd & _). now apply Hnd. }
  induction H1 as [|h H1 IH] using rev_ind; intros H2 HH HG.
  - exists w. split; [reflexivity|]. split; [apply backward_frame_refl|].
    split; [|split; [|split]].
    + intros n. rewrite decide_False by apply not_elem_of_nil.
      destruct (decide (n ∈ G)) as [Hg|]; [|reflexivity].
      now destruct (HwG n Hg) as (_ & _ & ->).
    + intros n. now rewrite decide_False by apply not_elem_of_nil.
    + intros j i. rewrite decide_False; [reflexivity|].
      intros [_ Hx]. now apply not_elem_of_nil in Hx.
    + exists []. split; [now rewrite app_nil_r|]. intros j i.
      rewrite decide_False; [reflexivity|].
      intros [_ Hx]. now apply not_elem_of_nil in Hx.
  - rewrite <- app_assoc in HH. simpl in HH.
    destruct (IH (h :: H2) HH)
      as (w1 & E1 & F1 & R1 & D1 & W1 & evs & Hh1 & Ev1).
    { destruct HG as [HG|[_ HG]]; [now left|right].
      split; [discriminate|exact HG]. }
    rewrite (for_each_snoc _ _ _ _ _ E1).
    assert (HhH : h ∈ H).
    { rewrite HH. apply elem_of_app. right. apply elem_of_cons. now left. }
    assert (HhH1 : h ∉ H1).
    { rewrite HH in HNH. apply NoDup_app in HNH as (_ & HNH & _).
      intros Hin. apply (HNH _ Hin). apply elem_of_cons. now left. }
    assert (HhG : h ∉ G) by now apply HHx.
    assert (HhK : h ∉ K) by (intros Hx; now apply (proj1 (HKx h Hx))).
    assert (HH1 : forall x, x ∈ H1 -> x ∈ H).
    { intros x Hx. rewrite HH. apply elem_of_app. now left. }
    destruct (HwH h HhH) as (Hn & Hr & Hm & Hu).
    pose proof F1 as [F1n _].
    destruct (node_step_prefix depth k K H G h (length H1) p ps
                (upto (length H1)) w1 HNK HNG HhK HhG
                (fun x Hx => proj2 (HKx x Hx)) Hi Hall)
      as (w4 & E4 & F4 & R4 & D4 & W4 & Hh4).
    { destruct (F1n h) as (-> & _). exact Hn. }
    { destruct (F1n h) as (_ & -> & _). exact Hr. }
    { rewrite R1. now rewrite !decide_False. }
    { destruct (F1n h) as (-> & _). exact Hu. }
    { intros k' Hk'. rewrite W1.
      rewrite decide_False by (intros [_ Hx]; contradiction).
      now apply Hwt. }
    { destruct HG as [HG|[HH2 Hd]]; [now left|right].
      split; [exact Hd|]. split; [rewrite HH; now apply index_middle|].
      split.
      - intros g Hg. destruct (HwG g Hg) as (Hgn & Hgr & _).
        destruct (F1n g) as (-> & -> & _). split; [exact Hgn|].
        split; [exact Hgr|]. rewrite R1.
        rewrite decide_False by (intros Hx; apply (HHx g); auto).
        now rewrite decide_True.
      - change (length H1 :: upto (length H1)) with (upto (S (length H1))).
        apply not_all_reported_upto. rewrite HH, length_app. simpl.
        destruct H2; [contradiction|simpl; lia]. }
    exists w4. split; [exact E4|].
    assert (Ea : forall j, j ∈ K -> adjustment w1 j h = adjustment w j h).
    { intros j Hj. unfold adjustment, delta, value. rewrite D1.
      rewrite decide_False by (intros Hx; apply (proj1 (HKx j Hj)); auto).
      destruct (F1n h) as (_ & _ & -> & _). reflexivity. }
    split; [eapply backward_frame_trans; [exact F1|exact F4]|].
    split; [|split; [|split]].
    + intros n. rewrite R4, R1, upto_snoc.
      destruct (decide (n = h)) as [->|Hne].
      * rewrite decide_True; [reflexivity|].
        apply elem_of_app. right. apply elem_of_cons. now left.
      * destruct (decide (n ∈ H1)) as [Hin|Hnin].
        -- rewrite decide_False by (intros Hx; apply (HHx n); auto).
           rewrite decide_True; [reflexivity|]. apply elem_of_app. now left.
        -- rewrite (decide_False (P := n ∈ H1 ++ [h]))
             by (rewrite elem_of_app, list_elem_of_singleton; tauto).
           now destruct (decide (n ∈ G)).
    + intros n. rewrite D4, D1.
      destruct (decide (n = h)) as [->|Hne].
      * rewrite decide_True
          by (apply elem_of_app; right; apply elem_of_cons; now left).
        apply hidden_delta_ext.
        -- now destruct (F1n h) as (-> & _).
        -- now destruct (F1n h) as (_ & _ & -> & _).
        -- intros k' Hk'. rewrite Hn in Hk'. rewrite D1, W1.
           rewrite decide_False by (intros Hx; apply (proj1 (HKx k' Hk')); auto).
           rewrite decide_False by (intros [_ Hx]; contradiction).
           split; reflexivity.
      * destruct (decide (n ∈ H1)) as [Hin|Hnin].
        -- rewrite decide_True; [reflexivity|]. apply elem_of_app. now left.
        -- rewrite decide_False; [reflexivity|].
           rewrite elem_of_app, list_elem_of_singleton. tauto.
    + intros j i. rewrite W4, W1.
      destruct (decide (j ∈ K /\ i = h)) as [[Hj ->]|Hne].
      * rewrite (decide_False (P := j ∈ K /\ h ∈ H1)) by tauto.
        rewrite decide_True.
        -- now rewrite (Ea j Hj).
        -- split; [exact Hj|].
           apply elem_of_app; right; apply elem_of_cons; now left.
      * destruct (decide (j ∈ K /\ i ∈ H1)) as [[Hj Hin]|Hnin].
        -- rewrite decide_True; [reflexivity|]. split; [exact Hj|].
           apply elem_of_app. now left.
        -- rewrite decide_False; [reflexivity|].
           rewrite elem_of_app, list_elem_of_singleton. tauto.
    + exists (evs ++ map (fun k' => mkAdjustment k' h (adjustment w1 k' h)) K).
      split; [rewrite Hh4, Hh1; now rewrite app_assoc|].
      intros j i. rewrite events_of_app, Ev1, events_of_row by exact HNK.
      destruct (decide (j ∈ K /\ i = h)) as [[Hj ->]|Hne].
      * rewrite (decide_False (P := j ∈ K /\ h ∈ H1)) by tauto.
        rewrite decide_True.
        -- now rewrite (Ea j Hj).
        -- split; [exact Hj|].
           apply elem_of_app; right; apply elem_of_cons; now left.
      * destruct (decide (j ∈ K /\ i ∈ H1)) as [[Hj Hin]|Hnin].
        -- rewrite decide_True; [now rewrite app_nil_r|]. split; [exact Hj|].
           apply elem_of_app. now left.
        -- rewrite decide_False; [reflexivity|].
           rewrite elem_of_app, list_elem_of_singleton. tauto.
Qed.

Lemma wired_back_frame w w' H before :
  (forall n, _neighbors (node w' n) = _neighbors (node w n)) ->
  (forall n, _reference_value (node w' n) = _reference_value (node w n)) ->
  wired_back w H before -> wired_back w' H before.
Proof.
  intros Hn Hr. revert H. induction before as [|G before IH]; intros H; simpl.
  - intros Hw h Hh. rewrite Hn. auto.
  - intros [H1 H2]. split; [eapply layer_pair_wired_frame; eauto|auto].
Qed.

Lemma weighted_back_ext w w' H before :
  (forall j i, j ∈ concat (H :: before) ->
     _weights (node w' j) !! i = _weights (node w j) !! i) ->
  weighted_back w H before -> weighted_back w' H before.
Proof.
  revert H. induction before as [|G before IH]; intros H Hw; simpl;
    [trivial|].
  intros [H1 H2]. split.
  - intros g h Hg Hh. rewrite Hw; [now apply H1|].
    simpl. apply elem_of_app. now left.
  - apply IH; [|exact H2]. intros j i Hj. apply Hw.
    simpl. apply elem_of_app. now right.
Qed.

Lemma wired_back_up w H before h :
  wired_back w H before -> h ∈ H ->
  item (_neighbors (node w h)) UPSTREAM = hd [] before.
Proof.
  destruct before as [|G before]; simpl.
  - intros Hw Hh. now apply Hw.
  - intros [[_ Hw] _] Hh. now destruct (Hw h Hh).
Qed.

Lemma bp_node_nil H n : bp_node [] H n = bool_decide (n ∈ H).
Proof.
  destruct H; simpl; [reflexivity|now rewrite orb_false_r].
Qed.

Lemma bp_edge_nil K H j i :
  bp_edge [] K H j i = bool_decide (j ∈ K) && bool_decide (i ∈ H).
Proof.
  destruct H; simpl; [now rewrite andb_false_r|now rewrite orb_false_r].
Qed.

Lemma bp_node_cons G before H n :
  H <> [] ->
  bp_node (G :: before) H n = bool_decide (n ∈ H) || bp_node before G n.
Proof. destruct H; [contradiction|reflexivity]. Qed.

Lemma bp_edge_cons G before K H j i :
  H <> [] ->
  bp_edge (G :: before) K H j i =
  (bool_decide (j ∈ K) && bool_decide (i ∈ H)) || bp_edge before H G j i.
Proof. destruct H; [contradiction|reflexivity]. Qed.

Lemma bp_node_elem before H n :
  bp_node before H n = true -> n ∈ concat (H :: before).
Proof.
  revert H. induction before as [|G before IH]; intros H.
  - rewrite bp_node_nil. intros Hn%bool_decide_eq_true.
    simpl. now rewrite app_nil_r.
  - destruct H as [|h H]; [discriminate|]. rewrite bp_node_cons by discriminate.
    intros [Hn%bool_decide_eq_true|Hn]%orb_true_iff;
      change (concat ((h :: H) :: G :: before))
        with ((h :: H) ++ concat (G :: before));
      apply elem_of_app; [now left|right; now apply IH].
Qed.

Lemma bp_edge_elem before K H j i :
  bp_edge before K H j i = true ->
  j ∈ concat (K :: H :: before) /\ i ∈ concat (H :: before).
Proof.
  revert K H. induction before as [|G before IH]; intros K H.
  - rewrite bp_edge_nil.
    intros [Hj%bool_decide_eq_true Hi%bool_decide_eq_true]%andb_true_iff.
    simpl. rewrite app_nil_r. split; [|exact Hi]. apply elem_of_app. now left.
  - destruct H as [|h H]; [discriminate|]. rewrite bp_edge_cons by discriminate.
    change (concat (K :: (h :: H) :: G :: before))
      with (K ++ concat ((h :: H) :: G :: before)).
    change (concat ((h :: H) :: G :: before))
      with ((h :: H) ++ concat (G :: before)).
    intros [[Hj%bool_decide_eq_true Hi%bool_decide_eq_true]%andb_true_iff
           |He]%orb_true_iff.
    + split; apply elem_of_app; now left.
    + destruct (IH _ _ He) as [Hj Hi]. split; apply elem_of_app; now right.
Qed.

Lemma adjustment_ext w w' j i :
  _delta (node w' j) = _delta (node w j) ->
  _value (node w' i) = _value (node w i) ->
  adjustment w' j i = adjustment w j i.
Proof. intros Hd Hv. unfold adjustment, delta, value. now rewrite Hd, Hv. Qed.

(** The whole layer [H' ++ [hl]] up to the point where its last node has
    computed its delta: what remains is the signal of [hl] to the layer
    [G], which completes it, and the weight update of [hl]. *)
Lemma backward_last depth k K H' hl G p ps w :
  0 < depth ->
  NoDup (K ++ (H' ++ [hl]) ++ G) ->
  index K k = Some p ->
  all_reported (p :: ps) (length K) ->
  (forall h, h ∈ H' ++ [hl] ->
     item (_neighbors (node w h)) DOWNSTREAM = K /\
     item (_reference_value (node w h)) DOWNSTREAM
       = (2 ^ Z.of_nat (length K) - 1)%Z /\
     item (_reporting_nodes (node w h)) DOWNSTREAM = bits ps /\
     item (_neighbors (node w h)) UPSTREAM = G) ->
  (forall g, g ∈ G ->
     item (_neighbors (node w g)) DOWNSTREAM = H' ++ [hl] /\
     item (_reference_value (node w g)) DOWNSTREAM
       = (2 ^ Z.of_nat (length (H' ++ [hl])) - 1)%Z /\
     item (_reporting_nodes (node w g)) DOWNSTREAM = 0%Z) ->
  (forall k' h, k' ∈ K -> h ∈ H' ++ [hl] ->
     is_Some (_weights (node w k') !! h)) ->
  exists w2,
    for_each (H' ++ [hl]) (fun h => data_ready_downstream (S depth) h k) w
      = (for_each G (fun g => data_ready_downstream depth g hl) >>
         _update_weights hl) w2 /\
    backward_frame w w2 /\
    (forall n,
       item (_reporting_nodes (node w2 n)) DOWNSTREAM =
       if decide (n ∈ H' ++ [hl]) then 0%Z
       else if decide (n ∈ G) then bits (upto (length H'))
            else item (_reporting_nodes (node w n)) DOWNSTREAM) /\
    (forall n,
       _delta (node w2 n) =
       if decide (n ∈ H' ++ [hl]) then hidden_delta w w n
       else _delta (node w n)) /\
    (forall j i,
       _weights (node w2 j) !! i =
       if decide (j ∈ K /\ i ∈ H')
       then (fun wt => (wt + adjustment w j i)%float)
              <$> _weights (node w j) !! i
       else _weights (node w j) !! i) /\
    exists evs,
      history w2 = history w ++ evs /\
      forall j i,
        events_of j i evs =
        if decide (j ∈ K /\ i ∈ H')
        then [mkAdjustment j i (adjustment w j i)] else [].
Proof.
  intros Hd Hnd Hi Hall HwH HwG Hwt.
  assert (HNH : NoDup (H' ++ [hl])).
  { apply NoDup_app in Hnd as (_ & _ & Hnd).
    now apply NoDup_app in Hnd as (? & _). }
  assert (HKx : forall x, x ∈ K -> (x ∉ H' ++ [hl]) /\ (x ∉ G)).
  { intros x Hx. apply NoDup_app in Hnd as (_ & Hnd & _).
    specialize (Hnd x Hx). rewrite not_elem_of_app in Hnd. exact Hnd. }
  assert (HHx : forall x, x ∈ H' ++ [hl] -> x ∉ G).
  { intros x Hx. apply NoDup_app in Hnd as (_ & _ & Hnd).
    apply NoDup_app in Hnd as (_ & Hnd & _). now apply Hnd. }
  assert (HlH : hl ∈ H' ++ [hl]).
  { apply elem_of_app. right. apply elem_of_cons. now left. }
  assert (HlH' : hl ∉ H').
  { apply NoDup_app in HNH as (_ & HNH & _).
    intros Hin. apply (HNH _ Hin). apply elem_of_cons. now left. }
  assert (HH' : forall x, x ∈ H' -> x ∈ H' ++ [hl]).
  { intros x Hx. apply elem_of_app. now left. }
  assert (HG : G = [] \/ ([hl] <> [] /\ 0 < depth))
    by (right; split; [discriminate|exact Hd]).
  destruct (backward_prefix depth k K (H' ++ [hl]) G p ps w H' [hl]
              eq_refl HG Hnd Hi Hall HwH HwG Hwt)
    as (w1 & E1 & F1 & R1 & D1 & W1 & evs & Hh1 & Ev1).
  rewrite (for_each_snoc _ _ _ _ _ E1).
  destruct (HwH hl HlH) as (Hn & Hr & Hm & Hu).
  pose proof F1 as [F1n _].
  assert (He : Z.lor (item (_reporting_nodes (node w1 hl)) DOWNSTREAM)
                 (Z.shiftl 1 (Z.of_nat p))
               = item (_reference_value (node w1 hl)) DOWNSTREAM).
  { rewrite R1. rewrite decide_False by exact HlH'.
    rewrite decide_False by now apply HHx.
    destruct (F1n hl) as (_ & -> & _). rewrite Hm, Hr.
    now apply (bits_full (p :: ps)). }
  assert (Hi1 : index (item (_neighbors (node w1 hl)) DOWNSTREAM) k = Some p).
  { destruct (F1n hl) as (-> & _). now rewrite Hn. }
  rewrite (ready_down_complete_delta depth hl k p w1 Hi1 He).
  2:{ intros k' Hk'. destruct (F1n hl) as (E & _). rewrite E, Hn in Hk'.
      rewrite W1. rewrite decide_False by (intros [_ Hx]; contradiction).
      now apply Hwt. }
  destruct (F1n hl) as (-> & _). rewrite Hu.
  assert (Ed : hidden_delta w1 w1 hl = hidden_delta w w hl).
  { apply hidden_delta_ext.
    - now destruct (F1n hl) as (-> & _).
    - now destruct (F1n hl) as (_ & _ & -> & _).
    - intros k' Hk'. rewrite Hn in Hk'. rewrite D1, W1.
      rewrite decide_False by (intros Hx; apply (proj1 (HKx k' Hk')); auto).
      rewrite decide_False by (intros [_ Hx]; contradiction).
      split; reflexivity. }
  rewrite Ed.
  set (w2 := update hl _ w1).
  assert (H2 : forall n, node w2 n =
             if decide (n = hl)
             then with_delta (hidden_delta w w hl)
                    (with_reporting DOWNSTREAM 0 (node w1 hl))
             else node w1 n).
  { intros n. subst w2. apply node_update. }
  assert (F2 : backward_frame w1 w2).
  { subst w2. apply backward_frame_update. intros [[] ? ? ? ? ?]. now simpl. }
  exists w2. split; [reflexivity|].
  split; [eapply backward_frame_trans; [exact F1|exact F2]|].
  split; [|split; [|split]].
  - intros n. rewrite H2. destruct (decide (n = hl)) as [->|Hne].
    + rewrite decide_True by exact HlH.
      destruct (node w1 hl) as [[] ? ? ? ? ?]. reflexivity.
    + rewrite R1. destruct (decide (n ∈ H')) as [Hin|Hnin].
      * rewrite decide_True by now apply HH'. reflexivity.
      * rewrite (decide_False (P := n ∈ H' ++ [hl]))
          by (rewrite elem_of_app, list_elem_of_singleton; tauto).
        reflexivity.
  - intros n. rewrite H2. destruct (decide (n = hl)) as [->|Hne].
    + rewrite decide_True by exact HlH.
      destruct (node w1 hl) as [[] ? ? ? ? ?]. reflexivity.
    + rewrite D1. destruct (decide (n ∈ H')) as [Hin|Hnin].
      * rewrite decide_True by now apply HH'. reflexivity.
      * rewrite (decide_False (P := n ∈ H' ++ [hl]))
          by (rewrite elem_of_app, list_elem_of_singleton; tauto).
        reflexivity.
  - intros j i. rewrite <- W1. rewrite H2.
    destruct (decide (j = hl)) as [->|Hne]; [|reflexivity].
    destruct (node w1 hl) as [[] ? ? ? ? ?]. reflexivity.
  - exists evs. split; [exact Hh1|exact Ev1].
Qed.

(** The last downstream neighbor [k] of the layer [H] reports: the deltas
    of [H] and of the layers before it are computed, layer by layer, every
    weight held for a node the pass reaches is adjusted once, and all the
    masks are clear again. *)
Lemma backward_cascade before :
  forall K H k p ps w depth,
    NoDup (concat (K :: H :: before)) ->
    layer_pair_wired w H K ->
    wired_back w H before ->
    (forall k' h, k' ∈ K -> h ∈ H -> is_Some (_weights (node w k') !! h)) ->
    weighted_back w H before ->
    index K k = Some p ->
    (forall h, h ∈ H ->
       item (_reporting_nodes (node w h)) DOWNSTREAM = bits ps) ->
    all_reported (p :: ps) (length K) ->
    (forall n, n ∈ concat before ->
       item (_reporting_nodes (node w n)) DOWNSTREAM = 0%Z) ->
    length before <= depth ->
    exists w',
      for_each H (fun h => data_ready_downstream (S depth) h k) w
        = (Ok tt, w') /\
      backward_frame w w' /\
      (forall n,
         item (_reporting_nodes (node w' n)) DOWNSTREAM =
         if decide (n ∈ H) then 0%Z
         else item (_reporting_nodes (node w n)) DOWNSTREAM) /\
      (forall n,
         _delta (node w' n) =
         if bp_node before H n then hidden_delta w' w n
         else _delta (node w n)) /\
      (forall j i,
         _weights (node w' j) !! i =
         if bp_edge before K H j i
         then (fun wt => (wt + adjustment w' j i)%float)
                <$> _weights (node w j) !! i
         else _weights (node w j) !! i) /\
      exists evs,
        history w' = history w ++ evs /\
        forall j i,
          events_of j i evs =
          if bp_edge before K H j i
          then [mkAdjustment j i (adjustment w' j i)] else [].
Proof.
  induction before as [|G before IH];
    intros K H k p ps w depth Hnd [HwH HwK] Hwb Hwt Hwtb Hi Hm Hall Hq Hdepth.
  - (* the input layer *)
    simpl in Hnd. rewrite app_nil_r in Hnd.
    destruct (backward_prefix depth k K H [] p ps w H [])
      as (w1 & E1 & F1 & R1 & D1 & W1 & evs & Hh1 & Ev1); try assumption.
    + now rewrite app_nil_r.
    + now left.
    + now rewrite app_nil_r.
    + intros h Hh. destruct (HwH h Hh) as [Hn Hr].
      refine (conj Hn (conj Hr (conj (Hm h Hh) _))).
      now apply (wired_back_up w H [] h).
    + intros g Hg. inversion Hg.
    + assert (HKH : forall x, x ∈ K -> x ∉ H).
      { intros x Hx. apply NoDup_app in Hnd as (_ & Hnd & _). now apply Hnd. }
      pose proof F1 as [F1n _].
      assert (Ea : forall j i, j ∈ K ->
                adjustment w1 j i = adjustment w j i).
      { intros j i Hj. apply adjustment_ext.
        - rewrite D1. now rewrite decide_False by now apply HKH.
        - now destruct (F1n i) as (_ & _ & -> & _). }
      exists w1. split; [exact E1|]. split; [exact F1|].
      split; [|split; [|split]].
      * intros n. rewrite R1. destruct (decide (n ∈ H)); [reflexivity|].
        now rewrite decide_False by apply not_elem_of_nil.
      * intros n. rewrite D1, bp_node_nil.
        destruct (decide (n ∈ H)) as [Hin|Hnin].
        -- rewrite bool_decide_eq_true_2 by exact Hin. symmetry.
           apply hidden_delta_ext; [reflexivity|reflexivity|].
           intros k' Hk'. destruct (HwH n Hin) as [Hn _]. rewrite Hn in Hk'.
           rewrite D1. rewrite decide_False by now apply HKH.
           split; reflexivity.
        -- now rewrite bool_decide_eq_false_2 by exact Hnin.
      * intros j i. rewrite W1, bp_edge_nil.
        destruct (decide (j ∈ K /\ i ∈ H)) as [[Hj Hin]|Hnin].
        -- rewrite !bool_decide_eq_true_2 by assumption. simpl.
           now rewrite (Ea j i Hj).
        -- destruct (decide (j ∈ K)), (decide (i ∈ H)); try tauto;
             rewrite ?(bool_decide_eq_false_2 (j ∈ K)) by assumption;
             rewrite ?(bool_decide_eq_false_2 (i ∈ H)) by assumption;
             rewrite ?andb_false_r; reflexivity.
      * exists evs. split; [exact Hh1|]. intros j i. rewrite Ev1, bp_edge_nil.
        destruct (decide (j ∈ K /\ i ∈ H)) as [[Hj Hin]|Hnin].
        -- rewrite !bool_decide_eq_true_2 by assumption. simpl.
           now rewrite (Ea j i Hj).
        -- destruct (decide (j ∈ K)), (decide (i ∈ H)); try tauto;
             rewrite ?(bool_decide_eq_false_2 (j ∈ K)) by assumption;
             rewrite ?(bool_decide_eq_false_2 (i ∈ H)) by assumption;
             rewrite ?andb_false_r; reflexivity.
  - (* a layer with the layer [G] upstream *)
    destruct (decide (H = [])) as [->|Hne].
    { exists w. split; [reflexivity|]. split; [apply backward_frame_refl|].
      split; [|split; [|split]].
      - intros n. now rewrite decide_False by apply not_elem_of_nil.
      - reflexivity.
      - reflexivity.
      - exists []. split; [now rewrite app_nil_r|reflexivity]. }
    destruct (exists_last Hne) as (H' & hl & EH).
    destruct depth as [|d]; [simpl in Hdepth; lia|].
    simpl in Hdepth. apply le_S_n in Hdepth.
    destruct Hwb as [[HwG HwHu] Hwb]. destruct Hwtb as [Hwt1 Hwtb].
    change (concat (K :: H :: G :: before))
      with (K ++ H ++ G ++ concat before) in Hnd.
    assert (HNK : NoDup K) by now apply NoDup_app in Hnd as (? & _).
    assert (HKx : forall x, x ∈ K -> x ∉ concat (H :: G :: before)).
    { intros x Hx. apply NoDup_app in Hnd as (_ & Hnd & _). now apply Hnd. }
    assert (Hnd' : NoDup (concat (H :: G :: before))).
    { now apply NoDup_app in Hnd as (_ & _ & ?). }
    assert (HHx : forall x, x ∈ H -> x ∉ concat (G :: before)).
    { intros x Hx. simpl in Hnd'. apply NoDup_app in Hnd' as (_ & Hn & _).
      now apply Hn. }
    assert (Hnd3 : NoDup (K ++ H ++ G)).
    { rewrite !app_assoc in Hnd. apply NoDup_app in Hnd as (Hnd & _).
      now rewrite <- !app_assoc in Hnd. }
    assert (HGc : forall x, x ∈ G -> x ∈ concat (G :: before)).
    { intros x Hx. simpl. apply elem_of_app. now left. }
    assert (HKH : forall x, x ∈ K -> x ∉ H).
    { intros x Hx Hin. apply (HKx x Hx). simpl. apply elem_of_app. now left. }
    assert (HHG : forall x, x ∈ H -> x ∉ G).
    { intros x Hx Hin. apply (HHx x Hx). now apply HGc. }
    assert (HlH : hl ∈ H).
    { rewrite EH. apply elem_of_app. right. apply elem_of_cons. now left. }
    assert (HlH' : hl ∉ H').
    { apply NoDup_app in Hnd3 as (_ & _ & Hn).
      apply NoDup_app in Hn as (Hn & _). rewrite EH in Hn.
      apply NoDup_app in Hn as (_ & Hn & _).
      intros Hin. apply (Hn _ Hin). apply elem_of_cons. now left. }
    assert (HH' : forall x, x ∈ H' -> x ∈ H).
    { intros x Hx. rewrite EH. apply elem_of_app. now left. }
    assert (HHc : forall x, x ∈ H <-> x ∈ H' \/ x = hl).
    { intros x. now rewrite EH, elem_of_app, list_elem_of_singleton. }
    assert (HbeK : forall j i, bp_edge before H G j i = true -> j ∉ K).
    { intros j i He Hj. apply bp_edge_elem in He as [He _].
      now apply (HKx j Hj). }
    assert (HbnH : forall n, bp_node before G n = true -> (n ∉ H) /\ (n ∉ K)).
    { intros n Hb. apply bp_node_elem in Hb. split.
      - intros Hn. now apply (HHx n Hn).
      - intros Hn. apply (HKx n Hn). simpl. apply elem_of_app. now right. }
    destruct (backward_last (S d) k K H' hl G p ps w)
      as (w2 & E2 & F2 & R2 & D2 & W2 & evs1 & Hh2 & Ev2);
      rewrite <- ?EH; try assumption; try lia.
    { intros h Hh. destruct (HwH h Hh) as [Hn Hr].
      refine (conj Hn (conj Hr (conj (Hm h Hh) _))).
      now destruct (HwHu h Hh). }
    { intros g Hg. destruct (HwG g Hg) as [Hn Hr].
      refine (conj Hn (conj Hr _)). apply Hq. now apply HGc. }
    rewrite <- EH in *. rewrite E2.
    pose proof F2 as [F2n _].
    destruct (IH H G hl (length H') (upto (length H')) w2 d)
      as (w3 & E3 & F3 & R3 & D3 & W3 & evs3 & Hh3 & Ev3);
      try assumption.
    { apply (layer_pair_wired_frame w w2); [apply F2n|apply F2n|].
      split; assumption. }
    { apply (wired_back_frame w w2); [apply F2n|apply F2n|exact Hwb]. }
    { intros k' h Hk' Hh. rewrite W2.
      rewrite decide_False by (intros [Hx _]; now apply (HKH k')).
      now apply Hwt1. }
    { apply (weighted_back_ext w w2); [|exact Hwtb]. intros j i Hj.
      rewrite W2. rewrite decide_False; [reflexivity|].
      intros [Hx _]. apply (HKx j Hx). simpl. apply elem_of_app. now right. }
    { rewrite EH. now apply index_middle. }
    { intros g Hg. rewrite R2.
      rewrite decide_False by (intros Hx; now apply (HHG g)).
      now rewrite decide_True. }
    { rewrite EH, <- (upto_snoc H' hl). apply all_reported_upto. }
    { intros n Hn. rewrite R2.
      assert (Hc : n ∈ concat (G :: before))
        by (simpl; apply elem_of_app; now right).
      rewrite decide_False by (intros Hx; now apply (HHx n)).
      destruct (decide (n ∈ G)) as [Hg|_]; [|now apply Hq].
      exfalso. simpl in Hnd'. apply NoDup_app in Hnd' as (_ & _ & Hn').
      apply NoDup_app in Hn' as (_ & Hn' & _). now apply (Hn' n). }
    rewrite (bind_ok _ _ _ _ _ E3).
    pose proof F3 as [F3n _].
    destruct (update_weights_spec w3 hl K HNK)
      as (w4 & E4 & F4 & H4 & W4 & Hh4).
    { destruct (F3n hl) as (-> & _), (F2n hl) as (-> & _).
      now destruct (HwH hl HlH). }
    { intros k' Hk'. rewrite W3.
      destruct (bp_edge before H G k' hl) eqn:Ee;
        [exfalso; now apply (HbeK _ _ Ee)|].
      rewrite W2. rewrite decide_False by (intros [_ Hx]; contradiction).
      now apply Hwt. }
    pose proof F4 as [F4n _].
    assert (Dk : forall j, j ∈ K ->
              _delta (node w4 j) = _delta (node w j)).
    { intros j Hj. destruct (H4 j) as [_ ->]. rewrite D3, D2.
      destruct (bp_node before G j) eqn:Eb;
        [exfalso; now apply (proj2 (HbnH _ Eb))|].
      now rewrite decide_False by now apply HKH. }
    assert (V4 : forall i, _value (node w4 i) = _value (node w i)).
    { intros i. destruct (F4n i) as (_ & _ & -> & _).
      destruct (F3n i) as (_ & _ & -> & _).
      now destruct (F2n i) as (_ & _ & -> & _). }
    assert (A3 : forall j i, adjustment w3 j i = adjustment w4 j i).
    { intros j i. symmetry. apply adjustment_ext.
      - now destruct (H4 j) as [_ ->].
      - now destruct (F4n i) as (_ & _ & -> & _). }
    assert (A0 : forall j i, j ∈ K -> adjustment w j i = adjustment w4 j i).
    { intros j i Hj. symmetry. apply adjustment_ext; [now apply Dk|apply V4]. }
    exists w4. split; [exact E4|].
    split.
    { eapply backward_frame_trans; [|exact F4].
      eapply backward_frame_trans; [exact F2|exact F3]. }
    split; [|split; [|split]].
    + intros n. destruct (H4 n) as [-> _]. rewrite R3, R2.
      destruct (decide (n ∈ H)) as [Hin|Hnin].
      * now rewrite decide_False by now apply HHG.
      * destruct (decide (n ∈ G)) as [Hg|]; [|reflexivity].
        symmetry. apply Hq. now apply HGc.
    + intros n. destruct (H4 n) as [_ ->]. rewrite D3, D2.
      rewrite bp_node_cons by exact Hne.
      destruct (decide (n ∈ H)) as [Hin|Hnin].
      * rewrite bool_decide_eq_true_2 by exact Hin. simpl.
        destruct (bp_node before G n) eqn:Eb;
          [exfalso; now apply (proj1 (HbnH _ Eb))|].
        symmetry. apply hidden_delta_ext; [reflexivity|reflexivity|].
        intros k' Hk'. destruct (HwH n Hin) as [Hn _]. rewrite Hn in Hk'.
        split; [now apply Dk|reflexivity].
      * rewrite bool_decide_eq_false_2 by exact Hnin. simpl.
        destruct (bp_node before G n) eqn:Eb; [|reflexivity].
        symmetry. apply hidden_delta_ext.
        -- now destruct (F2n n) as (-> & _).
        -- now destruct (F2n n) as (_ & _ & -> & _).
        -- intros k' Hk'. split; [now destruct (H4 k') as [_ ->]|].
           rewrite W2. rewrite decide_False; [reflexivity|].
           intros [_ Hx]. apply Hnin. now apply HH'.
    + intros j i. rewrite W4, W3, W2. rewrite bp_edge_cons by exact Hne.
      destruct (bp_edge before H G j i) eqn:Ee.
      * pose proof (HbeK _ _ Ee) as HjK.
        rewrite !decide_False by tauto.
        rewrite (bool_decide_eq_false_2 (j ∈ K)) by exact HjK. simpl.
        now rewrite A3.
      * rewrite orb_false_r. destruct (decide (j ∈ K)) as [Hj|Hj].
        2:{ rewrite !decide_False by tauto.
            now rewrite (bool_decide_eq_false_2 (j ∈ K)) by exact Hj. }
        rewrite (bool_decide_eq_true_2 (j ∈ K)) by exact Hj. simpl.
        destruct (decide (i = hl)) as [->|Hil].
        -- rewrite decide_True by tauto.
           rewrite (decide_False (P := j ∈ K /\ hl ∈ H')) by tauto.
           rewrite bool_decide_eq_true_2 by exact HlH. now rewrite A3.
        -- rewrite (decide_False (P := j ∈ K /\ i = hl)) by tauto.
           destruct (decide (i ∈ H')) as [Hin|Hnin].
           ++ rewrite decide_True by tauto.
              rewrite bool_decide_eq_true_2 by now apply HH'.
              now rewrite (A0 j i Hj).
           ++ rewrite decide_False by tauto.
              rewrite bool_decide_eq_false_2; [reflexivity|].
              rewrite HHc. tauto.
    + exists (evs1 ++ evs3 ++
              map (fun k' => mkAdjustment k' hl (adjustment w3 k' hl)) K).
      split; [rewrite Hh4, Hh3, Hh2; now rewrite <- !app_assoc|].
      intros j i. rewrite !events_of_app, Ev2, Ev3, events_of_row by exact HNK.
      rewrite bp_edge_cons by exact Hne.
      destruct (bp_edge before H G j i) eqn:Ee.
      * pose proof (HbeK _ _ Ee) as HjK.
        rewrite !decide_False by tauto.
        rewrite (bool_decide_eq_false_2 (j ∈ K)) by exact HjK. simpl.
        now rewrite A3.
      * rewrite orb_false_r. destruct (decide (j ∈ K)) as [Hj|Hj].
        2:{ rewrite !decide_False by tauto.
            now rewrite (bool_decide_eq_false_2 (j ∈ K)) by exact Hj. }
        rewrite (bool_decide_eq_true_2 (j ∈ K)) by exact Hj. simpl.
        destruct (decide (i = hl)) as [->|Hil].
        -- rewrite (decide_True (P := j ∈ K /\ hl = hl)) by tauto.
           rewrite (decide_False (P := j ∈ K /\ hl ∈ H')) by tauto.
           rewrite bool_decide_eq_true_2 by exact HlH. now rewrite A3.
        -- rewrite (decide_False (P := j ∈ K /\ i = hl)) by tauto.
           destruct (decide (i ∈ H')) as [Hin|Hnin].
           ++ rewrite decide_True by tauto.
              rewrite bool_decide_eq_true_2 by now apply HH'.
              now rewrite (A0 j i Hj).
           ++ rewrite decide_False by tauto.
              rewrite bool_decide_eq_false_2; [reflexivity|].
              rewrite HHc. tauto.
Qed.

Lemma set_expected_eq depth self t w :
  set_expected depth self t w =
  for_each (item (_neighbors (node w self)) UPSTREAM)
    (fun h => data_ready_downstream depth h self)
    (update self (with_delta (output_delta w self t)) w).
Proof.
  unfold set_expected, _calculate_delta, fire_upstream_with. mnorm.
  rewrite node_update_eq. now destruct (node w self).
Qed.

(** The calls made so far cannot have completed a layer while a call for
    another of its neighbors is still to come. *)
Lemma calls_incomplete K (calls1 calls2 : list (loc * float)) c p ps :
  NoDup (calls1 ++ c :: calls2).*1 ->
  (forall i, i ∈ (calls1 ++ c :: calls2).*1 -> i ∈ K) ->
  calls2 <> [] ->
  index K c.1 = Some p ->
  (forall q, q ∈ ps <-> exists i, i ∈ calls1.*1 /\ index K i = Some q) ->
  ~ all_reported (p :: ps) (length K).
Proof.
  intros Hnd Hin Hc2 Hp Hps.
  destruct calls2 as [|c2 calls2]; [congruence|].
  assert (Hc2K : c2.1 ∈ K).
  { apply Hin. rewrite fmap_app, !fmap_cons. apply elem_of_app. right.
    apply elem_of_cons. right. apply elem_of_cons. now left. }
  destruct (index_elem K c2.1 Hc2K) as [q2 Hq2].
  intros Hall. pose proof (proj2 (Hall q2)) as Hq.
  assert (Hlt : q2 < length K).
  { apply index_lookup in Hq2. eapply lookup_lt_Some; eauto. }
  specialize (Hq Hlt). rewrite fmap_app, !fmap_cons in Hnd.
  apply elem_of_cons in Hq as [->|Hq].
  - assert (c2.1 = c.1).
    { apply index_lookup in Hq2, Hp. congruence. }
    apply NoDup_app in Hnd as (_ & _ & Hnd).
    apply NoDup_cons in Hnd as [Hnd _]. apply Hnd.
    apply elem_of_cons. now left.
  - apply Hps in Hq as (i & Hi & Hiq).
    assert (c2.1 = i).
    { apply index_lookup in Hq2, Hiq. congruence. }
    subst i. apply NoDup_app in Hnd as (_ & Hnd & _). apply (Hnd _ Hi).
    apply elem_of_cons. right. apply elem_of_cons. now left.
Qed.

(** The last call for a neighbor of a layer completes it. *)
Lemma calls_complete K (calls1 : list (loc * float)) c p ps :
  NoDup K ->
  (forall i, i ∈ (calls1 ++ [c]).*1 <-> i ∈ K) ->
  index K c.1 = Some p ->
  (forall q, q ∈ ps <-> exists i, i ∈ calls1.*1 /\ index K i = Some q) ->
  all_reported (p :: ps) (length K).
Proof.
  intros HNK Hcov Hp Hps q. rewrite elem_of_cons, Hps. split.
  - intros [->|(i & Hi & Hiq)].
    + apply index_lookup in Hp. eapply lookup_lt_Some; eauto.
    + apply index_lookup in Hiq. eapply lookup_lt_Some; eauto.
  - intros Hlt. destruct (lookup_lt_is_Some_2 K q Hlt) as [i Hi].
    assert (HiK : i ∈ K) by (eapply list_elem_of_lookup_2; eauto).
    destruct (index_elem K i HiK) as [q' Hq'].
    assert (q' = q).
    { apply index_lookup in Hq'. eapply NoDup_lookup; eauto. }
    subst q'. apply Hcov in HiK. rewrite fmap_app, fmap_cons in HiK.
    apply elem_of_app in HiK as [HiK|HiK].
    + right. eauto.
    + apply elem_of_cons in HiK as [->|HiK]; [|inversion HiK].
      left. congruence.
Qed.

(** The calls of [set_expected] before the last one: the deltas of the
    output nodes are assigned and the layer before the outputs records who
    reported. *)
Lemma expected_prefix depth K H calls1 calls2 w :
  NoDup (K ++ H) ->
  NoDup (calls1 ++ calls2).*1 ->
  (forall i, i ∈ (calls1 ++ calls2).*1 -> i ∈ K) ->
  H = [] \/ (calls2 <> [] /\ 0 < depth) ->
  (forall k, k ∈ K -> item (_neighbors (node w k)) UPSTREAM = H) ->
  (forall h, h ∈ H ->
     item (_neighbors (node w h)) DOWNSTREAM = K /\
     item (_reference_value (node w h)) DOWNSTREAM
       = (2 ^ Z.of_nat (length K) - 1)%Z /\
     item (_reporting_nodes (node w h)) DOWNSTREAM = 0%Z) ->
  exists w1 ps,
    present_expected depth calls1 w = (Ok tt, w1) /\
    (forall q, q ∈ ps <-> exists i, i ∈ calls1.*1 /\ index K i = Some q) /\
    backward_frame w w1 /\
    (forall n,
       item (_reporting_nodes (node w1 n)) DOWNSTREAM =
       if decide (n ∈ H) then bits ps
       else item (_reporting_nodes (node w n)) DOWNSTREAM) /\
    (forall n, n ∉ calls1.*1 -> _delta (node w1 n) = _delta (node w n)) /\
    (forall c, c ∈ calls1 ->
       _delta (node w1 c.1) = output_delta w c.1 c.2) /\
    (forall n, _weights (node w1 n) = _weights (node w n)) /\
    history w1 = history w.
Proof.
  intros HndL Hnd Hin HH Hup Hdown. unfold present_expected.
  revert calls2 Hnd Hin HH.
  induction calls1 as [|c calls1 IH] using rev_ind;
    intros calls2 Hnd Hin HH.
  - exists w, []. split; [reflexivity|]. split.
    { intros q. split; [intros Hq; inversion Hq|].
      intros (i & Hi & _). inversion Hi. }
    split; [apply backward_frame_refl|].
    refine (conj _ (conj (fun _ _ => eq_refl) (conj _
              (conj (fun _ => eq_refl) eq_refl)))).
    + intros n. destruct (decide (n ∈ H)) as [Hn|]; [|reflexivity].
      now destruct (Hdown n Hn) as (_ & _ & ->).
    + intros c Hc. inversion Hc.
  - rewrite <- app_assoc in Hnd, Hin. simpl in Hnd, Hin.
    destruct (IH (c :: calls2) Hnd Hin)
      as (w1 & ps & E1 & Hps & F1 & R1 & D1 & Dc1 & W1 & Hh1).
    { destruct HH as [HH|[_ HH]]; [now left|right].
      split; [discriminate|exact HH]. }
    rewrite (for_each_snoc _ _ _ _ _ E1).
    pose proof F1 as [F1n _].
    assert (HcK : c.1 ∈ K).
    { apply Hin. rewrite fmap_app, fmap_cons. apply elem_of_app. right.
      apply elem_of_cons. now left. }
    assert (Hc1 : c.1 ∉ calls1.*1).
    { rewrite fmap_app, fmap_cons in Hnd.
      apply NoDup_app in Hnd as (_ & Hnd' & _). intros Hx. apply (Hnd' _ Hx).
      apply elem_of_cons. now left. }
    assert (HcH : c.1 ∉ H).
    { apply NoDup_app in HndL as (_ & HndL & _). now apply HndL. }
    destruct (index_elem K c.1 HcK) as [p Hp].
    rewrite set_expected_eq. destruct (F1n c.1) as (-> & _).
    rewrite (Hup c.1 HcK).
    assert (Eo : output_delta w1 c.1 c.2 = output_delta w c.1 c.2).
    { unfold output_delta, value. now destruct (F1n c.1) as (_ & _ & -> & _). }
    rewrite Eo.
    set (w2 := update c.1 (with_delta (output_delta w c.1 c.2)) w1).
    assert (H2 : forall n, node w2 n =
               if decide (n = c.1)
               then with_delta (output_delta w c.1 c.2) (node w1 c.1)
               else node w1 n).
    { intros n. subst w2. apply node_update. }
    assert (F2 : backward_frame w1 w2).
    { subst w2. apply backward_frame_update. intros [[] ? ? ? ? ?]. now simpl. }
    assert (Hfire : exists w',
      for_each H (fun h => data_ready_downstream depth h c.1) w2
        = (Ok tt, w') /\
      (forall n,
         node w' n =
         if decide (n ∈ H)
         then with_reporting DOWNSTREAM (bits (p :: ps)) (node w2 n)
         else node w2 n) /\
      same_globals w2 w' /\ history w' = history w2).
    { destruct HH as [->|[Hc2 Hd]].
      - exists w2. split; [reflexivity|].
        split; [|split; [apply same_globals_refl|reflexivity]].
        intros n. now rewrite decide_False by apply not_elem_of_nil.
      - destruct depth as [|depth']; [lia|].
        apply (fire_down_incomplete depth' c.1 K H p ps w2).
        + now apply NoDup_app in HndL as (_ & _ & HndL).
        + exact Hp.
        + intros h Hh. destruct (Hdown h Hh) as (Hn & Hr & _).
          rewrite H2. rewrite decide_False by (intros ->; contradiction).
          destruct (F1n h) as (-> & -> & _). refine (conj Hn (conj Hr _)).
          rewrite R1. now rewrite decide_True.
        + now apply (calls_incomplete K calls1 calls2 c p ps). }
    destruct Hfire as (w' & E' & Hpt' & Hg' & Hh').
    rewrite E'. exists w', (p :: ps). split; [reflexivity|].
    assert (Hsnoc : forall x,
              x ∈ (calls1 ++ [c]).*1 <-> x ∈ calls1.*1 \/ x = c.1).
    { intros x. rewrite fmap_app, elem_of_app. simpl.
      rewrite elem_of_cons. split; [|tauto].
      intros [?|[?|H0]]; [tauto|tauto|inversion H0]. }
    assert (N' : forall n,
              _weights (node w' n) = _weights (node w1 n) /\
              _delta (node w' n) =
              if decide (n = c.1) then output_delta w c.1 c.2
              else _delta (node w1 n)).
    { intros n. rewrite Hpt', H2.
      destruct (decide (n ∈ H)), (decide (n = c.1)); subst;
        try contradiction;
        try destruct (node w1 c.1) as [[] ? ? ? ? ?];
        try destruct (node w1 n) as [[] ? ? ? ? ?]; now simpl. }
    assert (F' : backward_frame w2 w').
    { split; [|exact Hg']. intros n. rewrite Hpt'.
      destruct (decide (n ∈ H)); [|tauto].
      destruct (node w2 n) as [[] ? ? ? ? ?]. now simpl. }
    split.
    { intros q. rewrite elem_of_cons, Hps. split.
      - intros [->|(i & Hi & Hq)].
        + exists c.1. split; [apply Hsnoc; now right|exact Hp].
        + exists i. split; [apply Hsnoc; now left|exact Hq].
      - intros (i & Hi & Hq). apply Hsnoc in Hi as [Hi| ->].
        + right. eauto.
        + left. congruence. }
    split.
    { eapply backward_frame_trans; [exact F1|].
      eapply backward_frame_trans; [exact F2|exact F']. }
    refine (conj _ (conj _ (conj _ (conj _ _)))).
    + intros n. rewrite Hpt', H2. destruct (decide (n ∈ H)) as [Hn|Hn].
      * rewrite decide_False by (intros ->; contradiction).
        destruct (node w1 n) as [[] ? ? ? ? ?]. reflexivity.
      * rewrite <- (decide_False (P := n ∈ H) (bits ps)
                     (item (_reporting_nodes (node w n)) DOWNSTREAM))
          by exact Hn.
        rewrite <- R1. destruct (decide (n = c.1)) as [->|]; [|reflexivity].
        destruct (node w1 c.1) as [[] ? ? ? ? ?]. reflexivity.
    + intros n Hn. rewrite Hsnoc in Hn. destruct (N' n) as [_ ->].
      rewrite decide_False by tauto. apply D1. tauto.
    + intros c' Hc'. destruct (N' c'.1) as [_ ->].
      apply elem_of_app in Hc' as [Hc'|Hc'].
      * rewrite decide_False.
        -- now apply Dc1.
        -- intros Heq. apply Hc1. rewrite <- Heq. apply list_elem_of_fmap.
           eauto.
      * apply elem_of_cons in Hc' as [->|Hc']; [|inversion Hc'].
        now rewrite decide_True.
    + intros n. destruct (N' n) as [-> _]. apply W1.
    + rewrite Hh'. exact Hh1.
Qed.

Lemma bp_edge_outputs H before K j i :
  K <> [] ->
  bp_edge (H :: before) [] K j i = bp_edge before K H j i.
Proof.
  intros HK. rewrite bp_edge_cons by exact HK.
  now rewrite (bool_decide_eq_false_2 (j ∈ [])) by apply not_elem_of_nil.
Qed.

(** One backward pass: [set_expected] on every output node, in any order.
    [K] is the output layer and [before] the layers before it, the nearest
    first. *)
Theorem backward_pass w K before calls depth :
  NoDup (concat (K :: before)) ->
  wired_back w K before ->
  weighted_back w K before ->
  (forall n, n ∈ concat before ->
     item (_reporting_nodes (node w n)) DOWNSTREAM = 0%Z) ->
  NoDup calls.*1 ->
  (forall i, i ∈ calls.*1 <-> i ∈ K) ->
  length before <= depth ->
  exists w',
    present_expected depth calls w = (Ok tt, w') /\
    backward_frame w w' /\
    (forall n,
       item (_reporting_nodes (node w' n)) DOWNSTREAM
       = item (_reporting_nodes (node w n)) DOWNSTREAM) /\
    (forall c, c ∈ calls -> _delta (node w' c.1) = output_delta w c.1 c.2) /\
    (forall n, n ∉ K ->
       _delta (node w' n) =
       if bp_node before K n then hidden_delta w' w n
       else _delta (node w n)) /\
    (forall j i,
       _weights (node w' j) !! i =
       if bp_edge before [] K j i
       then (fun wt => (wt + adjustment w' j i)%float)
              <$> _weights (node w j) !! i
       else _weights (node w j) !! i) /\
    exists evs,
      history w' = history w ++ evs /\
      forall j i,
        events_of j i evs =
        if bp_edge before [] K j i
        then [mkAdjustment j i (adjustment w' j i)] else [].
Proof.
  intros Hnd Hwb Hwtb Hq Hndc Hcov Hdepth.
  assert (Hcase : before = [] \/ calls = [] \/
                  exists H before' calls' c,
                    before = H :: before' /\ calls = calls' ++ [c]).
  { destruct before as [|H before']; [now left|right].
    destruct calls as [|c calls' _] using rev_ind; [now left|right].
    eauto 6. }
  destruct Hcase as [->|[->|(H & before' & calls' & c & -> & ->)]].
  - (* no layer before the outputs *)
    simpl in Hnd. rewrite app_nil_r in Hnd.
    destruct (expected_prefix depth K [] calls [] w)
      as (w1 & ps & E1 & Hps & F1 & R1 & D1 & Dc1 & W1 & Hh1);
      try (rewrite ?app_nil_r; assumption).
    { rewrite app_nil_r. intros i Hi. now apply Hcov. }
    { now left. }
    { intros h Hh. inversion Hh. }
    exists w1. split; [exact E1|]. split; [exact F1|].
    refine (conj _ (conj Dc1 (conj _ (conj _ _)))).
    + intros n. rewrite R1. now rewrite decide_False by apply not_elem_of_nil.
    + intros n Hn. rewrite bp_node_nil.
      rewrite bool_decide_eq_false_2 by exact Hn. apply D1.
      intros Hin. now apply Hn, Hcov.
    + intros j i. rewrite bp_edge_nil.
      rewrite (bool_decide_eq_false_2 (j ∈ [])) by apply not_elem_of_nil.
      simpl. now rewrite W1.
    + exists []. split; [now rewrite app_nil_r|]. intros j i.
      rewrite bp_edge_nil.
      now rewrite (bool_decide_eq_false_2 (j ∈ [])) by apply not_elem_of_nil.
  - (* no output node *)
    assert (K = []) as ->.
    { destruct K as [|a K]; [reflexivity|].
      exfalso. assert (Hx : a ∈ (@nil (loc * float)).*1).
      { apply Hcov. apply elem_of_cons. now left. }
      inversion Hx. }
    exists w. split; [reflexivity|]. split; [apply backward_frame_refl|].
    refine (conj (fun _ => eq_refl) (conj _ (conj _ (conj _ _)))).
    + intros c Hc. inversion Hc.
    + intros n _. now destruct before.
    + intros j i. now destruct before.
    + exists []. split; [now rewrite app_nil_r|]. intros j i.
      now destruct before.
  - (* the last call completes the layer before the outputs *)
    simpl in Hdepth.
    destruct depth as [|d]; [lia|]. assert (Hd : length before' <= d) by lia.
    destruct Hwb as [[HwH HwK] Hwb]. destruct Hwtb as [Hwt1 Hwtb].
    change (concat (K :: H :: before'))
      with (K ++ H ++ concat before') in Hnd.
    assert (HNK : NoDup K) by now apply NoDup_app in Hnd as (? & _).
    assert (HKx : forall x, x ∈ K -> x ∉ concat (H :: before')).
    { intros x Hx. apply NoDup_app in Hnd as (_ & Hnd & _). now apply Hnd. }
    assert (HndL : NoDup (K ++ H)).
    { rewrite app_assoc in Hnd. now apply NoDup_app in Hnd as (? & _). }
    assert (HHc : forall x, x ∈ H -> x ∈ concat (H :: before')).
    { intros x Hx. simpl. apply elem_of_app. now left. }
    assert (HKH : forall x, x ∈ K -> x ∉ H).
    { intros x Hx Hin. apply (HKx x Hx). now apply HHc. }
    destruct (expected_prefix (S d) K H calls' [c] w)
      as (w1 & ps & E1 & Hps & F1 & R1 & D1 & Dc1 & W1 & Hh1);
      try assumption.
    { intros i Hi. now apply Hcov. }
    { right. split; [discriminate|lia]. }
    { intros k Hk. now destruct (HwK k Hk). }
    { intros h Hh. destruct (HwH h Hh) as [Hn Hr].
      refine (conj Hn (conj Hr _)). apply Hq. now apply HHc. }
    unfold present_expected in *. rewrite (for_each_snoc _ _ _ _ _ E1).
    pose proof F1 as [F1n _].
    assert (HcK : c.1 ∈ K).
    { apply Hcov. rewrite fmap_app, fmap_cons. apply elem_of_app. right.
      apply elem_of_cons. now left. }
    assert (Hc1 : c.1 ∉ calls'.*1).
    { rewrite fmap_app, fmap_cons in Hndc.
      apply NoDup_app in Hndc as (_ & Hndc & _). intros Hx.
      apply (Hndc _ Hx). apply elem_of_cons. now left. }
    assert (HKne : K <> []) by (intros ->; inversion HcK).
    destruct (index_elem K c.1 HcK) as [p Hp].
    rewrite set_expected_eq. destruct (F1n c.1) as (-> & _).
    destruct (HwK c.1 HcK) as [-> _].
    assert (Eo : output_delta w1 c.1 c.2 = output_delta w c.1 c.2).
    { unfold output_delta, value. now destruct (F1n c.1) as (_ & _ & -> & _). }
    rewrite Eo.
    set (w2 := update c.1 (with_delta (output_delta w c.1 c.2)) w1).
    assert (H2 : forall n, node w2 n =
               if decide (n = c.1)
               then with_delta (output_delta w c.1 c.2) (node w1 c.1)
               else node w1 n).
    { intros n. subst w2. apply node_update. }
    assert (F2 : backward_frame w1 w2).
    { subst w2. apply backward_frame_update. intros [[] ? ? ? ? ?]. now simpl. }
    assert (F02 : backward_frame w w2)
      by (eapply backward_frame_trans; eauto).
    pose proof F02 as [F02n _].
    assert (N2 : forall n,
              _weights (node w2 n) = _weights (node w n) /\
              item (_reporting_nodes (node w2 n)) DOWNSTREAM =
                item (_reporting_nodes (node w1 n)) DOWNSTREAM /\
              _delta (node w2 n) =
              if decide (n = c.1) then output_delta w c.1 c.2
              else _delta (node w1 n)).
    { intros n. rewrite <- W1, H2. destruct (decide (n = c.1)) as [->|];
        [|now repeat split].
      destruct (node w1 c.1) as [[] ? ? ? ? ?]. now simpl. }
    destruct (backward_cascade before' K H c.1 p ps w2 d)
      as (w3 & E3 & F3 & R3 & D3 & W3 & evs & Hh3 & Ev3); try assumption.
    { apply (layer_pair_wired_frame w w2); [apply F02n|apply F02n|].
      split; assumption. }
    { apply (wired_back_frame w w2); [apply F02n|apply F02n|exact Hwb]. }
    { intros k' h Hk' Hh. destruct (N2 k') as [-> _]. now apply Hwt1. }
    { apply (weighted_back_ext w w2); [|exact Hwtb]. intros j i _.
      now destruct (N2 j) as [-> _]. }
    { intros h Hh. destruct (N2 h) as (_ & -> & _). rewrite R1.
      now rewrite decide_True. }
    { now apply (calls_complete K calls' c p ps). }
    { intros n Hn. destruct (N2 n) as (_ & -> & _). rewrite R1.
      assert (Hc : n ∈ concat (H :: before'))
        by (simpl; apply elem_of_app; now right).
      destruct (decide (n ∈ H)) as [Hh|_]; [|now apply Hq].
      exfalso. apply NoDup_app in Hnd as (_ & _ & Hnd).
      apply NoDup_app in Hnd as (_ & Hnd & _). now apply (Hnd n). }
    exists w3. split; [exact E3|].
    split; [eapply backward_frame_trans; eauto|].
    assert (HbnK : forall n, n ∈ K -> bp_node before' H n = false).
    { intros n Hn. destruct (bp_node before' H n) eqn:Eb; [|reflexivity].
      apply bp_node_elem in Eb. now apply HKx in Eb. }
    refine (conj _ (conj _ (conj _ (conj _ _)))).
    + intros n. rewrite R3. destruct (N2 n) as (_ & -> & _). rewrite R1.
      destruct (decide (n ∈ H)) as [Hh|]; [|reflexivity].
      symmetry. apply Hq. now apply HHc.
    + intros c' Hc'.
      assert (Hc'K : c'.1 ∈ K).
      { apply Hcov. apply list_elem_of_fmap. eauto. }
      rewrite D3, (HbnK _ Hc'K). destruct (N2 c'.1) as (_ & _ & ->).
      apply elem_of_app in Hc' as [Hc'|Hc'].
      * rewrite decide_False.
        -- now apply Dc1.
        -- intros Heq. apply Hc1. rewrite <- Heq. apply list_elem_of_fmap.
           eauto.
      * apply elem_of_cons in Hc' as [->|Hc']; [|inversion Hc'].
        now rewrite decide_True.
    + intros n Hn. rewrite D3. rewrite bp_node_cons by exact HKne.
      rewrite bool_decide_eq_false_2 by exact Hn. simpl.
      destruct (bp_node before' H n) eqn:Eb.
      * apply hidden_delta_ext.
        -- now destruct (F02n n) as (-> & _).
        -- now destruct (F02n n) as (_ & _ & -> & _).
        -- intros k' _. split; [reflexivity|]. now destruct (N2 k') as [-> _].
      * destruct (N2 n) as (_ & _ & ->).
        rewrite decide_False by (intros ->; contradiction).
        apply D1. intros Hin. apply Hn, Hcov. rewrite fmap_app.
        apply elem_of_app. now left.
    + intros j i. rewrite W3, bp_edge_outputs by exact HKne.
      now destruct (N2 j) as [-> _].
    + exists evs. split; [now rewrite Hh3, <- Hh1|].
      intros j i. rewrite Ev3. now rewrite bp_edge_outputs by exact HKne.
Qed.

End BackwardFacts.

(** ** Presentations *)

(** The layers seen from the output side. *)
Lemma concat_rev_perm (l : list (list loc)) : concat (rev l) ≡ₚ concat l.
Proof.
  induction l as [|a l IH]; [reflexivity|]. simpl.
  rewrite concat_app, IH. simpl. rewrite app_nil_r. apply Permutation_app_comm.
Qed.

Lemma wired_back_rev_append w rest :
  forall A acc,
    wired_back w A acc -> wired_from w A rest ->
    match rev_append rest (A :: acc) with
    | [] => False
    | K :: before => wired_back w K before
    end.
Proof.
  induction rest as [|B rest IH]; intros A acc Hb Hf; simpl; [exact Hb|].
  destruct Hf as [Hp Hf]. apply IH; [|exact Hf]. split; assumption.
Qed.

Lemma weighted_back_rev_append w rest :
  forall A acc,
    weighted_back w A acc -> weighted_from w A rest ->
    match rev_append rest (A :: acc) with
    | [] => False
    | K :: before => weighted_back w K before
    end.
Proof.
  induction rest as [|B rest IH]; intros A acc Hb Hf; simpl; [exact Hb|].
  destruct Hf as [Hp Hf]. apply IH; [|exact Hf]. split; assumption.
Qed.

Lemma rev_append_last (L0 : list loc) rest l' K :
  L0 :: rest = l' ++ [K] -> rev_append rest [L0] = K :: rev l'.
Proof.
  intros E. rewrite rev_append_rev.
  change (rev rest ++ [L0]) with (rev (L0 :: rest)).
  rewrite E. apply rev_unit.
Qed.

Lemma wired_back_rev w L0 rest l' K :
  wired w (L0 :: rest) -> L0 :: rest = l' ++ [K] ->
  NoDup (concat (K :: rev l')) /\ wired_back w K (rev l').
Proof.
  intros (Hnd & Hup & Hf) E. split.
  - rewrite E, concat_app in Hnd. simpl in Hnd. rewrite app_nil_r in Hnd.
    simpl. rewrite concat_rev_perm.
    now rewrite (Permutation_app_comm K (concat l')).
  - pose proof (wired_back_rev_append w rest L0 [] Hup Hf) as Hb.
    now rewrite (rev_append_last L0 rest l' K E) in Hb.
Qed.

Lemma weighted_back_rev w L0 rest l' K :
  weighted w (L0 :: rest) -> L0 :: rest = l' ++ [K] ->
  weighted_back w K (rev l').
Proof.
  intros Hf E.
  pose proof (weighted_back_rev_append w rest L0 [] I Hf) as Hb.
  now rewrite (rev_append_last L0 rest l' K E) in Hb.
Qed.

(** In a network without an empty layer the backward pass reaches every
    node and every edge. *)
Lemma bp_node_member before :
  forall H n,
    Forall (fun L => L <> []) (H :: before) ->
    n ∈ concat (H :: before) -> bp_node before H n = true.
Proof.
  induction before as [|G before IH]; intros H n Hne Hn.
  - rewrite bp_node_nil. simpl in Hn. rewrite app_nil_r in Hn.
    now apply bool_decide_eq_true_2.
  - apply Forall_cons in Hne as [HH Hne].
    rewrite bp_node_cons by exact HH.
    change (concat (H :: G :: before)) with (H ++ concat (G :: before)) in Hn.
    apply elem_of_app in Hn as [Hn|Hn].
    + now rewrite bool_decide_eq_true_2.
    + rewrite (IH G n Hne Hn). apply orb_true_r.
Qed.

Lemma bp_edge_here before K H j i :
  j ∈ K -> i ∈ H -> bp_edge before K H j i = true.
Proof.
  intros Hj Hi. destruct H as [|h H]; [inversion Hi|].
  destruct before as [|G before].
  - rewrite bp_edge_nil. now rewrite !bool_decide_eq_true_2.
  - rewrite bp_edge_cons by discriminate. now rewrite !bool_decide_eq_true_2.
Qed.

Lemma bp_edge_adjacent l1 :
  forall before K' K B A l2 j i,
    Forall (fun L => L <> []) (K :: before) ->
    K :: before = l1 ++ B :: A :: l2 ->
    j ∈ B -> i ∈ A -> bp_edge before K' K j i = true.
Proof.
  induction l1 as [|x l1 IH]; intros before K' K B A l2 j i Hne E Hj Hi.
  - simpl in E. injection E as -> ->.
    apply Forall_cons in Hne as [HB Hne].
    apply Forall_cons in Hne as [HA Hne].
    rewrite bp_edge_cons by exact HB.
    rewrite (bp_edge_here l2 B A j i Hj Hi). apply orb_true_r.
  - simpl in E. injection E as -> ->.
    apply Forall_cons in Hne as [HK Hne].
    destruct (l1 ++ B :: A :: l2) as [|G before'] eqn:E';
      [now destruct l1|].
    rewrite bp_edge_cons by exact HK.
    rewrite (IH before' x G B A l2 j i Hne (eq_sym E') Hj Hi). apply orb_true_r.
Qed.

Lemma weighted_from_ext w w' A rest :
  (forall n, _weights (node w' n) = _weights (node w n)) ->
  weighted_from w A rest -> weighted_from w' A rest.
Proof.
  intros Hw. revert A. induction rest as [|B rest IH]; intros A; simpl;
    [trivial|].
  intros [H1 H2]. split; [|now apply IH].
  intros a b Ha Hb. rewrite Hw. now apply H1.
Qed.

Lemma by_side_eq {A} (d : by_side A) :
  d = BySide (item d UPSTREAM) (item d DOWNSTREAM).
Proof. now destruct d. Qed.

Section Presentation.

Variable np_exp : float -> float.
Variable py_sum : list float -> float.

(** One presentation on a wired network at rest: [set_input] on every
    input node, then [set_expected] on every output node.  [l'] are the
    layers before the output layer [K]. *)
Lemma presentation w L0 rest l' K ins outs depth :
  wired w (L0 :: rest) ->
  quiescent w (L0 :: rest) ->
  weighted w (L0 :: rest) ->
  L0 :: rest = l' ++ [K] ->
  NoDup ins.*1 -> (forall i, i ∈ ins.*1 <-> i ∈ L0) ->
  NoDup outs.*1 -> (forall i, i ∈ outs.*1 <-> i ∈ K) ->
  length rest <= depth ->
  exists w1 w2,
    present_inputs np_exp py_sum depth ins w = (Ok tt, w1) /\
    present_expected depth outs w1 = (Ok tt, w2) /\
    forward_frame w w1 /\
    backward_frame w1 w2 /\
    quiescent w2 (L0 :: rest) /\
    (forall c, c ∈ ins -> _value (node w1 c.1) = c.2) /\
    forward_values np_exp py_sum w w1 L0 rest /\
    (forall c, c ∈ outs -> _delta (node w2 c.1) = output_delta w1 c.1 c.2) /\
    (forall n, n ∉ K ->
       _delta (node w2 n) =
       if bp_node (rev l') K n then hidden_delta w2 w1 n
       else _delta (node w n)) /\
    (forall j i,
       _weights (node w2 j) !! i =
       if bp_edge (rev l') [] K j i
       then (fun wt => (wt + adjustment w2 j i)%float)
              <$> _weights (node w j) !! i
       else _weights (node w j) !! i) /\
    exists evs,
      history w2 = history w ++ evs /\
      forall j i,
        events_of j i evs =
        if bp_edge (rev l') [] K j i
        then [mkAdjustment j i (adjustment w2 j i)] else [].
Proof.
  intros Hw Hq Hwt E Hndi Hcovi Hndo Hcovo Hdepth.
  assert (Hq' : forall n, n ∈ concat rest ->
                  item (_reporting_nodes (node w n)) UPSTREAM = 0%Z).
  { intros n Hn. rewrite (Hq n); [reflexivity|]. simpl. apply elem_of_app.
    now right. }
  destruct (forward_pass np_exp py_sum w L0 rest ins depth
              Hw Hq' Hndi Hcovi Hdepth)
    as (w1 & E1 & Hf1 & Hout1 & Hz1 & Hr1 & Hv1 & Hfv1).
  assert (Hw1 : wired w1 (L0 :: rest)).
  { destruct Hw as (Hnd & Hup & Hf). split; [exact Hnd|]. split.
    - intros a Ha. rewrite (forward_frame_neighbors w w1 a Hf1). now apply Hup.
    - eapply wired_from_frame; [| |exact Hf]; intros n;
        [now apply forward_frame_neighbors|now apply forward_frame_reference]. }
  assert (Hwt1 : weighted w1 (L0 :: rest)).
  { apply (weighted_from_ext w w1); [|exact Hwt]. intros n.
    now apply forward_frame_weights. }
  destruct (wired_back_rev w1 L0 rest l' K Hw1 E) as [Hndb Hwb].
  pose proof (weighted_back_rev w1 L0 rest l' K Hwt1 E) as Hwtb.
  assert (Hlen : length (rev l') <= depth).
  { apply (f_equal length) in E. rewrite length_app in E. simpl in E.
    rewrite length_rev. lia. }
  assert (Hin : forall n, n ∈ concat (rev l') -> n ∈ concat (L0 :: rest)).
  { intros n Hn. rewrite concat_rev_perm in Hn. rewrite E, concat_app.
    apply elem_of_app. now left. }
  destruct (backward_pass w1 K (rev l') outs depth Hndb Hwb Hwtb)
    as (w2 & E2 & F2 & R2 & Dc2 & D2 & W2 & evs & Hh2 & Ev2);
    try assumption.
  { intros n Hn. rewrite (forward_frame_reporting_down w w1 n Hf1).
    now rewrite (Hq n (Hin n Hn)). }
  exists w1, w2. split; [exact E1|]. split; [exact E2|].
  split; [exact Hf1|]. split; [exact F2|].
  pose proof F2 as [F2n _].
  refine (conj _ (conj Hv1 (conj Hfv1 (conj Dc2 (conj _ (conj _ _)))))).
  - intros n Hn.
    assert (Hd : item (_reporting_nodes (node w2 n)) DOWNSTREAM = 0%Z).
    { rewrite R2, (forward_frame_reporting_down w w1 n Hf1).
      now rewrite (Hq n Hn). }
    assert (Hu : item (_reporting_nodes (node w2 n)) UPSTREAM = 0%Z).
    { destruct (F2n n) as (_ & _ & _ & ->). pose proof (Hq n Hn) as Hqn.
      simpl in Hn. apply elem_of_app in Hn as [Hn|Hn].
      - rewrite (Hr1 n Hn). now rewrite Hqn.
      - now apply Hz1. }
    rewrite (by_side_eq (_reporting_nodes (node w2 n))). now rewrite Hd, Hu.
  - intros n Hn. rewrite (D2 n Hn).
    now rewrite (forward_frame_delta w w1 n Hf1).
  - intros j i. rewrite W2. now rewrite (forward_frame_weights w w1 j Hf1).
  - exists evs. split; [|exact Ev2].
    rewrite Hh2. destruct Hf1 as (_ & _ & ->). reflexivity.
Qed.

Lemma weighted_adjacent w pre :
  forall A B post i j,
    weighted w (pre ++ A :: B :: post) -> i ∈ A -> j ∈ B ->
    is_Some (_weights (node w j) !! i).
Proof.
  induction pre as [|x pre IH]; intros A B post i j Hw Hi Hj.
  - destruct Hw as [Hw _]. now apply Hw.
  - simpl in Hw. destruct (pre ++ A :: B :: post) as [|y rest'] eqn:E;
      [now destruct pre|].
    destruct Hw as [_ Hw]. apply (IH A B post i j); [|exact Hi|exact Hj].
    now rewrite E.
Qed.

(** C2, for networks without an empty layer.  In one presentation
    ([set_input] on every input node, then [set_expected] on every output
    node) of a wired network at rest whose layers are all non-empty, for
    every node [j] and every upstream neighbor [i] of it (a node of the
    layer before), [adjust_weights] is called exactly once on the weight
    [j] holds for [i]: the history gains exactly one event for it.  The
    call is the one of [i]'s [_update_weights] (the only caller, which
    passes itself as the key), and the amount added is
    [0.05 * delta(j) * value(i)], where [delta(j)] is the delta the node has
    at the end of the backward pass, computed in that pass, from the
    target for an output node and from the deltas downstream for the
    others, and [value(i)] is the value the forward pass left. *)
Theorem weight_updated_once w L0 rest l' K ins outs depth :
  wired w (L0 :: rest) ->
  quiescent w (L0 :: rest) ->
  weighted w (L0 :: rest) ->
  Forall (fun L => L <> []) (L0 :: rest) ->
  L0 :: rest = l' ++ [K] ->
  NoDup ins.*1 -> (forall i, i ∈ ins.*1 <-> i ∈ L0) ->
  NoDup outs.*1 -> (forall i, i ∈ outs.*1 <-> i ∈ K) ->
  length rest <= depth ->
  exists w1 w2 evs,
    present_inputs np_exp py_sum depth ins w = (Ok tt, w1) /\
    present_expected depth outs w1 = (Ok tt, w2) /\
    history w2 = history w ++ evs /\
    (forall c, c ∈ outs -> delta w2 c.1 = output_delta w1 c.1 c.2) /\
    (forall n, n ∈ concat l' -> delta w2 n = hidden_delta w2 w1 n) /\
    forall pre A B post i j,
      L0 :: rest = pre ++ A :: B :: post -> i ∈ A -> j ∈ B ->
      let amount := (0.05 * delta w2 j * value w1 i)%float in
      events_of j i evs = [mkAdjustment j i amount] /\
      exists wt,
        _weights (node w j) !! i = Some wt /\
        _weights (node w2 j) !! i = Some (wt + amount)%float.
Proof.
  intros Hw Hq Hwt Hne E Hndi Hcovi Hndo Hcovo Hdepth.
  destruct (presentation w L0 rest l' K ins outs depth
              Hw Hq Hwt E Hndi Hcovi Hndo Hcovo Hdepth)
    as (w1 & w2 & E1 & E2 & Hf1 & F2 & _ & _ & _ & Dc & D & W & evs & Hh & Ev).
  exists w1, w2, evs. split; [exact E1|]. split; [exact E2|].
  split; [exact Hh|]. split; [exact Dc|].
  assert (Hne' : Forall (fun L => L <> []) (K :: rev l')).
  { rewrite E in Hne. apply Forall_app in Hne as [Hl HK].
    apply Forall_cons. split; [now apply Forall_cons in HK as [? _]|].
    now apply Forall_rev. }
  destruct Hw as (Hnd & _).
  split.
  - intros n Hn.
    assert (HnK : n ∉ K).
    { rewrite E, concat_app in Hnd. simpl in Hnd. rewrite app_nil_r in Hnd.
      apply NoDup_app in Hnd as (_ & Hnd & _). now apply Hnd. }
    unfold delta. rewrite (D n HnK). rewrite bp_node_member; [reflexivity| |].
    + exact Hne'.
    + simpl. apply elem_of_app. right. now rewrite concat_rev_perm.
  - intros pre A B post i j Epre Hi Hj amount.
    assert (Hedge : bp_edge (rev l') [] K j i = true).
    { apply (bp_edge_adjacent (rev post) (rev l') [] K B A (rev pre));
        try assumption.
      change (K :: rev l') with ([K] ++ rev l').
      rewrite <- (rev_unit l' K) at 1. rewrite <- E, Epre.
      rewrite rev_app_distr. simpl. now rewrite <- !app_assoc. }
    assert (Ea : adjustment w2 j i = amount).
    { subst amount. unfold adjustment, value.
      destruct F2 as [F2n _]. now destruct (F2n i) as (_ & _ & -> & _). }
    rewrite Ev, W, Hedge, Ea. split; [reflexivity|].
    rewrite Epre in Hwt.
    destruct (weighted_adjacent w pre A B post i j Hwt Hi Hj) as [wt Ewt].
    exists wt. split; [exact Ewt|]. now rewrite Ewt.
Qed.

End Presentation.

Lemma wired_net_gap : wired (world net_gap) [[0]; [2]; []; [1]].
Proof.
  split; [apply (bool_decide_unpack _); vm_compute; exact I|].
  split; [intros a Ha; each_elem Ha; vm_compute; reflexivity|].
  split; [split|split; [split|split; [split|]]]; intros a Ha;
    try (inversion Ha; fail); each_elem Ha; vm_compute; try split;
    reflexivity.
Qed.

Lemma quiescent_net_gap : quiescent (world net_gap) [[0]; [2]; []; [1]].
Proof. intros n Hn. simpl in Hn. each_elem Hn; vm_compute; reflexivity. Qed.

Lemma weighted_net_gap : weighted (world net_gap) [[0]; [2]; []; [1]].
Proof.
  split; [|split; [|split; [|exact I]]]; intros a b Ha Hb;
    try (inversion Ha; fail); try (inversion Hb; fail);
    each_elem Ha; each_elem Hb; vm_compute; eauto.
Qed.

(** C2 does not hold past an empty layer.  In the network with the layers
    [0], [2], [] and [1], the node 2 holds a weight for its upstream
    neighbor 0; one presentation returns normally, calls [adjust_weights]
    for no weight and leaves this one as it was: the backward pass stops
    at the empty layer, as the forward pass did. *)
Lemma presentation_skips_edge :
  wired (world net_gap) [[0]; [2]; []; [1]] /\
  quiescent (world net_gap) [[0]; [2]; []; [1]] /\
  weighted (world net_gap) [[0]; [2]; []; [1]] /\
  item (_neighbors (node (world net_gap) 2)) UPSTREAM = [0] /\
  _weights (node (world net_gap) 2) !! 0 = Some 0.5%float /\
  exists w1 w2,
    present_inputs exp_quad sum_left 3 [(0, 1%float)] (world net_gap)
      = (Ok tt, w1) /\
    present_expected 3 [(1, 1%float)] w1 = (Ok tt, w2) /\
    history w2 = history (world net_gap) /\
    events_of 2 0 (history w2) = [] /\
    _weights (node w2 2) !! 0 = Some 0.5%float.
Proof.
  split; [exact wired_net_gap|]. split; [exact quiescent_net_gap|].
  split; [exact weighted_net_gap|].
  split; [vm_compute; reflexivity|]. split; [vm_compute; reflexivity|].
  eexists. eexists. split; [vm_compute; reflexivity|].
  split; [vm_compute; reflexivity|].
  split; [vm_compute; reflexivity|].
  split; vm_compute; reflexivity.
Qed.

Lemma weighted_net_2_2_1 : weighted (world net_2_2_1) [[0; 1]; [3; 4]; [2]].
Proof.
  split; [|split; [|exact I]]; intros a b Ha Hb;
    each_elem Ha; each_elem Hb; vm_compute; eauto.
Qed.

Lemma weight_updated_once_witness :
  exists w1 w2 evs,
    present_inputs exp_quad sum_left 2 [(0, 1%float); (1, 2%float)]
      (world net_2_2_1) = (Ok tt, w1) /\
    present_expected 2 [(2, 1%float)] w1 = (Ok tt, w2) /\
    history w2 = history (world net_2_2_1) ++ evs /\
    events_of 3 0 evs
      = [mkAdjustment 3 0 (0.05 * delta w2 3 * value w1 0)%float] /\
    events_of 2 4 evs
      = [mkAdjustment 2 4 (0.05 * delta w2 2 * value w1 4)%float].
Proof.
  destruct (weight_updated_once exp_quad sum_left
              (world net_2_2_1) [0; 1] [[3; 4]; [2]] [[0; 1]; [3; 4]] [2]
              [(0, 1%float); (1, 2%float)] [(2, 1%float)] 2
              wired_net_2_2_1 quiescent_net_2_2_1 weighted_net_2_2_1)
    as (w1 & w2 & evs & E1 & E2 & Hh & _ & _ & He).
  - repeat constructor; discriminate.
  - reflexivity.
  - apply (bool_decide_unpack _). vm_compute. exact I.
  - intros i. reflexivity.
  - apply (bool_decide_unpack _). vm_compute. exact I.
  - intros i. reflexivity.
  - simpl. lia.
  - exists w1, w2, evs. refine (conj E1 (conj E2 (conj Hh (conj _ _)))).
    + apply (He [] [0; 1] [3; 4] [[2]] 0 3 eq_refl).
      * apply elem_of_cons. now left.
      * apply elem_of_cons. now left.
    + apply (He [[0; 1]] [3; 4] [2] [] 4 2 eq_refl).
      * apply elem_of_cons. right. apply elem_of_cons. now left.
      * apply elem_of_cons. now left.
Defined.

Section ReportingMasks.

Variable random_random : nat -> float.
Variable np_exp : float -> float.
Variable py_sum : list float -> float.

Lemma lor_bit_nonzero m i : Z.lor m (Z.shiftl 1 (Z.of_nat i)) <> 0%Z.
Proof.
  intros E. apply (f_equal (fun z => Z.testbit z (Z.of_nat i))) in E.
  rewrite Z.lor_spec, Z.shiftl_spec, Z.sub_diag, Z.bits_0 in E by lia.
  simpl in E. rewrite orb_true_r in E. discriminate.
Qed.

(** C7.  A neurode is constructed with both masks at zero.
    [reset_neighbors(nodes, side)] always returns, leaves the reference
    value [2^|nodes| - 1] for [side] and does not touch the masks.
    [_check_in] of a neighbor at index [i] sets the bit [i]; it returns
    [True] exactly when the mask then equals the reference value, and the
    mask it leaves is zero in exactly that case (otherwise it is the mask
    with the bit set, which is not zero).  Hence one presentation of a
    wired network at rest ([set_input] on every input node, then
    [set_expected] on every output node) returns normally and leaves the
    network at rest: every mask of every node is zero again. *)
Theorem reporting_masks_cleared :
  _reporting_nodes new_Neurode = BySide 0%Z 0%Z /\
  (forall self nodes side w,
     exists w',
       reset_neighbors random_random self nodes side w = (Ok tt, w') /\
       item (_neighbors (node w' self)) side = nodes /\
       item (_reference_value (node w' self)) side
         = (2 ^ Z.of_nat (length nodes) - 1)%Z /\
       _reporting_nodes (node w' self) = _reporting_nodes (node w self)) /\
  (forall self node_ side w i,
     index (item (_neighbors (node w self)) side) node_ = Some i ->
     let mask := Z.lor (item (_reporting_nodes (node w self)) side)
                       (Z.shiftl 1 (Z.of_nat i)) in
     exists r w',
       _check_in self node_ side w = (Ok r, w') /\
       (r = true <-> mask = item (_reference_value (node w self)) side) /\
       item (_reporting_nodes (node w' self)) side
         = (if r then 0%Z else mask) /\
       (item (_reporting_nodes (node w' self)) side = 0%Z <-> r = true)) /\
  (forall w L0 rest l' K ins outs depth,
     wired w (L0 :: rest) ->
     quiescent w (L0 :: rest) ->
     weighted w (L0 :: rest) ->
     L0 :: rest = l' ++ [K] ->
     NoDup ins.*1 -> (forall i, i ∈ ins.*1 <-> i ∈ L0) ->
     NoDup outs.*1 -> (forall i, i ∈ outs.*1 <-> i ∈ K) ->
     length rest <= depth ->
     exists w1 w2,
       present_inputs np_exp py_sum depth ins w = (Ok tt, w1) /\
       present_expected depth outs w1 = (Ok tt, w2) /\
       quiescent w2 (L0 :: rest)).
Proof.
  split; [reflexivity|]. split; [|split].
  - intros self nodes side w.
    destruct (reset_neighbors_spec random_random self nodes side w)
      as (w' & E & Hn & _).
    exists w'. split; [exact E|]. rewrite Hn.
    destruct side, (node w self) as [[] [] [] ? ? ?]; now simpl.
  - intros self node_ side w i Hi mask.
    rewrite (check_in_present self node_ side w i Hi). fold mask.
    set (r := bool_decide (mask = item (_reference_value (node w self)) side)).
    exists r, (update self (with_reporting side (if r then 0%Z else mask)) w).
    split; [reflexivity|].
    assert (Hr : r = true <->
                 mask = item (_reference_value (node w self)) side).
    { subst r. apply bool_decide_eq_true. }
    split; [exact Hr|]. rewrite node_update_eq, item_with_reporting.
    split; [reflexivity|]. destruct r; [tauto|].
    split; [|discriminate]. intros E. now apply lor_bit_nonzero in E.
  - intros w L0 rest l' K ins outs depth Hw Hq Hwt E Hndi Hci Hndo Hco Hd.
    destruct (presentation np_exp py_sum w L0 rest l' K ins outs depth
                Hw Hq Hwt E Hndi Hci Hndo Hco Hd)
      as (w1 & w2 & E1 & E2 & _ & _ & Hq2 & _).
    exists w1, w2. exact (conj E1 (conj E2 Hq2)).
Qed.

End ReportingMasks.

Lemma reporting_masks_cleared_witness :
  exists w1 w2,
    present_inputs exp_quad sum_left 2 [(0, 1%float); (1, 2%float)]
      (world net_2_2_1) = (Ok tt, w1) /\
    present_expected 2 [(2, 1%float)] w1 = (Ok tt, w2) /\
    quiescent w2 [[0; 1]; [3; 4]; [2]].
Proof.
  destruct (reporting_masks_cleared rnd_half exp_quad sum_left)
    as (_ & _ & _ & H).
  apply (H (world net_2_2_1) [0; 1] [[3; 4]; [2]] [[0; 1]; [3; 4]] [2]
           [(0, 1%float); (1, 2%float)] [(2, 1%float)] 2
           wired_net_2_2_1 quiescent_net_2_2_1 weighted_net_2_2_1).
  - reflexivity.
  - apply (bool_decide_unpack _). vm_compute. exact I.
  - intros i. reflexivity.
  - apply (bool_decide_unpack _). vm_compute. exact I.
  - intros i. reflexivity.
  - simpl. lia.
Defined.

Section LearningRate.

Variable np_exp : float -> float.
Variable py_sum : list float -> float.

(** C1, as the code behaves.  In a network of one input node [a] and one
    output node [b], where [b] holds the weight [wt] for [a]: after the
    learning rate has been set to any value [lr], the presentation of the
    input [x] and of the target [t] gives the output
    [y = sigmoid(py_sum [wt * x])] and adds
    [0.05 * ((t - y) * (y * (1 - y))) * x] to the weight.  The factor is
    the literal [0.05] of [_update_weights]; the shared learning rate,
    which still reads [lr] afterwards, does not enter the update. *)
Theorem update_ignores_learning_rate w a b x t wt lr depth :
  wired w [[a]; [b]] ->
  quiescent w [[a]; [b]] ->
  _weights (node w b) !! a = Some wt ->
  1 <= depth ->
  exists w0 w1 w2,
    set_learning_rate a lr w = (Ok tt, w0) /\
    learning_rate b w0 = (Ok lr, w0) /\
    present_inputs np_exp py_sum depth [(a, x)] w0 = (Ok tt, w1) /\
    present_expected depth [(b, t)] w1 = (Ok tt, w2) /\
    learning_rate b w2 = (Ok lr, w2) /\
    let y := _sigmoid np_exp (py_sum [(wt * x)%float]) in
    value w1 b = y /\
    _weights (node w2 b) !! a
      = Some (wt + 0.05 * ((t - y) * (y * (1 - y))) * x)%float.
Proof.
  intros Hw Hq Hwt Hdepth.
  set (w0 := set_learning_rate_attr lr w).
  assert (Hw0 : wired w0 [[a]; [b]]) by exact Hw.
  assert (Hq0 : quiescent w0 [[a]; [b]]) by exact Hq.
  assert (Hwt0 : weighted w0 [[a]; [b]]).
  { split; [|exact I]. intros a' b' Ha Hb.
    apply list_elem_of_singleton in Ha, Hb. subst a' b'.
    change (node w0 b) with (node w b). rewrite Hwt. eauto. }
  destruct (presentation np_exp py_sum w0 [a] [[b]] [[a]] [b]
              [(a, x)] [(b, t)] depth Hw0 Hq0 Hwt0 eq_refl)
    as (w1 & w2 & E1 & E2 & Hf1 & F2 & _ & Hv & Hfv & Dc & _ & W & _).
  { apply NoDup_singleton. }
  { intros i. reflexivity. }
  { apply NoDup_singleton. }
  { intros i. reflexivity. }
  { exact Hdepth. }
  exists w0, w1, w2. split; [reflexivity|]. split; [reflexivity|].
  split; [exact E1|]. split; [exact E2|].
  pose proof F2 as [F2n [Hlr2 _]]. pose proof Hf1 as (_ & [Hlr1 _] & _).
  split.
  { unfold learning_rate, gets. now rewrite Hlr2, Hlr1. }
  intros y.
  assert (Ha : a ∈ [a]) by (apply elem_of_cons; now left).
  assert (Hb : b ∈ [b]) by (apply elem_of_cons; now left).
  assert (Hxa : _value (node w1 a) = x) by exact (Hv (a, x) ltac:(left)).
  assert (Hyb : value w1 b = y).
  { destruct Hfv as [Hfv _]. unfold value. rewrite (Hfv b Hb).
    unfold activation, weighted_inputs.
    rewrite (forward_frame_neighbors w0 w1 b Hf1).
    destruct Hw0 as (_ & _ & [_ Hup] & _). destruct (Hup b Hb) as [-> _].
    simpl. unfold get_weight, value.
    rewrite (forward_frame_weights w0 w1 b Hf1), Hxa.
    change (node w0 b) with (node w b). now rewrite Hwt. }
  split; [exact Hyb|].
  rewrite W. simpl rev. rewrite bp_edge_outputs by discriminate.
  rewrite (bp_edge_here [] [b] [a] b a Hb Ha).
  change (node w0 b) with (node w b). rewrite Hwt. simpl. f_equal.
  unfold adjustment, delta, value.
  destruct (F2n a) as (_ & _ & -> & _). rewrite Hxa.
  pose proof (Dc (b, t) ltac:(left)) as Hdb. simpl in Hdb. rewrite Hdb.
  unfold output_delta, _sigmoid_derivative. now rewrite Hyb.
Qed.

End LearningRate.

Lemma wired_net_1_1 : wired (world net_1_1) [[0]; [1]].
Proof.
  split; [apply (bool_decide_unpack _); vm_compute; exact I|].
  split; [intros a Ha; each_elem Ha; vm_compute; reflexivity|].
  split; [split|]; intros a Ha; each_elem Ha; vm_compute; try split;
    reflexivity.
Qed.

Lemma quiescent_net_1_1 : quiescent (world net_1_1) [[0]; [1]].
Proof. intros n Hn. simpl in Hn. each_elem Hn; vm_compute; reflexivity. Qed.

(** With the learning rate set to 0.5, the input 1 and the target 1 on
    [LayerList(1, 1)], whose weight is 0.5: the weight grows by
    [0.05 * (1 - y) * y * (1 - y)], not by [0.5 * (1 - y) * y * (1 - y)]. *)
Lemma update_ignores_learning_rate_witness :
  let y := _sigmoid exp_quad (sum_left [(0.5 * 1)%float]) in
  exists w0 w1 w2,
    set_learning_rate 0 0.5%float (world net_1_1) = (Ok tt, w0) /\
    present_inputs exp_quad sum_left 1 [(0, 1%float)] w0 = (Ok tt, w1) /\
    present_expected 1 [(1, 1%float)] w1 = (Ok tt, w2) /\
    learning_rate 1 w2 = (Ok 0.5%float, w2) /\
    _weights (node w2 1) !! 0
      = Some (0.5 + 0.05 * ((1 - y) * (y * (1 - y))) * 1)%float /\
    _weights (node w2 1) !! 0
      <> Some (0.5 + 0.5 * ((1 - y) * (y * (1 - y))) * 1)%float.
Proof.
  intros y.
  destruct (update_ignores_learning_rate exp_quad sum_left
              (world net_1_1) 0 1 1%float 1%float 0.5%float 0.5%float 1
              wired_net_1_1 quiescent_net_1_1)
    as (w0 & w1 & w2 & E0 & _ & E1 & E2 & Elr & H).
  - vm_compute. reflexivity.
  - lia.
  - cbv zeta in H. destruct H as [_ Hwt]. fold y in Hwt.
    exists w0, w1, w2.
    refine (conj E0 (conj E1 (conj E2 (conj Elr (conj Hwt _))))).
    rewrite Hwt. intros E.
    apply (f_equal (fun o =>
             match o with
             | Some v =>
                 PrimFloat.eqb v (0.5 + 0.05 * ((1 - y) * (y * (1 - y))) * 1)
             | None => false
             end)) in E.
    vm_compute in E. discriminate.
Defined.

(** ** The list operations on every well-formed list *)

Section ListFacts.
Context {A : Type} `{EqDecision A}.
Implicit Types (l : DLL.DoublyLinkedList A) (cells : list (loc * A)).

Lemma set_curr_same l : DLL.set_curr (DLL._curr l) l = l.
Proof. now destruct l. Qed.

Lemma set_curr_twice l c c' :
  DLL.set_curr c (DLL.set_curr c' l) = DLL.set_curr c l.
Proof. reflexivity. Qed.

Lemma cursor_cell l cells c :
  is_list l cells -> DLL._curr l = Some c ->
  exists pre dc post, cells = pre ++ (c, dc) :: post.
Proof.
  intros (_ & _ & _ & _ & Hc) Hcur. specialize (Hc c Hcur).
  apply list_elem_of_fmap in Hc as ([c' dc] & -> & Hin).
  apply list_elem_of_split in Hin as (pre & post & ->). eauto.
Qed.

Lemma is_list_nil_curr l : is_list l [] -> DLL._curr l = None.
Proof.
  intros (_ & _ & _ & _ & Hc). destruct (DLL._curr l) as [c|]; [|reflexivity].
  specialize (Hc c eq_refl). inversion Hc.
Qed.

Lemma is_list_set_curr_opt l cells c :
  is_list l cells -> (forall p, c = Some p -> p ∈ cells.*1) ->
  is_list (DLL.set_curr c l) cells.
Proof.
  intros (Hnd & Hl & Hh & Ht & _) Hp. repeat split; assumption.
Qed.

Lemma remove_from_head_spec l c d rest :
  is_list l ((c, d) :: rest) ->
  exists l',
    DLL.remove_from_head l = (Ok d, l') /\
    is_list l' rest /\
    DLL._curr l' = DLL._head l'.
Proof.
  intros Hlist. pose proof Hlist as (Hnd & Hl & Hh & Ht & Hc).
  pose proof (is_list_lookup l [] c d rest Hlist) as Hpc. simpl in Hpc.
  destruct Hl as [_ Hrest]. simpl in Hrest.
  rewrite fmap_cons in Hnd. apply NoDup_cons in Hnd as [Hc' Hnd]. simpl in Hc'.
  unfold DLL.remove_from_head. rewrite bind_gets, Hh. simpl.
  rewrite (bind_ok _ _ _ _ _ (deref_ok _ _ _ Hpc)). simpl.
  rewrite bind_modify.
  set (l1 := DLL.set_head (first_or rest None) l).
  assert (Ht1 : DLL._tail l1 = last_or rest (Some c)).
  { simpl. rewrite Ht. now rewrite last_or_cons. }
  destruct (unlink_after l1 rest c None Hrest Hnd Ht1)
    as (l2 & E2 & Hh2 & Hc2 & Ht2 & Hl2 & _).
  rewrite (bind_ok _ _ _ _ _ E2). mnorm.
  eexists. split; [reflexivity|]. split; [|reflexivity].
  refine (conj Hnd (conj Hl2 (conj _ (conj Ht2 _)))).
  - simpl. now rewrite Hh2.
  - simpl. rewrite Hh2. simpl. intros k Hk. now apply first_or_elem in Hk.
Qed.

Lemma remove_from_head_empty l :
  is_list l [] -> DLL.remove_from_head l = (Raise IndexError, l).
Proof.
  intros (_ & _ & Hh & _). unfold DLL.remove_from_head.
  rewrite bind_gets, Hh. reflexivity.
Qed.

Lemma add_after_current_no_cursor l d :
  DLL._curr l = None -> DLL.add_after_current d l = (Raise IndexError, l).
Proof.
  intros Hc. unfold DLL.add_after_current. now rewrite bind_gets, Hc.
Qed.

Lemma no_cursor_raises l :
  DLL._curr l = None ->
  DLL.remove_after_current l = (Raise IndexError, l) /\
  DLL.move_forward l = (Raise IndexError, l) /\
  DLL.move_backward l = (Raise IndexError, l) /\
  DLL.curr_data l = (Raise IndexError, l).
Proof.
  intros Hc. unfold DLL.remove_after_current,
    DLL.move_forward, DLL.move_backward, DLL.curr_data.
  rewrite !bind_gets, Hc. repeat split.
Qed.

Lemma at_tail_raises l pre c dc :
  is_list l (pre ++ [(c, dc)]) -> DLL._curr l = Some c ->
  DLL.remove_after_current l = (Raise IndexError, l) /\
  DLL.move_forward l = (Raise IndexError, l).
Proof.
  intros Hl Hcur. pose proof (is_list_lookup l pre c dc [] Hl) as Hpc.
  unfold DLL.remove_after_current, DLL.move_forward.
  rewrite !bind_gets, Hcur.
  rewrite !(bind_ok _ _ _ _ _ (deref_ok _ _ _ Hpc)). split; reflexivity.
Qed.

Lemma at_head_raises l c dc post :
  is_list l ((c, dc) :: post) -> DLL._curr l = Some c ->
  DLL.move_backward l = (Raise IndexError, l).
Proof.
  intros Hl Hcur. pose proof (is_list_lookup l [] c dc post Hl) as Hpc.
  unfold DLL.move_backward. rewrite !bind_gets, Hcur.
  now rewrite !(bind_ok _ _ _ _ _ (deref_ok _ _ _ Hpc)).
Qed.

Lemma curr_data_spec l pre c dc post :
  is_list l (pre ++ (c, dc) :: post) -> DLL._curr l = Some c ->
  DLL.curr_data l = (Ok dc, l).
Proof.
  intros Hl Hcur. pose proof (is_list_lookup l pre c dc post Hl) as Hpc.
  unfold DLL.curr_data. rewrite !bind_gets, Hcur.
  now rewrite !(bind_ok _ _ _ _ _ (deref_ok _ _ _ Hpc)).
Qed.

Lemma reset_to_head_spec l cells :
  is_list l cells ->
  DLL.reset_to_head l = (Ok tt, DLL.set_curr (DLL._head l) l) /\
  is_list (DLL.set_curr (DLL._head l) l) cells.
Proof.
  intros Hl. split; [reflexivity|]. apply is_list_set_curr_opt; [exact Hl|].
  destruct Hl as (_ & _ & Hh & _). rewrite Hh. intros p Hp.
  now apply first_or_elem in Hp.
Qed.

Lemma reset_to_tail_spec l cells :
  is_list l cells ->
  DLL.reset_to_tail l = (Ok tt, DLL.set_curr (DLL._tail l) l) /\
  is_list (DLL.set_curr (DLL._tail l) l) cells.
Proof.
  intros Hl. split; [reflexivity|]. apply is_list_set_curr_opt; [exact Hl|].
  destruct Hl as (_ & _ & _ & Ht & _). rewrite Ht. intros p Hp.
  now apply last_or_elem in Hp.
Qed.

Lemma is_empty_spec l cells :
  is_list l cells -> DLL.is_empty l = (Ok (bool_decide (cells = [])), l).
Proof.
  intros (_ & _ & Hh & _). unfold DLL.is_empty. rewrite bind_gets, Hh.
  now destruct cells.
Qed.

Lemma first_holding_notin d cells :
  first_holding d cells = None -> d ∉ cells.*2.
Proof.
  intros Hnone. induction cells as [|[q dq] cells IH]; simpl in *.
  - apply not_elem_of_nil.
  - destruct (decide (dq = d)) as [|Hne]; [discriminate|].
    apply not_elem_of_cons. split; [congruence|now apply IH].
Qed.

Lemma remove_absent l cells d :
  is_list l cells -> first_holding d cells = None ->
  DLL.remove d l = (Raise IndexError, l).
Proof.
  intros (Hnd & Hl & Hh & _) Hnone. unfold DLL.remove.
  rewrite !bind_gets, Hh.
  pose proof (linked_length _ _ _ _ Hnd Hl) as Hlen.
  replace (S (size (DLL.store l)))
    with (length cells + S (size (DLL.store l) - length cells)) by lia.
  pose proof (first_holding_notin d cells Hnone) as Hpre.
  pose proof (remove_from_walk l cells [] None
                (S (size (DLL.store l) - length cells)) d) as Hw.
  rewrite app_nil_r in Hw. now rewrite (Hw Hl Hpre).
Qed.

Lemma print_loop_spec cells :
  forall l before steps out,
    linked (DLL.store l) before cells None ->
    DLL._curr l = first_or cells None ->
    length cells <= steps ->
    print_loop steps out l = (Ok (out ++ cells.*2), DLL.set_curr None l).
Proof.
  induction cells as [|[c d] rest IH]; intros l before steps out Hl Hc Hlen.
  - simpl in Hc. destruct steps; simpl; rewrite bind_gets, Hc;
      rewrite app_nil_r; rewrite <- Hc; now rewrite set_curr_same.
  - destruct steps as [|steps]; [simpl in Hlen; lia|].
    destruct Hl as [Hpc Hrest]. simpl in Hpc, Hrest, Hc. simpl.
    rewrite bind_gets, Hc.
    rewrite (bind_ok _ _ _ _ _ (deref_ok _ _ _ Hpc)). rewrite bind_modify.
    simpl DLL.next. simpl DLL.data.
    rewrite (IH (DLL.set_curr (first_or rest None) l) (Some c) steps
               (out ++ [d]) Hrest eq_refl); [|simpl in Hlen; lia].
    now rewrite <- app_assoc.
Qed.

Lemma print_list_spec l cells :
  is_list l cells -> print_list l = (Ok cells.*2, l).
Proof.
  intros (Hnd & Hl & Hh & _). unfold print_list, DLL.reset_to_head.
  rewrite bind_gets. mnorm.
  rewrite (bind_ok _ _ _ _ _
             (print_loop_spec cells (DLL.set_curr (DLL._head l) l) None
                (S (size (DLL.store l))) [] Hl Hh
                (Nat.le_trans _ _ _ (linked_length _ _ _ _ Hnd Hl)
                   (Nat.le_succ_diag_r _)))).
  rewrite bind_modify. now destruct l.
Qed.

Lemma first_or_nonempty cells : cells <> [] -> first_or cells None <> None.
Proof. destruct cells; [contradiction|discriminate]. Qed.

Lemma last_or_nonempty cells : cells <> [] -> last_or cells None <> None.
Proof.
  destruct cells as [|c cells _] using rev_ind; [contradiction|].
  intros _. now rewrite last_or_snoc.
Qed.

(** Every method keeps the invariant, and raises nothing but
    [IndexError]. *)
Lemma outcome_inv (m : method) l cells :
  is_list l cells ->
  (cells <> [] -> DLL._curr l <> None) ->
  exists cells',
    is_list (outcome m l).2 cells' /\
    (cells' <> [] -> DLL._curr (outcome m l).2 <> None) /\
    ((outcome m l).1 = None \/ (outcome m l).1 = Some IndexError).
Proof.
  intros Hl Hcur.
  assert (Hsame : forall e,
            e = None \/ e = Some IndexError ->
            exists cells',
              is_list (e, l).2 cells' /\
              (cells' <> [] -> DLL._curr (e, l).2 <> None) /\
              ((e, l).1 = None \/ (e, l).1 = Some IndexError)).
  { intros e He. exists cells. auto. }
  destruct m as [d|d| | | | | | |d|d| | |]; unfold outcome.
  - destruct (add_to_head_spec l cells d Hl) as (l' & -> & Hl' & Hc').
    exists ((fresh (dom (DLL.store l)), d) :: cells). simpl.
    split; [exact Hl'|]. split; [|now left]. intros _. now rewrite Hc'.
  - destruct (DLL._curr l) as [c|] eqn:Ec.
    + destruct (cursor_cell l cells c Hl Ec) as (pre & dc & post & ->).
      destruct (add_after_current_spec l pre c dc post d Hl Ec)
        as (l' & -> & Hl' & Hc').
      eexists. simpl. split; [exact Hl'|]. split; [|now left].
      intros _. now rewrite Hc'.
    + rewrite (add_after_current_no_cursor l d Ec). apply Hsame. now right.
  - destruct cells as [|[c d] rest].
    + rewrite (remove_from_head_empty l Hl). apply Hsame. now right.
    + destruct (remove_from_head_spec l c d rest Hl) as (l' & -> & Hl' & Hc').
      exists rest. simpl. split; [exact Hl'|]. split; [|now left].
      intros Hne. rewrite Hc'. destruct Hl' as (_ & _ & -> & _).
      now apply first_or_nonempty.
  - destruct (DLL._curr l) as [c|] eqn:Ec.
    + destruct (cursor_cell l cells c Hl Ec) as (pre & dc & post & ->).
      destruct post as [|[r dr] post].
      * destruct (at_tail_raises l pre c dc Hl Ec) as [-> _].
        apply Hsame. now right.
      * destruct (remove_after_current_spec l pre c dc r dr post Hl Ec)
          as (l' & -> & Hl' & Hc').
        eexists. simpl. split; [exact Hl'|]. split; [|now left].
        intros _. now rewrite Hc'.
    + destruct (no_cursor_raises l Ec) as (-> & _).
      apply Hsame. now right.
  - destruct (reset_to_head_spec l cells Hl) as [-> Hl'].
    exists cells. simpl. split; [exact Hl'|]. split; [|now left].
    intros Hne. destruct Hl as (_ & _ & -> & _). now apply first_or_nonempty.
  - destruct (reset_to_tail_spec l cells Hl) as [-> Hl'].
    exists cells. simpl. split; [exact Hl'|]. split; [|now left].
    intros Hne. destruct Hl as (_ & _ & _ & -> & _). now apply last_or_nonempty.
  - destruct (DLL._curr l) as [c|] eqn:Ec.
    + destruct (cursor_cell l cells c Hl Ec) as (pre & dc & post & ->).
      destruct post as [|[r dr] post].
      * destruct (at_tail_raises l pre c dc Hl Ec) as [_ ->].
        apply Hsame. now right.
      * rewrite (move_forward_spec l pre c dc r dr post Hl Ec).
        eexists. simpl. split; [|split; [discriminate|now left]].
        apply is_list_set_curr; [exact Hl|].
        rewrite fmap_app, !fmap_cons. apply elem_of_app. right.
        apply elem_of_cons. right. apply elem_of_cons. now left.
    + destruct (no_cursor_raises l Ec) as (_ & -> & _).
      apply Hsame. now right.
  - destruct (DLL._curr l) as [c|] eqn:Ec.
    + destruct (cursor_cell l cells c Hl Ec) as (pre & dc & post & ->).
      destruct pre as [|[b db] pre _] using rev_ind.
      * rewrite (at_head_raises l c dc post Hl Ec). apply Hsame. now right.
      * rewrite <- app_assoc in Hl. simpl in Hl.
        rewrite (move_backward_spec l pre b db c dc post Hl Ec).
        eexists. simpl. split; [|split; [discriminate|now left]].
        apply is_list_set_curr; [exact Hl|].
        rewrite fmap_app, !fmap_cons. apply elem_of_app. right.
        apply elem_of_cons. now left.
    + destruct (no_cursor_raises l Ec) as (_ & _ & -> & _).
      apply Hsame. now right.
  - rewrite (find_spec l cells d Hl).
    destruct (first_holding d cells) as [p|] eqn:Ef.
    + exists cells. simpl. split; [|split; [discriminate|now left]].
      apply is_list_set_curr; [exact Hl|]. eapply first_holding_elem; eauto.
    + apply Hsame. now right.
  - destruct (first_holding d cells) as [p|] eqn:Ef.
    + destruct (first_holding_split d cells p Ef)
        as (pre & post & -> & Hpre & _).
      destruct (remove_spec l pre p d post Hl Hpre)
        as (l' & -> & Hl' & Hc' & _).
      exists (pre ++ post). simpl. split; [exact Hl'|]. split; [|now left].
      intros Hne. rewrite Hc'. destruct (decide (DLL._curr l = Some p)).
      * destruct Hl' as (_ & _ & -> & _). now apply first_or_nonempty.
      * apply Hcur. now destruct pre.
    + rewrite (remove_absent l cells d Hl Ef). apply Hsame. now right.
  - destruct (DLL._curr l) as [c|] eqn:Ec.
    + destruct (cursor_cell l cells c Hl Ec) as (pre & dc & post & ->).
      rewrite (curr_data_spec l pre c dc post Hl Ec). apply Hsame. now left.
    + destruct (no_cursor_raises l Ec) as (_ & _ & _ & ->).
      apply Hsame. now right.
  - rewrite (is_empty_spec l cells Hl). apply Hsame. now left.
  - rewrite (print_list_spec l cells Hl). apply Hsame. now left.
Qed.

(** X1.  Whatever public methods of [DoublyLinkedList] are called on a new
    list, in whatever order and whether they return or raise: the object
    stays a well-formed doubly linked list (the chain from [_head] reaches
    [_tail], [prev] mirrors [next], the cursor is a node of the chain),
    the cursor is [None] exactly when the list is empty, and the next call
    either returns or raises [IndexError]; no walk runs out of steps and no
    reference dangles. *)
Theorem invariant_after_calls (ms : list (method (A:=A))) :
  exists cells,
    is_list (after_calls ms) cells /\
    (DLL._curr (after_calls ms) = None <-> cells = []) /\
    forall m,
      (outcome m (after_calls ms)).1 = None \/
      (outcome m (after_calls ms)).1 = Some IndexError.
Proof.
  assert (H0 : exists cells,
            is_list (after_calls ms) cells /\
            (cells <> [] -> DLL._curr (after_calls ms) <> None)).
  { unfold after_calls. induction ms as [|m ms IH] using rev_ind.
    - exists []. split; [apply is_list_empty|]. now intros [].
    - rewrite foldl_app. simpl. destruct IH as (cells & Hl & Hc).
      destruct (outcome_inv m _ cells Hl Hc) as (cells' & Hl' & Hc' & _).
      eauto. }
  destruct H0 as (cells & Hl & Hc). exists cells. split; [exact Hl|].
  split.
  - split.
    + intros Hn. destruct cells; [reflexivity|].
      exfalso. apply Hc; [discriminate|exact Hn].
    + intros ->. now apply is_list_nil_curr.
  - intros m. now destruct (outcome_inv m _ cells Hl Hc) as (_ & _ & _ & H0).
Qed.

(** X2.  [add_to_head(d)] on a well-formed list puts a new node holding
    [d] before the others and the cursor on it, so that [curr_data] is
    [d]; [remove_from_head()] then returns [d] and leaves the nodes the
    list had, with the cursor on the head (not where it was before the two
    calls). *)
Theorem add_to_head_remove_from_head l cells d :
  is_list l cells ->
  exists l1 l2 p,
    DLL.add_to_head d l = (Ok tt, l1) /\
    is_list l1 ((p, d) :: cells) /\
    DLL.curr_data l1 = (Ok d, l1) /\
    DLL.remove_from_head l1 = (Ok d, l2) /\
    is_list l2 cells /\
    DLL._curr l2 = DLL._head l.
Proof.
  intros Hl. destruct (add_to_head_spec l cells d Hl) as (l1 & E1 & Hl1 & Hc1).
  destruct (remove_from_head_spec l1 _ d cells Hl1) as (l2 & E2 & Hl2 & Hc2).
  exists l1, l2, (fresh (dom (DLL.store l))).
  refine (conj E1 (conj Hl1 (conj _ (conj E2 (conj Hl2 _))))).
  - exact (curr_data_spec l1 [] _ d cells Hl1 Hc1).
  - rewrite Hc2. destruct Hl2 as (_ & _ & -> & _).
    now destruct Hl as (_ & _ & -> & _).
Qed.

(** X3.  With the cursor on a node, [add_after_current(d)] inserts [d]
    right after it and [remove_after_current()] then returns [d] and
    leaves the list and the cursor as they were before the two calls.  On
    an empty list [add_after_current] raises [IndexError], and so does
    [remove_after_current] when the cursor is on the tail; both leave the
    list untouched. *)
Theorem add_remove_after_current l pre c dc post d :
  is_list l (pre ++ (c, dc) :: post) ->
  DLL._curr l = Some c ->
  (exists l1 l2 p,
     DLL.add_after_current d l = (Ok tt, l1) /\
     is_list l1 (pre ++ (c, dc) :: (p, d) :: post) /\
     DLL.remove_after_current l1 = (Ok d, l2) /\
     is_list l2 (pre ++ (c, dc) :: post) /\
     DLL._curr l2 = Some c) /\
  (post = [] -> DLL.remove_after_current l = (Raise IndexError, l)) /\
  (forall l0, is_list l0 [] ->
     DLL.add_after_current d l0 = (Raise IndexError, l0)).
Proof.
  intros Hl Hc. split; [|split].
  - destruct (add_after_current_spec l pre c dc post d Hl Hc)
      as (l1 & E1 & Hl1 & Hc1).
    destruct (remove_after_current_spec l1 pre c dc _ d post Hl1 Hc1)
      as (l2 & E2 & Hl2 & Hc2).
    exists l1, l2, (fresh (dom (DLL.store l))).
    exact (conj E1 (conj Hl1 (conj E2 (conj Hl2 Hc2)))).
  - intros ->. now destruct (at_tail_raises l pre c dc Hl Hc).
  - intros l0 Hl0. apply add_after_current_no_cursor.
    now apply is_list_nil_curr.
Qed.

(** X4.  [move_forward()] with the cursor on the tail raises [IndexError]
    and leaves the list untouched, and so does [move_backward()] with the
    cursor on the head.  Anywhere else [move_forward()] puts the cursor on
    the next node, and [move_backward()] then brings the list back to the
    state before the two calls. *)
Theorem move_forward_backward l pre c dc post :
  is_list l (pre ++ (c, dc) :: post) ->
  DLL._curr l = Some c ->
  match post with
  | [] => DLL.move_forward l = (Raise IndexError, l)
  | (n, dn) :: _ =>
      DLL.move_forward l = (Ok tt, DLL.set_curr (Some n) l) /\
      DLL.curr_data (DLL.set_curr (Some n) l)
        = (Ok dn, DLL.set_curr (Some n) l) /\
      DLL.move_backward (DLL.set_curr (Some n) l) = (Ok tt, l)
  end /\
  (pre = [] -> DLL.move_backward l = (Raise IndexError, l)).
Proof.
  intros Hl Hc. split.
  - destruct post as [|[n dn] post].
    + now destruct (at_tail_raises l pre c dc Hl Hc).
    + split; [exact (move_forward_spec l pre c dc n dn post Hl Hc)|].
      assert (Hl' : is_list (DLL.set_curr (Some n) l)
                      ((pre ++ [(c, dc)]) ++ (n, dn) :: post)).
      { rewrite <- app_assoc. simpl. apply is_list_set_curr; [exact Hl|].
        rewrite fmap_app, !fmap_cons. apply elem_of_app. right.
        apply elem_of_cons. right. apply elem_of_cons. now left. }
      split; [exact (curr_data_spec _ _ n dn post Hl' eq_refl)|].
      rewrite <- app_assoc in Hl'. simpl in Hl'.
      rewrite (move_backward_spec _ pre c dc n dn post Hl' eq_refl).
      rewrite set_curr_twice, <- Hc. now rewrite set_curr_same.
  - intros ->. exact (at_head_raises l c dc post Hl Hc).
Qed.

(** X5.  [print_list()] on a well-formed list prints the data of its
    nodes from head to tail, once each, and leaves the list, cursor
    included, exactly as it was. *)
Theorem print_list_prints_all l cells :
  is_list l cells -> print_list l = (Ok cells.*2, l).
Proof. apply print_list_spec. Qed.

(** X6.  [find(d)] on a well-formed list: when [d] occurs, it returns [d]
    and puts the cursor on the first node holding it, so that [curr_data]
    is [d], and changes nothing else; when [d] does not occur, it raises
    [IndexError] and leaves the list, cursor included, as it was. *)
Theorem find_first_occurrence l cells d :
  is_list l cells ->
  if decide (d ∈ cells.*2)
  then exists pre p post,
         cells = pre ++ (p, d) :: post /\ (d ∉ pre.*2) /\
         DLL.find d l = (Ok d, DLL.set_curr (Some p) l) /\
         DLL.curr_data (DLL.set_curr (Some p) l)
           = (Ok d, DLL.set_curr (Some p) l)
  else DLL.find d l = (Raise IndexError, l).
Proof.
  intros Hl. rewrite (find_spec l cells d Hl).
  destruct (first_holding d cells) as [p|] eqn:Ef.
  - destruct (first_holding_split d cells p Ef) as (pre & post & -> & Hpre & _).
    rewrite decide_True.
    + exists pre, p, post. refine (conj eq_refl (conj Hpre (conj eq_refl _))).
      apply (curr_data_spec _ pre p d post); [|reflexivity].
      apply is_list_set_curr; [exact Hl|]. rewrite fmap_app, fmap_cons.
      apply elem_of_app. right. apply elem_of_cons. now left.
    + rewrite fmap_app, fmap_cons. apply elem_of_app. right.
      apply elem_of_cons. now left.
  - rewrite decide_False; [reflexivity|]. now apply first_holding_notin.
Qed.

Lemma pops_spec cells :
  forall l, is_list l cells ->
    exists l',
      pops (length cells) l = (Ok cells.*2, l') /\ is_list l' [].
Proof.
  induction cells as [|[c d] rest IH]; intros l Hl.
  - exists l. split; [reflexivity|exact Hl].
  - destruct (remove_from_head_spec l c d rest Hl) as (l1 & E1 & Hl1 & _).
    destruct (IH l1 Hl1) as (l' & E' & Hl').
    exists l'. split; [|exact Hl']. simpl.
    rewrite (bind_ok _ _ _ _ _ E1), (bind_ok _ _ _ _ _ E'). reflexivity.
Qed.

(** X7.  [remove_from_head()] takes the data out in list order: called as
    many times as a well-formed list has nodes, it returns the data from
    head to tail and leaves the list empty ([is_empty()] is [True]); the
    next [remove_from_head()] raises [IndexError] and changes nothing. *)
Theorem remove_from_head_drains l cells :
  is_list l cells ->
  exists l',
    pops (length cells) l = (Ok cells.*2, l') /\
    DLL.is_empty l' = (Ok true, l') /\
    DLL.remove_from_head l' = (Raise IndexError, l').
Proof.
  intros Hl. destruct (pops_spec cells l Hl) as (l' & E & Hl').
  exists l'. split; [exact E|]. split.
  - now rewrite (is_empty_spec l' [] Hl').
  - now apply remove_from_head_empty.
Qed.

(** X8.  [remove(d)] on a well-formed list: when [d] occurs, it returns
    [d] and takes out the first node holding it and no other, the list
    staying well formed; when [d] does not occur, it raises [IndexError]
    and leaves the list as it was. *)
Theorem remove_first_occurrence l cells d :
  is_list l cells ->
  if decide (d ∈ cells.*2)
  then exists pre p post l',
         cells = pre ++ (p, d) :: post /\ (d ∉ pre.*2) /\
         DLL.remove d l = (Ok d, l') /\
         is_list l' (pre ++ post)
  else DLL.remove d l = (Raise IndexError, l).
Proof.
  intros Hl. destruct (first_holding d cells) as [p|] eqn:Ef.
  - destruct (first_holding_split d cells p Ef) as (pre & post & -> & Hpre & _).
    rewrite decide_True.
    + destruct (remove_spec l pre p d post Hl Hpre) as (l' & E & Hl' & _).
      exists pre, p, post, l'. auto.
    + rewrite fmap_app, fmap_cons. apply elem_of_app. right.
      apply elem_of_cons. now left.
  - rewrite decide_False; [now apply (remove_absent l cells)|].
    now apply first_holding_notin.
Qed.

End ListFacts.

Lemma add_to_head_remove_from_head_witness :
  exists l1 l2 p,
    DLL.add_to_head 9 dll_87 = (Ok tt, l1) /\
    is_list l1 [(p, 9); (1, 8); (0, 7)] /\
    DLL.curr_data l1 = (Ok 9, l1) /\
    DLL.remove_from_head l1 = (Ok 9, l2) /\
    is_list l2 [(1, 8); (0, 7)] /\
    DLL._curr l2 = DLL._head dll_87.
Proof.
  exact (add_to_head_remove_from_head dll_87 [(1, 8); (0, 7)] 9
           is_list_dll_87).
Defined.

Lemma add_remove_after_current_witness :
  exists l1 l2 p,
    DLL.add_after_current 9 dll_87 = (Ok tt, l1) /\
    is_list l1 [(1, 8); (p, 9); (0, 7)] /\
    DLL.remove_after_current l1 = (Ok 9, l2) /\
    is_list l2 [(1, 8); (0, 7)] /\
    DLL._curr l2 = Some 1.
Proof.
  exact (proj1 (add_remove_after_current dll_87 [] 1 8 [(0, 7)] 9
                  is_list_dll_87 eq_refl)).
Defined.

Lemma move_forward_backward_witness :
  DLL.move_forward dll_87 = (Ok tt, DLL.set_curr (Some 0) dll_87) /\
  DLL.curr_data (DLL.set_curr (Some 0) dll_87)
    = (Ok 7, DLL.set_curr (Some 0) dll_87) /\
  DLL.move_backward (DLL.set_curr (Some 0) dll_87) = (Ok tt, dll_87).
Proof.
  exact (proj1 (move_forward_backward dll_87 [] 1 8 [(0, 7)]
                  is_list_dll_87 eq_refl)).
Defined.

Lemma print_list_prints_all_witness :
  print_list dll_87 = (Ok [8; 7], dll_87).
Proof.
  exact (print_list_prints_all dll_87 [(1, 8); (0, 7)] is_list_dll_87).
Defined.

Lemma find_first_occurrence_witness :
  exists pre p post,
    [(1, 8); (0, 7)] = pre ++ (p, 7) :: post /\ (7 ∉ pre.*2) /\
    DLL.find 7 dll_87 = (Ok 7, DLL.set_curr (Some p) dll_87) /\
    DLL.curr_data (DLL.set_curr (Some p) dll_87)
      = (Ok 7, DLL.set_curr (Some p) dll_87).
Proof.
  exact (find_first_occurrence dll_87 [(1, 8); (0, 7)] 7 is_list_dll_87).
Defined.

Lemma remove_from_head_drains_witness :
  exists l',
    pops 2 dll_87 = (Ok [8; 7], l') /\
    DLL.is_empty l' = (Ok true, l') /\
    DLL.remove_from_head l' = (Raise IndexError, l').
Proof.
  exact (remove_from_head_drains dll_87 [(1, 8); (0, 7)] is_list_dll_87).
Defined.

Lemma remove_first_occurrence_witness :
  exists pre p post l',
    [(1, 8); (0, 7)] = pre ++ (p, 8) :: post /\ (8 ∉ pre.*2) /\
    DLL.remove 8 dll_87 = (Ok 8, l') /\
    is_list l' (pre ++ post).
Proof.
  exact (remove_first_occurrence dll_87 [(1, 8); (0, 7)] 8 is_list_dll_87).
Defined.

(** ** More on single neurodes *)

Section NeurodeExtras.

Variable random_random : nat -> float.

Lemma seeded_last nodes :
  forall start m i n,
    nodes !! i = Some n ->
    (forall j, i < j -> nodes !! j <> Some n) ->
    seeded random_random nodes start m !! n
      = Some (random_random (start + i)).
Proof.
  induction nodes as [|x nodes IH]; intros start m i n Hi Hlast;
    [inversion Hi|].
  destruct i as [|i]; simpl in Hi |- *.
  - injection Hi as ->. rewrite Nat.add_0_r.
    rewrite seeded_notin; [apply lookup_insert_eq|].
    intros Hin. apply list_elem_of_lookup_1 in Hin as [j Hj].
    apply (Hlast (S j)); [lia|exact Hj].
  - rewrite (IH (S start) _ i n Hi).
    + f_equal. f_equal. lia.
    + intros j Hj. apply (Hlast (S j)). lia.
Qed.

(** X9.  [reset_neighbors(nodes, side)] always returns and touches no
    other neurode.  No weight is ever deleted: a node that had a weight
    keeps one, even when it is no longer a neighbor.  On the DOWNSTREAM
    side the weights are untouched and [random.random()] is not called.
    On the UPSTREAM side it is called once per entry of [nodes], in order:
    the weight of a node is the draw made for its last entry, and the
    weights of the nodes not in [nodes] are as before. *)
Theorem reset_neighbors_weights self nodes side w :
  exists w',
    reset_neighbors random_random self nodes side w = (Ok tt, w') /\
    item (_neighbors (node w' self)) side = nodes /\
    (forall n, n <> self -> node w' n = node w n) /\
    (forall n, is_Some (_weights (node w self) !! n) ->
               is_Some (_weights (node w' self) !! n)) /\
    match side with
    | DOWNSTREAM =>
        _weights (node w' self) = _weights (node w self) /\
        draws w' = draws w
    | UPSTREAM =>
        draws w' = draws w + length nodes /\
        (forall n, n ∉ nodes ->
           _weights (node w' self) !! n = _weights (node w self) !! n) /\
        (forall i n,
           nodes !! i = Some n ->
           (forall j, i < j -> nodes !! j <> Some n) ->
           _weights (node w' self) !! n
             = Some (random_random (draws w + i)))
    end.
Proof.
  destruct (reset_neighbors_spec random_random self nodes side w)
    as (w' & E & Hself & Hother & Hdr & _).
  exists w'. split; [exact E|]. rewrite Hself. unfold relinked, draws_of in *.
  split; [destruct side, (node w self) as [? ? [] ? ? ?]; reflexivity|].
  split; [exact Hother|].
  destruct side; simpl in *.
  - split.
    + intros n Hn. destruct (decide (n ∈ nodes)) as [Hin|Hnin].
      * destruct (seeded_in random_random nodes (draws w)
                    (_weights (node w self)) n Hin) as (j & _ & ->). eauto.
      * now rewrite seeded_notin.
    + split; [exact Hdr|]. split.
      * intros n Hn. now apply seeded_notin.
      * intros i n Hi Hlast. now apply seeded_last.
  - split; [tauto|]. split; [reflexivity|lia].
Qed.

(** X10.  A neighbor that reports a second time is counted once: when a
    [_check_in] has returned [False], the same call made again returns
    [False] again and changes nothing, so repeated reports of one
    neighbor can never complete a neurode. *)
Theorem check_in_again self node_ side w w1 :
  _check_in self node_ side w = (Ok false, w1) ->
  _check_in self node_ side w1 = (Ok false, w1).
Proof.
  intros E.
  destruct (index (item (_neighbors (node w self)) side) node_) as [i|] eqn:Ei.
  2:{ rewrite (check_in_missing self node_ side w Ei) in E. discriminate. }
  rewrite (check_in_present self node_ side w i Ei) in E.
  set (mask := Z.lor (item (_reporting_nodes (node w self)) side)
                     (Z.shiftl 1 (Z.of_nat i))) in *.
  injection E as Hc <-.
  apply bool_decide_eq_false in Hc. rewrite bool_decide_eq_false_2 by exact Hc.
  set (w1 := update self (with_reporting side mask) w).
  assert (Hn1 : node w1 self = with_reporting side mask (node w self))
    by apply node_update_eq.
  assert (Ei1 : index (item (_neighbors (node w1 self)) side) node_ = Some i)
    by now rewrite Hn1.
  rewrite (check_in_present self node_ side w1 i Ei1).
  rewrite Hn1, item_with_reporting.
  replace (Z.lor mask (Z.shiftl 1 (Z.of_nat i))) with mask
    by (subst mask; now rewrite <- Z.lor_assoc, Z.lor_diag).
  change (_reference_value (with_reporting side mask (node w self)))
    with (_reference_value (node w self)).
  rewrite bool_decide_eq_false_2 by exact Hc.
  f_equal. subst w1. rewrite update_update.
  unfold update. f_equal. f_equal. apply with_reporting_twice.
Qed.

End NeurodeExtras.

Lemma check_in_again_witness :
  _check_in 2 0 UPSTREAM (_check_in 2 0 UPSTREAM (world net_2_1)).2
  = (Ok false, (_check_in 2 0 UPSTREAM (world net_2_1)).2).
Proof.
  apply (check_in_again 2 0 UPSTREAM (world net_2_1)).
  vm_compute. reflexivity.
Defined.

Lemma wired_from_adjacent w pre :
  forall A0 rest A B post,
    wired_from w A0 rest ->
    A0 :: rest = pre ++ A :: B :: post ->
    layer_pair_wired w A B.
Proof.
  induction pre as [|x pre IH]; intros A0 rest A B post Hw E.
  - simpl in E. injection E as -> ->. now destruct Hw.
  - simpl in E. injection E as -> ->.
    destruct (pre ++ A :: B :: post) as [|y rest'] eqn:E'; [now destruct pre|].
    destruct Hw as [_ Hw]. apply (IH y rest' A B post Hw). now rewrite E'.
Qed.

Section ForwardExtras.

Variable np_exp : float -> float.
Variable py_sum : list float -> float.

Lemma forward_values_adjacent w0 w pre :
  forall A0 rest A B post b,
    Forall (fun L => L <> []) (A0 :: rest) ->
    forward_values np_exp py_sum w0 w A0 rest ->
    A0 :: rest = pre ++ A :: B :: post ->
    b ∈ B ->
    _value (node w b) = activation np_exp py_sum w b.
Proof.
  induction pre as [|x pre IH]; intros A0 rest A B post b Hne Hfv E Hb.
  - simpl in E. injection E as -> ->.
    apply Forall_cons in Hne as [HA _]. simpl in Hfv.
    destruct A as [|a A]; [contradiction|]. destruct Hfv as [Hfv _]. auto.
  - simpl in E. injection E as -> ->.
    apply Forall_cons in Hne as [Hx Hne].
    destruct (pre ++ A :: B :: post) as [|y rest'] eqn:E'; [now destruct pre|].
    simpl in Hfv. destruct x as [|x0 x]; [contradiction|].
    destruct Hfv as [_ Hfv].
    apply (IH y rest' A B post b Hne Hfv); [now rewrite E'|exact Hb].
Qed.

(** X11.  A neurode does not fire before all its upstream neighbors have
    reported.  When [set_input] has been called on some input nodes of a
    wired network at rest and a call for another input node is still to
    come, each call has returned, the input nodes called hold their
    values, every node of the next layer has recorded in its UPSTREAM mask
    the positions of the input nodes that reported and nothing else of it
    has changed, and no other node has changed at all: no value has been
    computed. *)
Theorem partial_inputs_wait w L0 rest calls1 calls2 depth :
  wired w (L0 :: rest) ->
  quiescent w (L0 :: rest) ->
  NoDup (calls1 ++ calls2).*1 ->
  (forall i, i ∈ (calls1 ++ calls2).*1 -> i ∈ L0) ->
  calls2 <> [] ->
  0 < depth ->
  exists w1 ps,
    present_inputs np_exp py_sum depth calls1 w = (Ok tt, w1) /\
    (forall q, q ∈ ps <-> exists i, i ∈ calls1.*1 /\ index L0 i = Some q) /\
    (forall c, c ∈ calls1 -> node w1 c.1 = with_value c.2 (node w c.1)) /\
    (forall b, b ∈ hd [] rest ->
       node w1 b = with_reporting UPSTREAM (bits ps) (node w b)) /\
    (forall n, n ∉ calls1.*1 -> n ∉ hd [] rest -> node w1 n = node w n) /\
    history w1 = history w.
Proof.
  intros (Hnd & _ & Hwr) Hq Hndc Hin Hc2 Hd. simpl in Hnd.
  set (L1 := hd [] rest).
  assert (HL1 : forall n, n ∈ L1 -> n ∈ concat (L0 :: rest)).
  { subst L1. destruct rest as [|B rest']; simpl; [intros n H; inversion H|].
    intros n Hn. apply elem_of_app. right. apply elem_of_app. now left. }
  assert (HndL : NoDup (L0 ++ L1)).
  { subst L1. destruct rest as [|B rest']; simpl.
    - rewrite app_nil_r. now rewrite app_nil_r in Hnd.
    - simpl in Hnd. rewrite app_assoc in Hnd.
      now apply NoDup_app in Hnd as (Hnd & _). }
  destruct (inputs_prefix np_exp py_sum depth L0 L1 calls1 calls2 w HndL Hndc Hin)
    as (w1 & ps & E1 & Hps & Hout & Hval & Hmask & _ & Hh).
  - right. split; assumption.
  - intros a Ha. now apply (wired_from_down w L0 rest a).
  - intros b Hb. pose proof (Hq b (HL1 b Hb)) as Hr. subst L1.
    destruct rest as [|B rest']; [inversion Hb|]. simpl in Hb.
    destruct Hwr as [[_ HwB] _]. destruct (HwB b Hb) as [Hn Hr'].
    refine (conj Hn (conj Hr' _)). now rewrite Hr.
  - exists w1, ps. auto 10.
Qed.

(** X12.  What a complete forward pass computes.  After [set_input] on
    every input node of a wired network at rest without an empty layer,
    in any order, every input node holds the value given to it and every
    other node [b] holds [sigmoid(sum(w(b, a) * value(a)))] over the nodes
    [a] of the layer before its own, in the order of that layer, [w(b, a)]
    being the weight [b] holds for [a].  The pass changes values only:
    weights, deltas, neighbors, reference values and the history are as
    before, and every mask is zero again. *)
Theorem feed_forward_values w L0 rest calls depth :
  wired w (L0 :: rest) ->
  quiescent w (L0 :: rest) ->
  Forall (fun L => L <> []) (L0 :: rest) ->
  NoDup calls.*1 ->
  (forall i, i ∈ calls.*1 <-> i ∈ L0) ->
  length rest <= depth ->
  exists w',
    present_inputs np_exp py_sum depth calls w = (Ok tt, w') /\
    (forall c, c ∈ calls -> value w' c.1 = c.2) /\
    (forall pre A B post b,
       L0 :: rest = pre ++ A :: B :: post -> b ∈ B ->
       value w' b =
       _sigmoid np_exp
         (py_sum (map (fun a => (get_weight w b a * value w' a)%float) A))) /\
    (forall n,
       _weights (node w' n) = _weights (node w n) /\
       _delta (node w' n) = _delta (node w n) /\
       _neighbors (node w' n) = _neighbors (node w n) /\
       _reference_value (node w' n) = _reference_value (node w n)) /\
    quiescent w' (L0 :: rest) /\
    history w' = history w.
Proof.
  intros Hw Hq Hne Hndc Hcov Hdepth.
  assert (Hq' : forall n, n ∈ concat rest ->
                  item (_reporting_nodes (node w n)) UPSTREAM = 0%Z).
  { intros n Hn. rewrite (Hq n); [reflexivity|]. simpl. apply elem_of_app.
    now right. }
  destruct (forward_pass np_exp py_sum w L0 rest calls depth
              Hw Hq' Hndc Hcov Hdepth)
    as (w' & E & Hf & Hout & Hz & Hr & Hv & Hfv).
  exists w'. split; [exact E|]. split; [exact Hv|].
  destruct Hw as (Hnd & Hup & Hwr).
  refine (conj _ (conj _ (conj _ _))).
  - intros pre A B post b Epre Hb. unfold value.
    rewrite (forward_values_adjacent w w' pre L0 rest A B post b
               Hne Hfv Epre Hb).
    unfold activation, weighted_inputs.
    rewrite (forward_frame_neighbors w w' b Hf).
    destruct (wired_from_adjacent w pre L0 rest A B post Hwr Epre)
      as [_ HB].
    destruct (HB b Hb) as [-> _]. do 2 f_equal.
    apply map_ext. intros a. unfold get_weight.
    now rewrite (forward_frame_weights w w' b Hf).
  - intros n. split; [now apply forward_frame_weights|].
    split; [now apply forward_frame_delta|].
    split; [now apply forward_frame_neighbors|].
    now apply forward_frame_reference.
  - intros n Hn.
    rewrite (by_side_eq (_reporting_nodes (node w' n))).
    rewrite (forward_frame_reporting_down w w' n Hf).
    pose proof (Hq n Hn) as Hqn. rewrite Hqn. simpl in Hn.
    apply elem_of_app in Hn as [Hn|Hn].
    + rewrite (Hr n Hn). now rewrite Hqn.
    + now rewrite (Hz n Hn).
  - now destruct Hf as (_ & _ & ->).
Qed.

End ForwardExtras.

Lemma partial_inputs_wait_witness :
  exists w1,
    present_inputs exp_quad sum_left 2 [(0, 1%float)] (world net_2_2_1)
      = (Ok tt, w1) /\
    forall n, n ∉ [0] -> n ∉ [3; 4] -> node w1 n = node (world net_2_2_1) n.
Proof.
  destruct (partial_inputs_wait exp_quad sum_left (world net_2_2_1)
              [0; 1] [[3; 4]; [2]] [(0, 1%float)] [(1, 2%float)] 2
              wired_net_2_2_1 quiescent_net_2_2_1)
    as (w1 & ps & E & _ & _ & _ & Hout & _).
  - apply (bool_decide_unpack _). vm_compute. exact I.
  - intros i Hi. exact Hi.
  - discriminate.
  - lia.
  - exists w1. exact (conj E Hout).
Defined.

Lemma feed_forward_values_witness :
  exists w',
    present_inputs exp_quad sum_left 2 [(0, 1%float); (1, 2%float)]
      (world net_2_2_1) = (Ok tt, w') /\
    value w' 2 =
    _sigmoid exp_quad
      (sum_left
         (map (fun a => (get_weight (world net_2_2_1) 2 a * value w' a)%float)
              [3; 4])).
Proof.
  destruct (feed_forward_values exp_quad sum_left (world net_2_2_1)
              [0; 1] [[3; 4]; [2]] [(0, 1%float); (1, 2%float)] 2
              wired_net_2_2_1 quiescent_net_2_2_1)
    as (w' & E & _ & Hval & _).
  - repeat constructor; discriminate.
  - apply (bool_decide_unpack _). vm_compute. exact I.
  - intros i. reflexivity.
  - simpl. lia.
  - exists w'. split; [exact E|].
    apply (Hval [[0; 1]] [3; 4] [2] [] 2 eq_refl).
    apply elem_of_cons. now left.
Defined.

(** ** Editing a topology *)

Local Abbreviation down_same w w' n :=
  (item (_neighbors (node w' n)) DOWNSTREAM
     = item (_neighbors (node w n)) DOWNSTREAM /\
   item (_reference_value (node w' n)) DOWNSTREAM
     = item (_reference_value (node w n)) DOWNSTREAM).

Local Abbreviation up_same w w' n :=
  (item (_neighbors (node w' n)) UPSTREAM
     = item (_neighbors (node w n)) UPSTREAM /\
   item (_reference_value (node w' n)) UPSTREAM
     = item (_reference_value (node w n)) UPSTREAM).

Lemma layer_pair_wired_local w w' X Y :
  (forall n, n ∈ X -> down_same w w' n) ->
  (forall n, n ∈ Y -> up_same w w' n) ->
  layer_pair_wired w X Y -> layer_pair_wired w' X Y.
Proof.
  intros Hd Hu [H1 H2]. split.
  - intros a Ha. destruct (Hd a Ha) as [-> ->]. now apply H1.
  - intros b Hb. destruct (Hu b Hb) as [-> ->]. now apply H2.
Qed.

Lemma wired_from_local w w' rest :
  forall X,
    (forall n, n ∈ concat (X :: rest) -> down_same w w' n) ->
    (forall n, n ∈ concat rest -> up_same w w' n) ->
    wired_from w X rest -> wired_from w' X rest.
Proof.
  induction rest as [|Y rest IH]; intros X Hd Hu Hw.
  - intros a Ha. destruct (Hd a) as [-> _]; [|now apply Hw].
    simpl. apply elem_of_app. now left.
  - destruct Hw as [Hp Hw]. split.
    + apply (layer_pair_wired_local w w'); [| |exact Hp].
      * intros n Hn. apply Hd. simpl. apply elem_of_app. now left.
      * intros n Hn. apply Hu. simpl. apply elem_of_app. now left.
    + apply IH; [| |exact Hw].
      * intros n Hn. apply Hd.
        change (concat (X :: Y :: rest)) with (X ++ concat (Y :: rest)).
        apply elem_of_app. now right.
      * intros n Hn. apply Hu. simpl. apply elem_of_app. now right.
Qed.

Lemma wired_pre_frame w w' A pre :
  (forall n, n ∈ concat pre -> down_same w w' n) ->
  (forall n, n ∈ concat pre \/ n ∈ A -> up_same w w' n) ->
  wired_pre w pre A -> wired_pre w' pre A.
Proof.
  induction pre as [|X pre IH]; intros Hd Hu Hw; [exact I|].
  destruct Hw as [Hp Hw]. split.
  - apply (layer_pair_wired_local w w'); [| |exact Hp].
    + intros n Hn. apply Hd. simpl. apply elem_of_app. now left.
    + intros n Hn. apply Hu. destruct pre as [|Y pre]; simpl in Hn.
      * now right.
      * left. simpl. apply elem_of_app. right. apply elem_of_app. now left.
  - apply IH; [| |exact Hw].
    + intros n Hn. apply Hd. simpl. apply elem_of_app. now right.
    + intros n [Hn|Hn]; apply Hu; [left|now right].
      simpl. apply elem_of_app. now right.
Qed.

Lemma wired_from_split w A tail pre :
  forall X rest,
    X :: rest = pre ++ A :: tail ->
    (wired_from w X rest <-> wired_pre w pre A /\ wired_from w A tail).
Proof.
  induction pre as [|x pre IH]; intros X rest E.
  - simpl in E. injection E as -> ->. simpl. tauto.
  - simpl in E. injection E as -> ->. destruct pre as [|y pre].
    + simpl. tauto.
    + change (wired_from w x ((y :: pre) ++ A :: tail))
        with (layer_pair_wired w x y /\ wired_from w y (pre ++ A :: tail)).
      rewrite (IH y (pre ++ A :: tail) eq_refl).
      change (wired_pre w (x :: y :: pre) A)
        with (layer_pair_wired w x y /\ wired_pre w (y :: pre) A).
      tauto.
Qed.

Lemma weighted_from_local w w' rest :
  forall X,
    (forall n, n ∈ concat rest -> _weights (node w' n) = _weights (node w n)) ->
    weighted_from w X rest -> weighted_from w' X rest.
Proof.
  induction rest as [|Y rest IH]; intros X Hs Hw; [exact I|].
  destruct Hw as [Hp Hw]. split.
  - intros a b Ha Hb. rewrite Hs; [now apply Hp|].
    simpl. apply elem_of_app. now left.
  - apply IH; [|exact Hw]. intros n Hn. apply Hs.
    simpl. apply elem_of_app. now right.
Qed.

Lemma weighted_pre_frame w w' A pre :
  (forall n, n ∈ concat pre \/ n ∈ A ->
     _weights (node w' n) = _weights (node w n)) ->
  weighted_pre w pre A -> weighted_pre w' pre A.
Proof.
  induction pre as [|X pre IH]; intros Hs Hw; [exact I|].
  destruct Hw as [Hp Hw]. split.
  - intros a b Ha Hb. rewrite Hs; [now apply Hp|].
    destruct pre as [|Y pre]; simpl in Hb.
    + now right.
    + left. simpl. apply elem_of_app. right. apply elem_of_app. now left.
  - apply IH; [|exact Hw]. intros n [Hn|Hn]; apply Hs; [left|now right].
    simpl. apply elem_of_app. now right.
Qed.

Lemma weighted_from_split w A tail pre :
  forall X rest,
    X :: rest = pre ++ A :: tail ->
    (weighted_from w X rest <-> weighted_pre w pre A /\ weighted_from w A tail).
Proof.
  induction pre as [|x pre IH]; intros X rest E.
  - simpl in E. injection E as -> ->. simpl. tauto.
  - simpl in E. injection E as -> ->. destruct pre as [|y pre].
    + simpl. tauto.
    + change (weighted_from w x ((y :: pre) ++ A :: tail))
        with ((forall a b, a ∈ x -> b ∈ y ->
                 is_Some (_weights (node w b) !! a)) /\
              weighted_from w y (pre ++ A :: tail)).
      rewrite (IH y (pre ++ A :: tail) eq_refl).
      change (weighted_pre w (x :: y :: pre) A)
        with ((forall a b, a ∈ x -> b ∈ y ->
                 is_Some (_weights (node w b) !! a)) /\
              weighted_pre w (y :: pre) A).
      tauto.
Qed.

(** No call removes an object from the store. *)
Local Instance store_le_preorder : PreOrder store_le.
Proof.
  split; [intros x; unfold store_le; reflexivity|].
  intros x y z. unfold store_le. intros. etransitivity; eauto.
Qed.

Local Instance stores_le_preorder : PreOrder stores_le.
Proof.
  split; [intros x; unfold stores_le; reflexivity|].
  intros x y z. unfold stores_le. intros. etransitivity; eauto.
Qed.

Lemma bind_grows {S A B} (R : relation S) `{!PreOrder R}
    (m : M S A) (k : A -> M S B) s :
  R s (m s).2 -> (forall a s', R s' (k a s').2) -> R s (bind m k s).2.
Proof.
  intros Hm Hk. unfold bind. destruct (m s) as [[a|e] s'] eqn:E; simpl in *.
  - etransitivity; [exact Hm|apply Hk].
  - exact Hm.
Qed.

Lemma for_each_grows {S X} (R : relation S) `{!PreOrder R}
    (xs : list X) (f : X -> M S unit) :
  (forall x s', R s' (f x s').2) -> forall s, R s (for_each xs f s).2.
Proof.
  intros Hf. induction xs as [|x xs IH]; intros s; simpl; [reflexivity|].
  apply (bind_grows R); [apply Hf|]. intros _ s'. apply IH.
Qed.

Lemma update_dom self f w : store_le w (update self f w).
Proof. unfold store_le, update. simpl. apply dom_insert_subseteq. Qed.

Section EditFacts.

Variable random_random : nat -> float.

Lemma reset_neighbors_dom self nodes side w :
  store_le w (reset_neighbors random_random self nodes side w).2.
Proof.
  unfold reset_neighbors.
  apply (bind_grows store_le); [apply update_dom|].
  intros _ w1.
  apply (bind_grows store_le); [|intros _ w2; apply update_dom].
  apply (for_each_grows store_le). intros x w2.
  unfold _process_new_neighbor. destruct (decide (side = UPSTREAM)).
  - apply (bind_grows store_le); [unfold store_le; reflexivity|].
    intros r w3. apply update_dom.
  - reflexivity.
Qed.

Lemma on_chain_stores {R} (m : M (DLL.DoublyLinkedList (list loc)) R) L :
  stores_le L (on_chain m L).2.
Proof.
  unfold on_chain, lift. destruct (m (chain L)). unfold stores_le. reflexivity.
Qed.

Lemma on_world_stores {R} (m : M World R) L :
  store_le (world L) (m (world L)).2 -> stores_le L (on_world m L).2.
Proof.
  unfold on_world, lift. destruct (m (world L)). now unfold stores_le.
Qed.

Lemma link_with_next_dom L :
  stores_le L (_link_with_next random_random L).2.
Proof.
  unfold _link_with_next.
  apply (bind_grows stores_le); [reflexivity|].
  intros [c|] L1; [|reflexivity].
  apply (bind_grows stores_le); [apply on_chain_stores|]. intros cn L2.
  destruct (DLL.next cn) as [nx|]; [|reflexivity].
  apply (bind_grows stores_le); [apply on_chain_stores|]. intros nn L3.
  apply (bind_grows stores_le).
  - apply (for_each_grows stores_le). intros x L4.
    apply on_world_stores, reset_neighbors_dom.
  - intros _ L4. apply (for_each_grows stores_le). intros x L5.
    apply on_world_stores, reset_neighbors_dom.
Qed.

End EditFacts.

Lemma wired_split w pre A tail :
  wired w (pre ++ A :: tail) <->
  NoDup (concat (pre ++ A :: tail)) /\
  (forall a, a ∈ hd A pre -> item (_neighbors (node w a)) UPSTREAM = []) /\
  wired_pre w pre A /\
  wired_from w A tail.
Proof.
  destruct pre as [|x pre].
  - simpl. unfold wired. simpl. tauto.
  - change ((x :: pre) ++ A :: tail) with (x :: (pre ++ A :: tail)).
    unfold wired.
    rewrite (wired_from_split w A tail (x :: pre) x (pre ++ A :: tail) eq_refl).
    simpl hd. tauto.
Qed.

Lemma weighted_split w pre A tail :
  weighted w (pre ++ A :: tail) <->
  weighted_pre w pre A /\ weighted_from w A tail.
Proof.
  destruct pre as [|x pre].
  - simpl. tauto.
  - change ((x :: pre) ++ A :: tail) with (x :: (pre ++ A :: tail)).
    unfold weighted.
    now rewrite (weighted_from_split w A tail (x :: pre) x
                   (pre ++ A :: tail) eq_refl).
Qed.

Lemma hd_elem_concat (A : list loc) pre a :
  a ∈ hd A pre -> a ∈ concat pre \/ a ∈ A.
Proof.
  destruct pre as [|x pre]; simpl; [now right|].
  intros Ha. left. apply elem_of_app. now left.
Qed.

Section TopologyFacts.

Variable random_random : nat -> float.

Lemma new_layer_stores k w : store_le w (new_layer k w).2.
Proof.
  destruct (new_layer_spec k w) as (ids & w' & -> & _ & _ & _ & Hd & _).
  exact Hd.
Qed.

Lemma add_layer_after_new L size L' H w1 :
  add_layer random_random size L = (Ok tt, L') ->
  new_layer (Z.to_nat size) (world L) = (Ok H, w1) ->
  store_le w1 (world L').
Proof.
  intros E Enew. unfold add_layer in E. rewrite !bind_gets in E.
  destruct (decide (DLL._curr (chain L) = DLL._tail (chain L)));
    [discriminate|].
  destruct (decide (size < 0)%Z); [discriminate|].
  rewrite (bind_ok _ _ _ _ _ (on_world_ok _ _ _ _ Enew)) in E.
  match type of E with ?m ?s = _ =>
    assert (Hg : stores_le s (m s).2)
  end.
  { apply (bind_grows stores_le); [apply on_chain_stores|]. intros _ L1.
    apply (bind_grows stores_le); [apply link_with_next_dom|]. intros _ L2.
    apply (bind_grows stores_le); [apply on_chain_stores|]. intros _ L3.
    apply (bind_grows stores_le); [apply link_with_next_dom|]. intros _ L4.
    apply on_chain_stores. }
  rewrite E in Hg. exact Hg.
Qed.

Lemma remove_layer_stores L : stores_le L (remove_layer random_random L).2.
Proof.
  unfold remove_layer.
  apply (bind_grows stores_le); [reflexivity|]. intros c L1.
  apply (bind_grows stores_le); [reflexivity|]. intros t L2.
  apply (bind_grows stores_le).
  - destruct (decide (c = t)); [reflexivity|].
    destruct c as [c|]; [|reflexivity].
    apply (bind_grows stores_le); [apply on_chain_stores|]. reflexivity.
  - intros [|] L3; [reflexivity|].
    apply (bind_grows stores_le); [apply on_chain_stores|]. intros _ L4.
    apply link_with_next_dom.
Qed.

(** [add_layer] between two layers keeps a network a network. *)
Lemma add_layer_network L pre c A n B post size :
  network L (pre ++ (c, A) :: (n, B) :: post) ->
  DLL._curr (chain L) = Some c ->
  (0 <= size)%Z ->
  exists L' f H,
    add_layer random_random size L = (Ok tt, L') /\
    network L' (pre ++ (c, A) :: (f, H) :: (n, B) :: post) /\
    DLL._curr (chain L') = Some c /\
    length H = Z.to_nat size /\
    (forall h, h ∈ H -> h ∉ dom (objects (world L))).
Proof.
  intros (Hl & _ & Hw & Hq & Hwt & Hdom) Hcur Hsize.
  destruct (add_layer_spec random_random L pre c A n B post size Hl Hcur Hsize)
    as (L' & f & H & w1 & w2 & E & Hl' & Hcur' & Enew & K1 & K2).
  destruct (new_layer_spec (Z.to_nat size) (world L))
    as (ids & w1' & Enew' & Hlen & HndH & Hfresh & Hd1 & N1 & N2 & _).
  rewrite Enew in Enew'. injection Enew' as <- <-.
  pose proof (add_layer_after_new L size L' H w1 E Enew) as Hd2.
  exists L', f, H. split; [exact E|].
  split; [|split; [exact Hcur'|split; [exact Hlen|]]].
  2:{ intros h Hh. now destruct (Hfresh h Hh). }
  unfold network. set (w := world L) in *. set (w' := world L') in *.
  rewrite !fmap_app, !fmap_cons in *. simpl in *.
  set (P := pre.*2) in *. set (Q := post.*2) in *.
  apply wired_split in Hw as (Hnd & Hup & Hpre & [HAB HBQ]).
  apply weighted_split in Hwt as (Hwpre & [_ HwBQ]).
  unfold quiescent in Hq |- *.
  rewrite concat_app in Hnd, Hq, Hdom. simpl in Hnd, Hq, Hdom.
  assert (HHold : forall x, x ∈ H -> x ∉ concat P ++ A ++ B ++ concat Q).
  { intros x Hx Hin. destruct (Hfresh x Hx) as [Hn _]. now apply Hn, Hdom. }
  assert (HHA : forall x, x ∈ A -> x ∉ H).
  { intros x Hx Hh. apply (HHold x Hh). rewrite !elem_of_app. tauto. }
  assert (HHB : forall x, x ∈ B -> x ∉ H).
  { intros x Hx Hh. apply (HHold x Hh). rewrite !elem_of_app. tauto. }
  assert (HHP : forall x, x ∈ concat P -> x ∉ H).
  { intros x Hx Hh. apply (HHold x Hh). rewrite !elem_of_app. tauto. }
  assert (HHQ : forall x, x ∈ concat Q -> x ∉ H).
  { intros x Hx Hh. apply (HHold x Hh). rewrite !elem_of_app. tauto. }
  apply NoDup_app in Hnd as (HndP & HPx & Hnd).
  apply NoDup_app in Hnd as (HndA & HAx & Hnd).
  apply NoDup_app in Hnd as (HndB & HBx & HndQ).
  assert (HPA : forall x, x ∈ concat P -> x ∉ A).
  { intros x Hx Ha. apply (HPx x Hx). rewrite !elem_of_app. tauto. }
  assert (HPB : forall x, x ∈ concat P -> x ∉ B).
  { intros x Hx Ha. apply (HPx x Hx). rewrite !elem_of_app. tauto. }
  assert (HAB' : forall x, x ∈ A -> x ∉ B).
  { intros x Hx Ha. apply (HAx x Hx). rewrite !elem_of_app. tauto. }
  assert (HQA : forall x, x ∈ concat Q -> x ∉ A).
  { intros x Hx Ha. apply (HAx x Ha). rewrite !elem_of_app. tauto. }
  assert (HQB : forall x, x ∈ concat Q -> x ∉ B).
  { intros x Hx Ha. now apply (HBx x Ha). }
  destruct K1 as (K1a & K1b & K1c & K1d & K1e & _).
  destruct K2 as (K2a & K2b & K2c & K2d & K2e & _).
  assert (Fd : forall x, x ∉ A -> x ∉ H -> down_same w w' x).
  { intros x HxA HxH. destruct (K2c x HxH) as [-> ->].
    destruct (K1c x HxA) as [-> ->]. now rewrite (N2 x HxH). }
  assert (Fu : forall x, x ∉ H -> x ∉ B ->
                 up_same w w' x /\ _weights (node w' x) = _weights (node w x)).
  { intros x HxH HxB. destruct (K2d x HxB) as (-> & -> & ->).
    destruct (K1d x HxH) as (-> & -> & ->). now rewrite (N2 x HxH). }
  assert (Fr : forall x, _reporting_nodes (node w' x) =
                 if decide (x ∈ H) then BySide 0%Z 0%Z
                 else _reporting_nodes (node w x)).
  { intros x. destruct (K2e x) as (-> & _). destruct (K1e x) as (-> & _).
    destruct (decide (x ∈ H)) as [Hx|Hx].
    - now rewrite (N1 x Hx).
    - now rewrite (N2 x Hx). }
  assert (WAH : layer_pair_wired w' A H).
  { split.
    - intros a Ha. destruct (K2c a (HHA a Ha)) as [-> ->]. now apply K1a.
    - intros h Hh.
      destruct (K2d h) as (-> & -> & _); [intros Hb; now apply (HHB h)|].
      destruct (K1b h Hh) as (Hn & Hr & _). now split. }
  assert (WHB : layer_pair_wired w' H B).
  { split; [exact K2a|]. intros b Hb. destruct (K2b b Hb) as (Hn & Hr & _).
    now split. }
  refine (conj Hl' (conj _ (conj _ (conj _ (conj _ _))))).
  - rewrite Hcur'. discriminate.
  - apply wired_split. refine (conj _ (conj _ (conj _ (conj WAH (conj WHB _))))).
    + rewrite concat_app. simpl. apply NoDup_app. split; [exact HndP|].
      split.
      * intros x Hx. rewrite !elem_of_app. intros [Ha|[Hh|[Hb|Hq']]].
        -- now apply (HPA x).
        -- now apply (HHP x).
        -- now apply (HPB x).
        -- apply (HPx x Hx). rewrite !elem_of_app. tauto.
      * apply NoDup_app. split; [exact HndA|]. split.
        -- intros x Hx. rewrite !elem_of_app. intros [Hh|[Hb|Hq']].
           ++ now apply (HHA x).
           ++ now apply (HAB' x).
           ++ now apply (HQA x).
        -- apply NoDup_app. split; [exact HndH|]. split.
           ++ intros x Hx. rewrite !elem_of_app. intros [Hb|Hq'].
              ** now apply (HHB x).
              ** now apply (HHQ x).
           ++ apply NoDup_app. auto.
    + intros a Ha. pose proof (Hup a Ha) as Hua.
      apply hd_elem_concat in Ha.
      destruct (Fu a) as [[-> _] _]; [| |exact Hua].
      * destruct Ha; auto.
      * destruct Ha; auto.
    + apply (wired_pre_frame w w'); [| |exact Hpre].
      * intros x Hx. apply Fd; auto.
      * intros x [Hx|Hx]; apply Fu; auto.
    + apply (wired_from_local w w'); [| |exact HBQ].
      * intros x Hx. simpl in Hx. apply elem_of_app in Hx as [Hx|Hx].
        -- apply Fd; [intros Ha; now apply (HAB' x)|auto].
        -- apply Fd; auto.
      * intros x Hx. apply Fu; auto.
  - intros x Hx. rewrite Fr. destruct (decide (x ∈ H)) as [|HxH];
      [reflexivity|].
    apply Hq. rewrite concat_app in Hx. simpl in Hx.
    rewrite !elem_of_app in Hx. rewrite !elem_of_app. tauto.
  - apply weighted_split. split; [|split; [|split]].
    + apply (weighted_pre_frame w w'); [|exact Hwpre].
      intros x [Hx|Hx]; apply Fu; auto.
    + intros a h Ha Hh.
      destruct (K2d h) as (_ & _ & ->); [intros Hb; now apply (HHB h)|].
      destruct (K1b h Hh) as (_ & _ & Hwa).
      destruct (Hwa a Ha) as (j & _ & ->). eauto.
    + intros h b Hh Hb. destruct (K2b b Hb) as (_ & _ & Hwh).
      destruct (Hwh h Hh) as (j & _ & ->). eauto.
    + apply (weighted_from_local w w'); [|exact HwBQ].
      intros x Hx. apply Fu; auto.
  - intros x Hx. rewrite concat_app in Hx. simpl in Hx.
    apply Hd2. destruct (decide (x ∈ H)) as [Hh|Hh].
    + now destruct (Hfresh x Hh).
    + apply Hd1, Hdom. rewrite !elem_of_app in Hx. rewrite !elem_of_app. tauto.
Qed.

(** [remove_layer] of a hidden layer keeps a network a network. *)
Lemma remove_layer_network L pre c A r R n B post :
  network L (pre ++ (c, A) :: (r, R) :: (n, B) :: post) ->
  DLL._curr (chain L) = Some c ->
  exists L',
    remove_layer random_random L = (Ok tt, L') /\
    network L' (pre ++ (c, A) :: (n, B) :: post) /\
    DLL._curr (chain L') = Some c.
Proof.
  intros (Hl & _ & Hw & Hq & Hwt & Hdom) Hcur.
  destruct (remove_layer_spec random_random L pre c A r R n B post Hl Hcur)
    as (L' & E & Hl' & Hcur' & K).
  pose proof (remove_layer_stores L) as Hd. rewrite E in Hd.
  exists L'. split; [exact E|]. split; [|exact Hcur'].
  unfold network, stores_le, store_le in *.
  set (w := world L) in *. set (w' := world L') in *.
  rewrite !fmap_app, !fmap_cons in *. simpl in *.
  set (P := pre.*2) in *. set (Q := post.*2) in *.
  apply wired_split in Hw as (Hnd & Hup & Hpre & (_ & _ & HBQ)).
  apply weighted_split in Hwt as (Hwpre & (_ & _ & HwBQ)).
  unfold quiescent in Hq |- *.
  rewrite concat_app in Hnd, Hq, Hdom. simpl in Hnd, Hq, Hdom.
  apply NoDup_app in Hnd as (HndP & HPx & Hnd).
  apply NoDup_app in Hnd as (HndA & HAx & Hnd).
  apply NoDup_app in Hnd as (HndR & HRx & Hnd).
  apply NoDup_app in Hnd as (HndB & HBx & HndQ).
  assert (HPA : forall x, x ∈ concat P -> x ∉ A).
  { intros x Hx Ha. apply (HPx x Hx). rewrite !elem_of_app. tauto. }
  assert (HPB : forall x, x ∈ concat P -> x ∉ B).
  { intros x Hx Ha. apply (HPx x Hx). rewrite !elem_of_app. tauto. }
  assert (HAB' : forall x, x ∈ A -> x ∉ B).
  { intros x Hx Ha. apply (HAx x Hx). rewrite !elem_of_app. tauto. }
  assert (HQA : forall x, x ∈ concat Q -> x ∉ A).
  { intros x Hx Ha. apply (HAx x Ha). rewrite !elem_of_app. tauto. }
  assert (HQB : forall x, x ∈ concat Q -> x ∉ B).
  { intros x Hx Ha. now apply (HBx x Ha). }
  destruct K as (Ka & Kb & Kc & Kd & Ke & _).
  assert (Fu : forall x, x ∉ B ->
                 up_same w w' x /\ _weights (node w' x) = _weights (node w x)).
  { intros x HxB. destruct (Kd x HxB) as (-> & -> & ->). auto. }
  refine (conj Hl' (conj _ (conj _ (conj _ (conj _ _))))).
  - rewrite Hcur'. discriminate.
  - apply wired_split. refine (conj _ (conj _ (conj _ (conj _ _)))).
    + rewrite concat_app. simpl. apply NoDup_app. split; [exact HndP|].
      split.
      * intros x Hx. rewrite !elem_of_app. intros [Ha|[Hb|Hq']].
        -- now apply (HPA x).
        -- now apply (HPB x).
        -- apply (HPx x Hx). rewrite !elem_of_app. tauto.
      * apply NoDup_app. split; [exact HndA|]. split.
        -- intros x Hx. rewrite !elem_of_app. intros [Hb|Hq'].
           ++ now apply (HAB' x).
           ++ now apply (HQA x).
        -- apply NoDup_app. auto.
    + intros a Ha. pose proof (Hup a Ha) as Hua.
      apply hd_elem_concat in Ha.
      destruct (Fu a) as [[-> _] _]; [|exact Hua]. destruct Ha; auto.
    + apply (wired_pre_frame w w'); [| |exact Hpre].
      * intros x Hx. apply Kc; auto.
      * intros x [Hx|Hx]; apply Fu; auto.
    + split; [exact Ka|]. intros b Hb. destruct (Kb b Hb) as (Hn & Hr & _).
      now split.
    + apply (wired_from_local w w'); [| |exact HBQ].
      * intros x Hx. simpl in Hx. apply elem_of_app in Hx as [Hx|Hx].
        -- apply Kc. intros Ha. now apply (HAB' x).
        -- apply Kc; auto.
      * intros x Hx. apply Fu; auto.
  - intros x Hx. destruct (Ke x) as (-> & _). apply Hq.
    rewrite concat_app in Hx. simpl in Hx.
    rewrite !elem_of_app in Hx. rewrite !elem_of_app. tauto.
  - apply weighted_split. split; [|split].
    + apply (weighted_pre_frame w w'); [|exact Hwpre].
      intros x [Hx|Hx]; apply Fu; auto.
    + intros a b Ha Hb. destruct (Kb b Hb) as (_ & _ & Hwa).
      destruct (Hwa a Ha) as (j & _ & ->). eauto.
    + apply (weighted_from_local w w'); [|exact HwBQ].
      intros x Hx. apply Fu; auto.
  - intros x Hx. rewrite concat_app in Hx. simpl in Hx.
    apply Hd, Hdom. rewrite !elem_of_app in Hx. rewrite !elem_of_app. tauto.
Qed.

Lemma network_set_chain L cells ch :
  network L cells -> is_list ch cells -> DLL._curr ch <> None ->
  network (set_chain ch L) cells.
Proof.
  intros (_ & _ & Hw & Hq & Hwt & Hdom) Hl Hc.
  exact (conj Hl (conj Hc (conj Hw (conj Hq (conj Hwt Hdom))))).
Qed.

(** The constructor builds a network: two layers of new neurodes, the
    cursor on the input layer. *)
Lemma construction_network w inputs outputs :
  (1 <= inputs)%Z -> (1 <= outputs)%Z ->
  exists L h t ins outs,
    new_LayerList random_random w inputs outputs = (Ok tt, L) /\
    network L [(h, ins); (t, outs)] /\
    DLL._curr (chain L) = Some h /\
    length ins = Z.to_nat inputs /\
    length outs = Z.to_nat outputs.
Proof.
  intros Hi Ho. unfold new_LayerList, LayerList_init. rewrite bind_modify.
  destruct (decide (inputs < 1 \/ outputs < 1)%Z) as [Hlt|_]; [lia|].
  destruct (new_layer_spec (Z.to_nat inputs) w)
    as (ins & w1 & E1 & Hlen1 & Hnd1 & Hfr1 & Hdom1 & N11 & N12 & _).
  destruct (new_layer_spec (Z.to_nat outputs) w1)
    as (outs & w2 & E2 & Hlen2 & Hnd2 & Hfr2 & Hdom2 & N21 & N22 & _).
  run_world E1. run_world E2.
  destruct (add_to_head_spec (DLL.empty (A:=list loc)) [] ins is_list_empty)
    as (c1 & Ec1 & Hl1 & Hcur1).
  run_chain Ec1.
  set (h := fresh (dom (DLL.store (DLL.empty (A:=list loc))))) in *.
  destruct (add_after_current_spec c1 [] h ins [] outs Hl1 Hcur1)
    as (c2 & Ec2 & Hl2 & Hcur2).
  run_chain Ec2.
  set (t := fresh (dom (DLL.store c1))) in *. simpl in Hl2.
  match goal with |- context [_link_with_next _ ?s] => set (L2 := s) end.
  destruct (link_with_next_spec random_random L2 [] h ins t outs [] Hl2 Hcur2)
    as (w3 & E3 & Ka & Kb & Kc & Kd & Ke & _).
  pose proof (link_with_next_dom random_random L2) as Hd3.
  rewrite E3 in Hd3. rewrite E3.
  unfold stores_le, store_le in Hd3. simpl in Hd3.
  assert (Hio : forall x, x ∈ ins -> x ∉ outs).
  { intros x Hx Hx'. destruct (Hfr1 _ Hx) as [_ Hin].
    destruct (Hfr2 _ Hx') as [Hnin _]. contradiction. }
  eexists _, h, t, ins, outs. split; [reflexivity|].
  split; [|split; [exact Hcur2|split; assumption]].
  refine (conj Hl2 (conj _ (conj _ (conj _ (conj _ _))))); simpl.
  - rewrite Hcur2. discriminate.
  - split; [|split; [|split]].
    + simpl. rewrite app_nil_r. apply NoDup_app. auto.
    + intros a Ha. destruct (Kd a (Hio a Ha)) as (-> & _).
      simpl. rewrite (N22 a (Hio a Ha)), (N11 a Ha). reflexivity.
    + split; [exact Ka|]. intros b Hb. destruct (Kb b Hb) as (Hn & Hr & _).
      now split.
    + intros b Hb. destruct (Kc b) as (-> & _).
      * intros Ha. now apply (Hio b).
      * simpl. now rewrite (N21 b Hb).
  - intros x Hx. destruct (Ke x) as (-> & _). simpl.
    change (x ∈ ins ++ outs ++ []) in Hx.
    rewrite app_nil_r in Hx. apply elem_of_app in Hx as [Hx|Hx].
    + now rewrite (N22 x (Hio x Hx)), (N11 x Hx).
    + now rewrite (N21 x Hx).
  - split; [|exact I]. intros a b Ha Hb. destruct (Kb b Hb) as (_ & _ & Hwa).
    destruct (Hwa a Ha) as (j & _ & ->). eauto.
  - intros x Hx. change (x ∈ ins ++ outs ++ []) in Hx.
    rewrite app_nil_r in Hx. apply Hd3. simpl.
    apply elem_of_app in Hx as [Hx|Hx].
    + apply Hdom2. now destruct (Hfr1 x Hx).
    + now destruct (Hfr2 x Hx).
Qed.

Lemma set_chain_same L : set_chain (chain L) L = L.
Proof. now destruct L. Qed.

Lemma cursor_not_tail (ch : DLL.DoublyLinkedList (list loc)) pre c A n B post :
  is_list ch (pre ++ (c, A) :: (n, B) :: post) ->
  DLL._tail ch <> Some c.
Proof.
  intros (Hnd & _ & _ & Ht & _). rewrite Ht, last_or_app, !last_or_cons.
  intros E. apply last_or_cases in E.
  rewrite fmap_app, !fmap_cons in Hnd. simpl in Hnd.
  apply NoDup_app in Hnd as (_ & _ & Hnd).
  apply NoDup_cons in Hnd as [Hc _]. apply Hc.
  destruct E as [->|E]; apply elem_of_cons; [now left|now right].
Qed.

Lemma cursor_at_tail (ch : DLL.DoublyLinkedList (list loc)) pre c A :
  is_list ch (pre ++ [(c, A)]) -> DLL._tail ch = Some c.
Proof. intros (_ & _ & _ & Ht & _). now rewrite Ht, last_or_snoc. Qed.

Lemma add_layer_cases L cells size :
  network L cells ->
  if decide (DLL._curr (chain L) = DLL._tail (chain L))
  then add_layer random_random size L = (Raise IndexError, L)
  else if decide (size < 0)%Z
  then add_layer random_random size L = (Raise ValueError, L)
  else exists L' pre c A f H post,
         cells = pre ++ (c, A) :: post /\
         DLL._curr (chain L) = Some c /\
         add_layer random_random size L = (Ok tt, L') /\
         network L' (pre ++ (c, A) :: (f, H) :: post) /\
         DLL._curr (chain L') = Some c /\
         length H = Z.to_nat size /\
         (forall h, h ∈ H -> h ∉ dom (objects (world L))).
Proof.
  intros Hn. pose proof Hn as (Hl & Hc & _).
  destruct (decide (DLL._curr (chain L) = DLL._tail (chain L))) as [Et|Et].
  { unfold add_layer. rewrite !bind_gets. now rewrite decide_True. }
  destruct (decide (size < 0)%Z) as [Hs|Hs].
  { unfold add_layer. rewrite !bind_gets. rewrite decide_False by exact Et.
    now rewrite decide_True. }
  destruct (DLL._curr (chain L)) as [c|] eqn:Ec; [|contradiction].
  destruct (cursor_cell _ _ c Hl Ec) as (pre & A & post & ->).
  destruct post as [|[n B] post].
  { exfalso. apply Et. symmetry. now apply (cursor_at_tail _ pre c A). }
  destruct (add_layer_network L pre c A n B post size Hn Ec)
    as (L' & f & H & E & Hn' & Hc' & Hlen & Hfr); [lia|].
  exists L', pre, c, A, f, H, ((n, B) :: post). auto 10.
Qed.

Lemma remove_layer_cases L cells :
  network L cells ->
  exists pre c A post,
    cells = pre ++ (c, A) :: post /\
    DLL._curr (chain L) = Some c /\
    match post with
    | [] | [_] => remove_layer random_random L = (Raise IndexError, L)
    | (r, R) :: (n, B) :: post' =>
        exists L',
          remove_layer random_random L = (Ok tt, L') /\
          network L' (pre ++ (c, A) :: (n, B) :: post') /\
          DLL._curr (chain L') = Some c
    end.
Proof.
  intros Hn. pose proof Hn as (Hl & Hc & _).
  destruct (DLL._curr (chain L)) as [c|] eqn:Ec; [|contradiction].
  destruct (cursor_cell _ _ c Hl Ec) as (pre & A & post & ->).
  exists pre, c, A, post. split; [reflexivity|]. split; [reflexivity|].
  destruct post as [|[r R] [|[n B] post]].
  - unfold remove_layer. rewrite !bind_gets, Ec.
    rewrite (cursor_at_tail _ pre c A Hl). now rewrite decide_True.
  - unfold remove_layer. rewrite !bind_gets, Ec.
    rewrite decide_False
      by (intros E; symmetry in E; now apply (cursor_not_tail _ _ _ _ _ _ _ Hl)).
    pose proof (is_list_lookup _ _ _ _ _ Hl) as Hpc.
    rewrite bind_assoc.
    rewrite (bind_ok _ _ _ _ _ (on_chain_ok _ _ _ _ (deref_ok _ _ _ Hpc))).
    rewrite bind_ret. simpl DLL.next. rewrite set_chain_same.
    replace (pre ++ [(c, A); (r, R)]) with ((pre ++ [(c, A)]) ++ [(r, R)]) in Hl
      by now rewrite <- app_assoc.
    rewrite (cursor_at_tail _ _ r R Hl). simpl.
    now rewrite bool_decide_eq_true_2.
  - now apply (remove_layer_network L pre c A r R n B post).
Qed.

Lemma on_chain_raise {R} (m : M (DLL.DoublyLinkedList (list loc)) R) L e :
  m (chain L) = (Raise e, chain L) -> on_chain m L = (Raise e, L).
Proof.
  intros H. unfold on_chain, lift. rewrite H. now rewrite set_chain_same.
Qed.

(** Every edit keeps a network a network with the same first and last
    layer, and leaves it untouched when it raises. *)
Lemma apply_edit_network L cells e :
  network L cells ->
  exists cells',
    network (apply_edit random_random e L).2 cells' /\
    head cells'.*2 = head cells.*2 /\
    last cells'.*2 = last cells.*2 /\
    ((apply_edit random_random e L).1 = Ok tt \/
     (((apply_edit random_random e L).1 = Raise IndexError \/
       (apply_edit random_random e L).1 = Raise ValueError) /\
      (apply_edit random_random e L).2 = L)).
Proof.
  intros Hn. pose proof Hn as (Hl & Hc & _).
  assert (Hsame : forall r,
            (r = Raise IndexError \/ r = Raise ValueError) ->
            exists cells',
              network (r, L).2 cells' /\
              head cells'.*2 = head cells.*2 /\
              last cells'.*2 = last cells.*2 /\
              ((r, L).1 = Ok tt \/
               (((r, L).1 = Raise IndexError \/ (r, L).1 = Raise ValueError)
                /\ (r, L).2 = L))).
  { intros r Hr. exists cells. simpl. split; [exact Hn|].
    split; [reflexivity|]. split; [reflexivity|]. right. now split. }
  assert (Hmove : forall (m : M (DLL.DoublyLinkedList (list loc)) unit) p,
            m (chain L) = (Ok tt, DLL.set_curr (Some p) (chain L)) ->
            p ∈ cells.*1 ->
            exists cells',
              network (on_chain m L).2 cells' /\
              head cells'.*2 = head cells.*2 /\
              last cells'.*2 = last cells.*2 /\
              ((on_chain m L).1 = Ok tt \/
               (((on_chain m L).1 = Raise IndexError \/
                 (on_chain m L).1 = Raise ValueError)
                /\ (on_chain m L).2 = L))).
  { intros m p Em Hp. rewrite (on_chain_ok _ _ _ _ Em). exists cells. simpl.
    split; [|split; [reflexivity|split; [reflexivity|now left]]].
    apply network_set_chain; [exact Hn| |discriminate].
    now apply is_list_set_curr. }
  destruct (DLL._curr (chain L)) as [c|] eqn:Ec; [|contradiction].
  destruct e as [size| | | | |]; unfold apply_edit.
  - pose proof (add_layer_cases L cells size Hn) as Hcase.
    destruct (decide (DLL._curr (chain L) = DLL._tail (chain L))) as [Et|Et].
    { rewrite Hcase. apply Hsame. now left. }
    destruct (decide (size < 0)%Z) as [Hs|Hs].
    { rewrite Hcase. apply Hsame. now right. }
    destruct Hcase as (L' & pre & c' & A & f & H & post & -> & Ec' & -> & Hn'
                       & _).
    exists (pre ++ (c', A) :: (f, H) :: post). simpl.
    split; [exact Hn'|]. split; [|split; [|now left]].
    + rewrite !fmap_app. now destruct pre.
    + destruct post as [|[n B] post].
      * exfalso. apply Et. rewrite Ec'. symmetry.
        now apply (cursor_at_tail _ pre c' A).
      * rewrite !fmap_app, !fmap_cons, !last_app. simpl.
        now rewrite !last_cons.
  - destruct (remove_layer_cases L cells Hn)
      as (pre & c' & A & post & -> & _ & Hcase).
    destruct post as [|[r R] [|[n B] post]].
    + rewrite Hcase. apply Hsame. now left.
    + rewrite Hcase. apply Hsame. now left.
    + destruct Hcase as (L' & -> & Hn' & _).
      exists (pre ++ (c', A) :: (n, B) :: post). simpl.
      split; [exact Hn'|]. split; [|split; [|now left]].
      * rewrite !fmap_app. now destruct pre.
      * rewrite !fmap_app, !fmap_cons, !last_app. simpl.
        now rewrite !last_cons.
  - destruct (cursor_cell _ _ c Hl Ec) as (pre & A & post & ->).
    destruct post as [|[n B] post].
    + destruct (at_tail_raises _ pre c A Hl Ec) as [_ Er].
      rewrite (on_chain_raise _ _ _ Er). apply Hsame. now left.
    + apply (Hmove _ n (move_forward_spec _ pre c A n B post Hl Ec)).
      rewrite fmap_app, !fmap_cons. apply elem_of_app. right.
      apply elem_of_cons. right. apply elem_of_cons. now left.
  - destruct (cursor_cell _ _ c Hl Ec) as (pre & A & post & ->).
    destruct pre as [|[b B] pre _] using rev_ind.
    + rewrite (on_chain_raise _ _ _ (at_head_raises _ c A post Hl Ec)).
      apply Hsame. now left.
    + rewrite <- app_assoc in Hl, Hn, Hsame, Hmove. simpl in Hl, Hn, Hsame, Hmove.
      rewrite <- app_assoc. simpl.
      apply (Hmove _ b (move_backward_spec _ pre b B c A post Hl Ec)).
      rewrite fmap_app, !fmap_cons. apply elem_of_app. right.
      apply elem_of_cons. now left.
  - destruct (DLL._head (chain L)) as [p|] eqn:Eh.
    + apply (Hmove _ p).
      * unfold DLL.reset_to_head. now rewrite bind_gets, Eh.
      * destruct Hl as (_ & _ & Hh & _). rewrite Eh in Hh. symmetry in Hh.
        now apply first_or_elem in Hh.
    + exfalso. destruct Hl as (_ & _ & Hh & _ & Hcc).
      specialize (Hcc c Ec). rewrite Eh in Hh.
      destruct cells; [inversion Hcc|discriminate].
  - destruct (DLL._tail (chain L)) as [p|] eqn:Eh.
    + apply (Hmove _ p).
      * unfold DLL.reset_to_tail. now rewrite bind_gets, Eh.
      * destruct Hl as (_ & _ & _ & Ht & _). rewrite Eh in Ht. symmetry in Ht.
        now apply last_or_elem in Ht.
    + exfalso. destruct Hl as (_ & _ & _ & Ht & Hcc).
      specialize (Hcc c Ec). rewrite Eh in Ht. symmetry in Ht.
      apply (last_or_nonempty cells); [|exact Ht].
      intros ->. inversion Hcc.
Qed.

Lemma network_io L cells ins outs :
  network L cells ->
  head cells.*2 = Some ins -> last cells.*2 = Some outs ->
  input_nodes L = (Ok ins, L) /\ output_nodes L = (Ok outs, L).
Proof.
  intros (Hl & _) Hh Ht. split.
  - destruct cells as [|[h ins'] rest]; [discriminate|].
    simpl in Hh. injection Hh as ->. now apply (input_nodes_spec L h ins rest).
  - destruct cells as [|[t outs'] pre _] using rev_ind; [discriminate|].
    rewrite fmap_app in Ht. simpl in Ht. rewrite last_snoc in Ht.
    injection Ht as ->.
    now apply (output_nodes_spec L pre t outs).
Qed.

(** X13.  [add_layer(n)] on a network (a wired [LayerList] at rest).  With
    the cursor on the last layer it raises [IndexError]; otherwise, with
    [n < 0], it raises [ValueError]; in both cases nothing has been created
    or changed.  Otherwise it returns, and the result is again a network:
    the same layers with a layer of [n] new neurodes, objects that did not
    exist before, right after the cursor layer, wired to both its
    neighbors with a weight on every new edge, all masks zero, the cursor
    where it was. *)
Theorem add_layer_outcome L cells size :
  network L cells ->
  if decide (DLL._curr (chain L) = DLL._tail (chain L))
  then add_layer random_random size L = (Raise IndexError, L)
  else if decide (size < 0)%Z
  then add_layer random_random size L = (Raise ValueError, L)
  else exists L' pre c A f H post,
         cells = pre ++ (c, A) :: post /\
         DLL._curr (chain L) = Some c /\
         add_layer random_random size L = (Ok tt, L') /\
         network L' (pre ++ (c, A) :: (f, H) :: post) /\
         DLL._curr (chain L') = Some c /\
         length H = Z.to_nat size /\
         (forall h, h ∈ H -> h ∉ dom (objects (world L))).
Proof. apply add_layer_cases. Qed.

(** X14.  [remove_layer()] on a network, the cursor being on some layer:
    when no layer or only the last layer follows the cursor it raises
    [IndexError] and changes nothing; otherwise it returns, the layer
    after the cursor is gone, and the result is again a network, the
    cursor layer being wired to the layer that followed the removed one,
    with a weight on every edge between them. *)
Theorem remove_layer_outcome L cells :
  network L cells ->
  exists pre c A post,
    cells = pre ++ (c, A) :: post /\
    DLL._curr (chain L) = Some c /\
    match post with
    | [] | [_] => remove_layer random_random L = (Raise IndexError, L)
    | (r, R) :: (n, B) :: post' =>
        exists L',
          remove_layer random_random L = (Ok tt, L') /\
          network L' (pre ++ (c, A) :: (n, B) :: post') /\
          DLL._curr (chain L') = Some c
    end.
Proof. apply remove_layer_cases. Qed.

(** X15.  Every topology that can be reached is a network.  After
    [LayerList(inputs, outputs)] with both sizes at least 1 and any
    sequence of [add_layer], [remove_layer], [move_forward],
    [move_backward], [reset_to_head] and [reset_to_tail] calls, whether
    they return or raise: the list is well formed with the cursor on a
    layer, the layers are wired pairwise with a weight on every edge and
    all masks zero, [input_nodes] and [output_nodes] are still the two
    layers the constructor made, and the next such call either returns
    or raises [IndexError] or [ValueError] without changing anything. *)
Theorem reachable_topology w inputs outputs :
  (1 <= inputs)%Z -> (1 <= outputs)%Z ->
  exists L0 ins outs,
    new_LayerList random_random w inputs outputs = (Ok tt, L0) /\
    length ins = Z.to_nat inputs /\
    length outs = Z.to_nat outputs /\
    forall es,
      exists cells,
        network (after_edits random_random L0 es) cells /\
        input_nodes (after_edits random_random L0 es)
          = (Ok ins, after_edits random_random L0 es) /\
        output_nodes (after_edits random_random L0 es)
          = (Ok outs, after_edits random_random L0 es) /\
        forall e,
          (apply_edit random_random e (after_edits random_random L0 es)).1
            = Ok tt \/
          (((apply_edit random_random e (after_edits random_random L0 es)).1
              = Raise IndexError \/
            (apply_edit random_random e (after_edits random_random L0 es)).1
              = Raise ValueError) /\
           (apply_edit random_random e (after_edits random_random L0 es)).2
             = after_edits random_random L0 es).
Proof.
  intros Hi Ho.
  destruct (construction_network w inputs outputs Hi Ho)
    as (L0 & h & t & ins & outs & E & Hn & _ & Hli & Hlo).
  exists L0, ins, outs. refine (conj E (conj Hli (conj Hlo _))). intros es.
  assert (H0 : exists cells,
            network (after_edits random_random L0 es) cells /\
            head cells.*2 = Some ins /\ last cells.*2 = Some outs).
  { unfold after_edits. induction es as [|e es IH] using rev_ind.
    - exists [(h, ins); (t, outs)]. auto.
    - rewrite foldl_app. simpl. destruct IH as (cells & Hc & Hh & Ht).
      destruct (apply_edit_network _ cells e Hc) as (cells' & Hc' & Hh' & Ht' & _).
      exists cells'. split; [exact Hc'|]. split; congruence. }
  destruct H0 as (cells & Hc & Hh & Ht). exists cells. split; [exact Hc|].
  destruct (network_io _ cells ins outs Hc Hh Ht) as [Ei Eo].
  split; [exact Ei|]. split; [exact Eo|]. intros e.
  now destruct (apply_edit_network _ cells e Hc) as (_ & _ & _ & _ & Hr).
Qed.

End TopologyFacts.

(** *** The topology facts on concrete networks *)

Lemma wired_net_2_1 : wired (world net_2_1) [[0; 1]; [2]].
Proof.
  split; [apply (bool_decide_unpack _); vm_compute; exact I|].
  split; [intros a Ha; each_elem Ha; vm_compute; reflexivity|].
  split; [split|]; intros a Ha; each_elem Ha;
    vm_compute; try split; reflexivity.
Qed.

Lemma quiescent_net_2_1 : quiescent (world net_2_1) [[0; 1]; [2]].
Proof. intros n Hn. simpl in Hn. each_elem Hn; vm_compute; reflexivity. Qed.

Lemma weighted_net_2_1 : weighted (world net_2_1) [[0; 1]; [2]].
Proof.
  split; [|exact I]. intros a b Ha Hb.
  each_elem Ha; each_elem Hb; vm_compute; eauto.
Qed.

Lemma network_net_2_1 : network net_2_1 [(0, [0; 1]); (1, [2])].
Proof.
  split; [exact is_list_net_2_1|]. split; [vm_compute; discriminate|].
  split; [exact wired_net_2_1|]. split; [exact quiescent_net_2_1|].
  split; [exact weighted_net_2_1|].
  intros n Hn. simpl in Hn. apply elem_of_dom.
  each_elem Hn; vm_compute; eauto.
Qed.

Lemma is_list_net_2_2_1 :
  is_list (chain net_2_2_1) [(0, [0; 1]); (2, [3; 4]); (1, [2])].
Proof.
  refine (conj _ (conj _ (conj _ (conj _ _)))).
  - apply (bool_decide_unpack _). vm_compute. exact I.
  - simpl. repeat split; vm_compute; reflexivity.
  - reflexivity.
  - reflexivity.
  - vm_compute. intros c [= <-]. apply elem_of_cons. now left.
Qed.

Lemma network_net_2_2_1 :
  network net_2_2_1 [(0, [0; 1]); (2, [3; 4]); (1, [2])].
Proof.
  split; [exact is_list_net_2_2_1|]. split; [vm_compute; discriminate|].
  split; [exact wired_net_2_2_1|]. split; [exact quiescent_net_2_2_1|].
  split; [exact weighted_net_2_2_1|].
  intros n Hn. simpl in Hn. apply elem_of_dom.
  each_elem Hn; vm_compute; eauto.
Qed.

Lemma add_layer_outcome_witness :
  if decide (DLL._curr (chain net_2_1) = DLL._tail (chain net_2_1))
  then add_layer rnd_half 2 net_2_1 = (Raise IndexError, net_2_1)
  else if decide (2 < 0)%Z
  then add_layer rnd_half 2 net_2_1 = (Raise ValueError, net_2_1)
  else exists L' pre c A f H post,
         [(0, [0; 1]); (1, [2])] = pre ++ (c, A) :: post /\
         DLL._curr (chain net_2_1) = Some c /\
         add_layer rnd_half 2 net_2_1 = (Ok tt, L') /\
         network L' (pre ++ (c, A) :: (f, H) :: post) /\
         DLL._curr (chain L') = Some c /\
         length H = Z.to_nat 2 /\
         (forall h, h ∈ H -> h ∉ dom (objects (world net_2_1))).
Proof.
  exact (add_layer_outcome rnd_half net_2_1 [(0, [0; 1]); (1, [2])] 2
           network_net_2_1).
Defined.

Lemma remove_layer_outcome_witness :
  exists pre c A post,
    [(0, [0; 1]); (2, [3; 4]); (1, [2])] = pre ++ (c, A) :: post /\
    DLL._curr (chain net_2_2_1) = Some c /\
    match post with
    | [] | [_] => remove_layer rnd_half net_2_2_1 = (Raise IndexError, net_2_2_1)
    | (r, R) :: (n, B) :: post' =>
        exists L',
          remove_layer rnd_half net_2_2_1 = (Ok tt, L') /\
          network L' (pre ++ (c, A) :: (n, B) :: post') /\
          DLL._curr (chain L') = Some c
    end.
Proof.
  exact (remove_layer_outcome rnd_half net_2_2_1
           [(0, [0; 1]); (2, [3; 4]); (1, [2])] network_net_2_2_1).
Defined.

Lemma reachable_topology_witness :
  exists L0 ins outs,
    new_LayerList rnd_half initial_World 2 1 = (Ok tt, L0) /\
    length ins = 2 /\ length outs = 1 /\
    forall es,
      exists cells,
        network (after_edits rnd_half L0 es) cells /\
        input_nodes (after_edits rnd_half L0 es)
          = (Ok ins, after_edits rnd_half L0 es) /\
        output_nodes (after_edits rnd_half L0 es)
          = (Ok outs, after_edits rnd_half L0 es).
Proof.
  destruct (reachable_topology rnd_half initial_World 2 1)
    as (L0 & ins & outs & E & Hi & Ho & H); [lia|lia|].
  exists L0, ins, outs. refine (conj E (conj Hi (conj Ho _))). intros es.
  destruct (H es) as (cells & Hn & Ei & Eo & _).
  exists cells. exact (conj Hn (conj Ei Eo)).
Defined.

(** ** More on the backward pass *)

Lemma neurode_ext (a b : Neurode) :
  _reporting_nodes a = _reporting_nodes b ->
  _reference_value a = _reference_value b ->
  _neighbors a = _neighbors b ->
  _value a = _value b ->
  _weights a = _weights b ->
  _delta a = _delta b ->
  a = b.
Proof. destruct a, b; simpl; congruence. Qed.

Lemma by_side_ext {A} (x y : by_side A) :
  item x UPSTREAM = item y UPSTREAM ->
  item x DOWNSTREAM = item y DOWNSTREAM -> x = y.
Proof. destruct x, y; simpl; congruence. Qed.

Lemma bp_node_in before H n : n ∈ H -> bp_node before H n = true.
Proof.
  intros Hn. destruct H as [|h H]; [inversion Hn|].
  destruct before as [|G before].
  - rewrite bp_node_nil. now apply bool_decide_eq_true_2.
  - rewrite bp_node_cons by discriminate.
    now rewrite bool_decide_eq_true_2.
Qed.

(** The deltas of a backward pass are determined by those of the output
    layer. *)
Lemma hidden_deltas_agree w w1 w2 before :
  forall K,
    NoDup (concat (K :: before)) ->
    wired_back w K before ->
    (forall k, k ∈ K -> _delta (node w1 k) = _delta (node w2 k)) ->
    (forall n, n ∉ K -> bp_node before K n = true ->
       _delta (node w1 n) = hidden_delta w1 w n) ->
    (forall n, n ∉ K -> bp_node before K n = true ->
       _delta (node w2 n) = hidden_delta w2 w n) ->
    forall n, bp_node before K n = true ->
      _delta (node w1 n) = _delta (node w2 n).
Proof.
  induction before as [|G before IH]; intros K Hnd Hwb HK D1 D2 n Hn.
  - rewrite bp_node_nil in Hn. apply bool_decide_eq_true in Hn. now apply HK.
  - destruct (decide (K = [])) as [->|HKne]; [discriminate|].
    rewrite bp_node_cons in Hn by exact HKne.
    destruct (decide (n ∈ K)) as [HnK|HnK]; [now apply HK|].
    rewrite bool_decide_eq_false_2 in Hn by exact HnK. simpl in Hn.
    destruct Hwb as [Hp Hwb].
    assert (Hdisj : forall x, x ∈ concat (G :: before) -> x ∉ K).
    { simpl in Hnd. apply NoDup_app in Hnd as (_ & Hd & _).
      intros x Hx HxK. now apply (Hd x HxK). }
    assert (Hnd' : NoDup (concat (G :: before))).
    { simpl in Hnd. now apply NoDup_app in Hnd as (_ & _ & Hnd). }
    assert (Hup : forall x, bp_node before G x = true ->
                    bp_node (G :: before) K x = true).
    { intros x Hx. rewrite bp_node_cons by exact HKne. rewrite Hx.
      apply orb_true_r. }
    apply (IH G Hnd' Hwb); [| | |exact Hn].
    + intros g Hg.
      assert (HgK : g ∉ K).
      { apply Hdisj. simpl. apply elem_of_app. now left. }
      pose proof (Hup g (bp_node_in before G g Hg)) as Hbg.
      rewrite (D1 g HgK Hbg), (D2 g HgK Hbg).
      apply hidden_delta_ext; [reflexivity|reflexivity|].
      intros k Hk. split; [|reflexivity].
      destruct Hp as [Hp _]. destruct (Hp g Hg) as [Hnb _].
      rewrite Hnb in Hk. now apply HK.
    + intros x Hx Hbx. apply D1; [|now apply Hup].
      apply Hdisj. now apply bp_node_elem.
    + intros x Hx Hbx. apply D2; [|now apply Hup].
      apply Hdisj. now apply bp_node_elem.
Qed.

Lemma same_globals_sym w w' : same_globals w w' -> same_globals w' w.
Proof. intros [H1 H2]. split; congruence. Qed.

Lemma length_before (L0 : list loc) rest l' (K : list loc) :
  L0 :: rest = l' ++ [K] -> length (rev l') = length rest.
Proof.
  intros E. apply (f_equal length) in E. rewrite length_app in E.
  simpl in E. rewrite length_rev. lia.
Qed.

(** X16.  [set_expected] may be called on the output nodes in any order.
    In a wired network at rest in which every edge has a weight, two
    backward presentations that call [set_expected] on every output node
    once, with the same target for each node, in two different orders,
    both return and leave every neurode in the same state (deltas and
    weights in particular), and every weight has received the same
    adjustments; the shared attributes are equal as well. *)
Theorem set_expected_order_independent w L0 rest l' K calls1 calls2 depth :
  wired w (L0 :: rest) ->
  quiescent w (L0 :: rest) ->
  weighted w (L0 :: rest) ->
  L0 :: rest = l' ++ [K] ->
  NoDup calls1.*1 ->
  (forall i, i ∈ calls1.*1 <-> i ∈ K) ->
  calls2 ≡ₚ calls1 ->
  length rest <= depth ->
  exists w1 w2,
    present_expected depth calls1 w = (Ok tt, w1) /\
    present_expected depth calls2 w = (Ok tt, w2) /\
    (forall n, node w1 n = node w2 n) /\
    same_globals w1 w2 /\
    (forall j i,
       events_of j i (history w1) = events_of j i (history w2)).
Proof.
  intros Hw Hq Hwt E Hnd Hcov Hperm Hdepth.
  destruct (wired_back_rev w L0 rest l' K Hw E) as [Hndb Hwb].
  pose proof (weighted_back_rev w L0 rest l' K Hwt E) as Hwtb.
  assert (Hlen : length (rev l') <= depth)
    by now rewrite (length_before L0 rest l' K E).
  assert (Hqb : forall n, n ∈ concat (rev l') ->
                  item (_reporting_nodes (node w n)) DOWNSTREAM = 0%Z).
  { intros n Hn. rewrite (Hq n); [reflexivity|].
    rewrite concat_rev_perm in Hn. rewrite E, concat_app.
    apply elem_of_app. now left. }
  assert (Hnd2 : NoDup calls2.*1) by now rewrite Hperm.
  assert (Hcov2 : forall i, i ∈ calls2.*1 <-> i ∈ K).
  { intros i. rewrite Hperm. apply Hcov. }
  destruct (backward_pass w K (rev l') calls1 depth
              Hndb Hwb Hwtb Hqb Hnd Hcov Hlen)
    as (w1 & E1 & F1 & R1 & Dc1 & D1 & W1 & evs1 & Hh1 & Ev1).
  destruct (backward_pass w K (rev l') calls2 depth
              Hndb Hwb Hwtb Hqb Hnd2 Hcov2 Hlen)
    as (w2 & E2 & F2 & R2 & Dc2 & D2 & W2 & evs2 & Hh2 & Ev2).
  exists w1, w2. split; [exact E1|]. split; [exact E2|].
  assert (HK : forall k, k ∈ K -> _delta (node w1 k) = _delta (node w2 k)).
  { intros k Hk. apply Hcov in Hk.
    apply list_elem_of_fmap in Hk as (c & -> & Hc).
    rewrite (Dc1 c Hc). symmetry. apply Dc2. now rewrite Hperm. }
  assert (Hd : forall n, _delta (node w1 n) = _delta (node w2 n)).
  { intros n. destruct (decide (n ∈ K)) as [HnK|HnK]; [now apply HK|].
    destruct (bp_node (rev l') K n) eqn:Hb.
    - apply (hidden_deltas_agree w w1 w2 (rev l') K Hndb Hwb HK);
        [| |exact Hb].
      + intros x Hx Hbx. rewrite (D1 x Hx). now rewrite Hbx.
      + intros x Hx Hbx. rewrite (D2 x Hx). now rewrite Hbx.
    - rewrite (D1 n HnK), (D2 n HnK), Hb. reflexivity. }
  pose proof F1 as [F1n G1]. pose proof F2 as [F2n G2].
  assert (Hadj : forall j i, adjustment w1 j i = adjustment w2 j i).
  { intros j i. unfold adjustment, delta, value. rewrite (Hd j).
    destruct (F1n i) as (_ & _ & -> & _).
    now destruct (F2n i) as (_ & _ & -> & _). }
  split; [|split].
  - intros n. destruct (F1n n) as (A1 & B1 & C1 & U1).
    destruct (F2n n) as (A2 & B2 & C2 & U2).
    apply neurode_ext; [|congruence|congruence|congruence| |apply Hd].
    + apply by_side_ext; [congruence|]. now rewrite R1, R2.
    + apply map_eq. intros i. rewrite W1, W2, Hadj. reflexivity.
  - eapply same_globals_trans; [|exact G2]. now apply same_globals_sym.
  - intros j i. rewrite Hh1, Hh2, !events_of_app. f_equal.
    rewrite Ev1, Ev2, Hadj. reflexivity.
Qed.

Lemma wired_back_last w K l' :
  wired_back w K (rev l') ->
  (forall k, k ∈ K ->
     item (_neighbors (node w k)) UPSTREAM = default [] (last l')) /\
  (forall h, h ∈ default [] (last l') ->
     item (_neighbors (node w h)) DOWNSTREAM = K /\
     item (_reference_value (node w h)) DOWNSTREAM
       = (2 ^ Z.of_nat (length K) - 1)%Z).
Proof.
  destruct l' as [|H l' _] using rev_ind.
  - simpl. intros Hb. split; [exact Hb|]. intros h Hh. inversion Hh.
  - rewrite rev_app_distr, last_snoc. simpl. intros [[Hd Hu] _].
    split; [|exact Hd]. intros k Hk. now destruct (Hu k Hk).
Qed.

(** X17.  A neurode does not propagate back before all its downstream
    neighbors have reported.  When [set_expected] has been called on some
    output nodes of a wired network at rest and a call for another output
    node is still to come, each call has returned, each output node called
    has its delta [(target - value) * value * (1 - value)] and is otherwise
    unchanged, every node of the layer before the outputs has recorded in
    its DOWNSTREAM mask the positions of the output nodes that reported
    and is otherwise unchanged, and nothing else has changed: no hidden
    delta has been computed and no weight adjusted. *)
Theorem partial_expected_wait w L0 rest l' K calls1 calls2 depth :
  wired w (L0 :: rest) ->
  quiescent w (L0 :: rest) ->
  L0 :: rest = l' ++ [K] ->
  NoDup (calls1 ++ calls2).*1 ->
  (forall i, i ∈ (calls1 ++ calls2).*1 -> i ∈ K) ->
  calls2 <> [] ->
  0 < depth ->
  exists w1 ps,
    present_expected depth calls1 w = (Ok tt, w1) /\
    (forall q, q ∈ ps <-> exists i, i ∈ calls1.*1 /\ index K i = Some q) /\
    (forall c, c ∈ calls1 ->
       node w1 c.1
       = with_delta ((c.2 - value w c.1) * (value w c.1 * (1 - value w c.1)))
           (node w c.1)) /\
    (forall h, h ∈ default [] (last l') ->
       node w1 h = with_reporting DOWNSTREAM (bits ps) (node w h)) /\
    (forall n, n ∉ calls1.*1 -> n ∉ default [] (last l') ->
       node w1 n = node w n) /\
    same_globals w w1 /\
    history w1 = history w.
Proof.
  intros Hw Hq E Hnd Hin Hc2 Hd.
  destruct (wired_back_rev w L0 rest l' K Hw E) as [Hndb Hwb].
  destruct (wired_back_last w K l' Hwb) as [Hup Hdown].
  set (H := default [] (last l')) in *.
  assert (HH : forall h, h ∈ H -> h ∈ concat l').
  { subst H. destruct l' as [|H l' _] using rev_ind;
      [intros h Hh; inversion Hh|].
    rewrite last_snoc. simpl. intros h Hh. rewrite concat_app.
    apply elem_of_app. right. simpl. now rewrite app_nil_r. }
  assert (HndK : NoDup (K ++ concat l')).
  { simpl in Hndb. now rewrite concat_rev_perm in Hndb. }
  assert (HndKH : NoDup (K ++ H)).
  { apply NoDup_app in HndK as (HK & Hdisj & Hl).
    apply NoDup_app. split; [exact HK|]. split.
    - intros x Hx HxH. apply (Hdisj x Hx). now apply HH.
    - subst H. destruct l' as [|H l' _] using rev_ind; [constructor|].
      rewrite last_snoc. simpl. rewrite concat_app in Hl. simpl in Hl.
      rewrite app_nil_r in Hl. now apply NoDup_app in Hl as (_ & _ & Hl). }
  destruct (expected_prefix depth K H calls1 calls2 w HndKH Hnd Hin)
    as (w1 & ps & E1 & Hps & F1 & R1 & D1 & Dc1 & W1 & Hh1).
  - right. split; assumption.
  - exact Hup.
  - intros h Hh. destruct (Hdown h Hh) as [Hn Hr].
    refine (conj Hn (conj Hr _)). rewrite (Hq h); [reflexivity|].
    rewrite E, concat_app. apply elem_of_app. left. now apply HH.
  - exists w1, ps. split; [exact E1|]. split; [exact Hps|].
    pose proof F1 as [F1n G1].
    assert (Hnode : forall n r d,
              item (_reporting_nodes (node w1 n)) DOWNSTREAM = r ->
              _delta (node w1 n) = d ->
              node w1 n = with_delta d (with_reporting DOWNSTREAM r (node w n))).
    { intros n r d Hr Hdl. destruct (F1n n) as (A1 & B1 & C1 & U1).
      apply neurode_ext; simpl; try assumption; [|apply W1].
      apply by_side_ext; [|].
      - rewrite U1. now destruct (_reporting_nodes (node w n)).
      - rewrite Hr. now destruct (_reporting_nodes (node w n)). }
    assert (Hsame : forall n : Neurode,
              with_reporting DOWNSTREAM
                (item (_reporting_nodes n) DOWNSTREAM) n = n).
    { intros [[] ? ? ? ? ?]. reflexivity. }
    assert (Hsamed : forall n : Neurode, with_delta (_delta n) n = n).
    { intros []. reflexivity. }
    split; [|split; [|split; [|split; [exact G1|exact Hh1]]]].
    + intros c Hc.
      assert (HcK : c.1 ∈ K).
      { apply Hin. rewrite fmap_app. apply elem_of_app. left.
        apply list_elem_of_fmap. eauto. }
      assert (HcH : c.1 ∉ H).
      { intros Hx. apply NoDup_app in HndKH as (_ & Hdisj & _).
        now apply (Hdisj c.1 HcK). }
      rewrite (Hnode c.1 (item (_reporting_nodes (node w c.1)) DOWNSTREAM)
                 (output_delta w c.1 c.2)).
      * now rewrite Hsame.
      * rewrite R1. now rewrite decide_False by exact HcH.
      * now apply Dc1.
    + intros h Hh.
      assert (Hhc : h ∉ calls1.*1).
      { intros Hx. apply NoDup_app in HndKH as (_ & Hdisj & _).
        apply (Hdisj h); [|exact Hh]. apply Hin. rewrite fmap_app.
        apply elem_of_app. now left. }
      rewrite (Hnode h (bits ps) (_delta (node w h))).
      * change (_delta (node w h))
          with (_delta (with_reporting DOWNSTREAM (bits ps) (node w h))).
        apply Hsamed.
      * rewrite R1. now rewrite decide_True by exact Hh.
      * now apply D1.
    + intros n Hnc HnH.
      rewrite (Hnode n (item (_reporting_nodes (node w n)) DOWNSTREAM)
                 (_delta (node w n))).
      * now rewrite Hsame, Hsamed.
      * rewrite R1. now rewrite decide_False by exact HnH.
      * now apply D1.
Qed.

Lemma weighted_from_some w w' rest :
  forall X,
    (forall n a, is_Some (_weights (node w n) !! a) ->
                 is_Some (_weights (node w' n) !! a)) ->
    weighted_from w X rest -> weighted_from w' X rest.
Proof.
  induction rest as [|Y rest IH]; intros X Hs Hw; [exact I|].
  destruct Hw as [Hp Hw]. split; [|now apply IH].
  intros a b Ha Hb. apply Hs. now apply Hp.
Qed.

Section Epochs.

Variable np_exp : float -> float.
Variable py_sum : list float -> float.

(** X18.  Presentations can follow one another without end.  In a wired
    network at rest in which every edge has a weight and no layer is
    empty, any number of presentations ([set_input] on every input node,
    then [set_expected] on every output node, each in any order) all
    return.  Afterwards the network is again wired, at rest and weighted:
    neighbors, reference values and the shared attributes are as before,
    no weight has been added or deleted, and the weight of each edge
    between adjacent layers has been adjusted exactly once per
    presentation. *)
Theorem presentations_in_sequence w L0 rest l' K samples depth :
  wired w (L0 :: rest) ->
  quiescent w (L0 :: rest) ->
  weighted w (L0 :: rest) ->
  Forall (fun L => L <> []) (L0 :: rest) ->
  L0 :: rest = l' ++ [K] ->
  (forall s, s ∈ samples ->
     NoDup s.1.*1 /\ (forall i, i ∈ s.1.*1 <-> i ∈ L0) /\
     NoDup s.2.*1 /\ (forall i, i ∈ s.2.*1 <-> i ∈ K)) ->
  length rest <= depth ->
  exists w',
    presentations np_exp py_sum depth samples w = (Ok tt, w') /\
    wired w' (L0 :: rest) /\
    quiescent w' (L0 :: rest) /\
    weighted w' (L0 :: rest) /\
    (forall n,
       _neighbors (node w' n) = _neighbors (node w n) /\
       _reference_value (node w' n) = _reference_value (node w n) /\
       dom (_weights (node w' n)) = dom (_weights (node w n))) /\
    same_globals w w' /\
    exists evs,
      history w' = history w ++ evs /\
      forall pre A B post i j,
        L0 :: rest = pre ++ A :: B :: post -> i ∈ A -> j ∈ B ->
        length (events_of j i evs) = length samples.
Proof.
  intros Hw Hq Hwt Hne E Hs Hdepth. unfold presentations.
  revert w Hw Hq Hwt.
  induction samples as [|s samples IH]; intros w Hw Hq Hwt.
  - exists w. split; [reflexivity|].
    refine (conj Hw (conj Hq (conj Hwt (conj _ (conj _ _))))).
    + intros n. auto.
    + apply same_globals_refl.
    + exists []. split; [now rewrite app_nil_r|]. reflexivity.
  - destruct (Hs s) as (Hndi & Hcovi & Hndo & Hcovo);
      [apply elem_of_cons; now left|].
    destruct (presentation np_exp py_sum w L0 rest l' K s.1 s.2 depth
                Hw Hq Hwt E Hndi Hcovi Hndo Hcovo Hdepth)
      as (w1 & w2 & E1 & E2 & F1 & F2 & Hq2 & _ & _ & _ & _ & W & evs
          & Hh & Ev).
    pose proof F2 as [F2n G2]. pose proof F1 as (_ & G1 & _).
    assert (Hnb : forall n,
              _neighbors (node w2 n) = _neighbors (node w n) /\
              _reference_value (node w2 n) = _reference_value (node w n)).
    { intros n. destruct (F2n n) as (A2 & B2 & _).
      rewrite A2, B2. split.
      - now apply forward_frame_neighbors.
      - now apply forward_frame_reference. }
    assert (Hsome : forall n a,
              is_Some (_weights (node w2 n) !! a) <->
              is_Some (_weights (node w n) !! a)).
    { intros n a. rewrite (W n a).
      destruct (bp_edge (rev l') [] K n a); [|reflexivity].
      now rewrite fmap_is_Some. }
    assert (Hw2 : wired w2 (L0 :: rest)).
    { destruct Hw as (Hnd & Hup & Hf). split; [exact Hnd|]. split.
      - intros a Ha. destruct (Hnb a) as [-> _]. now apply Hup.
      - eapply wired_from_frame; [| |exact Hf]; intros n; apply Hnb. }
    assert (Hwt2 : weighted w2 (L0 :: rest)).
    { apply (weighted_from_some w w2); [|exact Hwt].
      intros n a. apply Hsome. }
    destruct (IH (fun s' Hs' => Hs s' (proj2 (elem_of_cons _ _ _)
                                          (or_intror Hs')))
                 w2 Hw2 Hq2 Hwt2)
      as (w' & E' & Hw' & Hq' & Hwt' & Hn' & G' & evs' & Hh' & Ev').
    exists w'. split.
    { simpl. unfold present at 1.
      rewrite (bind_ok _ _ _ _ _
                 (eq_trans (bind_ok _ _ _ _ _ E1) E2)).
      exact E'. }
    refine (conj Hw' (conj Hq' (conj Hwt' (conj _ (conj _ _))))).
    + intros n. destruct (Hn' n) as (A' & B' & C').
      destruct (Hnb n) as [A2 B2].
      split; [congruence|]. split; [congruence|].
      rewrite C'. apply set_eq. intros a. rewrite !elem_of_dom.
      apply Hsome.
    + eapply same_globals_trans; [|exact G'].
      eapply same_globals_trans; [exact G1|exact G2].
    + exists (evs ++ evs'). split; [rewrite Hh', Hh; now rewrite app_assoc|].
      intros pre A B post i j Epre Hi Hj.
      rewrite events_of_app, length_app.
      rewrite (Ev' pre A B post i j Epre Hi Hj).
      rewrite Ev.
      assert (Hb : bp_edge (rev l') [] K j i = true).
      { assert (Hrev : K :: rev l'
                       = rev post ++ B :: A :: rev pre).
        { apply (f_equal (@rev _)) in Epre. rewrite E in Epre.
          rewrite rev_app_distr in Epre. simpl in Epre. rewrite Epre.
          rewrite rev_app_distr. simpl. rewrite <- !app_assoc. reflexivity. }
        apply (bp_edge_adjacent (rev post) (rev l') [] K B A (rev pre) j i);
          [|exact Hrev|exact Hj|exact Hi].
        rewrite E in Hne. apply Forall_app in Hne as [Hl HK].
        apply Forall_cons. split; [now apply Forall_cons in HK as [? _]|].
        now apply Forall_rev. }
      rewrite Hb. reflexivity.
Qed.

End Epochs.

(** *** The backward facts on concrete networks *)

Lemma wired_net_1_2 : wired (world net_1_2) [[0]; [1; 2]].
Proof.
  split; [apply (bool_decide_unpack _); vm_compute; exact I|].
  split; [intros a Ha; each_elem Ha; vm_compute; reflexivity|].
  split; [split|]; intros a Ha; each_elem Ha;
    vm_compute; try split; reflexivity.
Qed.

Lemma quiescent_net_1_2 : quiescent (world net_1_2) [[0]; [1; 2]].
Proof. intros n Hn. simpl in Hn. each_elem Hn; vm_compute; reflexivity. Qed.

Lemma weighted_net_1_2 : weighted (world net_1_2) [[0]; [1; 2]].
Proof.
  split; [|exact I]. intros a b Ha Hb.
  each_elem Ha; each_elem Hb; vm_compute; eauto.
Qed.

Lemma set_expected_order_independent_witness :
  exists w1 w2,
    present_expected 1 [(1, 1%float); (2, 0%float)] (world net_1_2)
      = (Ok tt, w1) /\
    present_expected 1 [(2, 0%float); (1, 1%float)] (world net_1_2)
      = (Ok tt, w2) /\
    forall n, node w1 n = node w2 n.
Proof.
  destruct (set_expected_order_independent (world net_1_2) [0] [[1; 2]]
              [[0]] [1; 2] [(1, 1%float); (2, 0%float)]
              [(2, 0%float); (1, 1%float)] 1
              wired_net_1_2 quiescent_net_1_2 weighted_net_1_2 eq_refl)
    as (w1 & w2 & E1 & E2 & Hn & _).
  - apply (bool_decide_unpack _). vm_compute. exact I.
  - intros i. reflexivity.
  - apply perm_swap.
  - simpl. lia.
  - exists w1, w2. exact (conj E1 (conj E2 Hn)).
Defined.

Lemma partial_expected_wait_witness :
  exists w1,
    present_expected 1 [(1, 1%float)] (world net_1_2) = (Ok tt, w1) /\
    (forall n, n ∉ [1] -> n ∉ [0] -> node w1 n = node (world net_1_2) n) /\
    history w1 = history (world net_1_2).
Proof.
  destruct (partial_expected_wait (world net_1_2) [0] [[1; 2]] [[0]] [1; 2]
              [(1, 1%float)] [(2, 0%float)] 1
              wired_net_1_2 quiescent_net_1_2 eq_refl)
    as (w1 & ps & E & _ & _ & _ & Hout & _ & Hh).
  - apply (bool_decide_unpack _). vm_compute. exact I.
  - intros i Hi. exact Hi.
  - discriminate.
  - lia.
  - exists w1. exact (conj E (conj Hout Hh)).
Defined.

Lemma presentations_in_sequence_witness :
  exists w',
    presentations exp_quad sum_left 2
      [([(0, 1%float); (1, 2%float)], [(2, 1%float)]);
       ([(1, 0.5%float); (0, 0.25%float)], [(2, 0%float)])]
      (world net_2_2_1) = (Ok tt, w') /\
    wired w' [[0; 1]; [3; 4]; [2]] /\
    quiescent w' [[0; 1]; [3; 4]; [2]] /\
    weighted w' [[0; 1]; [3; 4]; [2]].
Proof.
  destruct (presentations_in_sequence exp_quad sum_left (world net_2_2_1)
              [0; 1] [[3; 4]; [2]] [[0; 1]; [3; 4]] [2]
              [([(0, 1%float); (1, 2%float)], [(2, 1%float)]);
               ([(1, 0.5%float); (0, 0.25%float)], [(2, 0%float)])] 2
              wired_net_2_2_1 quiescent_net_2_2_1 weighted_net_2_2_1)
    as (w' & E & Hw & Hq & Hwt & _).
  - repeat constructor; discriminate.
  - reflexivity.
  - intros s Hs. each_elem Hs; simpl.
    + split; [apply (bool_decide_unpack _); vm_compute; exact I|].
      split; [intros i; reflexivity|].
      split; [apply (bool_decide_unpack _); vm_compute; exact I|].
      intros i; reflexivity.
    + split; [apply (bool_decide_unpack _); vm_compute; exact I|].
      split; [intros i; rewrite !elem_of_cons; tauto|].
      split; [apply (bool_decide_unpack _); vm_compute; exact I|].
      intros i; reflexivity.
  - simpl. lia.
  - exists w'. exact (conj E (conj Hw (conj Hq Hwt))).
Defined.
